(** * simone: the finite-automaton engine of [tools/nfa.py]

    A shallow embedding of the class [NFA] of [src/tools/nfa.py] and the
    properties its specification states about it.

    Data model.  A state and a symbol are Python [str] values, modelled as
    [string]; iterating a [str] yields its characters as one-character strings
    ([chars]).  The characters of a [string] are bytes, so the embedding reads
    a Python string through its byte sequence, which is the same thing for
    ASCII text.  A Python [set] of strings is a [gset string]; the transition
    dictionary is a [gmap (string * string) (gset string)].

    Iteration order.  Python fixes no order for iterating a [set], and a
    [dict] is iterated in insertion order, which the contents of the
    dictionary do not determine.  Every loop of the source over a set or a
    dictionary is therefore a fold over the list an [IterOrder] yields: an
    arbitrary enumeration of the members.  Statements quantify over the
    order; [canonical] is one order with which the definitions compute.

    Effects.  The methods mutate [self]; here they are functions from the
    automaton before the call to an [outcome]: the automaton after a normal
    return, or the exception raised together with the automaton as the call
    left it.  Loops and recursions without a syntactic bound take fuel.

    Sharing.  [dict.copy] is shallow, and [remove_state] empties target sets
    in place.  Within one automaton this is not observable (every target set
    of the table is updated alike; [shared_remove_state_view]), so the main
    development works on values.  [is_empty] works on a copy that shares its
    target sets with the receiver; [Module Shared] models that operation
    over an explicit store of set objects. *)

From stdpp Require Import gmap strings list fin_maps sorting pretty.
From Stdlib Require Import String Ascii NArith.

Open Scope string_scope.
Open Scope nat_scope.

(* stdpp's solvers clear hypotheses by name; silence the notice. *)
Set Warnings "-clear-no-such-hyp".

(** ** Iteration order of sets and dictionaries *)

Record IterOrder := {
  set_order : ∀ `{Countable K}, gset K → list K;
  set_order_perm : ∀ `{Countable K} (X : gset K), set_order X ≡ₚ elements X;
  dict_order : ∀ `{Countable K} {V}, gmap K V → list (K * V);
  dict_order_perm :
    ∀ `{Countable K} {V} (m : gmap K V), dict_order m ≡ₚ map_to_list m
}.

Definition canonical : IterOrder := {|
  set_order _ _ _ X := elements X;
  set_order_perm _ _ _ X := reflexivity (elements X);
  dict_order _ _ _ _ m := map_to_list m;
  dict_order_perm _ _ _ _ m := reflexivity (map_to_list m)
|}.

(** ** Python built-ins used by the source *)

(** [for symbol in string]: the characters, each a one-character string. *)
Definition chars (s : string) : list string :=
  (λ c, String c EmptyString) <$> list_ascii_of_string s.

(** The order [sorted] uses on [str]. *)
Definition str_le (a b : string) : Prop := String.leb a b = true.

#[global] Instance str_le_dec a b : Decision (str_le a b).
Proof. unfold str_le. apply _. Defined.

(** [sorted(xs)] for a list of strings. *)
Definition sorted (xs : list string) : list string := merge_sort str_le xs.

(** [sep.join(xs)]. *)
Definition join (sep : string) (xs : list string) : string :=
  String.concat sep xs.

(** ** Exceptions and outcomes *)

Inductive exn :=
| KeyError (msg : string)
| RuntimeError (msg : string)
| IndexError
| ValueError.

#[global] Instance exn_eq_dec : EqDecision exn.
Proof. solve_decision. Defined.

(** The result of a call that mutates an object of type [S]. *)
Inductive outcome (S : Type) : Type :=
| Returns (s : S)
| Raises (e : exn) (s : S)
| OutOfFuel.
Arguments Returns {S} s.
Arguments Raises {S} e s.
Arguments OutOfFuel {S}.

Definition and_then {S} (r : outcome S) (k : S → outcome S) : outcome S :=
  match r with
  | Returns s => k s
  | Raises e s => Raises e s
  | OutOfFuel => OutOfFuel
  end.

Notation "r >>> k" := (and_then r k) (at level 61, left associativity).

(** [for x in xs: body], where the body may raise. *)
Fixpoint for_each {X S} (body : X → S → outcome S) (xs : list X) (s : S)
  : outcome S :=
  match xs with
  | [] => Returns s
  | x :: xs' => body x s >>> for_each body xs'
  end.

(** The value of an expression that may raise. *)
Inductive result (X : Type) : Type :=
| Value (x : X)
| Error (e : exn).
Arguments Value {X} x.
Arguments Error {X} e.

(** ** The automaton *)

Record NFA := mkNFA {
  _states : gset string;
  _alphabet : gset string;
  _transitions : gmap (string * string) (gset string);
  _initial_state : string;
  _final_states : gset string
}.

(** [NFA.__init__]: an argument that is empty (or [None]) is replaced by a
    fresh empty collection, which is the same value. *)
Definition NFA_init (states alphabet : gset string)
    (transitions : gmap (string * string) (gset string))
    (initial_state : string) (final_states : gset string) : NFA :=
  mkNFA states alphabet transitions initial_state final_states.

Definition with_states (X : gset string) (A : NFA) : NFA :=
  mkNFA X (_alphabet A) (_transitions A) (_initial_state A) (_final_states A).
Definition with_alphabet (X : gset string) (A : NFA) : NFA :=
  mkNFA (_states A) X (_transitions A) (_initial_state A) (_final_states A).
Definition with_transitions (t : gmap (string * string) (gset string))
    (A : NFA) : NFA :=
  mkNFA (_states A) (_alphabet A) t (_initial_state A) (_final_states A).
Definition with_initial_state (q : string) (A : NFA) : NFA :=
  mkNFA (_states A) (_alphabet A) (_transitions A) q (_final_states A).
Definition with_final_states (X : gset string) (A : NFA) : NFA :=
  mkNFA (_states A) (_alphabet A) (_transitions A) (_initial_state A) X.

(** ** Store *)

Section Store.
Variable o : IterOrder.

(** [add_state]: the first state added to an automaton without an initial
    state becomes the initial state. *)
Definition add_state (state : string) (A : NFA) : NFA :=
  let A1 :=
    if decide (_initial_state A = "") then with_initial_state state A
    else A in
  with_states ({[state]} ∪ _states A1) A1.

(** [if key in d: del d[key]]. *)
Definition del_if_present {V} (key : string * string)
    (d : gmap (string * string) V) : gmap (string * string) V :=
  if decide (is_Some (d !! key)) then delete key d else d.

(** The body of the second loop of [remove_state]: discard the state from
    the target set of an entry and note the key if the set became empty. *)
Definition discard_target (state : string)
    (acc : gmap (string * string) (gset string) * gset (string * string))
    (item : string * string * gset string)
  : gmap (string * string) (gset string) * gset (string * string) :=
  let '(t, empty_transitions) := acc in
  let '(actual_state, next_state) := item in
  let next_state' := next_state ∖ {[state]} in
  (<[actual_state := next_state']> t,
   if decide (next_state' = ∅) then {[actual_state]} ∪ empty_transitions
   else empty_transitions).

(** [remove_state].  The three loops of the source: delete the entries
    keyed by the state (for the symbols of the alphabet), discard the state
    from every target set while collecting the keys whose set became empty,
    delete those. *)
Definition remove_state (state : string) (A : NFA) : NFA :=
  if decide (state ≠ _initial_state A) then
    let t1 :=
      foldl (λ t symbol, del_if_present (state, symbol) t)
            (_transitions A) (set_order o (_alphabet A)) in
    let '(t2, empty_transitions) :=
      foldl (discard_target state) (t1, ∅) (dict_order o t1) in
    let t3 :=
      foldl (λ t transition, delete transition t) t2
            (set_order o empty_transitions) in
    mkNFA (_states A ∖ {[state]}) (_alphabet A) t3 (_initial_state A)
          (_final_states A ∖ {[state]})
  else A.

Definition toggle_final_state (state : string) (A : NFA) : NFA :=
  if decide (state ∈ _states A) then
    if decide (state ∈ _final_states A)
    then with_final_states (_final_states A ∖ {[state]}) A
    else with_final_states ({[state]} ∪ _final_states A) A
  else A.

Definition add_symbol (symbol : string) (A : NFA) : NFA :=
  with_alphabet ({[symbol]} ∪ _alphabet A) A.

Definition remove_symbol (symbol : string) (A : NFA) : NFA :=
  let A1 := with_alphabet (_alphabet A ∖ {[symbol]}) A in
  with_transitions
    (foldl (λ t state, del_if_present (state, symbol) t)
           (_transitions A1) (set_order o (_states A1)))
    A1.

(** The message of the [KeyError] of [set_transition]. *)
Definition unknown_states_msg (missing : list string) : string :=
  "State(s) " ++ join ", " missing ++ " do not exist".

Definition set_transition (state symbol : string)
    (next_states : gset string) (A : NFA) : outcome NFA :=
  if decide (next_states = ∅) then
    Returns (with_transitions (delete (state, symbol) (_transitions A)) A)
  else if decide (next_states ⊆ _states A) then
    Returns (with_transitions
               (<[(state, symbol) := next_states]> (_transitions A)) A)
  else
    Raises (KeyError (unknown_states_msg
                        (set_order o (next_states ∖ _states A)))) A.
End Store.

(** ** The store mutators as operations *)

Inductive store_op :=
| AddState (state : string)
| RemoveState (state : string)
| ToggleFinalState (state : string)
| AddSymbol (symbol : string)
| RemoveSymbol (symbol : string)
| SetTransition (state symbol : string) (next_states : gset string).

Definition run_op (o : IterOrder) (op : store_op) (A : NFA) : outcome NFA :=
  match op with
  | AddState state => Returns (add_state state A)
  | RemoveState state => Returns (remove_state o state A)
  | ToggleFinalState state => Returns (toggle_final_state state A)
  | AddSymbol symbol => Returns (add_symbol symbol A)
  | RemoveSymbol symbol => Returns (remove_symbol o symbol A)
  | SetTransition state symbol next_states =>
      set_transition o state symbol next_states A
  end.

(** Invariant 3 of the data model: the symbol of every transition key is in
    the alphabet. *)
Definition symbols_in_alphabet (A : NFA) : Prop :=
  ∀ q x T, _transitions A !! (q, x) = Some T → x ∈ _alphabet A.

(** What a call must satisfy for invariant 3 to survive it: [set_transition]
    does not look at the symbol, and [remove_symbol] only deletes the entries
    of the states in the state set. *)
Definition keeps_symbols (A : NFA) (op : store_op) : Prop :=
  match op with
  | SetTransition _ symbol next_states =>
      next_states = ∅ ∨ symbol ∈ _alphabet A
  | RemoveSymbol symbol =>
      ∀ q T, _transitions A !! (q, symbol) = Some T → q ∈ _states A
  | _ => True
  end.

(** ** Acceptance evaluator *)

Section Acceptance.
Variable o : IterOrder.

(** The body of the loop of [accept] over the symbols: the inner loop
    accumulates the targets of the states currently held. *)
Definition accept_step (A : NFA) (current_state : gset string)
    (symbol : string) : gset string :=
  foldl (λ next_state state,
           next_state ∪ default ∅ (_transitions A !! (state, symbol)))
        ∅ (set_order o current_state).

Definition accept (A : NFA) (string : string) : bool :=
  let current_state :=
    foldl (accept_step A) {[_initial_state A]} (chars string) in
  bool_decide (current_state ∩ _final_states A ≠ ∅).
End Acceptance.

(** The run the specification describes: from [{initial_state}], each symbol
    replaces the current set with the union of the targets of its members. *)
Definition targets (A : NFA) (state symbol : string) : gset string :=
  default ∅ (_transitions A !! (state, symbol)).

Definition successors (A : NFA) (X : gset string) (symbol : string)
  : gset string :=
  set_bind (λ state, targets A state symbol) X.

Definition run_from (A : NFA) (X : gset string) (symbols : list string)
  : gset string :=
  foldl (successors A) X symbols.

Definition run (A : NFA) (input : string) : gset string :=
  run_from A {[_initial_state A]} (chars input).

(** ** Analysis queries and minimizer *)

Section Minimizer.
Variable o : IterOrder.

(** [is_deterministic]: every target set of the table has one element. *)
Definition is_deterministic (A : NFA) : bool :=
  forallb (λ '(_, transition), bool_decide (size transition = 1))
          (dict_order o (_transitions A)).

(** The [while] loop of [remove_unreachable].  Both inner loops only
    accumulate targets into [new_reachable]. *)
Fixpoint reachable_loop (fuel : nat) (A : NFA)
    (reachable new_reachable : gset string) : option (gset string) :=
  if decide (new_reachable ⊆ reachable) then Some reachable
  else match fuel with
       | 0 => None
       | S fuel' =>
           let reachable' := reachable ∪ new_reachable in
           let new_reachable_copy := new_reachable in
           let new_reachable' :=
             foldl (λ acc state,
                      foldl (λ acc symbol,
                               acc ∪ default ∅
                                       (_transitions A !! (state, symbol)))
                            acc (set_order o (_alphabet A)))
                   ∅ (set_order o new_reachable_copy) in
           reachable_loop fuel' A reachable' new_reachable'
       end.

Definition remove_unreachable (fuel : nat) (A : NFA) : outcome NFA :=
  match reachable_loop fuel A ∅ {[_initial_state A]} with
  | None => OutOfFuel
  | Some reachable =>
      Returns (foldl (λ A unreachable_state, remove_state o unreachable_state A)
                     A (set_order o (_states A ∖ reachable)))
  end.

(** The [while] loop of [remove_dead]. *)
Fixpoint alive_loop (fuel : nat) (A : NFA) (alive new_alive : gset string)
  : option (gset string) :=
  if decide (new_alive ⊆ alive) then Some alive
  else match fuel with
       | 0 => None
       | S fuel' =>
           let alive' := alive ∪ new_alive in
           let new_alive' :=
             foldl (λ acc '((state, _), next_states),
                      if existsb (λ next_state,
                                    bool_decide (next_state ∈ alive'))
                                 (set_order o next_states)
                      then {[state]} ∪ acc else acc)
                   ∅ (dict_order o (_transitions A)) in
           alive_loop fuel' A alive' new_alive'
       end.

Definition remove_dead (fuel : nat) (A : NFA) : outcome NFA :=
  match alive_loop fuel A ∅ (_final_states A) with
  | None => OutOfFuel
  | Some alive =>
      Returns (foldl (λ A dead_state, remove_state o dead_state A)
                     A (set_order o (_states A ∖ alive)))
  end.

(** [itertools.combinations(xs, 2)]. *)
Fixpoint combinations2 {X} (xs : list X) : list (X * X) :=
  match xs with
  | [] => []
  | x :: xs' => (pair x <$> xs') ++ combinations2 xs'
  end.

(** [list(s)[0]]: the first member in iteration order; an empty set has
    none. *)
Definition first_of (s : gset string) : result string :=
  match set_order o s with
  | [] => Error IndexError
  | x :: _ => Value x
  end.

(** The loop of [_are_undistinguishable], which returns at the first symbol
    that tells the two states apart. *)
Fixpoint are_undistinguishable_loop (A : NFA) (state_a state_b : string)
    (undistinguishable : gset (gset string)) (symbols : list string)
  : result bool :=
  match symbols with
  | [] => Value true
  | symbol :: rest =>
      match first_of (default {[""]} (_transitions A !! (state_a, symbol)))
      with
      | Error e => Error e
      | Value transition_a =>
          match first_of (default {[""]}
                                  (_transitions A !! (state_b, symbol)))
          with
          | Error e => Error e
          | Value transition_b =>
              if decide (transition_a ≠ transition_b ∧
                         {[transition_a; transition_b]} ∉ undistinguishable)
              then Value false
              else are_undistinguishable_loop A state_a state_b
                     undistinguishable rest
          end
      end
  end.

Definition _are_undistinguishable (A : NFA) (state_a state_b : string)
    (undistinguishable : gset (gset string)) : result bool :=
  are_undistinguishable_loop A state_a state_b undistinguishable
                             (set_order o (_alphabet A)).

(** One pass of the [for] loop inside [while True]: every pair of the copy
    is unpacked (a [ValueError] unless it has two members) and removed from
    the working set when distinguishable ([set.remove] raises [KeyError] on
    a missing member). *)
Fixpoint refine_pass (A : NFA) (undistinguishable_copy : gset (gset string))
    (pairs : list (gset string)) (undistinguishable : gset (gset string))
  : result (gset (gset string)) :=
  match pairs with
  | [] => Value undistinguishable
  | p :: rest =>
      match set_order o p with
      | [state_a; state_b] =>
          match _are_undistinguishable A state_a state_b
                                       undistinguishable_copy with
          | Error e => Error e
          | Value true =>
              refine_pass A undistinguishable_copy rest undistinguishable
          | Value false =>
              if decide ({[state_a; state_b]} ∈ undistinguishable) then
                refine_pass A undistinguishable_copy rest
                            (undistinguishable ∖ {[ {[state_a; state_b]} ]})
              else Error (KeyError "frozenset")
          end
      | _ => Error ValueError
      end
  end.

(** The [while True] loop of [merge_equivalent]. *)
Fixpoint refine_loop (fuel : nat) (A : NFA)
    (undistinguishable : gset (gset string))
  : option (result (gset (gset string))) :=
  match fuel with
  | 0 => None
  | S fuel' =>
      let undistinguishable_copy := undistinguishable in
      match refine_pass A undistinguishable_copy
                        (set_order o undistinguishable_copy)
                        undistinguishable with
      | Error e => Some (Error e)
      | Value undistinguishable' =>
          if decide (undistinguishable' = undistinguishable_copy)
          then Some (Value undistinguishable')
          else refine_loop fuel' A undistinguishable'
      end
  end.

Definition _merge_states (state_a state_b : string) (A : NFA) : NFA :=
  let '(state_to_be_removed, state_to_be_kept) :=
    if decide (state_b = _initial_state A ∨ state_a ∉ _states A)
    then (state_a, state_b) else (state_b, state_a) in
  let transitions' :=
    foldl (λ t '(actual_state, next_state),
             if decide (next_state = {[state_to_be_removed]})
             then <[actual_state := {[state_to_be_kept]}]> t else t)
          (_transitions A) (dict_order o (_transitions A)) in
  remove_state o state_to_be_removed (with_transitions transitions' A).

Definition non_deterministic : exn :=
  RuntimeError "Automata is non-deterministic".

(** The pairs [merge_equivalent] starts from: the two-element subsets of the
    non-final states and those of the final states. *)
Definition initial_pairs (A : NFA) : gset (gset string) :=
  let add_pairs (xs : list string) (u : gset (gset string)) :=
    foldl (λ u '(a, b), {[ {[a; b]} ]} ∪ u) u (combinations2 xs) in
  add_pairs (set_order o (_final_states A))
            (add_pairs (set_order o (_states A ∖ _final_states A)) ∅).

Definition merge_equivalent (fuel : nat) (A : NFA) : outcome NFA :=
  if negb (is_deterministic A) then Raises non_deterministic A
  else
    match refine_loop fuel A (initial_pairs A) with
    | None => OutOfFuel
    | Some (Error e) => Raises e A
    | Some (Value undistinguishable) =>
        for_each (λ p A,
                    match set_order o p with
                    | [state_a; state_b] =>
                        Returns (_merge_states state_a state_b A)
                    | _ => Raises ValueError A
                    end)
                 (set_order o undistinguishable) A
    end.

Definition minimize (fuel : nat) (A : NFA) : outcome NFA :=
  if negb (is_deterministic A) then Raises non_deterministic A
  else remove_unreachable fuel A >>> remove_dead fuel
       >>> merge_equivalent fuel.
End Minimizer.

(** Determinism as a property of the table (invariant 5 of the data model). *)
Definition deterministic (A : NFA) : Prop :=
  ∀ k T, _transitions A !! k = Some T → size T = 1.

(** ** Determinizer and finiteness *)

Section Determinizer.
Variable o : IterOrder.

(** ["".join(sorted(states_set))], the name of a composite state. *)
Definition name_of (states_set : gset string) : string :=
  join "" (sorted (set_order o states_set)).

Definition _find_reachable (A : NFA) (states : gset string)
    (symbol : string) : gset string :=
  foldl (λ found state,
           match _transitions A !! (state, symbol) with
           | Some next_states => found ∪ next_states
           | None => found
           end)
        ∅ (set_order o states).

(** [_determinize_state] calls itself inside its loop over the alphabet;
    each nested call uses one unit of fuel. *)
Fixpoint _determinize_state (fuel : nat) (states_set : gset string)
    (A : NFA) : outcome NFA :=
  match fuel with
  | 0 => OutOfFuel
  | S fuel' =>
      let name := name_of states_set in
      if decide (name ≠ "" ∧ name ∉ _states A) then
        let A1 := add_state name A in
        let A2 :=
          if decide (states_set ∩ _final_states A1 ≠ ∅)
          then with_final_states ({[name]} ∪ _final_states A1) A1
          else A1 in
        for_each
          (λ symbol A,
             let reachable := _find_reachable A states_set symbol in
             if decide (reachable ≠ ∅) then
               _determinize_state fuel' reachable
                 (with_transitions
                    (<[(name, symbol) := reachable]> (_transitions A)) A)
             else Returns A)
          (set_order o (_alphabet A2)) A2
      else Returns A
  end.

Definition determinize (fuel : nat) (A : NFA) : outcome NFA :=
  let original_transitions := _transitions A in
  for_each
    (λ '(_, next_state) A,
       if decide (1 < size next_state)
       then _determinize_state fuel next_state A
       else Returns A)
    (dict_order o original_transitions) A
  >>> λ A,
    Returns (with_transitions
               ((λ next_state, {[name_of next_state]}) <$> _transitions A)
               A).

(** [_has_recursion]: [to_visit] is the deque, its head the left end. *)
Fixpoint _has_recursion (fuel : nat) (A : NFA) (to_visit : list string)
    (visited : gset string) : option bool :=
  match fuel with
  | 0 => None
  | S fuel' =>
      match to_visit with
      | [] => Some false
      | actual_state :: to_visit' =>
          let visited' := {[actual_state]} ∪ visited in
          let reachable :=
            foldl (λ reachable symbol,
                     reachable ∪ _find_reachable A {[actual_state]} symbol)
                  ∅ (set_order o (_alphabet A)) in
          if decide (reachable ∩ visited' ≠ ∅) then Some true
          else _has_recursion fuel' A
                 (to_visit' ++ set_order o (reachable ∖ visited'))
                 visited'
      end
  end.

Definition is_finite (fuel : nat) (A : NFA) : option bool :=
  negb <$> _has_recursion fuel A [_initial_state A] ∅.
End Determinizer.

(** ** Canonicalizer and union *)

Section Combinators.
Variable o : IterOrder.

(** The properties [states] and [alphabet]: ordered lists. *)
Definition states (A : NFA) : list string :=
  _initial_state A :: sorted (set_order o (_states A ∖ {[_initial_state A]})).

Definition alphabet (A : NFA) : list string :=
  sorted (set_order o (_alphabet A)).

(** [beautiful_states[k]]; the [KeyError] carries the missing key. *)
Definition lookup_name (beautiful_states : gmap string string) (k : string)
  : result string :=
  match beautiful_states !! k with
  | Some v => Value v
  | None => Error (KeyError k)
  end.

(** [{beautiful_states[state] for state in value}]. *)
Fixpoint rename_all (beautiful_states : gmap string string)
    (value : list string) : result (gset string) :=
  match value with
  | [] => Value ∅
  | state :: rest =>
      match lookup_name beautiful_states state with
      | Error e => Error e
      | Value v =>
          match rename_all beautiful_states rest with
          | Error e => Error e
          | Value X => Value ({[v]} ∪ X)
          end
      end
  end.

(** The dictionary comprehension of [_beautify]; a later item overwrites an
    earlier one with the same new key. *)
Fixpoint rename_transitions (beautiful_states : gmap string string)
    (items : list (string * string * gset string))
    (acc : gmap (string * string) (gset string))
  : result (gmap (string * string) (gset string)) :=
  match items with
  | [] => Value acc
  | ((actual_state, symbol), value) :: rest =>
      match lookup_name beautiful_states actual_state with
      | Error e => Error e
      | Value actual_state' =>
          match rename_all beautiful_states (set_order o value) with
          | Error e => Error e
          | Value value' =>
              rename_transitions beautiful_states rest
                                 (<[(actual_state', symbol) := value']> acc)
          end
      end
  end.

(** [_beautify] assigns the fields one after the other; a [KeyError] in a
    later comprehension leaves the earlier assignments in place. *)
Definition _beautify (beautiful_states : gmap string string) (A : NFA)
  : outcome NFA :=
  match lookup_name beautiful_states (_initial_state A) with
  | Error e => Raises e A
  | Value initial_state' =>
      let A1 := with_states (map_img beautiful_states)
                            (with_initial_state initial_state' A) in
      match rename_transitions beautiful_states
                               (dict_order o (_transitions A1)) ∅ with
      | Error e => Raises e A1
      | Value transitions' =>
          let A2 := with_transitions transitions' A1 in
          match rename_all beautiful_states
                           (set_order o (_final_states A2)) with
          | Error e => Raises e A2
          | Value final_states' =>
              Returns (with_final_states final_states' A2)
          end
      end
  end.

(** [enumerate(xs)]. *)
Definition enumerate {X} (xs : list X) : list (nat * X) := imap pair xs.

Definition beautify_qn (A : NFA) : outcome NFA :=
  let beautiful_states :=
    foldl (λ bs '(number, state), <[state := "q" ++ pretty (number + 1)]> bs)
          {[_initial_state A := "q0"]}
          (enumerate (sorted (set_order o
                                (_states A ∖ {[_initial_state A]})))) in
  _beautify beautiful_states A.

(** [chr(n)] for a code below 128. *)
Definition chr (n : nat) : string := String (ascii_of_nat n) EmptyString.

Definition beautify_abc (A : NFA) : outcome NFA :=
  if decide (26 < size (_states A)) then
    Raises (RuntimeError "Too many states") A
  else
    let '(beautiful_states, _) :=
      foldl (λ '(bs, number) state,
               (<[state := chr (65 + number)]> bs,
                if decide (number = 17) then number + 1 + 1 else number + 1))
            (({[_initial_state A := "S"]} : gmap string string), 0)
            (sorted (set_order o (_states A ∖ {[_initial_state A]}))) in
    _beautify beautiful_states A.

(** [d.update(other)]: the entries of [other] win. *)
Definition dict_update {V} (d other : gmap (string * string) V)
  : gmap (string * string) V := other ∪ d.

(** [union] mutates both automata: the outcome holds the receiver and the
    argument.  The two are distinct objects here; the source, called with
    the receiver as its own argument, would rename one object twice. *)
Definition union (self automaton : NFA) : outcome (NFA * NFA) :=
  if decide (alphabet self ≠ alphabet automaton) then
    Raises (RuntimeError "The alphabets are different!") (self, automaton)
  else
    match beautify_abc self with
    | OutOfFuel => OutOfFuel
    | Raises e self1 => Raises e (self1, automaton)
    | Returns self1 =>
        match beautify_qn automaton with
        | OutOfFuel => OutOfFuel
        | Raises e automaton1 => Raises e (self1, automaton1)
        | Returns automaton1 =>
            let first_initial := _initial_state self1 in
            let second_initial := _initial_state automaton1 in
            let new_state := "qinitial" in
            let self2 :=
              with_initial_state new_state (add_state new_state self1) in
            let self3 :=
              with_states (_states self2 ∪ list_to_set (states automaton1))
                          self2 in
            let self4 :=
              with_final_states
                (_final_states self3 ∪ _final_states automaton1) self3 in
            let self5 :=
              with_transitions
                (dict_update (_transitions self4) (_transitions automaton1))
                self4 in
            let initial_states : gset string :=
              {[first_initial; second_initial]} in
            (* [intersection] returns a set object, which is not [None] *)
            let self6 :=
              if decide (Some (initial_states ∩ _final_states self5) ≠ None)
              then with_final_states (_final_states self5 ∪ {[new_state]})
                                     self5
              else self5 in
            let self7 :=
              with_transitions
                (foldl (λ t symbol,
                          let first_transition :=
                            t !! (first_initial, symbol) in
                          let second_transition :=
                            _transitions automaton1
                              !! (second_initial, symbol) in
                          let new_transition :=
                            ∅ ∪ default ∅ first_transition
                              ∪ default ∅ second_transition in
                          <[(new_state, symbol) := new_transition]> t)
                       (_transitions self6) (set_order o (_alphabet self6)))
                self6 in
            match beautify_qn self7 with
            | OutOfFuel => OutOfFuel
            | Raises e self8 => Raises e (self8, automaton1)
            | Returns self8 => Returns (self8, automaton1)
            end
        end
    end.
End Combinators.

(** ** Codec *)

(** The record [save] hands to [json.dump] and [load] receives from
    [json.load]; a tuple is written as a list.  Reading and writing the file
    is the JSON library's part. *)
Record record := mkRecord {
  rec_states : list string;
  rec_alphabet : list string;
  rec_transitions : list (string * string * list string);
  rec_initial_state : string;
  rec_final_states : list string
}.

Definition save (o : IterOrder) (A : NFA) : record := {|
  rec_states := sorted (set_order o (_states A));
  rec_alphabet := sorted (set_order o (_alphabet A));
  rec_transitions :=
    (λ '(k, v), (k.1, k.2, sorted (set_order o v)))
      <$> dict_order o (_transitions A);
  rec_initial_state := _initial_state A;
  rec_final_states := sorted (set_order o (_final_states A))
|}.

Definition load (data : record) : NFA :=
  let states := list_to_set (rec_states data) in
  let alphabet := list_to_set (rec_alphabet data) in
  let transitions :=
    foldl (λ t '(v0, v1, v2), <[(v0, v1) := list_to_set v2]> t)
          ∅ (rec_transitions data) in
  let initial_state := rec_initial_state data in
  let final_states := list_to_set (rec_final_states data) in
  NFA_init states alphabet transitions initial_state final_states.

(** ** What [determinize] assumes of its input *)

(** The data-model invariants of an automaton: the initial state and the
    final states are states, no state has the empty name, and every entry
    of the table is keyed by a state and a symbol of the alphabet and holds
    a non-empty set of states. *)
Record well_formed (A : NFA) : Prop := {
  wf_initial : _initial_state A ∈ _states A;
  wf_final : _final_states A ⊆ _states A;
  wf_names : "" ∉ _states A;
  wf_table : ∀ q x T, _transitions A !! (q, x) = Some T →
               q ∈ _states A ∧ x ∈ _alphabet A ∧ T ⊆ _states A ∧ T ≠ ∅
}.

(** No two non-empty sets of states are given the same composite name;
    in particular no composite name is the name of a state.  The name of a
    set does not depend on the iteration order ([name_of_order]). *)
Definition collision_free (o : IterOrder) (A : NFA) : Prop :=
  ∀ S S' : gset string,
    S ⊆ _states A → S' ⊆ _states A → S ≠ ∅ → S' ≠ ∅ →
    name_of o S = name_of o S' → S = S'.

(** The sublists of a list: every subset of its members is the set of
    one of them. *)
Fixpoint sublists (l : list string) : list (list string) :=
  match l with
  | [] => [[]]
  | x :: l' => sublists l' ++ (cons x <$> sublists l')
  end.

(** The names [determinize] can give to sets of states of [A]. *)
Definition composite_names (o : IterOrder) (A : NFA) : gset string :=
  list_to_set ((λ l, name_of o (list_to_set l))
                 <$> sublists (elements (_states A))).

(** [collision_free], as a test that computes. *)
Definition collision_freeb (o : IterOrder) (A : NFA) : bool :=
  let subsets : list (gset string) :=
    filter (λ S, S ≠ ∅) (list_to_set <$> sublists (elements (_states A))) in
  forallb (λ S, forallb (λ S', bool_decide (name_of o S = name_of o S' →
                                            S = S')) subsets) subsets.

(** A run read as a trace: one target chosen per symbol. *)
Inductive trace (A : NFA) : string → list string → string → Prop :=
| trace_nil q : trace A q [] q
| trace_cons q symbol q' w q'' :
    q' ∈ targets A q symbol → trace A q' w q'' →
    trace A q (symbol :: w) q''.

(** The states one step away from a state, over the whole alphabet. *)
Definition all_successors (A : NFA) (state : string) : gset string :=
  set_bind (λ symbol, targets A state symbol) (_alphabet A).

(** Every state a target set of the table holds. *)
Definition all_targets (A : NFA) : gset string :=
  ⋃ (map_to_list (_transitions A)).*2.

(** Every state a key of the table names. *)
Definition key_states (A : NFA) : gset string :=
  list_to_set (map_to_list (_transitions A)).*1.*1.

(** ** The subset construction in progress *)

Section SubsetConstruction.
Variable o : IterOrder.
Variable A0 : NFA.

(** How many names are still free. *)
Definition room (A : NFA) : nat :=
  size (composite_names o A0 ∖ _states A).

(** The automaton [A] in the middle of [determinize] on [A0]: its states
    are named after non-empty sets of states of [A0]; the entries of the
    state named after [S] hold the set reachable from [S] in [A0]; a state
    that is not pending (in [P]: its loop over the alphabet is running) has
    all its entries, and, when composite, their targets are states. *)
Record inv (P : gset string) (A : NFA) : Prop := {
  inv_alphabet : _alphabet A = _alphabet A0;
  inv_initial : _initial_state A = _initial_state A0;
  inv_atoms : _states A0 ⊆ _states A;
  inv_states :
    ∀ c, c ∈ _states A → ∃ S, S ⊆ _states A0 ∧ S ≠ ∅ ∧ c = name_of o S;
  inv_pending : ∀ c, c ∈ P → c ∉ _states A0;
  inv_finals_sub : _final_states A ⊆ _states A;
  inv_finals :
    ∀ S, S ⊆ _states A0 → S ≠ ∅ → name_of o S ∈ _states A →
         (name_of o S ∈ _final_states A ↔ S ∩ _final_states A0 ≠ ∅);
  inv_sound :
    ∀ S x V, S ⊆ _states A0 → S ≠ ∅ →
             _transitions A !! (name_of o S, x) = Some V →
             V = successors A0 S x ∧ V ≠ ∅;
  inv_total :
    ∀ S x, S ⊆ _states A0 → S ≠ ∅ → name_of o S ∈ _states A →
           name_of o S ∉ P → successors A0 S x ≠ ∅ →
           _transitions A !! (name_of o S, x) = Some (successors A0 S x);
  inv_closed :
    ∀ S x V, S ⊆ _states A0 → S ≠ ∅ → name_of o S ∉ _states A0 →
             name_of o S ∉ P →
             _transitions A !! (name_of o S, x) = Some V →
             name_of o V ∈ _states A
}.

End SubsetConstruction.

Arguments inv_alphabet {o A0 P A}.
Arguments inv_initial {o A0 P A}.
Arguments inv_atoms {o A0 P A}.
Arguments inv_states {o A0 P A}.
Arguments inv_pending {o A0 P A}.
Arguments inv_finals_sub {o A0 P A}.
Arguments inv_finals {o A0 P A}.
Arguments inv_sound {o A0 P A}.
Arguments inv_total {o A0 P A}.
Arguments inv_closed {o A0 P A}.

(** ** Example automata *)

(** One state, no transition. *)
Definition one_state : NFA := NFA_init {["q0"]} {["a"]} ∅ "q0" ∅.

(** A deterministic automaton that accepts [0]. *)
Definition two_states : NFA :=
  NFA_init {["q0"; "q1"]} {["0"]} {[("q0", "0") := {["q1"]}]} "q0" {["q1"]}.

(** Two one-state automata over the same alphabet; neither initial state
    is final. *)
Definition lone_a : NFA := NFA_init {["a"]} {["x"]} ∅ "a" ∅.
Definition lone_b : NFA := NFA_init {["b"]} {["x"]} ∅ "b" ∅.

(** A directed acyclic automaton: [q0 -x-> a -x-> b -x-> c] and
    [q0 -y-> c], with [c] final.  It accepts [y] and [xxx] only. *)
Definition dag_transitions : list (string * string * gset string) :=
  [ (("q0", "x"), {["a"]}); (("q0", "y"), {["c"]});
    (("a", "x"), {["b"]}); (("b", "x"), {["c"]}) ].

Definition dag : NFA :=
  NFA_init {["q0"; "a"; "b"; "c"]} {["x"; "y"]} (list_to_map dag_transitions)
           "q0" {["c"]}.

Definition dag_rank (q : string) : nat :=
  if decide (q = "q0") then 0
  else if decide (q = "a") then 1
  else if decide (q = "b") then 2 else 3.

(** A state named [ab] beside the states [a] and [b]. *)
Definition clash : NFA :=
  NFA_init {["s"; "a"; "b"; "ab"]} {["x"]}
           (list_to_map [(("s", "x"), {["a"; "b"]})]) "s" {["a"]}.

(** The automaton of the specification's scenario: strings over [0], [1]
    that end in [0]. *)
Definition ends_in_0 : NFA :=
  NFA_init {["q0"; "q1"]} {["0"; "1"]}
           (list_to_map [(("q0", "0"), {["q0"; "q1"]});
                         (("q0", "1"), {["q0"]})])
           "q0" {["q1"]}.

(** ** Shared target sets: [is_empty] *)

(** [is_empty] builds a second automaton from copies of the receiver's
    collections.  [dict.copy] copies the dictionary, not the sets it holds:
    the copy and the receiver refer to the same set objects.  Here a target
    set is an object of a store, named by a reference, and a transition
    table maps keys to references. *)
Module Shared.

Abbreviation store := (gmap positive (gset string)).

Record NFA := mkNFA {
  _states : gset string;
  _alphabet : gset string;
  _transitions : gmap (string * string) positive;
  _initial_state : string;
  _final_states : gset string
}.

(** The set a reference names. *)
Definition deref (h : store) (r : positive) : gset string :=
  default ∅ (h !! r).

(** The transition function an automaton has in a store. *)
Definition table (h : store) (A : NFA)
  : gmap (string * string) (gset string) :=
  deref h <$> _transitions A.

Section Operations.
Variable o : IterOrder.

(** The body of the second loop of [remove_state]:
    [next_state.discard(state)] updates the object in the store. *)
Definition discard_target (state : string)
    (acc : store * gset (string * string))
    (item : string * string * positive) : store * gset (string * string) :=
  let '(h, empty_transitions) := acc in
  let '(actual_state, next_state) := item in
  let h' := <[next_state := deref h next_state ∖ {[state]}]> h in
  (h', if decide (deref h' next_state = ∅)
       then {[actual_state]} ∪ empty_transitions else empty_transitions).

Definition remove_state (state : string) (hA : store * NFA)
  : store * NFA :=
  let '(h, A) := hA in
  if decide (state ≠ _initial_state A) then
    let t1 :=
      foldl (λ t symbol, del_if_present (state, symbol) t)
            (_transitions A) (set_order o (_alphabet A)) in
    let '(h2, empty_transitions) :=
      foldl (discard_target state) (h, ∅) (dict_order o t1) in
    let t3 :=
      foldl (λ t transition, delete transition t) t1
            (set_order o empty_transitions) in
    (h2, mkNFA (_states A ∖ {[state]}) (_alphabet A) t3 (_initial_state A)
               (_final_states A ∖ {[state]}))
  else hA.

Fixpoint reachable_loop (fuel : nat) (h : store) (A : NFA)
    (reachable new_reachable : gset string) : option (gset string) :=
  if decide (new_reachable ⊆ reachable) then Some reachable
  else match fuel with
       | 0 => None
       | S fuel' =>
           let reachable' := reachable ∪ new_reachable in
           let new_reachable_copy := new_reachable in
           let new_reachable' :=
             foldl (λ acc state,
                      foldl (λ acc symbol,
                               acc ∪ default ∅
                                       (deref h <$>
                                        _transitions A !! (state, symbol)))
                            acc (set_order o (_alphabet A)))
                   ∅ (set_order o new_reachable_copy) in
           reachable_loop fuel' h A reachable' new_reachable'
       end.

Definition remove_unreachable (fuel : nat) (hA : store * NFA)
  : option (store * NFA) :=
  let '(h, A) := hA in
  match reachable_loop fuel h A ∅ {[_initial_state A]} with
  | None => None
  | Some reachable =>
      Some (foldl (λ hA unreachable_state, remove_state unreachable_state hA)
                  (h, A) (set_order o (_states A ∖ reachable)))
  end.

(** [is_empty]: the answer and the store afterwards.  The copies of the
    state set, the alphabet and the final states are new objects, equal
    values; the copy of the dictionary maps the same keys to the same
    references.  The receiver itself (its fields) is not assigned to. *)
Definition is_empty (fuel : nat) (h : store) (self : NFA)
  : option (bool * store) :=
  let nfa := mkNFA (_states self) (_alphabet self) (_transitions self)
                   (_initial_state self) (_final_states self) in
  match remove_unreachable fuel (h, nfa) with
  | None => None
  | Some (h', nfa') => Some (bool_decide (size (_final_states nfa') = 0), h')
  end.
End Operations.

(** Three states of which [q1] and [q2] cannot be reached from the initial
    state [q0] and lead to each other. *)
Definition cycle_store : store := {[ 1%positive := {["q2"]}; 2%positive := {["q1"]} ]}.

Definition cycle : NFA :=
  mkNFA {["q0"; "q1"; "q2"]} {["a"]}
        {[ ("q1", "a") := 1%positive; ("q2", "a") := 2%positive ]} "q0" {["q1"]}.

End Shared.

(** The automaton a shared automaton is in a store, as a value. *)
Definition shared_view (h : Shared.store) (A : Shared.NFA) : NFA :=
  mkNFA (Shared._states A) (Shared._alphabet A) (Shared.table h A)
        (Shared._initial_state A) (Shared._final_states A).

(** ** Further definitions for the properties of the store, the searches
    and the combinators *)

(** What the store mutators keep of the data model without any help from
    the caller: the initial state is a state once one is set, the final
    states are states, and every target set is a non-empty set of states. *)
Record store_closed (A : NFA) : Prop := {
  sc_initial : _initial_state A = "" ∨ _initial_state A ∈ _states A;
  sc_final : _final_states A ⊆ _states A;
  sc_table : ∀ k T, _transitions A !! k = Some T → T ⊆ _states A ∧ T ≠ ∅
}.

(** The states the search of [remove_unreachable] finds: those a path from
    the initial state leads to, by symbols of the alphabet. *)
Definition reachable (A : NFA) (q : string) : Prop :=
  ∃ w, Forall (λ x, x ∈ _alphabet A) w ∧ trace A (_initial_state A) w q.

(** The states the search of [remove_dead] finds: those from which a path
    leads to a final state. *)
Definition alive (A : NFA) (q : string) : Prop :=
  ∃ w q', q' ∈ _final_states A ∧ trace A q w q'.

(** The automaton without a set of states, as [remove_state] leaves it:
    the entries of a removed state are deleted for the symbols of the
    alphabet, the removed states leave every target set, and an entry left
    with no target is deleted. *)
Definition prune (D : gset string) (A : NFA) : NFA :=
  mkNFA (_states A ∖ D) (_alphabet A)
        (map_imap (λ k T,
                     if decide (k.1 ∈ D ∧ k.2 ∈ _alphabet A) then None
                     else if decide (T ∖ D = ∅) then None
                          else Some (T ∖ D))
                  (_transitions A))
        (_initial_state A) (_final_states A ∖ D).

(** What the pruning and merging phases keep: determinism, the initial
    state, the alphabet; states and final states are only removed. *)
Definition shrinks (A A' : NFA) : Prop :=
  (deterministic A → deterministic A') ∧
  _initial_state A' = _initial_state A ∧
  _alphabet A' = _alphabet A ∧
  _states A' ⊆ _states A ∧
  _final_states A' ⊆ _final_states A.

(** ** Renamings *)

(** A renaming gives different names to different states. *)
Definition injective_names (bs : gmap string string) : Prop :=
  ∀ a b v, bs !! a = Some v → bs !! b = Some v → a = b.

(** A renaming has a name for every state the automaton mentions. *)
Definition covers (bs : gmap string string) (A : NFA) : Prop :=
  _initial_state A ∈ dom bs ∧
  _final_states A ⊆ dom bs ∧
  ∀ q x T, _transitions A !! (q, x) = Some T → q ∈ dom bs ∧ T ⊆ dom bs.

(** The new names of a set of states. *)
Definition rename_set (bs : gmap string string) (T : gset string)
  : gset string :=
  set_omap (λ q, bs !! q) T.

(** Every state the automaton mentions is the initial state or a member of
    the state set: the states [beautify_qn] and [beautify_abc] name. *)
Definition names_closed (A : NFA) : Prop :=
  _final_states A ⊆ {[_initial_state A]} ∪ _states A ∧
  ∀ q x T, _transitions A !! (q, x) = Some T →
           q ∈ {[_initial_state A]} ∪ _states A ∧
           T ⊆ {[_initial_state A]} ∪ _states A.

(** The number [beautify_abc] has reached [n] states after [number]: the
    loop steps over 18, the letter [S]. *)
Fixpoint abc_number (number n : nat) : nat :=
  match n with
  | 0 => number
  | S n' =>
      abc_number (if decide (number = 17) then number + 1 + 1
                  else number + 1) n'
  end.

(** ** Complement and intersection *)

(** [_explicit_dead_transitions]: after the renaming, a state [qdead] is
    added and every missing entry of a state and a symbol of the alphabet
    is made to lead to it. *)
Definition _explicit_dead_transitions (o : IterOrder) (A : NFA)
  : outcome NFA :=
  beautify_qn o A >>> λ A,
    let new_state := "qdead" in
    let A1 := add_state new_state A in
    Returns
      (with_transitions
         (foldl (λ t state,
                   foldl (λ t symbol,
                            if decide (is_Some (t !! (state, symbol)))
                            then t
                            else <[(state, symbol) := {[new_state]}]> t)
                         t (set_order o (_alphabet A1)))
                (_transitions A1) (set_order o (_states A1)))
         A1).

Definition complement (o : IterOrder) (fuel : nat) (A : NFA) : outcome NFA :=
  determinize o fuel A >>> _explicit_dead_transitions o >>> λ A,
    Returns (foldl (λ A state, toggle_final_state state A) A
                   (set_order o (_states A))).

(** [intersection] mutates both automata, like [union]. *)
Definition intersection (o : IterOrder) (fuel : nat) (self automaton : NFA)
  : outcome (NFA * NFA) :=
  match complement o fuel automaton with
  | OutOfFuel => OutOfFuel
  | Raises e automaton1 => Raises e (self, automaton1)
  | Returns automaton1 =>
      match complement o fuel self with
      | OutOfFuel => OutOfFuel
      | Raises e self1 => Raises e (self1, automaton1)
      | Returns self1 =>
          match union o self1 automaton1 with
          | OutOfFuel => OutOfFuel
          | Raises e both => Raises e both
          | Returns (self2, automaton2) =>
              match complement o fuel self2 with
              | OutOfFuel => OutOfFuel
              | Raises e self3 => Raises e (self3, automaton2)
              | Returns self3 => Returns (self3, automaton2)
              end
          end
      end
  end.

(** ** Names *)

(** A decimal digit. *)
Definition is_digit (c : ascii) : bool :=
  (48 <=? nat_of_ascii c) && (nat_of_ascii c <=? 57).

(** A string that starts with a decimal digit. *)
Definition starts_with_digit (s : string) : Prop :=
  match s with
  | EmptyString => False
  | String c _ => is_digit c = true
  end.

(** A name [beautify_qn] gives: [q] followed by a number. *)
Definition q_name (c : string) : Prop :=
  ∃ rest, c = String "q" rest ∧ starts_with_digit rest.

(** A name [beautify_abc] gives: one character, from [A] on. *)
Definition abc_name (c : string) : Prop :=
  ∃ k, k ≤ 27 ∧ c = chr (65 + k).

(** Every state the automaton mentions is a member of the state set. *)
Record states_closed (A : NFA) : Prop := {
  stc_initial : _initial_state A ∈ _states A;
  stc_final : _final_states A ⊆ _states A;
  stc_table : ∀ q x T, _transitions A !! (q, x) = Some T →
                q ∈ _states A ∧ T ⊆ _states A
}.

(** ** The automaton [union] builds before its last renaming *)

Definition union_merge (o : IterOrder) (self1 automaton1 : NFA) : NFA :=
  let first_initial := _initial_state self1 in
  let second_initial := _initial_state automaton1 in
  let new_state := "qinitial" in
  let self2 :=
    with_initial_state new_state (add_state new_state self1) in
  let self3 :=
    with_states (_states self2 ∪ list_to_set (states o automaton1))
                self2 in
  let self4 :=
    with_final_states
      (_final_states self3 ∪ _final_states automaton1) self3 in
  let self5 :=
    with_transitions
      (dict_update (_transitions self4) (_transitions automaton1))
      self4 in
  let initial_states : gset string :=
    {[first_initial; second_initial]} in
  let self6 :=
    if decide (Some (initial_states ∩ _final_states self5) ≠ None)
    then with_final_states (_final_states self5 ∪ {[new_state]})
                           self5
    else self5 in
  with_transitions
    (foldl (λ t symbol,
              let first_transition :=
                t !! (first_initial, symbol) in
              let second_transition :=
                _transitions automaton1
                  !! (second_initial, symbol) in
              let new_transition :=
                ∅ ∪ default ∅ first_transition
                  ∪ default ∅ second_transition in
              <[(new_state, symbol) := new_transition]> t)
           (_transitions self6) (set_order o (_alphabet self6)))
    self6.

(** Every entry of the table is keyed by a state and a symbol of the
    alphabet. *)
Definition keys_known (A : NFA) : Prop :=
  ∀ q x T, _transitions A !! (q, x) = Some T →
           q ∈ _states A ∧ x ∈ _alphabet A.

(** The table has an entry, with a single target that is a state, for
    every state and every symbol of the alphabet. *)
Definition total (A : NFA) : Prop :=
  ∀ q x, q ∈ _states A → x ∈ _alphabet A →
         ∃ q', _transitions A !! (q, x) = Some {[q']} ∧ q' ∈ _states A.

(** Whether every character of a string is a symbol of the alphabet. *)
Definition over_alphabet (A : NFA) (input : string) : bool :=
  forallb (λ x, bool_decide (x ∈ _alphabet A)) (chars input).

(** A string of decimal digits. *)
Definition digits (s : string) : Prop :=
  Forall (λ c, is_digit c = true) (list_ascii_of_string s).

(** A name made of [q] and decimal digits, as [beautify_qn] gives. *)
Definition numbered (c : string) : Prop :=
  ∃ r, c = String "q" r ∧ digits r.

(** No entry of the table holds an empty set. *)
Definition nonempty_targets (A : NFA) : Prop :=
  ∀ k T, _transitions A !! k = Some T → T ≠ ∅.

(** The initial state has an entry for every symbol of the alphabet. *)
Definition initial_entries (A : NFA) : Prop :=
  ∀ x, x ∈ _alphabet A →
       is_Some (_transitions A !! (_initial_state A, x)).

(** ** [from_regular_grammar]

    The grammar is an object of a class outside this module; the method
    reads it through its two getters only.  [initial_symbol()] is a string
    and [productions()] a dictionary from a non-terminal to the collection
    of its production strings; a collection is the list of its members in
    the order the loop meets them. *)

(** [for x in xs: body], where the body yields the next value of the local
    variables or raises. *)
Fixpoint for_each_value {X St} (body : X → St → result St) (xs : list X)
    (s : St) : result St :=
  match xs with
  | [] => Value s
  | x :: xs' =>
      match body x s with
      | Error e => Error e
      | Value s' => for_each_value body xs' s'
      end
  end.

(** The body of the inner loop, on the locals [alphabet] and
    [transitions].  [production[1]] raises [IndexError] on the empty string;
    [setdefault(key, set()).add(state)] adds to the set the key has, or to
    a new one. *)
Definition add_production (non_terminal production : string)
    (locals : gset string * gmap (string * string) (gset string))
  : result (gset string * gmap (string * string) (gset string)) :=
  let '(alphabet, transitions) := locals in
  if decide (production = "&") then Value (alphabet, transitions)
  else
    match production with
    | EmptyString => Error IndexError
    | String first rest =>
        let new_transition :=
          match rest with
          | EmptyString => "X"
          | String second _ => String second EmptyString
          end in
        let symbol := String first EmptyString in
        Value ({[symbol]} ∪ alphabet,
               <[(non_terminal, symbol) :=
                   default ∅ (transitions !! (non_terminal, symbol))
                     ∪ {[new_transition]}]> transitions)
    end.

Definition from_regular_grammar (o : IterOrder) (initial_symbol : string)
    (productions : gmap string (list string)) : result NFA :=
  let states : gset string := dom productions ∪ {["X"]} in
  let initial_state := initial_symbol in
  match productions !! initial_symbol with
  | None => Error (KeyError initial_symbol)
  | Some initial_productions =>
      let final_states : gset string :=
        {["X"]} ∪ (if decide ("&" ∈ initial_productions)
                   then {[initial_symbol]} else ∅) in
      match for_each_value
              (λ '(non_terminal, prods),
                 for_each_value (add_production non_terminal) prods)
              (dict_order o productions) (∅, ∅) with
      | Error e => Error e
      | Value (alphabet, transitions) =>
          Value (NFA_init states alphabet transitions initial_state
                          final_states)
      end
  end.

(** The grammar [S -> aS | b | &]. *)
Definition a_star_b : gmap string (list string) :=
  {["S" := ["aS"; "b"; "&"]]}.

(** What a production other than [&] stands for: a symbol and the state
    that follows it. *)
Definition edge_of (production : string) : option (string * string) :=
  match production with
  | EmptyString => None
  | String first EmptyString => Some (String first EmptyString, "X")
  | String first (String second _) =>
      Some (String first EmptyString, String second EmptyString)
  end.

(** A production of the non-terminal [N] that reads [a] and goes on with
    [q]. *)
Definition edge (productions : gmap string (list string))
    (N a q : string) : Prop :=
  ∃ prods p, productions !! N = Some prods ∧ p ∈ prods ∧ p ≠ "&" ∧
             edge_of p = Some (a, q).

(** The strings a non-terminal of a right-linear grammar derives: with a
    production of one terminal; with a production of a terminal and a
    non-terminal, followed by a string that non-terminal derives; and the
    empty string, for the initial symbol with the production [&]. *)
Inductive derives (initial_symbol : string)
    (productions : gmap string (list string))
  : string → list string → Prop :=
| derives_empty prods :
    productions !! initial_symbol = Some prods → "&" ∈ prods →
    derives initial_symbol productions initial_symbol []
| derives_terminal N prods a :
    productions !! N = Some prods →
    String a EmptyString ∈ prods → String a EmptyString ≠ "&" →
    derives initial_symbol productions N [String a EmptyString]
| derives_step N prods a b rest w :
    productions !! N = Some prods →
    String a (String b rest) ∈ prods →
    derives initial_symbol productions (String b EmptyString) w →
    derives initial_symbol productions N (String a EmptyString :: w).

(** ** The public operations

    The methods that change the automaton they are called on, besides the
    store mutators ([store_op]). *)
Inductive transformation :=
| Minimize
| RemoveUnreachable
| RemoveDead
| MergeEquivalent
| Determinize
| BeautifyQn
| BeautifyAbc
| Complement.

Definition run_transformation (o : IterOrder) (fuel : nat)
    (t : transformation) (A : NFA) : outcome NFA :=
  match t with
  | Minimize => minimize o fuel A
  | RemoveUnreachable => remove_unreachable o fuel A
  | RemoveDead => remove_dead o fuel A
  | MergeEquivalent => merge_equivalent o fuel A
  | Determinize => determinize o fuel A
  | BeautifyQn => beautify_qn o A
  | BeautifyAbc => beautify_abc o A
  | Complement => complement o fuel A
  end.

(** The methods that take a second automaton and change both. *)
Inductive combinator :=
| Union
| Intersection.

Definition run_combinator (o : IterOrder) (fuel : nat) (c : combinator)
    (self automaton : NFA) : outcome (NFA * NFA) :=
  match c with
  | Union => union o self automaton
  | Intersection => intersection o fuel self automaton
  end.

(** Invariant 3 of the data model, for a persisted record: the symbol of
    every triple is a member of the record's alphabet. *)
Definition record_symbols (data : record) : Prop :=
  ∀ v0 v1 v2, (v0, v1, v2) ∈ rec_transitions data → v1 ∈ rec_alphabet data.

(** The words that lead from a state to a final state. *)
Definition lang (A : NFA) (q : string) (w : list string) : Prop :=
  ∃ f, f ∈ _final_states A ∧ trace A q w f.

(** What [_merge_states] does once it has chosen the state to remove. *)
Definition merge_into (o : IterOrder)
    (state_to_be_removed state_to_be_kept : string) (A : NFA) : NFA :=
  let transitions' :=
    foldl (λ t '(actual_state, next_state),
             if decide (next_state = {[state_to_be_removed]})
             then <[actual_state := {[state_to_be_kept]}]> t else t)
          (_transitions A) (dict_order o (_transitions A)) in
  remove_state o state_to_be_removed (with_transitions transitions' A).

(** What the merging loop keeps true of the automaton [B] it works on,
    with respect to the automaton [A] it started from. *)
Record merge_invariant (A B : NFA) : Prop := {
  mi_closed : states_closed B;
  mi_keys : keys_known B;
  mi_deterministic : deterministic B;
  mi_initial : _initial_state B = _initial_state A;
  mi_alphabet : _alphabet B = _alphabet A;
  mi_states : _states B ⊆ _states A;
  mi_lang : ∀ q w, q ∈ _states B → (lang B q w ↔ lang A q w)
}.

(** A deterministic automaton with two states of the same language. *)
Definition twins : NFA :=
  NFA_init {["s"; "a"; "b"]} {["x"; "y"]}
           (list_to_map [(("s", "x"), {["a"]}); (("s", "y"), {["b"]})])
           "s" {["a"; "b"]}.

(* ================================================================== *)
(** * Properties *)

(** ** Iteration orders *)

Section IterOrderFacts.
Variable o : IterOrder.
Context `{Countable K}.

Lemma elem_of_set_order (X : gset K) x : x ∈ set_order o X ↔ x ∈ X.
Proof. by rewrite set_order_perm, elem_of_elements. Qed.

Lemma NoDup_set_order (X : gset K) : NoDup (set_order o X).
Proof. rewrite set_order_perm. apply NoDup_elements. Qed.

Lemma set_order_empty : set_order o (∅ : gset K) = [].
Proof.
  apply Permutation_nil_r. by rewrite set_order_perm, elements_empty.
Qed.

Lemma set_order_singleton (x : K) : set_order o ({[x]} : gset K) = [x].
Proof.
  apply Permutation_singleton_r.
  by rewrite set_order_perm, elements_singleton.
Qed.

Lemma list_to_set_set_order (X : gset K) :
  list_to_set (set_order o X) = X.
Proof.
  apply set_eq. intros x.
  by rewrite elem_of_list_to_set, elem_of_set_order.
Qed.

Lemma elem_of_dict_order {V} (m : gmap K V) k v :
  (k, v) ∈ dict_order o m ↔ m !! k = Some v.
Proof. by rewrite dict_order_perm, elem_of_map_to_list. Qed.

Lemma NoDup_dict_order_keys {V} (m : gmap K V) :
  NoDup ((dict_order o m).*1).
Proof. rewrite dict_order_perm. apply NoDup_fst_map_to_list. Qed.
End IterOrderFacts.

(** ** [sorted] does not depend on the order of its argument *)

#[global] Instance str_le_total : Total str_le.
Proof. intros a b. apply String.leb_total. Qed.

#[global] Instance str_le_antisymm : AntiSymm eq str_le.
Proof. intros a b. apply String.leb_antisym. Qed.

#[global] Instance str_le_trans : Transitive str_le.
Proof.
  unfold str_le, String.leb. intros s1.
  induction s1 as [|c1 s1 IH]; intros s2 s3 H12 H23.
  - by destruct s3.
  - destruct s2 as [|c2 s2]; [done|]. destruct s3 as [|c3 s3]; [done|].
    simpl in *. unfold Ascii.compare in *.
    destruct (N.compare_spec (N_of_ascii c1) (N_of_ascii c2))
      as [E12|L12|G12]; [| |done];
      destruct (N.compare_spec (N_of_ascii c2) (N_of_ascii c3))
        as [E23|L23|G23]; try done.
    + rewrite E12, E23, N.compare_refl. by eapply IH.
    + by rewrite E12, (proj2 (N.compare_lt_iff _ _) L23).
    + by rewrite <- E23, (proj2 (N.compare_lt_iff _ _) L12).
    + rewrite (proj2 (N.compare_lt_iff _ _) (N.lt_trans _ _ _ L12 L23)).
      done.
Qed.

Lemma sorted_perm (l l' : list string) : l ≡ₚ l' → sorted l = sorted l'.
Proof.
  intros Hperm. unfold sorted.
  apply (StronglySorted_unique str_le);
    [apply StronglySorted_merge_sort; apply _..|].
  by rewrite !merge_sort_Permutation.
Qed.

Lemma sorted_set_order o o' (X : gset string) :
  sorted (set_order o X) = sorted (set_order o' X).
Proof. apply sorted_perm. by rewrite !set_order_perm. Qed.

(** The name of a composite state is a function of the set. *)
Lemma name_of_order o o' (S : gset string) : name_of o S = name_of o' S.
Proof. unfold name_of. by rewrite (sorted_set_order o o'). Qed.

Lemma collision_free_order o o' A :
  collision_free o A → collision_free o' A.
Proof.
  intros Hcf S S' HS HS' Hne Hne' Hname. apply Hcf; try done.
  by rewrite !(name_of_order o o').
Qed.

(** ** Store: [add_state] and [set_transition] *)

(** C10.  On an automaton without an initial state (the empty string),
    [add_state s] makes [s] a state and the initial state; on an automaton
    with an initial state it adds [s] to the states and keeps the initial
    state. *)
Theorem add_state_initial (s : string) (A : NFA) :
  (_initial_state A = "" →
     s ∈ _states (add_state s A) ∧ _initial_state (add_state s A) = s) ∧
  (_initial_state A ≠ "" →
     _states (add_state s A) = {[s]} ∪ _states A ∧
     _initial_state (add_state s A) = _initial_state A).
Proof.
  unfold add_state. split; intros Hinit.
  - rewrite decide_True by done. simpl. split; [set_solver | done].
  - rewrite decide_False by done. done.
Qed.

Lemma add_state_initial_witness :
  ("q0" ∈ _states (add_state "q0" (NFA_init ∅ ∅ ∅ "" ∅)) ∧
   _initial_state (add_state "q0" (NFA_init ∅ ∅ ∅ "" ∅)) = "q0") ∧
  (_states (add_state "q1" (NFA_init {["q0"]} ∅ ∅ "q0" ∅)) =
     {["q1"]} ∪ _states (NFA_init {["q0"]} ∅ ∅ "q0" ∅) ∧
   _initial_state (add_state "q1" (NFA_init {["q0"]} ∅ ∅ "q0" ∅)) =
     _initial_state (NFA_init {["q0"]} ∅ ∅ "q0" ∅)).
Proof.
  split.
  - apply (proj1 (add_state_initial "q0" (NFA_init ∅ ∅ ∅ "" ∅))).
    reflexivity.
  - apply (proj2 (add_state_initial "q1" (NFA_init {["q0"]} ∅ ∅ "q0" ∅))).
    discriminate.
Defined.

Lemma set_transition_empty o state symbol A :
  set_transition o state symbol ∅ A =
  Returns (with_transitions (delete (state, symbol) (_transitions A)) A).
Proof. unfold set_transition. by rewrite decide_True. Qed.

Lemma set_transition_known o state symbol T A :
  T ≠ ∅ → T ⊆ _states A →
  set_transition o state symbol T A =
  Returns (with_transitions (<[(state, symbol) := T]> (_transitions A)) A).
Proof.
  intros ??. unfold set_transition.
  rewrite decide_False by done. by rewrite decide_True.
Qed.

Lemma set_transition_unknown o state symbol T A :
  T ≠ ∅ → ¬ T ⊆ _states A →
  set_transition o state symbol T A =
  Raises (KeyError (unknown_states_msg (set_order o (T ∖ _states A)))) A.
Proof.
  intros ??. unfold set_transition.
  rewrite decide_False by done. by rewrite decide_False.
Qed.

(** C8.  With an empty target set [set_transition] deletes the entry and
    returns, whether or not the entry exists.  With a non-empty target set it
    raises exactly when some target is not a state; the [KeyError] then
    carries the message [State(s) ... do not exist], where the dots are the
    targets that are not states, each once, separated by a comma and a
    space, and the automaton is as before; otherwise the entry holds the
    given set. *)
Theorem set_transition_spec o (state symbol : string) (T : gset string)
    (A : NFA) :
  (T = ∅ →
     set_transition o state symbol T A =
     Returns (with_transitions (delete (state, symbol) (_transitions A)) A)) ∧
  (T ≠ ∅ →
     ((∃ e A', set_transition o state symbol T A = Raises e A') ↔
      ∃ q, q ∈ T ∧ q ∉ _states A) ∧
     ((∃ q, q ∈ T ∧ q ∉ _states A) →
        ∃ missing,
          missing ≡ₚ elements (T ∖ _states A) ∧
          set_transition o state symbol T A =
          Raises (KeyError ("State(s) " ++ join ", " missing
                              ++ " do not exist")) A) ∧
     (T ⊆ _states A →
        ∃ A', set_transition o state symbol T A = Returns A' ∧
              _transitions A' = <[(state, symbol) := T]> (_transitions A) ∧
              _transitions A' !! (state, symbol) = Some T ∧
              _states A' = _states A ∧ _alphabet A' = _alphabet A ∧
              _initial_state A' = _initial_state A ∧
              _final_states A' = _final_states A)).
Proof.
  split.
  - intros ->. apply set_transition_empty.
  - intros Hne.
    assert (Hsub : (∃ q, q ∈ T ∧ q ∉ _states A) ↔ ¬ T ⊆ _states A).
    { split.
      - intros (q & ? & ?) Hs. by apply Hs in H.
      - intros Hn. destruct (decide (T ∖ _states A = ∅)) as [He|He].
        + destruct Hn. set_solver.
        + apply set_choose_L in He as [q Hq]. exists q. set_solver. }
    split; [|split].
    + rewrite Hsub. split.
      * intros (e & A' & Hr) Hs.
        by rewrite set_transition_known in Hr.
      * intros Hn. rewrite set_transition_unknown by done. eauto.
    + rewrite Hsub. intros Hn.
      exists (set_order o (T ∖ _states A)). split.
      * apply set_order_perm.
      * by apply set_transition_unknown.
    + intros Hs. eexists. split; [by apply set_transition_known|].
      simpl. by rewrite lookup_insert_eq.
Qed.

Lemma set_transition_spec_witness :
  set_transition canonical "q0" "a" ∅ (NFA_init {["q0"]} {["a"]} ∅ "q0" ∅) =
  Returns (with_transitions
             (delete ("q0", "a")
                     (_transitions (NFA_init {["q0"]} {["a"]} ∅ "q0" ∅)))
             (NFA_init {["q0"]} {["a"]} ∅ "q0" ∅)) ∧
  (set_transition canonical "q0" "a" {["q0"; "q1"; "q2"]}
                  (NFA_init {["q0"]} {["a"]} ∅ "q0" ∅) =
   Raises (KeyError "State(s) q1, q2 do not exist")
          (NFA_init {["q0"]} {["a"]} ∅ "q0" ∅) ∨
   set_transition canonical "q0" "a" {["q0"; "q1"; "q2"]}
                  (NFA_init {["q0"]} {["a"]} ∅ "q0" ∅) =
   Raises (KeyError "State(s) q2, q1 do not exist")
          (NFA_init {["q0"]} {["a"]} ∅ "q0" ∅)).
Proof.
  split.
  - apply (proj1 (set_transition_spec canonical "q0" "a" ∅
                    (NFA_init {["q0"]} {["a"]} ∅ "q0" ∅))).
    reflexivity.
  - assert (Hne : ({["q0"; "q1"; "q2"]} : gset string) ≠ ∅).
    { intros Hempty.
      assert (Hin : "q0" ∈ ({["q0"; "q1"; "q2"]} : gset string))
        by (apply elem_of_union_l, elem_of_union_l, elem_of_singleton;
            reflexivity).
      rewrite Hempty in Hin. exact (not_elem_of_empty _ Hin). }
    destruct (proj2 (set_transition_spec canonical "q0" "a"
                       {["q0"; "q1"; "q2"]}
                       (NFA_init {["q0"]} {["a"]} ∅ "q0" ∅)) Hne)
      as (_ & Hmissing & _).
    destruct Hmissing as (missing & Hperm & Hraises).
    + exists "q1". split.
      * apply elem_of_union_l, elem_of_union_r, elem_of_singleton.
        reflexivity.
      * simpl. intros Hin. apply elem_of_singleton in Hin.
        discriminate Hin.
    + assert (Hel : elements (({["q0"; "q1"; "q2"]} : gset string) ∖
                              _states (NFA_init {["q0"]} {["a"]} ∅ "q0" ∅))
                    ≡ₚ ["q1"; "q2"]).
      { apply NoDup_Permutation.
        - apply NoDup_elements.
        - apply NoDup_cons. split.
          + intros Hin. apply list_elem_of_singleton in Hin.
            discriminate Hin.
          + apply NoDup_singleton.
        - intros q. rewrite elem_of_elements. simpl.
          rewrite elem_of_difference, !elem_of_union, !elem_of_singleton,
            elem_of_cons, list_elem_of_singleton.
          split.
          + intros [[[->| ->]| ->] Hq]; [by destruct Hq | by left | by right].
          + intros [->| ->]; (split; [|discriminate]);
              [left; by right | by right]. }
      rewrite Hel in Hperm. symmetry in Hperm.
      apply Permutation_length_2_inv in Hperm as [->| ->];
        [left | right]; exact Hraises.
Defined.

(** ** Acceptance *)

Lemma elem_of_foldl_union `{Countable K} (f : K → gset string)
    (l : list K) (acc : gset string) q :
  q ∈ foldl (λ acc x, acc ∪ f x) acc l ↔ q ∈ acc ∨ ∃ x, x ∈ l ∧ q ∈ f x.
Proof.
  revert acc. induction l as [|y l IH]; intros acc; simpl.
  - split; [auto | intros [?|(x & Hx & _)]; [done | by inversion Hx]].
  - rewrite IH, elem_of_union. split.
    + intros [[?|?]|(x & ? & ?)]; [by left | right; exists y | right; exists x];
        split; auto; constructor; done.
    + intros [?|(x & Hx & ?)]; [by left; left|].
      apply elem_of_cons in Hx as [->|?]; [by left; right | right; eauto].
Qed.

(** The inner loop of [accept] computes the union the specification names,
    whatever the order in which the current states are visited. *)
Lemma accept_step_successors o A X symbol :
  accept_step o A X symbol = successors A X symbol.
Proof.
  apply set_eq. intros q. unfold accept_step, successors.
  rewrite (elem_of_foldl_union (λ state, targets A state symbol)).
  rewrite elem_of_set_bind. setoid_rewrite elem_of_set_order.
  split; [intros [Hq|?]; [by apply elem_of_empty in Hq | done] | by right].
Qed.

Lemma accept_run_from o A X symbols :
  foldl (accept_step o A) X symbols = run_from A X symbols.
Proof.
  revert X. induction symbols as [|x w IH]; intros X; simpl; [done|].
  by rewrite accept_step_successors, IH.
Qed.

Lemma accept_true o (A : NFA) (input : string) :
  accept o A input = true ↔ run A input ∩ _final_states A ≠ ∅.
Proof.
  unfold accept, run. rewrite accept_run_from. apply bool_decide_eq_true.
Qed.

(** C1.  [accept] returns true exactly when the set of states reached from
    [{initial_state}] by replacing, for each symbol of the input in order,
    the current set with the union of the targets of its members (a member
    without an entry adds nothing) meets the final states. *)
Theorem accept_iff_run o (A : NFA) (input : string) :
  accept o A input = true ↔
  foldl (λ current symbol,
           set_bind (λ state, default ∅ (_transitions A !! (state, symbol)))
                    current)
        {[_initial_state A]} (chars input) ∩ _final_states A ≠ ∅.
Proof. apply accept_true. Qed.

Lemma elem_of_run_from A X w q' :
  q' ∈ run_from A X w ↔ ∃ q, q ∈ X ∧ trace A q w q'.
Proof.
  revert X. induction w as [|x w IH]; intros X; simpl.
  - split.
    + intros ?. exists q'. split; [done | constructor].
    + intros (q & ? & Ht). by inversion Ht; subst.
  - rewrite IH. unfold successors. setoid_rewrite elem_of_set_bind. split.
    + intros (q1 & (q & ? & ?) & ?). exists q. split; [done|].
      by econstructor.
    + intros (q & ? & Ht). inversion Ht; subst. eauto.
Qed.

Lemma accept_iff_trace o A input :
  accept o A input = true ↔
  ∃ q, q ∈ _final_states A ∧ trace A (_initial_state A) (chars input) q.
Proof.
  rewrite accept_true. unfold run. split.
  - intros Hne. apply set_choose_L in Hne as [q Hq].
    apply elem_of_intersection in Hq as [Hq ?].
    apply elem_of_run_from in Hq as (q0 & Hq0 & ?).
    apply elem_of_singleton in Hq0 as ->. eauto.
  - intros (q & ? & ?) He.
    assert (q ∈ run_from A {[_initial_state A]} (chars input))
      by (apply elem_of_run_from; exists (_initial_state A); set_solver).
    set_solver.
Qed.

(** ** Codec: [load] after [save] *)

Lemma list_to_set_sorted (xs : list string) :
  (list_to_set (sorted xs) : gset string) = list_to_set xs.
Proof. apply list_to_set_perm_L, merge_sort_Permutation. Qed.

Lemma list_to_set_sorted_set_order o (X : gset string) :
  list_to_set (sorted (set_order o X)) = X.
Proof. by rewrite list_to_set_sorted, list_to_set_set_order. Qed.

(** The dictionary comprehension of [load], item by item. *)
Lemma load_transitions_lookup (o : IterOrder)
    (items : list (string * string * gset string))
    (acc : gmap (string * string) (gset string)) (k : string * string) :
  NoDup items.*1 →
  foldl (λ t '(v0, v1, v2), <[(v0, v1) := list_to_set v2]> t) acc
        ((λ '(k, v), (k.1, k.2, sorted (set_order o v))) <$> items) !! k =
  match list_find (λ kv, kv.1 = k) items with
  | Some (_, (_, v)) => Some v
  | None => acc !! k
  end.
Proof.
  revert acc. induction items as [|[[q x] v] items IH]; intros acc Hnd;
    simpl; [done|].
  apply NoDup_cons in Hnd as [Hnotin Hnd]. rewrite IH by done.
  destruct (list_find _ items) as [[i [k' v']]|] eqn:Hfind; simpl.
  - apply list_find_Some in Hfind as (Hi & Hk & _). simpl in Hk. subst k'.
    case_decide as Hqx; simpl; [|done].
    destruct Hnotin. subst k. apply list_elem_of_fmap.
    exists ((q, x), v'). split; [done|]. by eapply list_elem_of_lookup_2.
  - case_decide as Hqx; simpl.
    + subst k. by rewrite lookup_insert_eq, list_to_set_sorted_set_order.
    + by rewrite lookup_insert_ne.
Qed.

Lemma load_save_transitions (o : IterOrder) (m : gmap (string * string) (gset string)) :
  foldl (λ t '(v0, v1, v2), <[(v0, v1) := list_to_set v2]> t) ∅
        ((λ '(k, v), (k.1, k.2, sorted (set_order o v))) <$> dict_order o m)
  = m.
Proof.
  apply map_eq. intros k.
  rewrite load_transitions_lookup by apply NoDup_dict_order_keys.
  destruct (list_find _ _) as [[i [k' v]]|] eqn:Hfind.
  - apply list_find_Some in Hfind as (Hi & Hk & _). simpl in Hk. subst k'.
    symmetry. apply (elem_of_dict_order o). by eapply list_elem_of_lookup_2.
  - rewrite lookup_empty. symmetry. apply eq_None_not_Some. intros [v Hv].
    apply (elem_of_dict_order o) in Hv.
    eapply list_find_None, Forall_forall in Hfind; [|done]. by apply Hfind.
Qed.

Lemma load_save o A : load (save o A) = A.
Proof.
  destruct A as [Q Σ δ q0 F]. unfold load, save, NFA_init. simpl.
  by rewrite !list_to_set_sorted_set_order, load_save_transitions.
Qed.

(** C9.  Loading the record [save] produces gives back the automaton: the
    same states, alphabet, transition table, initial state and final states;
    so the loaded automaton accepts the same strings. *)
Theorem load_save_roundtrip o (A : NFA) :
  _states (load (save o A)) = _states A ∧
  _alphabet (load (save o A)) = _alphabet A ∧
  _transitions (load (save o A)) = _transitions A ∧
  _initial_state (load (save o A)) = _initial_state A ∧
  _final_states (load (save o A)) = _final_states A ∧
  ∀ o' input, accept o' (load (save o A)) input = accept o' A input.
Proof. by rewrite load_save. Qed.

(** ** Store: what [remove_state] leaves in the table *)

Lemma del_if_present_delete {V} (key : string * string)
    (d : gmap (string * string) V) :
  del_if_present key d = delete key d.
Proof.
  unfold del_if_present. case_decide as Hk; [done|].
  symmetry. apply delete_id. by apply eq_None_not_Some.
Qed.

Lemma delete_outgoing_lookup {V} (state : string) (symbols : list string)
    (t : gmap (string * string) V) (q x : string) :
  foldl (λ t symbol, del_if_present (state, symbol) t) t symbols !! (q, x) =
  if decide (q = state ∧ x ∈ symbols) then None else t !! (q, x).
Proof.
  revert t. induction symbols as [|y l IH]; intros t; simpl.
  - rewrite decide_False; [done|]. intros [_ Hx]. by inversion Hx.
  - rewrite IH, del_if_present_delete.
    destruct (decide (q = state ∧ x ∈ l)) as [[-> Hx]|Hn].
    + rewrite decide_True; [done|]. split; [done | by right].
    + destruct (decide ((state, y) = (q, x))) as [[= <- <-]|Hne].
      * rewrite lookup_delete_eq, decide_True; [done|]. split; [done|by left].
      * rewrite lookup_delete_ne by done.
        rewrite decide_False; [done|]. intros [-> Hx].
        apply elem_of_cons in Hx as [->|?]; [done | by destruct Hn].
Qed.

Lemma delete_column_lookup {V} (symbol : string) (states : list string)
    (t : gmap (string * string) V) (q x : string) :
  foldl (λ t state, del_if_present (state, symbol) t) t states !! (q, x) =
  if decide (x = symbol ∧ q ∈ states) then None else t !! (q, x).
Proof.
  revert t. induction states as [|y l IH]; intros t; simpl.
  - rewrite decide_False; [done|]. intros [_ Hx]. by inversion Hx.
  - rewrite IH, del_if_present_delete.
    destruct (decide (x = symbol ∧ q ∈ l)) as [[-> Hx]|Hn].
    + rewrite decide_True; [done|]. split; [done | by right].
    + destruct (decide ((y, symbol) = (q, x))) as [[= <- <-]|Hne].
      * rewrite lookup_delete_eq, decide_True; [done|]. split; [done|by left].
      * rewrite lookup_delete_ne by done.
        rewrite decide_False; [done|]. intros [-> Hx].
        apply elem_of_cons in Hx as [->|?]; [done | by destruct Hn].
Qed.

Lemma discard_targets_spec (state : string)
    (items : list (string * string * gset string))
    (t : gmap (string * string) (gset string)) (e : gset (string * string)) :
  NoDup items.*1 →
  (∀ k T',
      (foldl (discard_target state) (t, e) items).1 !! k = Some T' ↔
      (∃ T, (k, T) ∈ items ∧ T' = T ∖ {[state]}) ∨
      ((k ∉ items.*1) ∧ t !! k = Some T')) ∧
  (∀ k,
      k ∈ (foldl (discard_target state) (t, e) items).2 ↔
      k ∈ e ∨ ∃ T, (k, T) ∈ items ∧ T ∖ {[state]} = ∅).
Proof.
  revert t e. induction items as [|[k0 T0] items IH]; intros t e Hnd.
  - simpl. split; intros k.
    + intros T'. split; [intros ?; right; split; [|done] |].
      * by intros ?%elem_of_nil.
      * intros [(T & ?%elem_of_nil & _)|[_ ?]]; done.
    + split; [by left|]. intros [?|(T & ?%elem_of_nil & _)]; done.
  - apply NoDup_cons in Hnd as [Hk0 Hnd]. simpl.
    destruct (IH (<[k0 := T0 ∖ {[state]}]> t)
                 (if decide (T0 ∖ {[state]} = ∅) then {[k0]} ∪ e else e) Hnd)
      as [IHt IHe].
    split; intros k.
    + intros T'. rewrite IHt. split.
      * intros [(T & Hin & ->)|[Hnotin Hl]].
        { left. exists T. split; [by right | done]. }
        destruct (decide (k0 = k)) as [->|Hne].
        { rewrite lookup_insert_eq in Hl. injection Hl as <-.
          left. exists T0. split; [by left | done]. }
        rewrite lookup_insert_ne in Hl by done. right. split; [|done].
        simpl. intros [?|?]%elem_of_cons; done.
      * intros [(T & Hin & ->)|[Hnotin Hl]].
        { apply elem_of_cons in Hin as [[= -> ->]|Hin].
          - right. split; [done|]. by rewrite lookup_insert_eq.
          - left. eauto. }
        simpl in Hnotin. apply not_elem_of_cons in Hnotin as [Hne ?].
        right. split; [done|]. by rewrite lookup_insert_ne.
    + rewrite IHe. split.
      * intros [Hk|(T & Hin & HT)].
        { case_decide as HT0; [|by left].
          apply elem_of_union in Hk as [->%elem_of_singleton|?]; [|by left].
          right. exists T0. split; [by left | done]. }
        right. exists T. split; [by right | done].
      * intros [Hk|(T & Hin & HT)].
        { left. case_decide; [apply elem_of_union; by right | done]. }
        apply elem_of_cons in Hin as [[= -> ->]|Hin].
        { left. rewrite decide_True by done.
          apply elem_of_union. left. by apply elem_of_singleton. }
        right. eauto.
Qed.

Lemma delete_all_lookup {V} (keys : list (string * string))
    (t : gmap (string * string) V) (k : string * string) :
  foldl (λ t transition, delete transition t) t keys !! k =
  if decide (k ∈ keys) then None else t !! k.
Proof.
  revert t. induction keys as [|k0 l IH]; intros t.
  - cbn [foldl]. case_decide as Hin; [by apply elem_of_nil in Hin | done].
  - cbn [foldl]. rewrite IH. destruct (decide (k ∈ l)) as [Hin|Hn].
    + rewrite decide_True; [done | by right].
    + destruct (decide (k0 = k)) as [->|Hne].
      * rewrite lookup_delete_eq, decide_True; [done | by left].
      * rewrite lookup_delete_ne by done. rewrite decide_False; [done|].
        intros [?|?]%elem_of_cons; done.
Qed.

(** After [remove_state s] an entry is in the table exactly when it was
    there before, is not keyed by [s] with a symbol of the alphabet, and its
    target set without [s] is not empty; that set is its new value. *)
Lemma remove_state_lookup (o : IterOrder) (s : string) (A : NFA)
    (k : string * string) (T' : gset string) :
  s ≠ _initial_state A →
  _transitions (remove_state o s A) !! k = Some T' ↔
  ∃ T, _transitions A !! k = Some T ∧
       ¬ (k.1 = s ∧ k.2 ∈ _alphabet A) ∧
       T' = T ∖ {[s]} ∧ T' ≠ ∅.
Proof.
  intros Hs. unfold remove_state. rewrite decide_True by done.
  set (t1 := foldl _ (_transitions A) _).
  pose proof (discard_targets_spec s (dict_order o t1) t1 ∅
                (NoDup_dict_order_keys o t1)) as [Ht He].
  destruct (foldl (discard_target s) (t1, ∅) (dict_order o t1))
    as [t2 e] eqn:Hfold.
  simpl in *. rewrite delete_all_lookup.
  assert (Ht1 : ∀ T, t1 !! k = Some T ↔
                     _transitions A !! k = Some T ∧
                     ¬ (k.1 = s ∧ k.2 ∈ _alphabet A)).
  { intros T. destruct k as [q x]. unfold t1.
    rewrite delete_outgoing_lookup. simpl.
    destruct (decide (q = s ∧ x ∈ set_order o (_alphabet A))) as [Hd|Hd];
      rewrite elem_of_set_order in Hd; naive_solver. }
  assert (Ht2 : t2 !! k = Some T' ↔ ∃ T, t1 !! k = Some T ∧ T' = T ∖ {[s]}).
  { rewrite Ht. setoid_rewrite elem_of_dict_order. split.
    - intros [?|[Hnotin Hl]]; [done|]. destruct Hnotin.
      apply list_elem_of_fmap. exists (k, T'). split; [done|].
      by apply elem_of_dict_order.
    - intros ?. by left. }
  assert (Hke : k ∈ e ↔ ∃ T, t1 !! k = Some T ∧ T ∖ {[s]} = ∅).
  { rewrite He. setoid_rewrite elem_of_dict_order. split.
    - intros [?%elem_of_empty|?]; done.
    - intros ?. by right. }
  destruct (decide (k ∈ set_order o e)) as [Hin|Hin];
    rewrite elem_of_set_order in Hin.
  - split; [done|]. intros (T & HT & Hk & -> & Hne).
    apply Hke in Hin as (T2 & HT2 & Hempty). apply Ht1 in HT2 as [HT2 _].
    congruence.
  - rewrite Ht2. split.
    + intros (T & HT & ->). apply Ht1 in HT as [HT Hk].
      exists T. repeat split; try done.
      intros Hempty. apply Hin, Hke. exists T. split; [|done].
      by apply Ht1.
    + intros (T & HT & Hk & -> & Hne). exists T. split; [|done].
      by apply Ht1.
Qed.

Lemma remove_state_initial o A : remove_state o (_initial_state A) A = A.
Proof. unfold remove_state. by rewrite decide_False by auto. Qed.

Lemma remove_state_fields o s A :
  _alphabet (remove_state o s A) = _alphabet A ∧
  _initial_state (remove_state o s A) = _initial_state A ∧
  _states (remove_state o s A) ⊆ _states A ∧
  _final_states (remove_state o s A) ⊆ _final_states A.
Proof.
  unfold remove_state. case_decide; [|done].
  destruct (foldl (discard_target s) _ _). simpl. set_solver.
Qed.

(** ** Store: symbols of the transition keys *)

Lemma one_state_symbols : symbols_in_alphabet one_state.
Proof. intros q x T HT. cbn in HT. by rewrite lookup_empty in HT. Qed.

(** A store mutator that returns keeps invariant 3, provided the symbol
    given to [set_transition] with a non-empty target set is in the
    alphabet, and the entries [remove_symbol] is to delete are keyed by
    states of the state set. *)
Lemma run_op_keeps_symbols o (op : store_op) (A A' : NFA) :
  symbols_in_alphabet A →
  keeps_symbols A op →
  run_op o op A = Returns A' →
  symbols_in_alphabet A'.
Proof.
  intros Hinv Hop Hrun q x T HT.
  destruct op as [s|s|s|y|y|s y N]; simpl in Hrun, Hop.
  - injection Hrun as <-. revert HT. unfold add_state.
    case_decide; simpl; apply Hinv.
  - injection Hrun as <-.
    destruct (remove_state_fields o s A) as (-> & _).
    destruct (decide (s = _initial_state A)) as [->|Hs].
    + rewrite remove_state_initial in HT. by eapply Hinv.
    + apply remove_state_lookup in HT as (T0 & HT0 & _); [|done].
      by eapply Hinv.
  - injection Hrun as <-. revert HT. unfold toggle_final_state.
    repeat case_decide; simpl; apply Hinv.
  - injection Hrun as <-. simpl in *. apply elem_of_union. right.
    by eapply Hinv.
  - injection Hrun as <-. simpl in *.
    rewrite delete_column_lookup in HT. case_decide as Hd; [done|].
    apply elem_of_difference. split; [by eapply Hinv|].
    intros ->%elem_of_singleton. apply Hd. split; [done|].
    apply elem_of_set_order. simpl. by eapply Hop.
  - unfold set_transition in Hrun. repeat case_decide; try done;
      injection Hrun as <-; simpl in *.
    + destruct (decide ((s, y) = (q, x))) as [[= -> ->]|Hne].
      * by rewrite lookup_delete_eq in HT.
      * rewrite lookup_delete_ne in HT by done. by eapply Hinv.
    + destruct (decide ((s, y) = (q, x))) as [[= -> ->]|Hne].
      * by destruct Hop.
      * rewrite lookup_insert_ne in HT by done. by eapply Hinv.
Qed.

(** ** Minimizer: determinism through the pruning phases *)

Lemma is_deterministic_spec o A :
  is_deterministic o A = true ↔ deterministic A.
Proof.
  unfold is_deterministic, deterministic. rewrite forallb_forall. split.
  - intros Hall k T HT.
    apply (elem_of_dict_order o), list_elem_of_In, Hall in HT.
    by apply bool_decide_eq_true in HT.
  - intros Hdet [k T] Hin. apply bool_decide_eq_true.
    apply list_elem_of_In, elem_of_dict_order in Hin. by eapply Hdet.
Qed.

Lemma is_deterministic_false o A :
  is_deterministic o A = false ↔ ¬ deterministic A.
Proof.
  rewrite <- (is_deterministic_spec o).
  destruct (is_deterministic o A); naive_solver.
Qed.

Lemma remove_state_deterministic o s A :
  deterministic A → deterministic (remove_state o s A).
Proof.
  intros Hdet k T' HT'. destruct (decide (s = _initial_state A)) as [->|Hs].
  - rewrite remove_state_initial in HT'. by eapply Hdet.
  - apply remove_state_lookup in HT' as (T & HT & _ & -> & Hne); [|done].
    apply Hdet in HT. apply size_1_elem_of in HT as [x Hx].
    apply leibniz_equiv in Hx. subst T.
    destruct (decide (x = s)) as [->|Hxs].
    + destruct Hne. apply set_eq. intros y.
      rewrite elem_of_difference, elem_of_singleton. set_solver.
    + replace ({[x]} ∖ {[s]} : gset string) with ({[x]} : gset string).
      * apply size_singleton.
      * apply set_eq. intros y.
        rewrite elem_of_difference, !elem_of_singleton. naive_solver.
Qed.

Lemma remove_states_deterministic o (l : list string) A :
  deterministic A →
  deterministic (foldl (λ A s, remove_state o s A) A l).
Proof.
  revert A. induction l as [|s l IH]; intros A Hdet; simpl; [done|].
  by apply IH, remove_state_deterministic.
Qed.

Lemma remove_unreachable_deterministic o fuel A A' :
  deterministic A → remove_unreachable o fuel A = Returns A' →
  deterministic A'.
Proof.
  unfold remove_unreachable. intros Hdet.
  destruct (reachable_loop _ _ _ _ _); [|done].
  intros [= <-]. by apply remove_states_deterministic.
Qed.

Lemma remove_dead_deterministic o fuel A A' :
  deterministic A → remove_dead o fuel A = Returns A' → deterministic A'.
Proof.
  unfold remove_dead. intros Hdet.
  destruct (alive_loop _ _ _ _ _); [|done].
  intros [= <-]. by apply remove_states_deterministic.
Qed.

Lemma remove_unreachable_no_raise o fuel A e A' :
  remove_unreachable o fuel A ≠ Raises e A'.
Proof. unfold remove_unreachable. by destruct (reachable_loop _ _ _ _ _). Qed.

Lemma remove_dead_no_raise o fuel A e A' :
  remove_dead o fuel A ≠ Raises e A'.
Proof. unfold remove_dead. by destruct (alive_loop _ _ _ _ _). Qed.

(** ** Minimizer: [merge_equivalent] on a deterministic automaton *)

Lemma set_order_size_2 o (p : gset string) :
  size p = 2 →
  ∃ a b, set_order o p = [a; b] ∧ ({[a; b]} : gset string) = p.
Proof.
  intros Hsize. pose proof (list_to_set_set_order o p) as Hset.
  assert (Hlen : List.length (set_order o p) = 2).
  { rewrite <- Hsize. unfold size, set_size. simpl.
    apply Permutation_length, set_order_perm. }
  destruct (set_order o p) as [|a [|b [|c l]]]; try done.
  exists a, b. split; [done|]. rewrite <- Hset. simpl.
  by rewrite union_empty_r_L.
Qed.

Lemma first_of_nonempty o (T : gset string) :
  T ≠ ∅ → ∃ x, first_of o T = Value x.
Proof.
  intros Hne. unfold first_of.
  destruct (set_order o T) as [|x l] eqn:Hl; [|by eexists].
  destruct Hne. rewrite <- (list_to_set_set_order o T), Hl. done.
Qed.

Lemma first_of_transition o A (k : string * string) :
  deterministic A →
  ∃ x, first_of o (default {[""]} (_transitions A !! k)) = Value x.
Proof.
  intros Hdet. apply first_of_nonempty.
  destruct (_transitions A !! k) as [T|] eqn:HT; simpl.
  - apply Hdet in HT. intros ->. by rewrite size_empty in HT.
  - apply non_empty_singleton_L.
Qed.

Lemma are_undistinguishable_value o A a b U :
  deterministic A → ∃ r, _are_undistinguishable o A a b U = Value r.
Proof.
  intros Hdet. unfold _are_undistinguishable.
  induction (set_order o (_alphabet A)) as [|x l IH]; simpl; [by eexists|].
  destruct (first_of_transition o A (a, x) Hdet) as [ta ->].
  destruct (first_of_transition o A (b, x) Hdet) as [tb ->].
  case_decide; [by eexists | done].
Qed.

(** One pass over the copy neither fails to unpack a pair nor misses the
    pair it removes, and only removes pairs. *)
Lemma refine_pass_value o A C (pairs : list (gset string))
    (U : gset (gset string)) :
  deterministic A → NoDup pairs →
  (∀ p, p ∈ pairs → size p = 2 ∧ p ∈ U) →
  ∃ U', refine_pass o A C pairs U = Value U' ∧ U' ⊆ U.
Proof.
  intros Hdet. revert U. induction pairs as [|p l IH]; intros U Hnd Hin.
  - by exists U.
  - apply NoDup_cons in Hnd as [Hp Hnd].
    destruct (Hin p) as [Hsize HpU]; [by left|].
    destruct (set_order_size_2 o p Hsize) as (a & b & Hab & Hpab).
    simpl. rewrite Hab.
    destruct (are_undistinguishable_value o A a b C Hdet) as [[] ->].
    + apply IH; [done|]. intros p' Hp'. apply Hin. by right.
    + rewrite Hpab. rewrite decide_True by done.
      destruct (IH (U ∖ {[p]}) Hnd) as (U' & -> & Hsub).
      * intros p' Hp'. destruct (Hin p') as [? ?]; [by right|].
        split; [done|]. apply elem_of_difference. split; [done|].
        intros ->%elem_of_singleton. done.
      * exists U'. split; [done|]. set_solver.
Qed.

Lemma refine_loop_value o A fuel (U : gset (gset string)) :
  deterministic A → (∀ p, p ∈ U → size p = 2) →
  match refine_loop o fuel A U with
  | Some (Value U') => U' ⊆ U
  | Some (Error _) => False
  | None => True
  end.
Proof.
  intros Hdet. revert U. induction fuel as [|fuel IH]; intros U HU; [done|].
  simpl.
  destruct (refine_pass_value o A U (set_order o U) U Hdet)
    as (U' & -> & Hsub).
  { apply NoDup_set_order. }
  { intros p Hp%elem_of_set_order. auto. }
  case_decide; [done|].
  specialize (IH U'). destruct (refine_loop o fuel A U') as [[U''|e]|];
    [|apply IH; auto|done].
  etrans; [apply IH; auto | done].
Qed.

Lemma refine_loop_terminates o A fuel (U : gset (gset string)) :
  deterministic A → (∀ p, p ∈ U → size p = 2) → size U < fuel →
  refine_loop o fuel A U ≠ None.
Proof.
  intros Hdet. revert U. induction fuel as [|fuel IH]; intros U HU Hfuel;
    [lia|].
  simpl.
  destruct (refine_pass_value o A U (set_order o U) U Hdet)
    as (U' & -> & Hsub).
  { apply NoDup_set_order. }
  { intros p Hp%elem_of_set_order. auto. }
  case_decide as Hne; [done|]. apply IH; [auto|].
  assert (Hlt : U' ⊂ U) by (split; [done|]; intros ?; apply Hne; set_solver).
  apply subset_size in Hlt. lia.
Qed.

Lemma combinations2_distinct {X} (l : list X) a b :
  NoDup l → (a, b) ∈ combinations2 l → a ≠ b.
Proof.
  induction l as [|x l IH]; simpl; [by intros _ ?%elem_of_nil|].
  intros [Hx Hnd]%NoDup_cons [Hin|Hin]%elem_of_app; [|by apply IH].
  apply list_elem_of_fmap in Hin as (y & [= -> ->] & Hy). by intros ->.
Qed.

Lemma add_pairs_size (l : list (string * string))
    (U : gset (gset string)) p :
  (∀ a b, (a, b) ∈ l → a ≠ b) → (∀ p, p ∈ U → size p = 2) →
  p ∈ foldl (λ u '(a, b), {[ {[a; b]} ]} ∪ u) U l → size p = 2.
Proof.
  revert U. induction l as [|[a b] l IH]; intros U Hl HU; simpl; [apply HU|].
  apply IH; [intros; apply Hl; by right|].
  intros p' [->%elem_of_singleton|?]%elem_of_union; [|by apply HU].
  rewrite size_union, !size_singleton; [done|].
  apply disjoint_singleton_l, not_elem_of_singleton, Hl. by left.
Qed.

Lemma initial_pairs_size o A p : p ∈ initial_pairs o A → size p = 2.
Proof.
  unfold initial_pairs. apply add_pairs_size.
  - intros a b. apply combinations2_distinct, NoDup_set_order.
  - intros p'. apply add_pairs_size.
    + intros a b. apply combinations2_distinct, NoDup_set_order.
    + by intros ? ?%elem_of_empty.
Qed.

Lemma merge_all_returns o (l : list (gset string)) A :
  (∀ p, p ∈ l → size p = 2) →
  ∃ A', for_each (λ p A,
                    match set_order o p with
                    | [state_a; state_b] =>
                        Returns (_merge_states o state_a state_b A)
                    | _ => Raises ValueError A
                    end) l A = Returns A'.
Proof.
  revert A. induction l as [|p l IH]; intros A Hl; simpl; [by eexists|].
  destruct (set_order_size_2 o p) as (a & b & -> & _); [apply Hl; by left|].
  simpl. apply IH. intros; apply Hl; by right.
Qed.

(** On a deterministic automaton [merge_equivalent] raises nothing, and
    returns once the fuel exceeds the number of candidate pairs. *)
Lemma merge_equivalent_no_raise o fuel A e A' :
  deterministic A → merge_equivalent o fuel A ≠ Raises e A'.
Proof.
  intros Hdet. unfold merge_equivalent.
  rewrite (proj2 (is_deterministic_spec o A) Hdet). simpl.
  pose proof (refine_loop_value o A fuel (initial_pairs o A) Hdet
                (initial_pairs_size o A)) as Hloop.
  destruct (refine_loop o fuel A (initial_pairs o A)) as [[U|?]|];
    [|done..].
  destruct (merge_all_returns o (set_order o U) A) as [A'' ->]; [|done].
  intros p Hp%elem_of_set_order. by apply (initial_pairs_size o A), Hloop.
Qed.

Lemma merge_equivalent_returns o fuel A :
  deterministic A → size (initial_pairs o A) < fuel →
  ∃ A', merge_equivalent o fuel A = Returns A'.
Proof.
  intros Hdet Hfuel. unfold merge_equivalent.
  rewrite (proj2 (is_deterministic_spec o A) Hdet). simpl.
  pose proof (refine_loop_value o A fuel (initial_pairs o A) Hdet
                (initial_pairs_size o A)) as Hloop.
  pose proof (refine_loop_terminates o A fuel (initial_pairs o A) Hdet
                (initial_pairs_size o A) Hfuel) as Hterm.
  destruct (refine_loop o fuel A (initial_pairs o A)) as [[U|?]|];
    [|done..].
  apply merge_all_returns.
  intros p Hp%elem_of_set_order. by apply (initial_pairs_size o A), Hloop.
Qed.

(** ** Minimizer: the fixpoint loops end *)

Lemma foldl_preserves {X Y} (P : X → Prop) (f : X → Y → X) (l : list Y)
    (x : X) :
  P x → (∀ x y, y ∈ l → P x → P (f x y)) → P (foldl f x l).
Proof.
  revert x. induction l as [|y l IH]; intros x Hx Hf; simpl; [done|].
  apply IH.
  - apply Hf; [by left | done].
  - intros x' y' ?. apply Hf. by right.
Qed.

Lemma lookup_all_targets A (k : string * string) T :
  _transitions A !! k = Some T → T ⊆ all_targets A.
Proof.
  intros HT x Hx. apply elem_of_union_list. exists T. split; [|done].
  apply list_elem_of_fmap. exists (k, T). split; [done|].
  by apply elem_of_map_to_list.
Qed.

Lemma default_targets_subseteq A (k : string * string) :
  default ∅ (_transitions A !! k) ⊆ all_targets A.
Proof.
  destruct (_transitions A !! k) eqn:HT; simpl; [|set_solver].
  by eapply lookup_all_targets.
Qed.

Lemma lookup_key_states A (q x : string) T :
  _transitions A !! (q, x) = Some T → q ∈ key_states A.
Proof.
  intros HT. apply elem_of_list_to_set, list_elem_of_fmap.
  exists (q, x). split; [done|]. apply list_elem_of_fmap.
  exists ((q, x), T). split; [done|]. by apply elem_of_map_to_list.
Qed.

Lemma reachable_loop_terminates o A (k : nat) (R N : gset string) :
  R ⊆ {[_initial_state A]} ∪ all_targets A →
  N ⊆ {[_initial_state A]} ∪ all_targets A →
  (size (({[_initial_state A]} ∪ all_targets A) ∖ R) ≤ k)%nat →
  ∃ r, ∀ n, (k ≤ n)%nat → reachable_loop o n A R N = Some r.
Proof.
  set (U := {[_initial_state A]} ∪ all_targets A).
  revert R N. induction k as [|k IH]; intros R N HR HN Hsize.
  - exists R. intros n _.
    assert (N ⊆ R).
    { assert (Hz : size (U ∖ R) = 0) by lia.
      apply size_empty_inv in Hz. set_solver. }
    destruct n; simpl; by rewrite decide_True.
  - destruct (decide (N ⊆ R)) as [Hsub|Hsub].
    { exists R. intros n _. destruct n; simpl; by rewrite decide_True. }
    set (N' := foldl (λ acc state,
                   foldl (λ acc symbol,
                            acc ∪ default ∅ (_transitions A !! (state, symbol)))
                         acc (set_order o (_alphabet A)))
                 ∅ (set_order o N)).
    destruct (IH (R ∪ N) N') as [r Hr].
    + set_solver.
    + unfold N'. apply (foldl_preserves (λ acc, acc ⊆ U)); [set_solver|].
      intros acc state _ Hacc.
      apply (foldl_preserves (λ acc, acc ⊆ U)); [done|].
      intros acc' symbol _ Hacc'.
      pose proof (default_targets_subseteq A (state, symbol)).
      unfold U. set_solver.
    + assert (Hlt : U ∖ (R ∪ N) ⊂ U ∖ R).
      { split; [set_solver|]. intros Hs. apply Hsub. intros x Hx.
        destruct (decide (x ∈ R)); [done|].
        assert (x ∈ U ∖ (R ∪ N)) by set_solver. set_solver. }
      apply subset_size in Hlt. lia.
    + exists r. intros [|n] Hn; [lia|]. simpl.
      rewrite decide_False by done. apply Hr. lia.
Qed.

Lemma alive_loop_terminates o A (k : nat) (R N : gset string) :
  R ⊆ _final_states A ∪ key_states A →
  N ⊆ _final_states A ∪ key_states A →
  (size ((_final_states A ∪ key_states A) ∖ R) ≤ k)%nat →
  ∃ r, ∀ n, (k ≤ n)%nat → alive_loop o n A R N = Some r.
Proof.
  set (U := _final_states A ∪ key_states A).
  revert R N. induction k as [|k IH]; intros R N HR HN Hsize.
  - exists R. intros n _.
    assert (N ⊆ R).
    { assert (Hz : size (U ∖ R) = 0) by lia.
      apply size_empty_inv in Hz. set_solver. }
    destruct n; simpl; by rewrite decide_True.
  - destruct (decide (N ⊆ R)) as [Hsub|Hsub].
    { exists R. intros n _. destruct n; simpl; by rewrite decide_True. }
    set (N' := foldl (λ (acc : gset string) '((state, _), next_states),
                   if existsb (λ next_state,
                                 bool_decide (next_state ∈ R ∪ N))
                              (set_order o next_states)
                   then {[state]} ∪ acc else acc)
                 ∅ (dict_order o (_transitions A))).
    destruct (IH (R ∪ N) N') as [r Hr].
    + set_solver.
    + unfold N'. apply (foldl_preserves (λ acc, acc ⊆ U)); [set_solver|].
      intros acc [[q x] T] Hin%elem_of_dict_order Hacc.
      apply lookup_key_states in Hin.
      destruct (existsb _ _); [|done]. unfold U. set_solver.
    + assert (Hlt : U ∖ (R ∪ N) ⊂ U ∖ R).
      { split; [set_solver|]. intros Hs. apply Hsub. intros x Hx.
        destruct (decide (x ∈ R)); [done|].
        assert (x ∈ U ∖ (R ∪ N)) by set_solver. set_solver. }
      apply subset_size in Hlt. lia.
    + exists r. intros [|n] Hn; [lia|]. simpl.
      rewrite decide_False by done. apply Hr. lia.
Qed.

Lemma remove_unreachable_returns o A :
  ∃ fuel0 A', ∀ fuel, (fuel0 ≤ fuel)%nat →
    remove_unreachable o fuel A = Returns A'.
Proof.
  destruct (reachable_loop_terminates o A
              (size ({[_initial_state A]} ∪ all_targets A))
              ∅ {[_initial_state A]}) as [r Hr].
  - set_solver.
  - set_solver.
  - apply subseteq_size. set_solver.
  - eexists _, _. intros fuel Hfuel. unfold remove_unreachable.
    by rewrite Hr.
Qed.

Lemma remove_dead_returns o A :
  ∃ fuel0 A', ∀ fuel, (fuel0 ≤ fuel)%nat → remove_dead o fuel A = Returns A'.
Proof.
  destruct (alive_loop_terminates o A
              (size (_final_states A ∪ key_states A))
              ∅ (_final_states A)) as [r Hr].
  - set_solver.
  - set_solver.
  - apply subseteq_size. set_solver.
  - eexists _, _. intros fuel Hfuel. unfold remove_dead. by rewrite Hr.
Qed.

(** ** Minimizer: when [minimize] raises *)

(** C7.  [minimize] raises the "non-deterministic" error exactly when
    [is_deterministic] is false at the call; whatever it raises, it raises
    that error and the automaton is as it was.  On a deterministic automaton
    it returns (with enough fuel for its three loops). *)
Theorem minimize_raises o (A : NFA) :
  (∀ fuel,
      (∃ A', minimize o fuel A = Raises non_deterministic A') ↔
      is_deterministic o A = false) ∧
  (∀ fuel e A',
      minimize o fuel A = Raises e A' → e = non_deterministic ∧ A' = A) ∧
  (is_deterministic o A = true →
     ∃ fuel0, ∀ fuel, (fuel0 ≤ fuel)%nat →
       ∃ A', minimize o fuel A = Returns A').
Proof.
  assert (Hno : is_deterministic o A = true →
                ∀ fuel e A', minimize o fuel A ≠ Raises e A').
  { intros Hdet fuel e A'. unfold minimize. rewrite Hdet. simpl.
    apply is_deterministic_spec in Hdet.
    destruct (remove_unreachable o fuel A) as [A1|e1 A1|] eqn:H1; simpl;
      [|by apply remove_unreachable_no_raise in H1|done].
    apply remove_unreachable_deterministic in H1; [|done].
    destruct (remove_dead o fuel A1) as [A2|e2 A2|] eqn:H2; simpl;
      [|by apply remove_dead_no_raise in H2|done].
    apply remove_dead_deterministic in H2; [|done].
    by apply merge_equivalent_no_raise. }
  split; [|split].
  - intros fuel. split.
    + intros [A' Hr]. destruct (is_deterministic o A) eqn:Hdet; [|done].
      by apply Hno in Hr.
    + intros Hdet. exists A. unfold minimize. by rewrite Hdet.
  - intros fuel e A' Hr. destruct (is_deterministic o A) eqn:Hdet.
    + by apply Hno in Hr.
    + unfold minimize in Hr. rewrite Hdet in Hr. simpl in Hr.
      by injection Hr as <- <-.
  - intros Hdet. unfold minimize. rewrite Hdet. simpl.
    apply is_deterministic_spec in Hdet.
    destruct (remove_unreachable_returns o A) as (n1 & A1 & H1).
    assert (Hdet1 : deterministic A1).
    { eapply remove_unreachable_deterministic; [done|]. by apply (H1 n1). }
    destruct (remove_dead_returns o A1) as (n2 & A2 & H2).
    assert (Hdet2 : deterministic A2).
    { eapply remove_dead_deterministic; [apply Hdet1|]. by apply (H2 n2). }
    exists (Nat.max (Nat.max n1 n2) (S (size (initial_pairs o A2)))).
    intros fuel Hfuel. rewrite H1 by lia. simpl. rewrite H2 by lia. simpl.
    apply merge_equivalent_returns; [done | lia].
Qed.

Lemma minimize_raises_witness :
  ∃ fuel0, ∀ fuel, (fuel0 ≤ fuel)%nat →
    ∃ A', minimize canonical fuel two_states = Returns A'.
Proof.
  apply (proj2 (proj2 (minimize_raises canonical two_states))).
  vm_compute. reflexivity.
Defined.

(** ** Union: the new initial state *)

Lemma rename_all_lookup (bs : gmap string string) (l : list string)
    (X : gset string) q :
  rename_all bs l = Value X → q ∈ l →
  ∃ v, bs !! q = Some v ∧ v ∈ X.
Proof.
  revert X. induction l as [|x l IH]; intros X Hr Hq; [by inversion Hq|].
  simpl in Hr. unfold lookup_name in Hr.
  destruct (bs !! x) as [v|] eqn:Hx; [|done].
  destruct (rename_all bs l) as [Y|] eqn:Hl; [|done].
  injection Hr as <-. apply elem_of_cons in Hq as [->|Hq].
  - exists v. split; [done|]. set_solver.
  - destruct (IH Y eq_refl Hq) as (v' & ? & ?). exists v'. set_solver.
Qed.

(** A renaming that returns sends the initial state and every final state
    through the dictionary. *)
Lemma beautify_returns o (bs : gmap string string) A A' :
  _beautify o bs A = Returns A' →
  ∃ v, bs !! _initial_state A = Some v ∧ _initial_state A' = v ∧
       ∀ q, q ∈ _final_states A →
            ∃ v', bs !! q = Some v' ∧ v' ∈ _final_states A'.
Proof.
  unfold _beautify, lookup_name.
  destruct (bs !! _initial_state A) as [v|] eqn:Hv; [|done].
  destruct (rename_transitions _ _ _ _) as [t|]; [|done].
  simpl. destruct (rename_all _ _) as [F|] eqn:HF; [|done].
  intros [= <-]. exists v. split; [done|]. split; [done|].
  intros q Hq. simpl. eapply rename_all_lookup; [done|].
  by apply elem_of_set_order.
Qed.

Lemma beautify_initial_final o (bs : gmap string string) A A' :
  _beautify o bs A = Returns A' →
  _initial_state A ∈ _final_states A →
  _initial_state A' ∈ _final_states A'.
Proof.
  intros (v & Hv & -> & HF)%beautify_returns Hin.
  destruct (HF _ Hin) as (v' & Hv' & ?). congruence.
Qed.

(** C3 fails on the code: whenever [union] returns, the initial state of
    the result is final, whether or not an initial state of the operands
    was.  The test [intersection(...) != None] compares a set with [None]
    and always holds. *)
Theorem union_initial_always_final o (self automaton self' automaton' : NFA) :
  union o self automaton = Returns (self', automaton') →
  _initial_state self' ∈ _final_states self'.
Proof.
  unfold union. case_decide; [done|].
  destruct (beautify_abc o self) as [self1| |]; [|done..].
  destruct (beautify_qn o automaton) as [automaton1| |]; [|done..].
  rewrite decide_True by done.
  match goal with
  | |- match beautify_qn o ?A with _ => _ end = _ → _ => set (self7 := A)
  end.
  destruct (beautify_qn o self7) as [self8| |] eqn:Hqn; [|done..].
  intros [= <- <-]. unfold beautify_qn in Hqn.
  eapply beautify_initial_final; [exact Hqn|].
  simpl. set_solver.
Qed.

Lemma union_initial_always_final_witness :
  (_initial_state lone_a ∉ _final_states lone_a) ∧
  (_initial_state lone_b ∉ _final_states lone_b) ∧
  ∃ self' automaton',
    union canonical lone_a lone_b = Returns (self', automaton') ∧
    _initial_state self' ∈ _final_states self'.
Proof.
  split; [apply not_elem_of_empty|]. split; [apply not_elem_of_empty|].
  eexists _, _. split.
  - vm_compute. reflexivity.
  - eapply (union_initial_always_final canonical lone_a lone_b).
    vm_compute. reflexivity.
Defined.

(** ** Finiteness: a finite language [is_finite] rejects *)

Lemma set_order_pair o (x y : string) :
  x ≠ y →
  set_order o ({[x; y]} : gset string) = [x; y] ∨
  set_order o ({[x; y]} : gset string) = [y; x].
Proof.
  intros Hxy.
  destruct (set_order_size_2 o {[x; y]}) as (a & b & Hab & Hset).
  { rewrite size_union, !size_singleton; [done|].
    by apply disjoint_singleton_l, not_elem_of_singleton. }
  rewrite Hab.
  assert (Ha : a ∈ ({[x; y]} : gset string)) by (rewrite <- Hset; set_solver).
  assert (Hb : b ∈ ({[x; y]} : gset string)) by (rewrite <- Hset; set_solver).
  assert (Hx : x ∈ ({[a; b]} : gset string)) by (rewrite Hset; set_solver).
  assert (Hy : y ∈ ({[a; b]} : gset string)) by (rewrite Hset; set_solver).
  apply elem_of_union in Ha as [->%elem_of_singleton| ->%elem_of_singleton];
    apply elem_of_union in Hb as [->%elem_of_singleton| ->%elem_of_singleton];
    try (by left); try (by right); set_solver.
Qed.

Lemma length_chars (s : string) : List.length (chars s) = String.length s.
Proof.
  unfold chars. rewrite length_fmap.
  induction s as [|c s IH]; simpl; [done | by rewrite IH].
Qed.

Lemma find_reachable_singleton o A (state symbol : string) :
  _find_reachable o A {[state]} symbol = targets A state symbol.
Proof.
  unfold _find_reachable, targets. rewrite set_order_singleton. simpl.
  destruct (_transitions A !! (state, symbol)); simpl; set_solver.
Qed.

(** One call of [_has_recursion], with the loop over the alphabet read as
    the union it computes. *)
Lemma has_recursion_step o (fuel : nat) A (state : string)
    (to_visit : list string) (visited : gset string) :
  _has_recursion o (S fuel) A (state :: to_visit) visited =
  if decide (all_successors A state ∩ ({[state]} ∪ visited) ≠ ∅)
  then Some true
  else _has_recursion o fuel A
         (to_visit ++
          set_order o (all_successors A state ∖ ({[state]} ∪ visited)))
         ({[state]} ∪ visited).
Proof.
  simpl.
  replace (foldl _ ∅ (set_order o (_alphabet A)))
    with (all_successors A state); [done|].
  apply set_eq. intros q. unfold all_successors.
  rewrite (elem_of_foldl_union
             (λ symbol, _find_reachable o A {[state]} symbol)).
  rewrite elem_of_set_bind. setoid_rewrite elem_of_set_order.
  setoid_rewrite find_reachable_singleton.
  split; [by right | intros [Hq|?]; [by apply elem_of_empty in Hq | done]].
Qed.

Lemma dag_edge_rank (q symbol q' : string) :
  q' ∈ targets dag q symbol → dag_rank q + 1 ≤ dag_rank q'.
Proof.
  unfold targets.
  destruct (_transitions dag !! (q, symbol)) as [T|] eqn:HT; simpl;
    [|by intros ?%elem_of_empty].
  apply elem_of_list_to_map_2 in HT. unfold dag_transitions in HT.
  repeat (apply elem_of_cons in HT as [[= -> -> ->]|HT];
          [intros ->%elem_of_singleton; vm_compute; lia|]).
  by apply elem_of_nil in HT.
Qed.

Lemma dag_trace_rank (q : string) (w : list string) (q' : string) :
  trace dag q w q' → dag_rank q + List.length w ≤ dag_rank q'.
Proof.
  induction 1 as [q|q symbol q1 w q2 Hstep _ IH]; simpl; [lia|].
  apply dag_edge_rank in Hstep. lia.
Qed.

Lemma dag_rank_bound (q : string) : dag_rank q ≤ 3.
Proof. unfold dag_rank. repeat case_decide; lia. Qed.

(** C5 fails on the code: [is_finite] answers false for [dag], in whatever
    order the sets are iterated, though [dag] accepts no string longer than
    three symbols (and accepts [xxx]).  The search reports a state found
    again after it was visited, which happens in any graph where two paths
    of different length meet. *)
Theorem is_finite_rejects_dag o (fuel : nat) :
  is_finite o (4 + fuel) dag = Some false ∧
  (∀ o' input, accept o' dag input = true → String.length input ≤ 3) ∧
  (∀ o', accept o' dag "xxx" = true).
Proof.
  split; [|split].
  - unfold is_finite.
    assert (Hac : ("a" : string) ≠ "c") by done.
    change (4 + fuel) with (S (S (S (S fuel)))).
    change (_initial_state dag) with "q0".
    rewrite has_recursion_step.
    replace (all_successors dag "q0") with ({["a"; "c"]} : gset string)
      by (by vm_compute).
    rewrite decide_False; [|intros Hne; apply Hne; by vm_compute].
    replace (({["a"; "c"]} : gset string) ∖ ({["q0"]} ∪ ∅))
      with ({["a"; "c"]} : gset string) by (by vm_compute).
    simpl app.
    destruct (set_order_pair o "a" "c" Hac) as [-> | ->].
    + rewrite has_recursion_step.
      replace (all_successors dag "a") with ({["b"]} : gset string)
        by (by vm_compute).
      rewrite decide_False; [|intros Hne; apply Hne; by vm_compute].
      replace (({["b"]} : gset string) ∖ ({["a"]} ∪ ({["q0"]} ∪ ∅)))
        with ({["b"]} : gset string) by (by vm_compute).
      rewrite set_order_singleton. simpl app.
      rewrite has_recursion_step.
      replace (all_successors dag "c") with (∅ : gset string)
        by (by vm_compute).
      rewrite decide_False; [|intros Hne; apply Hne; by vm_compute].
      replace ((∅ : gset string) ∖ ({["c"]} ∪ ({["a"]} ∪ ({["q0"]} ∪ ∅))))
        with (∅ : gset string) by (by vm_compute).
      rewrite set_order_empty. simpl app.
      rewrite has_recursion_step.
      replace (all_successors dag "b") with ({["c"]} : gset string)
        by (by vm_compute).
      rewrite decide_True; [done|]. intros Heq.
      assert (Hc : "c" ∈ (∅ : gset string)) by (rewrite <- Heq; set_solver).
      by apply elem_of_empty in Hc.
    + rewrite has_recursion_step.
      replace (all_successors dag "c") with (∅ : gset string)
        by (by vm_compute).
      rewrite decide_False; [|intros Hne; apply Hne; by vm_compute].
      replace ((∅ : gset string) ∖ ({["c"]} ∪ ({["q0"]} ∪ ∅)))
        with (∅ : gset string) by (by vm_compute).
      rewrite set_order_empty. simpl app.
      rewrite has_recursion_step.
      replace (all_successors dag "a") with ({["b"]} : gset string)
        by (by vm_compute).
      rewrite decide_False; [|intros Hne; apply Hne; by vm_compute].
      replace (({["b"]} : gset string) ∖ ({["a"]} ∪ ({["c"]} ∪ ({["q0"]} ∪ ∅))))
        with ({["b"]} : gset string) by (by vm_compute).
      rewrite set_order_singleton. simpl app.
      rewrite has_recursion_step.
      replace (all_successors dag "b") with ({["c"]} : gset string)
        by (by vm_compute).
      rewrite decide_True; [done|]. intros Heq.
      assert (Hc : "c" ∈ (∅ : gset string)) by (rewrite <- Heq; set_solver).
      by apply elem_of_empty in Hc.
  - intros o' input (q & _ & Htrace)%accept_iff_trace.
    apply dag_trace_rank in Htrace. rewrite length_chars in Htrace.
    pose proof (dag_rank_bound q). change (dag_rank "q0") with 0 in Htrace.
    simpl in Htrace. lia.
  - intros o'. apply accept_true. intros Heq.
    assert (Hc : "c" ∈ (∅ : gset string)).
    { rewrite <- Heq. by vm_compute. }
    by apply elem_of_empty in Hc.
Qed.

(** ** Emptiness: what [is_empty] does to its receiver *)

Lemma cycle_well_formed :
  Shared._initial_state Shared.cycle ∈ Shared._states Shared.cycle ∧
  Shared._final_states Shared.cycle ⊆ Shared._states Shared.cycle ∧
  (∀ q x T, Shared.table Shared.cycle_store Shared.cycle !! (q, x) = Some T →
            q ∈ Shared._states Shared.cycle ∧
            x ∈ Shared._alphabet Shared.cycle ∧
            T ⊆ Shared._states Shared.cycle ∧ T ≠ ∅).
Proof.
  split; [by vm_compute|]. split; [set_solver|].
  intros q x T HT.
  assert (Hin : ((q, x), T) ∈
                map_to_list (Shared.table Shared.cycle_store Shared.cycle))
    by by apply elem_of_map_to_list.
  replace (map_to_list (Shared.table Shared.cycle_store Shared.cycle))
    with [(("q1", "a"), ({["q2"]} : gset string));
          (("q2", "a"), ({["q1"]} : gset string))] in Hin
    by (by vm_compute).
  repeat (apply elem_of_cons in Hin as [[= -> -> ->]|Hin];
          [cbn; split_and!; [set_solver..|by apply non_empty_singleton_L]|]).
  by apply elem_of_nil in Hin.
Qed.

(** The second loop of [Shared.remove_state]: every set object the table
    refers to loses the state, however often it is referred to; the keys
    noted are those whose set is then empty. *)
Lemma shared_discard_targets_spec (state : string)
    (items : list (string * string * positive)) (h : Shared.store)
    (e : gset (string * string)) :
  (∀ r, (foldl (Shared.discard_target state) (h, e) items).1 !! r =
        if decide (r ∈ items.*2)
        then Some (Shared.deref h r ∖ {[state]}) else h !! r) ∧
  (∀ k, k ∈ (foldl (Shared.discard_target state) (h, e) items).2 ↔
        k ∈ e ∨ ∃ r, (k, r) ∈ items ∧ Shared.deref h r ∖ {[state]} = ∅).
Proof.
  revert h e. induction items as [|[k0 r0] items IH]; intros h e.
  - cbn [foldl fst snd]. split.
    + intros r. case_decide as Hin; [by apply elem_of_nil in Hin | done].
    + intros k. split; [by left|].
      intros [?|(r & Hin & _)]; [done | by apply elem_of_nil in Hin].
  - cbn [foldl Shared.discard_target].
    set (h' := <[r0 := Shared.deref h r0 ∖ {[state]}]> h).
    assert (Hderef : ∀ r, Shared.deref h' r ∖ {[state]} =
                          Shared.deref h r ∖ {[state]}).
    { intros r. unfold Shared.deref, h'.
      destruct (decide (r0 = r)) as [->|Hne].
      - rewrite lookup_insert_eq. simpl. set_solver.
      - by rewrite lookup_insert_ne. }
    assert (Hr0 : Shared.deref h' r0 = Shared.deref h r0 ∖ {[state]}).
    { unfold Shared.deref at 1, h'. by rewrite lookup_insert_eq. }
    rewrite Hr0.
    set (e' := if decide (Shared.deref h r0 ∖ {[state]} = ∅)
               then {[k0]} ∪ e else e).
    assert (He' : ∀ k, k ∈ e' ↔
                       k ∈ e ∨ (k = k0 ∧ Shared.deref h r0 ∖ {[state]} = ∅)).
    { intros k. unfold e'. case_decide; set_solver. }
    destruct (IH h' e') as [IHh IHe]. clearbody e'.
    split.
    + intros r. rewrite IHh. rewrite Hderef. cbn [fmap list_fmap snd].
      destruct (decide (r ∈ items.*2)) as [Hin|Hin].
      * rewrite decide_True; [done | by right].
      * destruct (decide (r = r0)) as [->|Hne].
        -- rewrite decide_True by (by left).
           unfold h'. by rewrite lookup_insert_eq.
        -- rewrite decide_False by (by intros [?|?]%elem_of_cons).
           unfold h'. by rewrite lookup_insert_ne.
    + intros k. rewrite IHe, He'. setoid_rewrite Hderef. split.
      * intros [[Hk|[-> Hd]]|(r & Hin & Hr)].
        -- by left.
        -- right. exists r0. split; [by left | done].
        -- right. exists r. split; [by right | done].
      * intros [Hk|(r & Hin & Hr)].
        -- left. by left.
        -- apply elem_of_cons in Hin as [[= -> ->]|Hin].
           ++ left. by right.
           ++ right. eauto.
Qed.

(** [Shared.remove_state] has the same effect in every iteration order. *)
Lemma shared_remove_state_order o o' (state : string)
    (hA : Shared.store * Shared.NFA) :
  Shared.remove_state o state hA = Shared.remove_state o' state hA.
Proof.
  destruct hA as [h A]. unfold Shared.remove_state. case_decide; [|done].
  assert (Ht1 :
    foldl (λ t symbol, del_if_present (state, symbol) t)
          (Shared._transitions A) (set_order o (Shared._alphabet A)) =
    foldl (λ t symbol, del_if_present (state, symbol) t)
          (Shared._transitions A) (set_order o' (Shared._alphabet A))).
  { apply map_eq. intros [q x]. rewrite !delete_outgoing_lookup.
    destruct (decide (q = state ∧ x ∈ set_order o (Shared._alphabet A)))
      as [Hd|Hd]; rewrite elem_of_set_order in Hd;
      destruct (decide (q = state ∧ x ∈ set_order o' (Shared._alphabet A)))
        as [Hd'|Hd']; rewrite elem_of_set_order in Hd'; done. }
  rewrite <- Ht1. set (t1 := foldl _ (Shared._transitions A) _).
  pose proof (shared_discard_targets_spec state (dict_order o t1) h ∅)
    as [Hh He].
  pose proof (shared_discard_targets_spec state (dict_order o' t1) h ∅)
    as [Hh' He'].
  destruct (foldl (Shared.discard_target state) (h, ∅) (dict_order o t1))
    as [h2 e2].
  destruct (foldl (Shared.discard_target state) (h, ∅) (dict_order o' t1))
    as [h2' e2'].
  simpl in *.
  assert (Hin : ∀ (k : string * string) (r : positive),
            (k, r) ∈ dict_order o t1 ↔ (k, r) ∈ dict_order o' t1).
  { intros k r. by rewrite !elem_of_dict_order. }
  assert (h2 = h2') as <-.
  { apply map_eq. intros r. rewrite Hh, Hh'.
    destruct (decide (r ∈ (dict_order o t1).*2)) as [Hr|Hr];
      destruct (decide (r ∈ (dict_order o' t1).*2)) as [Hr'|Hr']; try done.
    - destruct Hr'. apply list_elem_of_fmap in Hr as ([k r'] & -> & Hkr).
      apply list_elem_of_fmap. exists (k, r'). split; [done | by apply Hin].
    - destruct Hr. apply list_elem_of_fmap in Hr' as ([k r'] & -> & Hkr).
      apply list_elem_of_fmap. exists (k, r'). split; [done | by apply Hin]. }
  assert (e2 = e2') as <-.
  { apply set_eq. intros k. rewrite He, He'. by setoid_rewrite Hin. }
  do 2 f_equal. apply map_eq. intros k. rewrite !delete_all_lookup.
  destruct (decide (k ∈ set_order o e2)) as [Hd|Hd];
    rewrite elem_of_set_order in Hd;
    destruct (decide (k ∈ set_order o' e2)) as [Hd'|Hd'];
    rewrite elem_of_set_order in Hd'; done.
Qed.

Lemma elem_of_foldl_union2 (f : string → string → gset string)
    (l1 l2 : list string) (acc : gset string) q :
  q ∈ foldl (λ acc state, foldl (λ acc symbol, acc ∪ f state symbol) acc l2)
            acc l1 ↔
  q ∈ acc ∨ ∃ state symbol, state ∈ l1 ∧ symbol ∈ l2 ∧ q ∈ f state symbol.
Proof.
  revert acc. induction l1 as [|y l1 IH]; intros acc; simpl.
  - split; [by left|]. intros [?|(? & ? & Hin & _)]; [done|].
    by apply elem_of_nil in Hin.
  - rewrite IH, (elem_of_foldl_union (f y)). split.
    + intros [[?|(x & ? & ?)]|(s & x & ? & ? & ?)].
      * by left.
      * right. exists y, x. split; [by left | done].
      * right. exists s, x. split; [by right | done].
    + intros [?|(s & x & [->|?]%elem_of_cons & ? & ?)].
      * left. by left.
      * left. right. eauto.
      * right. eauto.
Qed.

Lemma shared_reachable_loop_order o o' (fuel : nat) h A
    (R N : gset string) :
  Shared.reachable_loop o fuel h A R N =
  Shared.reachable_loop o' fuel h A R N.
Proof.
  revert R N. induction fuel as [|fuel IH]; intros R N; simpl; [done|].
  case_decide; [done|]. rewrite IH. f_equal.
  apply set_eq. intros q.
  rewrite !(elem_of_foldl_union2
              (λ state symbol,
                 default ∅ (Shared.deref h <$>
                            Shared._transitions A !! (state, symbol)))).
  by setoid_rewrite elem_of_set_order.
Qed.

Lemma shared_remove_states_order o o' (l : list string)
    (hA : Shared.store * Shared.NFA) :
  foldl (λ hA s, Shared.remove_state o s hA) hA l =
  foldl (λ hA s, Shared.remove_state o' s hA) hA l.
Proof.
  revert hA. induction l as [|s l IH]; intros hA; simpl; [done|].
  by rewrite IH, (shared_remove_state_order o o').
Qed.

(** C4 fails on the code: on [cycle], whichever of the two unreachable
    states is removed first, [is_empty] empties a target set the receiver's
    table still refers to.  The receiver's transition function is not what
    it was, and holds an entry with an empty target set. *)
Theorem is_empty_changes_receiver o (fuel : nat) :
  ∃ answer h',
    Shared.is_empty o (2 + fuel) Shared.cycle_store Shared.cycle =
      Some (answer, h') ∧
    Shared.table h' Shared.cycle ≠
      Shared.table Shared.cycle_store Shared.cycle ∧
    ∃ k, Shared.table h' Shared.cycle !! k = Some ∅.
Proof.
  unfold Shared.is_empty, Shared.remove_unreachable.
  rewrite (shared_reachable_loop_order o canonical).
  replace (Shared.reachable_loop canonical (2 + fuel) Shared.cycle_store _ ∅ _)
    with (Some ({["q0"]} : gset string)) by (by vm_compute).
  rewrite (shared_remove_states_order o canonical).
  replace (Shared._states _ ∖ {["q0"]}) with ({["q1"; "q2"]} : gset string)
    by (by vm_compute).
  assert (H12 : ("q1" : string) ≠ "q2") by done.
  destruct (set_order_pair o "q1" "q2" H12) as [-> | ->].
  - eexists _, _. split; [by vm_compute|]. split.
    + intros Heq. apply (f_equal (λ m, m !! ("q2", "a"))) in Heq.
      vm_compute in Heq. discriminate.
    + exists ("q2", "a"). by vm_compute.
  - eexists _, _. split; [by vm_compute|]. split.
    + intros Heq. apply (f_equal (λ m, m !! ("q1", "a"))) in Heq.
      vm_compute in Heq. discriminate.
    + exists ("q1", "a"). by vm_compute.
Qed.
(** ** Sharing: the value model of [remove_state] *)

Lemma remove_state_other_fields o (s : string) A :
  s ≠ _initial_state A →
  _states (remove_state o s A) = _states A ∖ {[s]} ∧
  _alphabet (remove_state o s A) = _alphabet A ∧
  _initial_state (remove_state o s A) = _initial_state A ∧
  _final_states (remove_state o s A) = _final_states A ∖ {[s]}.
Proof.
  intros Hs. unfold remove_state. rewrite decide_True by done.
  by destruct (foldl (discard_target s) _ _).
Qed.

Lemma NFA_eq (A B : NFA) :
  _states A = _states B → _alphabet A = _alphabet B →
  _transitions A = _transitions B → _initial_state A = _initial_state B →
  _final_states A = _final_states B → A = B.
Proof. destruct A, B. simpl. by intros -> -> -> -> ->. Qed.

(** On the automaton it is called on, [remove_state] over shared set
    objects has the effect of [remove_state] over values: sharing is seen
    only from another automaton that holds the same objects. *)
Lemma shared_remove_state_view o (s : string) (h : Shared.store)
    (A : Shared.NFA) :
  shared_view (Shared.remove_state o s (h, A)).1
              (Shared.remove_state o s (h, A)).2 =
  remove_state o s (shared_view h A).
Proof.
  destruct (decide (s = Shared._initial_state A)) as [->|Hs].
  { unfold Shared.remove_state. rewrite decide_False by auto. simpl.
    symmetry. apply (remove_state_initial o (shared_view h A)). }
  destruct (remove_state_other_fields o s (shared_view h A) Hs)
    as (Hst & Hal & Hin & Hfi).
  unfold Shared.remove_state. rewrite decide_True by done.
  set (t1 := foldl _ (Shared._transitions A) _).
  pose proof (shared_discard_targets_spec s (dict_order o t1) h ∅)
    as [Hh He].
  destruct (foldl (Shared.discard_target s) (h, ∅) (dict_order o t1))
    as [h2 e] eqn:Hfold.
  cbn [fst snd] in *.
  apply NFA_eq; simpl; try done.
  apply map_eq. intros k. apply option_eq. intros T'.
  rewrite (remove_state_lookup o s (shared_view h A) k T' Hs).
  cbn [_transitions _alphabet shared_view].
  assert (Htab : ∀ T, Shared.table h A !! k = Some T ↔
                      ∃ r, Shared._transitions A !! k = Some r ∧
                           T = Shared.deref h r).
  { intros T. unfold Shared.table. rewrite lookup_fmap.
    destruct (Shared._transitions A !! k); simpl; naive_solver. }
  setoid_rewrite Htab. clear Htab.
  unfold Shared.table. cbn [Shared._transitions].
  rewrite lookup_fmap, delete_all_lookup.
  assert (Ht1 : ∀ r, t1 !! k = Some r ↔
                     Shared._transitions A !! k = Some r ∧
                     ¬ (k.1 = s ∧ k.2 ∈ Shared._alphabet A)).
  { intros r. destruct k as [q x]. unfold t1.
    rewrite delete_outgoing_lookup. simpl.
    destruct (decide (q = s ∧ x ∈ set_order o (Shared._alphabet A)))
      as [Hd|Hd]; rewrite elem_of_set_order in Hd; naive_solver. }
  assert (Hderef : ∀ r, t1 !! k = Some r →
                        Shared.deref h2 r = Shared.deref h r ∖ {[s]}).
  { intros r Hr. unfold Shared.deref at 1. rewrite Hh.
    rewrite decide_True; [done|]. apply list_elem_of_fmap.
    exists (k, r). split; [done|]. by apply elem_of_dict_order. }
  assert (Hke : k ∈ e ↔ ∃ r, t1 !! k = Some r ∧
                             Shared.deref h r ∖ {[s]} = ∅).
  { rewrite He. setoid_rewrite elem_of_dict_order. split.
    - intros [Hk|?]; [by apply elem_of_empty in Hk | done].
    - intros ?. by right. }
  destruct (decide (k ∈ set_order o e)) as [Hin'|Hin'];
    rewrite elem_of_set_order in Hin'.
  - simpl. split; [done|]. intros (T & (r & Hr & ->) & Hk & -> & Hne).
    apply Hke in Hin' as (r' & Hr' & Hempty). apply Ht1 in Hr' as [Hr' _].
    congruence.
  - destruct (t1 !! k) as [r|] eqn:Hr; simpl.
    + rewrite (Hderef r eq_refl).
      destruct (proj1 (Ht1 r) eq_refl) as [Hr' Hk]. split.
      * intros [= <-]. exists (Shared.deref h r).
        split; [eauto|]. split; [done|]. split; [done|].
        intros Hempty. apply Hin', Hke. eauto.
      * intros (T & (r' & Hr'' & ->) & _ & -> & _). congruence.
    + split; [done|]. intros (T & (r & Hr' & ->) & Hk & _).
      assert (Hcontra : None = Some r) by by apply Ht1. discriminate.
Qed.

(** ** Determinizer: names and reachable sets *)

Lemma name_of_singleton o (q : string) : name_of o {[q]} = q.
Proof. unfold name_of. by rewrite set_order_singleton. Qed.

Lemma join_empty_inv (l : list string) (x : string) :
  join "" l = "" → x ∈ l → x = "".
Proof.
  unfold join. induction l as [|y l IH]; [by intros _ ?%elem_of_nil|].
  destruct l as [|z l].
  - simpl. intros -> ->%list_elem_of_singleton. done.
  - change (String.concat "" (y :: z :: l))
      with (y ++ "" ++ String.concat "" (z :: l))%string.
    intros Hcat Hx. destruct y as [|c y]; [|done].
    apply elem_of_cons in Hx as [->|Hx]; [done|]. by apply IH.
Qed.

Lemma name_of_nonempty o (S : gset string) :
  S ≠ ∅ → "" ∉ S → name_of o S ≠ "".
Proof.
  intros Hne Hnames Hname. apply set_choose_L in Hne as [x Hx].
  assert (x = "") as ->; [|done].
  eapply join_empty_inv; [exact Hname|].
  unfold sorted. rewrite merge_sort_Permutation. by apply elem_of_set_order.
Qed.

Lemma find_reachable_successors o A (S : gset string) (symbol : string) :
  _find_reachable o A S symbol = successors A S symbol.
Proof.
  unfold _find_reachable, successors.
  replace (foldl _ ∅ (set_order o S))
    with (foldl (λ acc state, acc ∪ targets A state symbol) ∅
                (set_order o S)).
  - apply set_eq. intros q.
    rewrite (elem_of_foldl_union (λ state, targets A state symbol)).
    rewrite elem_of_set_bind. setoid_rewrite elem_of_set_order.
    split; [intros [Hq|?]; [by apply elem_of_empty in Hq | done] | by right].
  - generalize (∅ : gset string).
    induction (set_order o S) as [|y l IH]; intros acc; simpl; [done|].
    rewrite IH. f_equal. unfold targets.
    destruct (_transitions A !! (y, symbol)); simpl; [done|].
    by rewrite union_empty_r_L.
Qed.

Lemma successors_singleton A (q symbol : string) :
  successors A {[q]} symbol = targets A q symbol.
Proof. unfold successors. by rewrite set_bind_singleton_L. Qed.

Lemma successors_empty A (symbol : string) : successors A ∅ symbol = ∅.
Proof. unfold successors. apply set_eq. intros q. set_solver. Qed.

Lemma run_from_empty A (w : list string) : run_from A ∅ w = ∅.
Proof.
  induction w as [|x w IH]; simpl; [done|]. by rewrite successors_empty.
Qed.

Lemma sublists_complete (l : list string) (S : gset string) :
  S ⊆ list_to_set l → ∃ l', l' ∈ sublists l ∧ list_to_set l' = S.
Proof.
  revert S. induction l as [|x l IH]; intros S HS; simpl in *.
  - exists []. split; [by left|]. simpl. set_solver.
  - destruct (IH (S ∖ {[x]})) as (l' & Hl' & Hset); [set_solver|].
    destruct (decide (x ∈ S)) as [Hx|Hx].
    + exists (x :: l'). split.
      * apply elem_of_app. right. apply list_elem_of_fmap. eauto.
      * simpl. rewrite Hset. apply set_eq. intros y.
        rewrite elem_of_union, elem_of_difference, elem_of_singleton.
        destruct (decide (y = x)) as [->|]; naive_solver.
    + exists l'. split; [apply elem_of_app; by left|].
      rewrite Hset. set_solver.
Qed.

Lemma elem_of_composite_names o A (S : gset string) :
  S ⊆ _states A → name_of o S ∈ composite_names o A.
Proof.
  intros HS. unfold composite_names.
  destruct (sublists_complete (elements (_states A)) S) as (l & Hl & <-).
  { intros x Hx. apply elem_of_list_to_set, elem_of_elements. auto. }
  apply elem_of_list_to_set, list_elem_of_fmap. eauto.
Qed.

(** The test decides the property. *)
Lemma collision_freeb_spec o A :
  collision_freeb o A = true → collision_free o A.
Proof.
  unfold collision_freeb. intros Hall S S' HS HS' Hne Hne' Hname.
  assert (Hin : ∀ X : gset string, X ⊆ _states A → X ≠ ∅ →
                In X (filter (λ S, S ≠ ∅)
                        (list_to_set <$> sublists (elements (_states A))))).
  { intros X HX HXne. apply list_elem_of_In, list_elem_of_filter.
    split; [done|].
    destruct (sublists_complete (elements (_states A)) X) as (l & Hl & <-).
    { intros x Hx. apply elem_of_list_to_set, elem_of_elements. auto. }
    apply list_elem_of_fmap. eauto. }
  rewrite forallb_forall in Hall. specialize (Hall S (Hin S HS Hne)).
  rewrite forallb_forall in Hall. specialize (Hall S' (Hin S' HS' Hne')).
  apply bool_decide_eq_true in Hall. auto.
Qed.

(** [for_each] with a body that returns: the loop returns, and an invariant
    over the items already visited holds of the whole list at the end. *)
Lemma for_each_returns {X St} (I : list X → St → Prop)
    (body : X → St → outcome St) (l : list X) (s : St) :
  I [] s →
  (∀ done x s, I done s → x ∈ l →
               ∃ s', body x s = Returns s' ∧ I (done ++ [x])%list s') →
  ∃ s', for_each body l s = Returns s' ∧ I l s'.
Proof.
  intros Hinit Hstep.
  assert (Hgen : ∀ rest done s, (done ++ rest)%list = l → I done s →
                   ∃ s', for_each body rest s = Returns s' ∧ I l s').
  { induction rest as [|x rest IH]; intros done s0 Hl Hs0; simpl.
    - exists s0. rewrite app_nil_r in Hl. by subst.
    - destruct (Hstep done x s0 Hs0) as (s1 & -> & Hs1).
      { rewrite <- Hl. apply elem_of_app. right. by left. }
      simpl. apply (IH (done ++ [x])%list); [|done].
      by rewrite <- app_assoc. }
  by apply (Hgen l []).
Qed.

(** ** Determinizer: the invariant of the subset construction *)

Lemma add_state_set (state : string) A :
  _initial_state A ≠ "" →
  add_state state A = with_states ({[state]} ∪ _states A) A.
Proof. intros Hinit. unfold add_state. by rewrite decide_False. Qed.

Section DeterminizeCorrect.
Variable o : IterOrder.
Variable A0 : NFA.
Hypothesis Hwf : well_formed A0.
Hypothesis Hcf : collision_free o A0.

Lemma name_nonempty (S : gset string) :
  S ⊆ _states A0 → S ≠ ∅ → name_of o S ≠ "".
Proof.
  intros HS Hne. apply name_of_nonempty; [done|].
  intros Hin. apply (wf_names A0 Hwf). auto.
Qed.

Lemma name_atom_inv (S : gset string) :
  S ⊆ _states A0 → S ≠ ∅ → name_of o S ∈ _states A0 →
  S = {[name_of o S]}.
Proof.
  intros HS Hne Hin.
  apply Hcf; [done | by apply singleton_subseteq_l | done
             | apply non_empty_singleton_L | by rewrite name_of_singleton].
Qed.

Lemma name_inj (S S' : gset string) :
  S ⊆ _states A0 → S' ⊆ _states A0 → S ≠ ∅ → S' ≠ ∅ →
  name_of o S = name_of o S' → S = S'.
Proof. apply Hcf. Qed.

Lemma targets_sub (q x : string) : targets A0 q x ⊆ _states A0.
Proof.
  unfold targets. destruct (_transitions A0 !! (q, x)) as [T|] eqn:HT; simpl.
  - by apply (wf_table A0 Hwf) in HT as (_ & _ & ? & _).
  - set_solver.
Qed.

Lemma successors_sub (S : gset string) (x : string) :
  successors A0 S x ⊆ _states A0.
Proof.
  intros q (s & _ & Hq)%elem_of_set_bind. by eapply targets_sub.
Qed.

Lemma successors_alphabet (S : gset string) (x : string) :
  successors A0 S x ≠ ∅ → x ∈ _alphabet A0.
Proof.
  intros (q & (s & _ & Hq)%elem_of_set_bind)%set_choose_L.
  unfold targets in Hq.
  destruct (_transitions A0 !! (s, x)) as [T|] eqn:HT; simpl in Hq.
  - by apply (wf_table A0 Hwf) in HT as (_ & ? & _).
  - by apply elem_of_empty in Hq.
Qed.

Lemma inv_targets P A (q x : string) :
  inv o A0 P A → q ∈ _states A0 → targets A q x = targets A0 q x.
Proof.
  intros HA Hq.
  assert (Hsub : ({[q]} : gset string) ⊆ _states A0)
    by by apply singleton_subseteq_l.
  assert (Hne : ({[q]} : gset string) ≠ ∅) by apply non_empty_singleton_L.
  rewrite <- (successors_singleton A0). unfold targets.
  destruct (_transitions A !! (q, x)) as [V|] eqn:HV; simpl.
  - rewrite <- (name_of_singleton o q) in HV.
    by apply (inv_sound HA) in HV as [-> _].
  - destruct (decide (successors A0 {[q]} x = ∅)) as [->|Hsucc]; [done|].
    apply (inv_total HA) in Hsucc; try done.
    + rewrite name_of_singleton in Hsucc. congruence.
    + rewrite name_of_singleton. by apply (inv_atoms HA).
    + rewrite name_of_singleton. intros Hin.
      by apply (inv_pending HA) in Hin.
Qed.

Lemma inv_successors P A (S : gset string) (x : string) :
  inv o A0 P A → S ⊆ _states A0 → successors A S x = successors A0 S x.
Proof.
  intros HA HS. apply set_eq. intros q. unfold successors.
  rewrite !elem_of_set_bind. split; intros (s & Hs & Hq); exists s;
    (split; [done|]).
  - rewrite <- (inv_targets P A); auto.
  - rewrite (inv_targets P A); auto.
Qed.

Lemma inv_final_atoms P A (T : gset string) :
  inv o A0 P A → T ⊆ _states A0 →
  T ∩ _final_states A ≠ ∅ ↔ T ∩ _final_states A0 ≠ ∅.
Proof.
  intros HA HT.
  assert (Hq : ∀ q, q ∈ T → q ∈ _final_states A ↔ q ∈ _final_states A0).
  { intros q Hq.
    assert (Hsub : ({[q]} : gset string) ⊆ _states A0)
      by (apply singleton_subseteq_l; auto).
    pose proof (inv_finals HA {[q]} Hsub (non_empty_singleton_L q))
      as Hfin.
    rewrite name_of_singleton in Hfin. rewrite Hfin.
    - split.
      + intros (y & Hy)%set_choose_L. set_solver.
      + intros ? Hempty. set_solver.
    - apply (inv_atoms HA). auto. }
  split; intros (q & [HqT HqF]%elem_of_intersection)%set_choose_L Hempty.
  - apply Hq in HqF; [|done]. set_solver.
  - apply Hq in HqF; [|done]. set_solver.
Qed.

Lemma inv_init : inv o A0 ∅ A0.
Proof.
  split; try done.
  - intros c Hc. exists {[c]}. split; [by apply singleton_subseteq_l|].
    split; [apply non_empty_singleton_L | by rewrite name_of_singleton].
  - apply (wf_final A0 Hwf).
  - intros S HS Hne Hin. rewrite (name_atom_inv S HS Hne Hin) at 2.
    split.
    + intros Hfin Hempty.
      assert (name_of o S ∈ ({[name_of o S]} : gset string) ∩ _final_states A0)
        by set_solver.
      set_solver.
    + intros (y & Hy)%set_choose_L. set_solver.
  - intros S x V HS Hne HV.
    assert (Hin : name_of o S ∈ _states A0)
      by by apply (wf_table A0 Hwf) in HV as (? & _).
    pose proof (wf_table A0 Hwf _ _ _ HV) as (_ & _ & _ & HVne).
    split; [|done]. rewrite (name_atom_inv S HS Hne Hin).
    rewrite successors_singleton. unfold targets. by rewrite HV.
  - intros S x HS Hne Hin _ Hsucc.
    rewrite (name_atom_inv S HS Hne Hin) in Hsucc |- * at 2.
    rewrite successors_singleton in *. unfold targets in *.
    destruct (_transitions A0 !! (name_of o S, x)); simpl in *; [done|].
    by destruct Hsucc.
  - intros S x V HS Hne Hnotin _ HV.
    by apply (wf_table A0 Hwf) in HV as (? & _).
Qed.

Lemma room_mono A A' : _states A ⊆ _states A' → room o A0 A' ≤ room o A0 A.
Proof. intros Hsub. unfold room. apply subseteq_size. set_solver. Qed.

Lemma room_new_state (T : gset string) A A' :
  T ⊆ _states A0 → name_of o T ∉ _states A →
  {[name_of o T]} ∪ _states A ⊆ _states A' → room o A0 A' < room o A0 A.
Proof.
  intros HT Hnew Hsub. unfold room. apply subset_size. split; [set_solver|].
  intros Hsub'. pose proof (elem_of_composite_names o A0 T HT) as Hin.
  assert (Hc : name_of o T ∈ composite_names o A0 ∖ _states A') by set_solver.
  set_solver.
Qed.

(** A new composite state, made pending. *)
Lemma inv_new_state P A (T : gset string) :
  inv o A0 P A → T ⊆ _states A0 → T ≠ ∅ → name_of o T ∉ _states A →
  inv o A0 ({[name_of o T]} ∪ P)
      (let A1 := with_states ({[name_of o T]} ∪ _states A) A in
       if decide (T ∩ _final_states A1 ≠ ∅)
       then with_final_states ({[name_of o T]} ∪ _final_states A1) A1
       else A1).
Proof.
  intros HA HT HTne Hnew. set (c := name_of o T) in *.
  assert (HcQ : c ∉ _states A0).
  { intros Hc. by apply Hnew, (inv_atoms HA). }
  assert (Hfin : ∀ S, S ⊆ _states A0 → S ≠ ∅ →
            name_of o S ∈ {[c]} ∪ _states A →
            (name_of o S ∈
               _final_states
                 (let A1 := with_states ({[c]} ∪ _states A) A in
                  if decide (T ∩ _final_states A1 ≠ ∅)
                  then with_final_states ({[c]} ∪ _final_states A1) A1
                  else A1)
             ↔ S ∩ _final_states A0 ≠ ∅)).
  { intros S HS HSne Hin. cbn zeta. simpl.
    pose proof (inv_final_atoms P A T HA HT) as Hatoms.
    destruct (decide (name_of o S = c)) as [Heq|Hneq].
    - assert (S = T) as -> by by apply name_inj.
      case_decide as Hd; simpl.
      + split; [by intros _; apply Hatoms | set_solver].
      + split.
        * intros Hc. destruct Hnew. by apply (inv_finals_sub HA).
        * intros HF. exfalso. by apply Hatoms in HF.
    - assert (Hin' : name_of o S ∈ _states A) by set_solver.
      rewrite <- (inv_finals HA S HS HSne Hin').
      case_decide; simpl; set_solver. }
  split.
  - cbn zeta. case_decide; simpl; apply (inv_alphabet HA).
  - cbn zeta. case_decide; simpl; apply (inv_initial HA).
  - cbn zeta. pose proof (inv_atoms HA). case_decide; simpl; set_solver.
  - intros c' Hc'.
    assert (Hc'' : c' ∈ {[c]} ∪ _states A)
      by (revert Hc'; cbn zeta; case_decide; simpl; done).
    apply elem_of_union in Hc'' as [->%elem_of_singleton|Hc''].
    + by exists T.
    + by apply (inv_states HA).
  - intros c' [->%elem_of_singleton|Hc']%elem_of_union; [done|].
    by apply (inv_pending HA).
  - cbn zeta. pose proof (inv_finals_sub HA).
    case_decide; simpl; set_solver.
  - intros S HS HSne Hin. apply Hfin; [done..|].
    revert Hin. cbn zeta. case_decide; simpl; done.
  - intros S x V HS HSne HV. apply (inv_sound HA); [done..|].
    revert HV. cbn zeta. case_decide; simpl; done.
  - intros S x HS HSne Hin Hnotin Hsucc.
    assert (Hin' : name_of o S ∈ _states A).
    { assert (name_of o S ∈ {[c]} ∪ _states A)
        by (revert Hin; cbn zeta; case_decide; simpl; done).
      set_solver. }
    assert (_transitions A !! (name_of o S, x) = Some (successors A0 S x))
      by (apply (inv_total HA); [done..|set_solver|done]).
    cbn zeta. case_decide; simpl; done.
  - intros S x V HS HSne HSQ Hnotin HV.
    assert (HV' : _transitions A !! (name_of o S, x) = Some V)
      by (revert HV; cbn zeta; case_decide; simpl; done).
    assert (name_of o V ∈ _states A)
      by (eapply (inv_closed HA); [exact HS|done..|set_solver|done]).
    cbn zeta. case_decide; simpl; set_solver.
Qed.

(** An entry of a pending state. *)
Lemma inv_set_entry P A (T : gset string) (x : string) :
  inv o A0 P A → T ⊆ _states A0 → T ≠ ∅ → name_of o T ∈ P →
  successors A0 T x ≠ ∅ →
  inv o A0 P (with_transitions
           (<[(name_of o T, x) := successors A0 T x]> (_transitions A)) A).
Proof.
  intros HA HT HTne HP Hsucc. destruct HA. split; simpl; try done.
  - intros S y V HS HSne HV.
    destruct (decide ((name_of o T, x) = (name_of o S, y)))
      as [[= Hname ->]|Hne].
    + rewrite Hname, lookup_insert_eq in HV. injection HV as <-.
      split; [|done]. by rewrite (name_inj T S HT HS HTne HSne Hname).
    + rewrite lookup_insert_ne in HV by done. eauto.
  - intros S y HS HSne Hin Hnotin HSsucc.
    rewrite lookup_insert_ne; [eauto|]. intros [= Hname ->]. congruence.
  - intros S y V HS HSne HSQ Hnotin HV.
    rewrite lookup_insert_ne in HV; [eauto|]. intros [= Hname ->]. congruence.
Qed.

(** A pending state whose loop has set every entry is no longer pending. *)
Lemma inv_finish P A (T : gset string) :
  inv o A0 ({[name_of o T]} ∪ P) A → T ⊆ _states A0 → T ≠ ∅ →
  (∀ c, c ∈ P → c ∉ _states A0) →
  (∀ x, successors A0 T x ≠ ∅ →
        _transitions A !! (name_of o T, x) = Some (successors A0 T x) ∧
        name_of o (successors A0 T x) ∈ _states A) →
  inv o A0 P A.
Proof.
  intros HA HT HTne HP Hdone. destruct HA. split; try done.
  - intros S x HS HSne Hin Hnotin Hsucc.
    destruct (decide (name_of o S = name_of o T)) as [Heq|Hneq].
    + assert (S = T) as -> by by apply name_inj. by apply Hdone.
    + apply inv_total0; try done. set_solver.
  - intros S x V HS HSne HSQ Hnotin HV.
    destruct (decide (name_of o S = name_of o T)) as [Heq|Hneq].
    + assert (S = T) as -> by by apply name_inj.
      destruct (inv_sound0 T x V HT HTne HV) as [-> HVne].
      by apply Hdone.
    + eapply inv_closed0; [exact HS|done..|set_solver|done].
Qed.

Lemma insert_sound_subseteq P A (T : gset string) (x : string) :
  inv o A0 P A → T ⊆ _states A0 → T ≠ ∅ →
  _transitions A ⊆ <[(name_of o T, x) := successors A0 T x]> (_transitions A).
Proof.
  intros HA HT HTne.
  destruct (_transitions A !! (name_of o T, x)) as [V|] eqn:HV.
  - apply (inv_sound HA) in HV as HV'; [|done..].
    destruct HV' as [-> _]. by rewrite insert_id.
  - by apply insert_subseteq.
Qed.

(** [_determinize_state], given fuel for the names still free, returns;
    the set it was called for is then a state, and nothing was lost. *)
Lemma determinize_state_spec (fuel : nat) :
  ∀ P (T : gset string) A,
    inv o A0 P A → T ⊆ _states A0 → T ≠ ∅ → room o A0 A < fuel →
    ∃ A', _determinize_state o fuel T A = Returns A' ∧
          inv o A0 P A' ∧
          name_of o T ∈ _states A' ∧
          _states A ⊆ _states A' ∧
          _transitions A ⊆ _transitions A'.
Proof.
  induction fuel as [|fuel IH]; intros P T A HA HT HTne Hroom; [lia|].
  cbn [_determinize_state].
  destruct (decide (name_of o T ≠ "" ∧ name_of o T ∉ _states A))
    as [[_ Hnew]|Hold].
  2: { exists A. split; [done|]. split; [done|]. split; [|done].
       destruct (decide (name_of o T ∈ _states A)) as [|Hnotin]; [done|].
       destruct Hold. split; [by apply name_nonempty | done]. }
  rewrite add_state_set.
  2: { rewrite (inv_initial HA). intros Hinit.
       apply (wf_names A0 Hwf). rewrite <- Hinit. apply (wf_initial A0 Hwf). }
  pose proof (inv_new_state P A T HA HT HTne Hnew) as HA2.
  cbn zeta in HA2.
  set (c := name_of o T) in *.
  set (A2 := if decide (T ∩ _final_states
                              (with_states ({[c]} ∪ _states A) A) ≠ ∅)
             then _ else _) in *.
  assert (Hst2 : _states A2 = {[c]} ∪ _states A)
    by (unfold A2; case_decide; done).
  assert (Htr2 : _transitions A2 = _transitions A)
    by (unfold A2; case_decide; done).
  assert (HcQ : c ∉ _states A0).
  { intros Hc. by apply Hnew, (inv_atoms HA). }
  assert (Hroom2 : room o A0 A2 < fuel).
  { assert (room o A0 A2 < room o A0 A); [|lia].
    apply (room_new_state T); [done..|]. by rewrite Hst2. }
  destruct (for_each_returns
    (λ done A',
       inv o A0 ({[c]} ∪ P) A' ∧ _states A2 ⊆ _states A' ∧
       _transitions A2 ⊆ _transitions A' ∧
       ∀ x, x ∈ done → successors A0 T x ≠ ∅ →
            _transitions A' !! (c, x) = Some (successors A0 T x) ∧
            name_of o (successors A0 T x) ∈ _states A')
    (λ symbol A,
       let reachable := _find_reachable o A T symbol in
       if decide (reachable ≠ ∅) then
         _determinize_state o fuel reachable
           (with_transitions
              (<[(c, symbol) := reachable]> (_transitions A)) A)
       else Returns A)
    (set_order o (_alphabet A2)) A2) as (A' & Hrun & HA' & Hst & Htr & Hdone).
  - split; [done|]. split; [done|]. split; [done|].
    by intros x ?%elem_of_nil.
  - intros done x A1 (HA1 & Hst1 & Htr1 & Hdone1) Hx. cbn zeta.
    rewrite find_reachable_successors.
    rewrite (inv_successors _ A1 T x HA1 HT).
    destruct (decide (successors A0 T x ≠ ∅)) as [Hsucc|Hsucc].
    + destruct (IH ({[c]} ∪ P) (successors A0 T x)
                   (with_transitions
                      (<[(c, x) := successors A0 T x]> (_transitions A1)) A1))
        as (A3 & -> & HA3 & Hname3 & Hst3 & Htr3).
      * apply inv_set_entry; [done..|set_solver|done].
      * apply successors_sub.
      * done.
      * pose proof (room_mono A2 A1 Hst1). unfold room in *. simpl. lia.
      * exists A3. split; [done|]. split; [done|]. simpl in Hst3, Htr3.
        split; [by etrans|]. split.
        { etrans; [exact Htr1|]. etrans; [|exact Htr3].
          by apply (insert_sound_subseteq _ A1 T x HA1). }
        intros y [Hy| ->%list_elem_of_singleton]%elem_of_app Hysucc.
        -- destruct (Hdone1 y Hy Hysucc) as [Hentry Hstate]. split.
           ++ eapply lookup_weaken; [|exact Htr3].
              eapply lookup_weaken; [exact Hentry|].
              by apply (insert_sound_subseteq _ A1 T x HA1).
           ++ by apply Hst3.
        -- split; [|done]. eapply lookup_weaken; [|exact Htr3].
           by rewrite lookup_insert_eq.
    + exists A1. split; [done|]. split; [done|]. split; [done|].
      split; [done|].
      intros y [Hy| ->%list_elem_of_singleton]%elem_of_app Hysucc; [auto|done].
  - exists A'. split; [exact Hrun|]. split.
    + apply (inv_finish P A' T); [done..|apply (inv_pending HA)|].
      intros x Hsucc. apply Hdone; [|done]. apply elem_of_set_order.
      rewrite (inv_alphabet HA2). by eapply successors_alphabet.
    + rewrite Hst2 in Hst. rewrite Htr2 in Htr.
      split; [set_solver|]. split; [set_solver | done].
Qed.

(** The loop of [determinize] over the entries of the original table. *)
Lemma determinize_loop_spec (fuel : nat) :
  size (composite_names o A0) < fuel →
  ∃ A',
    for_each (λ '(_, next_state) A,
                if decide (1 < size next_state)
                then _determinize_state o fuel next_state A
                else Returns A)
             (dict_order o (_transitions A0)) A0 = Returns A' ∧
    inv o A0 ∅ A' ∧
    ∀ k T, _transitions A0 !! k = Some T → name_of o T ∈ _states A'.
Proof.
  intros Hfuel.
  destruct (for_each_returns
    (λ done A',
       inv o A0 ∅ A' ∧
       ∀ k T, (k, T) ∈ done → name_of o T ∈ _states A')
    (λ '(_, next_state) A,
       if decide (1 < size next_state)
       then _determinize_state o fuel next_state A
       else Returns A)
    (dict_order o (_transitions A0)) A0) as (A' & Hrun & HA' & Hdone).
  - split; [apply inv_init|]. by intros k T ?%elem_of_nil.
  - intros done [[q x] T] A1 [HA1 Hdone1] Hin%elem_of_dict_order.
    destruct (wf_table A0 Hwf q x T Hin) as (Hq & Hx & HT & HTne).
    case_decide as Hsize.
    + destruct (determinize_state_spec fuel ∅ T A1)
        as (A2 & -> & HA2 & Hname & Hst & _); [done..| |].
      { assert (room o A0 A1 ≤ size (composite_names o A0)); [|lia].
        unfold room. apply subseteq_size. set_solver. }
      exists A2. split; [done|]. split; [done|].
      intros k T' [Hk|[= -> ->]%list_elem_of_singleton]%elem_of_app;
        [|done]. apply Hst. eauto.
    + exists A1. split; [done|]. split; [done|].
      intros k T' [Hk|[= -> ->]%list_elem_of_singleton]%elem_of_app;
        [eauto|].
      assert (Hone : size T = 1).
      { assert (size T ≠ 0) by (by intros ->%size_empty_inv%leibniz_equiv).
        lia. }
      apply size_1_elem_of in Hone as [t Ht]. apply leibniz_equiv in Ht.
      subst T. rewrite name_of_singleton.
      apply (inv_atoms HA1), HT. set_solver.
  - exists A'. split; [exact Hrun|]. split; [done|].
    intros k T HT. apply (Hdone k). by apply elem_of_dict_order.
Qed.

(** After the loop, the target of every entry keyed by a state is a
    state. *)
Lemma inv_closed_all A (S V : gset string) (x : string) :
  inv o A0 ∅ A →
  (∀ k T, _transitions A0 !! k = Some T → name_of o T ∈ _states A) →
  S ⊆ _states A0 → S ≠ ∅ →
  _transitions A !! (name_of o S, x) = Some V →
  name_of o V ∈ _states A.
Proof.
  intros HA Horig HS HSne HV.
  destruct (decide (name_of o S ∈ _states A0)) as [Hin|Hnotin].
  - apply (Horig (name_of o S, x)).
    apply (inv_sound HA) in HV as HV'; [|done..].
    destruct HV' as [-> HVne].
    rewrite (name_atom_inv S HS HSne Hin) in HVne |- * at 2.
    rewrite successors_singleton in *. unfold targets in *.
    destruct (_transitions A0 !! (name_of o S, x)); simpl in *; [done|].
    by destruct HVne.
  - eapply (inv_closed HA); [exact HS|done..|set_solver|done].
Qed.

(** The automaton after the rewriting pass follows, from the state named
    after [S], the sets the original reaches from [S]. *)
Lemma rewritten_run A (S : gset string) (w : list string) :
  inv o A0 ∅ A →
  (∀ k T, _transitions A0 !! k = Some T → name_of o T ∈ _states A) →
  S ⊆ _states A0 → S ≠ ∅ → name_of o S ∈ _states A →
  run_from (with_transitions
              ((λ next_state, {[name_of o next_state]}) <$> _transitions A)
              A)
           {[name_of o S]} w ∩ _final_states A ≠ ∅ ↔
  run_from A0 S w ∩ _final_states A0 ≠ ∅.
Proof.
  intros HA Horig. revert S. induction w as [|x w IH];
    intros S HS HSne Hin; simpl.
  - rewrite <- (inv_finals HA S HS HSne Hin). split.
    + intros (y & Hy)%set_choose_L. set_solver.
    + intros ? Hempty. set_solver.
  - rewrite successors_singleton. unfold targets at 1. simpl.
    rewrite lookup_fmap.
    destruct (_transitions A !! (name_of o S, x)) as [V|] eqn:HV; simpl.
    + pose proof (inv_closed_all A S V x HA Horig HS HSne HV) as HVin.
      apply (inv_sound HA) in HV as [-> HVne]; [|done..].
      apply IH; [apply successors_sub | done..].
    + assert (successors A0 S x = ∅) as ->.
      { destruct (decide (successors A0 S x = ∅)) as [|Hsucc]; [done|].
        apply (inv_total HA) in Hsucc; [congruence|done..|set_solver]. }
      rewrite !run_from_empty. split; intros Hne; destruct Hne; set_solver.
Qed.

Lemma determinize_spec :
  ∀ fuel, size (composite_names o A0) < fuel →
    ∃ A', determinize o fuel A0 = Returns A' ∧
          ∀ o' input, accept o' A' input = accept o' A0 input.
Proof.
  intros fuel Hfuel. unfold determinize.
  destruct (determinize_loop_spec fuel Hfuel) as (A & -> & HA & Horig).
  simpl. eexists. split; [done|]. intros o' input.
  apply eq_true_iff_eq. rewrite !accept_true. unfold run. simpl.
  rewrite (inv_initial HA).
  pose proof (wf_initial A0 Hwf) as Hinit.
  rewrite <- (name_of_singleton o (_initial_state A0)) at 1.
  apply rewritten_run; [done..|by apply singleton_subseteq_l
                       |apply non_empty_singleton_L|].
  rewrite name_of_singleton. by apply (inv_atoms HA).
Qed.
End DeterminizeCorrect.

(** ** Determinizer: the claim *)

Lemma determinize_deterministic o (fuel : nat) A A' :
  determinize o fuel A = Returns A' → deterministic A'.
Proof.
  unfold determinize.
  destruct (for_each _ _ _) as [A1| |]; [|done..]. simpl.
  intros [= <-] k V HV. simpl in HV. rewrite lookup_fmap in HV.
  destruct (_transitions A1 !! k) as [T|]; [|done]. simpl in HV.
  injection HV as <-. apply size_singleton.
Qed.

Lemma clash_well_formed : well_formed clash.
Proof.
  split.
  - by vm_compute.
  - intros q Hq. cbn in Hq. apply elem_of_singleton in Hq as ->.
    by vm_compute.
  - by vm_compute.
  - intros q x T HT. apply elem_of_list_to_map_2 in HT.
    apply list_elem_of_singleton in HT as [= -> -> ->].
    split; [by vm_compute|]. split; [by vm_compute|].
    split; [|by vm_compute].
    intros q [ ->%elem_of_singleton| ->%elem_of_singleton]%elem_of_union;
      by vm_compute.
Qed.


Lemma ends_in_0_well_formed : well_formed ends_in_0.
Proof.
  split.
  - by vm_compute.
  - intros q Hq. cbn in Hq. apply elem_of_singleton in Hq as ->.
    by vm_compute.
  - by vm_compute.
  - intros q x T HT. apply elem_of_list_to_map_2 in HT.
    repeat (apply elem_of_cons in HT as [[= -> -> ->]|HT];
            [split; [by vm_compute|]; split; [by vm_compute|];
             split; [|by vm_compute];
             intros q Hq;
             repeat (apply elem_of_union in Hq as [Hq|Hq]);
             apply elem_of_singleton in Hq as ->; by vm_compute|]).
    by apply elem_of_nil in HT.
Qed.

Lemma ends_in_0_collision_free : collision_free canonical ends_in_0.
Proof. apply collision_freeb_spec. by vm_compute. Qed.



(** ** Store: what every mutator keeps *)

Lemma one_state_closed : store_closed one_state.
Proof.
  split; simpl.
  - right. by apply elem_of_singleton.
  - done.
  - intros k T HT. by rewrite lookup_empty in HT.
Qed.



(** X2.  [remove_state] of a state other than the initial one removes it
    from the states, the final states and every target set, deletes its
    entries for the symbols of the alphabet and the entries whose target set
    became empty, and keeps every other entry with the state taken out of
    its target set.  The initial state is never removed. *)
Theorem remove_state_spec (o : IterOrder) (s : string) (A : NFA) :
  remove_state o (_initial_state A) A = A ∧
  (s ≠ _initial_state A →
   _states (remove_state o s A) = _states A ∖ {[s]} ∧
   _final_states (remove_state o s A) = _final_states A ∖ {[s]} ∧
   _alphabet (remove_state o s A) = _alphabet A ∧
   _initial_state (remove_state o s A) = _initial_state A ∧
   (∀ k T, _transitions (remove_state o s A) !! k = Some T →
           (s ∉ T) ∧ T ≠ ∅) ∧
   (∀ x, x ∈ _alphabet A →
         _transitions (remove_state o s A) !! (s, x) = None) ∧
   (∀ q x T, (q ≠ s ∨ x ∉ _alphabet A) →
             _transitions A !! (q, x) = Some T →
             _transitions (remove_state o s A) !! (q, x) =
             if decide (T ∖ {[s]} = ∅) then None else Some (T ∖ {[s]}))).
Proof.
  split; [apply remove_state_initial|]. intros Hs.
  destruct (remove_state_other_fields o s A Hs) as (HS & HA & HI & HF).
  repeat split; try done.
  - apply remove_state_lookup in H as (T0 & _ & _ & -> & _); [|done].
    set_solver.
  - by apply remove_state_lookup in H as (T0 & _ & _ & _ & ?).
  - intros x Hx. apply eq_None_not_Some. intros [T HT].
    apply remove_state_lookup in HT as (T0 & _ & Hk & _); [|done].
    by apply Hk.
  - intros q x T Hq HT. case_decide as He.
    + apply eq_None_not_Some. intros [T' HT'].
      apply remove_state_lookup in HT' as (T0 & HT0 & _ & -> & Hne); [|done].
      congruence.
    + apply remove_state_lookup; [done|]. exists T. simpl.
      repeat split; try done. intros [-> Hx]. by destruct Hq.
Qed.

Lemma remove_state_spec_witness :
  _states (remove_state canonical "q1" two_states) =
    _states two_states ∖ {["q1"]} ∧
  _transitions (remove_state canonical "q1" two_states) !! ("q0", "0") = None.
Proof.
  destruct (remove_state_spec canonical "q1" two_states) as [_ H].
  destruct H as (HS & _ & _ & _ & _ & _ & Hk); [done|].
  split; [exact HS|].
  rewrite (Hk "q0" "0" {["q1"]}); [done| by left | done].
Defined.

(** X3.  [toggle_final_state] undoes itself: two calls with the same state
    leave the automaton as it was, whether or not the state is known. *)
Theorem toggle_final_state_twice (s : string) (A : NFA) :
  toggle_final_state s (toggle_final_state s A) = A.
Proof.
  unfold toggle_final_state.
  destruct (decide (s ∈ _states A)) as [Hs|Hs].
  - destruct (decide (s ∈ _final_states A)) as [Hf|Hf]; simpl.
    + rewrite decide_True by done.
      rewrite decide_False by set_solver. unfold with_final_states; simpl.
      destruct A as [S Σ t i F]; simpl in *. f_equal.
      apply set_eq. intros q. destruct (decide (q = s)); set_solver.
    + rewrite decide_True by done.
      rewrite decide_True by set_solver. unfold with_final_states; simpl.
      destruct A as [S Σ t i F]; simpl in *. f_equal. set_solver.
  - by rewrite decide_False by done.
Qed.

Lemma remove_symbol_lookup (o : IterOrder) (y : string) (A : NFA)
    (q x : string) :
  _transitions (remove_symbol o y A) !! (q, x) =
  if decide (x = y ∧ q ∈ _states A) then None
  else _transitions A !! (q, x).
Proof.
  unfold remove_symbol. simpl. rewrite delete_column_lookup.
  destruct (decide (x = y ∧ q ∈ _states A)) as [Hd|Hd].
  - rewrite decide_True; [done|]. by rewrite elem_of_set_order.
  - rewrite decide_False; [done|]. by rewrite elem_of_set_order.
Qed.

(** X4.  [remove_symbol] takes the symbol out of the alphabet and deletes
    the entries it keys for the states of the state set, and nothing else;
    an entry keyed by the symbol and a state outside the state set stays.
    Removing a symbol just added to an automaton whose entries all use
    symbols of the alphabet gives the automaton back. *)
Theorem remove_symbol_spec (o : IterOrder) (y : string) (A : NFA) :
  _alphabet (remove_symbol o y A) = _alphabet A ∖ {[y]} ∧
  _states (remove_symbol o y A) = _states A ∧
  _initial_state (remove_symbol o y A) = _initial_state A ∧
  _final_states (remove_symbol o y A) = _final_states A ∧
  (∀ q x, _transitions (remove_symbol o y A) !! (q, x) =
          if decide (x = y ∧ q ∈ _states A) then None
          else _transitions A !! (q, x)) ∧
  (y ∉ _alphabet A → symbols_in_alphabet A →
   remove_symbol o y (add_symbol y A) = A).
Proof.
  repeat split; try done.
  - intros q x. apply remove_symbol_lookup.
  - intros Hy Hinv. apply NFA_eq; try done.
    + simpl. set_solver.
    + apply map_eq. intros [q x]. rewrite remove_symbol_lookup. simpl.
      case_decide as Hd; [|done]. destruct Hd as [-> _].
      symmetry. apply eq_None_not_Some. intros [T HT]. apply Hy.
      by eapply Hinv.
Qed.

Lemma remove_symbol_spec_witness :
  remove_symbol canonical "b" (add_symbol "b" two_states) = two_states.
Proof.
  destruct (remove_symbol_spec canonical "b" two_states)
    as (_ & _ & _ & _ & _ & H).
  apply H.
  - simpl. by apply not_elem_of_singleton.
  - intros q x T HT. simpl in *.
    apply lookup_singleton_Some in HT as [[= <- <-] _].
    by apply elem_of_singleton.
Defined.

(** ** Acceptance: paths *)

(** X5.  [accept] returns true exactly when some path from the initial
    state, labelled by the characters of the string in order, ends in a
    final state. *)
Theorem accept_iff_path (o : IterOrder) (A : NFA) (input : string) :
  accept o A input = true ↔
  ∃ q, q ∈ _final_states A ∧ trace A (_initial_state A) (chars input) q.
Proof. apply accept_iff_trace. Qed.

Lemma deterministic_targets A (q x q1 q2 : string) :
  deterministic A → q1 ∈ targets A q x → q2 ∈ targets A q x → q1 = q2.
Proof.
  intros Hdet H1 H2. unfold targets in *.
  destruct (_transitions A !! (q, x)) as [T|] eqn:HT; simpl in *;
    [|by apply elem_of_empty in H1].
  apply Hdet in HT. apply size_1_elem_of in HT as [z Hz].
  apply leibniz_equiv in Hz. subst T. set_solver.
Qed.

Lemma deterministic_trace A (q : string) (w : list string) (q1 q2 : string) :
  deterministic A → trace A q w q1 → trace A q w q2 → q1 = q2.
Proof.
  intros Hdet H1. revert q2. induction H1 as [q|q x q' w q'' Hq' _ IH];
    intros q2 H2; inversion H2; subst; [done|].
  apply IH. by rewrite (deterministic_targets A q x q' q'0).
Qed.

(** X6.  When [is_deterministic] holds, a string labels at most one path
    from the initial state: [accept] then follows a single state, and is
    true exactly when that path exists and ends in a final state. *)
Theorem deterministic_single_path (o : IterOrder) (A : NFA)
    (input : string) :
  is_deterministic o A = true →
  (∀ q1 q2, trace A (_initial_state A) (chars input) q1 →
            trace A (_initial_state A) (chars input) q2 → q1 = q2) ∧
  size (foldl (accept_step o A) {[_initial_state A]} (chars input)) ≤ 1.
Proof.
  intros Hdet%is_deterministic_spec. split.
  - intros q1 q2. by apply deterministic_trace.
  - rewrite accept_run_from. fold (run A input). destruct (decide (run A input = ∅)) as [->|Hne].
    { rewrite size_empty. lia. }
    apply set_choose_L in Hne as [q Hq].
    replace (run A input) with ({[q]} : gset string);
      [by rewrite size_singleton|].
    apply set_eq. intros q'. rewrite elem_of_singleton. split.
    + by intros ->.
    + intros Hq'. unfold run in *.
      apply elem_of_run_from in Hq as (? & ->%elem_of_singleton & Hq).
      apply elem_of_run_from in Hq' as (? & ->%elem_of_singleton & Hq').
      by eapply deterministic_trace.
Qed.

Lemma deterministic_single_path_witness :
  size (foldl (accept_step canonical two_states)
              {[_initial_state two_states]} (chars "00")) ≤ 1.
Proof.
  apply (deterministic_single_path canonical two_states "00").
  reflexivity.
Defined.

(** ** Removing several states *)

Lemma prune_lookup (D : gset string) (A : NFA) (k : string * string) :
  _transitions (prune D A) !! k =
  match _transitions A !! k with
  | None => None
  | Some T => if decide (k.1 ∈ D ∧ k.2 ∈ _alphabet A) then None
              else if decide (T ∖ D = ∅) then None else Some (T ∖ D)
  end.
Proof.
  unfold prune; simpl. rewrite map_lookup_imap.
  by destruct (_transitions A !! k).
Qed.

Lemma remove_state_prune (o : IterOrder) (s : string) (A : NFA) :
  s ≠ _initial_state A → remove_state o s A = prune {[s]} A.
Proof.
  intros Hs.
  destruct (remove_state_other_fields o s A Hs) as (HS & HA & HI & HF).
  apply NFA_eq; try done.
  apply map_eq. intros k. apply option_eq. intros T'.
  rewrite remove_state_lookup by done. rewrite prune_lookup.
  destruct (_transitions A !! k) as [T|] eqn:HT.
  - destruct (decide (k.1 ∈ ({[s]} : gset string) ∧ k.2 ∈ _alphabet A))
      as [[Hk1 Hk2]|Hk].
    + apply elem_of_singleton in Hk1. naive_solver.
    + rewrite elem_of_singleton in Hk.
      destruct (decide (T ∖ {[s]} = ∅)) as [He|He]; naive_solver.
  - naive_solver.
Qed.

Lemma prune_prune (D1 D2 : gset string) (A : NFA) :
  prune D2 (prune D1 A) = prune (D1 ∪ D2) A.
Proof.
  apply NFA_eq; simpl; try done; try set_solver.
  apply map_eq. intros k. fold (prune D1 A).
  change (_transitions (prune D2 (prune D1 A)) !! k =
          _transitions (prune (D1 ∪ D2) A) !! k).
  rewrite !prune_lookup. simpl.
  destruct (_transitions A !! k) as [T|] eqn:HT; [|done].
  destruct (decide (k.1 ∈ D1 ∧ k.2 ∈ _alphabet A)) as [H1|H1].
  { rewrite decide_True by set_solver. done. }
  destruct (decide (T ∖ D1 = ∅)) as [He1|He1].
  { destruct (decide (k.1 ∈ D1 ∪ D2 ∧ k.2 ∈ _alphabet A)); [done|].
    rewrite decide_True by set_solver. done. }
  destruct (decide (k.1 ∈ D2 ∧ k.2 ∈ _alphabet A)) as [H2|H2].
  { rewrite decide_True by set_solver. done. }
  rewrite (decide_False (P := k.1 ∈ D1 ∪ D2 ∧ k.2 ∈ _alphabet A))
    by set_solver.
  replace (T ∖ D1 ∖ D2) with (T ∖ (D1 ∪ D2)) by set_solver.
  done.
Qed.

Lemma remove_states_initial (o : IterOrder) (l : list string) (A : NFA) :
  _initial_state (foldl (λ A s, remove_state o s A) A l) = _initial_state A.
Proof.
  revert A. induction l as [|s l IH]; intros A; simpl; [done|].
  rewrite IH. apply remove_state_fields.
Qed.

(** Removing the states of a list one after the other, in any order, is
    removing the set of those that are not the initial state. *)
Lemma remove_states_prune (o : IterOrder) (l : list string) (A : NFA) :
  foldl (λ A s, remove_state o s A) A l =
  if decide (list_to_set l ∖ {[_initial_state A]} = (∅ : gset string))
  then A else prune (list_to_set l ∖ {[_initial_state A]}) A.
Proof.
  revert A. induction l as [|s l IH]; intros A; simpl.
  - rewrite decide_True by set_solver. done.
  - destruct (decide (s = _initial_state A)) as [->|Hs].
    + rewrite remove_state_initial, IH.
      replace (({[_initial_state A]} ∪ list_to_set l) ∖ {[_initial_state A]})
        with ((list_to_set l : gset string) ∖ {[_initial_state A]})
        by set_solver.
      done.
    + rewrite IH. rewrite remove_state_prune by done. simpl.
      rewrite (decide_False
                 (P := ({[s]} ∪ list_to_set l) ∖ {[_initial_state A]} = ∅))
        by set_solver.
      case_decide as He.
      * f_equal. set_solver.
      * rewrite prune_prune. f_equal. set_solver.
Qed.

Lemma remove_set_prune (o : IterOrder) (X : gset string) (A : NFA) :
  foldl (λ A s, remove_state o s A) A (set_order o X) =
  if decide (X ∖ {[_initial_state A]} = ∅)
  then A else prune (X ∖ {[_initial_state A]}) A.
Proof. by rewrite remove_states_prune, list_to_set_set_order. Qed.

Lemma new_reachable_spec (o : IterOrder) (A : NFA) (N : gset string)
    (q : string) :
  q ∈ foldl (λ acc state,
               foldl (λ acc symbol,
                        acc ∪ default ∅ (_transitions A !! (state, symbol)))
                     acc (set_order o (_alphabet A)))
            ∅ (set_order o N) ↔
  ∃ state symbol, state ∈ N ∧ symbol ∈ _alphabet A ∧
                  q ∈ targets A state symbol.
Proof.
  rewrite (elem_of_foldl_union2 (λ state symbol, targets A state symbol)).
  setoid_rewrite elem_of_set_order. set_solver.
Qed.

Lemma reachable_loop_order (o o' : IterOrder) (fuel : nat) (A : NFA)
    (R N : gset string) :
  reachable_loop o fuel A R N = reachable_loop o' fuel A R N.
Proof.
  revert R N. induction fuel as [|fuel IH]; intros R N; simpl; [done|].
  case_decide; [done|]. rewrite IH. f_equal.
  apply set_eq. intros q. by rewrite !new_reachable_spec.
Qed.

Lemma new_alive_spec (o : IterOrder) (A : NFA) (R : gset string)
    (q : string) :
  q ∈ foldl (λ (acc : gset string) '((state, _), next_states),
               if existsb (λ next_state, bool_decide (next_state ∈ R))
                          (set_order o next_states)
               then {[state]} ∪ acc else acc)
            ∅ (dict_order o (_transitions A)) ↔
  ∃ x T q', _transitions A !! (q, x) = Some T ∧ q' ∈ T ∧ q' ∈ R.
Proof.
  assert (Hgen : ∀ (l : list (string * string * gset string))
                   (acc : gset string),
    q ∈ foldl (λ (acc : gset string) '((state, _), next_states),
                 if existsb (λ next_state, bool_decide (next_state ∈ R))
                            (set_order o next_states)
                 then {[state]} ∪ acc else acc) acc l ↔
    q ∈ acc ∨ ∃ x T q', ((q, x), T) ∈ l ∧ q' ∈ T ∧ q' ∈ R).
  { induction l as [|[[p y] T] l IH]; intros acc; simpl.
    - split; [auto|]. intros [?|(x & T & q' & Hin & _)]; [done|].
      by inversion Hin.
    - rewrite IH. destruct (existsb _ _) eqn:Hex.
      + apply existsb_exists in Hex as (q' & Hq' & HR).
        apply list_elem_of_In, elem_of_set_order in Hq'.
        apply bool_decide_eq_true in HR. split.
        * intros [[->%elem_of_singleton|?]%elem_of_union|(x & T' & q2 & ? & ?)].
          -- right. exists y, T, q'. split; [by left | done].
          -- by left.
          -- right. exists x, T', q2. split; [by right | done].
        * intros [?|(x & T' & q2 & Hin & ? & ?)]; [left; set_solver|].
          apply elem_of_cons in Hin as [[= -> -> ->]|?];
            [left; set_solver | right; eauto 10].
      + split.
        * intros [?|(x & T' & q2 & ? & ?)]; [by left|].
          right. exists x, T', q2. split; [by right | done].
        * intros [?|(x & T' & q2 & Hin & Hq2 & HR)]; [by left|].
          apply elem_of_cons in Hin as [[= -> -> ->]|?]; [|right; eauto 10].
          exfalso. apply not_true_iff_false in Hex. apply Hex.
          apply existsb_exists. exists q2. split.
          -- by apply list_elem_of_In, elem_of_set_order.
          -- by apply bool_decide_eq_true. }
  rewrite Hgen. setoid_rewrite elem_of_dict_order. set_solver.
Qed.

Lemma alive_loop_order (o o' : IterOrder) (fuel : nat) (A : NFA)
    (R N : gset string) :
  alive_loop o fuel A R N = alive_loop o' fuel A R N.
Proof.
  revert R N. induction fuel as [|fuel IH]; intros R N; simpl; [done|].
  case_decide; [done|]. rewrite IH. f_equal.
  apply set_eq. intros q. by rewrite !new_alive_spec.
Qed.

(** X7.  What [remove_state], [remove_unreachable] and [remove_dead] leave
    does not depend on the order in which Python iterates the sets and the
    dictionary. *)
Theorem pruning_order_independent (o o' : IterOrder) (fuel : nat)
    (s : string) (A : NFA) :
  remove_state o s A = remove_state o' s A ∧
  remove_unreachable o fuel A = remove_unreachable o' fuel A ∧
  remove_dead o fuel A = remove_dead o' fuel A.
Proof.
  repeat split.
  - destruct (decide (s = _initial_state A)) as [->|Hs].
    + by rewrite !remove_state_initial.
    + by rewrite !remove_state_prune.
  - unfold remove_unreachable. rewrite (reachable_loop_order o o').
    destruct (reachable_loop o' fuel A ∅ {[_initial_state A]}); [|done].
    by rewrite !remove_set_prune.
  - unfold remove_dead. rewrite (alive_loop_order o o').
    destruct (alive_loop o' fuel A ∅ (_final_states A)); [|done].
    by rewrite !remove_set_prune.
Qed.

(** ** What the two searches find *)

Lemma trace_snoc A (q : string) (w : list string) (q1 x q2 : string) :
  trace A q w q1 → q2 ∈ targets A q1 x → trace A q (w ++ [x])%list q2.
Proof.
  intros Ht Hq2. induction Ht as [q|q y q' w q'' Hq' _ IH]; simpl.
  - econstructor; [done | constructor].
  - econstructor; [done | by apply IH].
Qed.

Lemma reachable_initial A : reachable A (_initial_state A).
Proof. exists []. split; constructor. Qed.

Lemma reachable_step A (q x q' : string) :
  reachable A q → x ∈ _alphabet A → q' ∈ targets A q x → reachable A q'.
Proof.
  intros (w & Hw & Ht) Hx Hq'. exists (w ++ [x])%list. split.
  - apply Forall_app. split; [done|]. by constructor.
  - by eapply trace_snoc.
Qed.

Lemma reachable_loop_spec (o : IterOrder) (fuel : nat) (A : NFA)
    (R N r : gset string) :
  (∀ q, q ∈ R ∪ N → reachable A q) →
  _initial_state A ∈ R ∪ N →
  (∀ q x q', q ∈ R → x ∈ _alphabet A → q' ∈ targets A q x → q' ∈ R ∪ N) →
  reachable_loop o fuel A R N = Some r →
  ∀ q, q ∈ r ↔ reachable A q.
Proof.
  revert R N.
  assert (Hexit : ∀ R N : gset string,
    (∀ q, q ∈ R ∪ N → reachable A q) → _initial_state A ∈ R ∪ N →
    (∀ q x q', q ∈ R → x ∈ _alphabet A → q' ∈ targets A q x → q' ∈ R ∪ N) →
    N ⊆ R → ∀ q, q ∈ R ↔ reachable A q).
  { intros R N Hsound Hinit Hclosed Hsub q.
    split; [intros ?; apply Hsound; set_solver|].
    intros (w & Hw & Ht).
    assert (Hgen : ∀ p, p ∈ R → trace A p w q → q ∈ R).
    { clear Ht. induction w as [|x w IHw]; intros p Hp Ht;
        inversion Ht; subst; [done|].
      apply Forall_cons in Hw as [Hx Hw].
      apply (IHw Hw q'); [|done].
      specialize (Hclosed p x q' Hp Hx). set_solver. }
    apply (Hgen (_initial_state A)); [set_solver | done]. }
  induction fuel as [|fuel IH]; intros R N Hsound Hinit Hclosed;
    simpl; case_decide as Hsub; try done.
  - intros [= <-]. by eapply Hexit.
  - intros [= <-]. by eapply Hexit.
  - apply IH.
    + intros q [Hq|Hq]%elem_of_union; [by apply Hsound|].
      apply new_reachable_spec in Hq as (p & x & Hp & Hx & Hq).
      eapply reachable_step; [|done..]. apply Hsound. set_solver.
    + set_solver.
    + intros q x q' Hq Hx Hq'. apply elem_of_union in Hq as [Hq|Hq].
      * specialize (Hclosed q x q' Hq Hx Hq'). set_solver.
      * apply elem_of_union_r, new_reachable_spec. eauto.
Qed.

Lemma reachable_loop_start (o : IterOrder) (fuel : nat) (A : NFA)
    (r : gset string) :
  reachable_loop o fuel A ∅ {[_initial_state A]} = Some r →
  ∀ q, q ∈ r ↔ reachable A q.
Proof.
  apply reachable_loop_spec.
  - intros q Hq. assert (q = _initial_state A) as -> by set_solver.
    apply reachable_initial.
  - set_solver.
  - set_solver.
Qed.

Lemma alive_final A (q : string) : q ∈ _final_states A → alive A q.
Proof. intros ?. exists [], q. split; [done | constructor]. Qed.

Lemma alive_step A (q x q' : string) :
  q' ∈ targets A q x → alive A q' → alive A q.
Proof.
  intros Hq' (w & f & Hf & Ht). exists (x :: w), f. split; [done|].
  by econstructor.
Qed.

Lemma elem_of_targets A (q x q' : string) :
  q' ∈ targets A q x ↔ ∃ T, _transitions A !! (q, x) = Some T ∧ q' ∈ T.
Proof.
  unfold targets. destruct (_transitions A !! (q, x)) as [T|]; simpl.
  - naive_solver.
  - split; [by intros ?%elem_of_empty | by intros (? & ? & _)].
Qed.

Lemma alive_loop_spec (o : IterOrder) (fuel : nat) (A : NFA)
    (R N r : gset string) :
  (∀ q, q ∈ R ∪ N → alive A q) →
  _final_states A ⊆ R ∪ N →
  (∀ q x q', q' ∈ targets A q x → q' ∈ R → q ∈ R ∪ N) →
  alive_loop o fuel A R N = Some r →
  ∀ q, q ∈ r ↔ alive A q.
Proof.
  revert R N.
  assert (Hexit : ∀ R N : gset string,
    (∀ q, q ∈ R ∪ N → alive A q) → _final_states A ⊆ R ∪ N →
    (∀ q x q', q' ∈ targets A q x → q' ∈ R → q ∈ R ∪ N) → N ⊆ R →
    ∀ q, q ∈ R ↔ alive A q).
  { intros R N Hsound Hfin Hclosed Hsub q.
    split; [intros ?; apply Hsound; set_solver|].
    intros (w & f & Hf & Ht).
    induction Ht as [q|q x q' w q'' Hq' _ IHt]; [set_solver|].
    specialize (Hclosed q x q' Hq' (IHt Hf)). set_solver. }
  induction fuel as [|fuel IH]; intros R N Hsound Hfin Hclosed;
    simpl; case_decide as Hsub; try done.
  - intros [= <-]. by eapply Hexit.
  - intros [= <-]. by eapply Hexit.
  - apply IH.
    + intros q [Hq|Hq]%elem_of_union; [by apply Hsound|].
      apply new_alive_spec in Hq as (x & T & q' & HT & Hq' & HR).
      apply (alive_step A q x q'); [|by apply Hsound].
      apply elem_of_targets. eauto.
    + set_solver.
    + intros q x q' Hq' HR. apply elem_of_union_r, new_alive_spec.
      apply elem_of_targets in Hq' as (T & HT & Hq').
      exists x, T, q'. set_solver.
Qed.

Lemma alive_loop_start (o : IterOrder) (fuel : nat) (A : NFA)
    (r : gset string) :
  alive_loop o fuel A ∅ (_final_states A) = Some r →
  ∀ q, q ∈ r ↔ alive A q.
Proof.
  apply alive_loop_spec.
  - intros q Hq. apply alive_final. set_solver.
  - set_solver.
  - set_solver.
Qed.

(** ** Pruning and the language *)

Lemma targets_prune (D : gset string) (A : NFA) (q x q' : string) :
  q' ∈ targets (prune D A) q x ↔
  q' ∈ targets A q x ∧ (q' ∉ D) ∧ ¬ (q ∈ D ∧ x ∈ _alphabet A).
Proof.
  rewrite !elem_of_targets. setoid_rewrite prune_lookup. simpl.
  destruct (_transitions A !! (q, x)) as [T|]; [|naive_solver].
  destruct (decide (q ∈ D ∧ x ∈ _alphabet A)) as [Hd|Hd]; [naive_solver|].
  destruct (decide (T ∖ D = ∅)) as [He|He].
  - split; [naive_solver|]. intros ((T' & [= <-] & Hq') & HD & _). set_solver.
  - split.
    + intros (T' & [= <-] & Hq'). split; [|set_solver]. exists T. set_solver.
    + intros ((T' & [= <-] & Hq') & HD & _). eexists. split; [done|].
      set_solver.
Qed.

Lemma trace_prune_sub (D : gset string) (A : NFA) (q : string)
    (w : list string) (q' : string) :
  trace (prune D A) q w q' → trace A q w q'.
Proof.
  induction 1 as [q|q x q' w q'' Hq' _ IH]; [constructor|].
  apply targets_prune in Hq' as [Hq' _]. by econstructor.
Qed.

(** The language of an automaton and of what is left of it are compared
    path by path. *)
Lemma accept_eq_paths (o o' : IterOrder) (A A' : NFA) (input : string) :
  _initial_state A' = _initial_state A →
  (∀ q, (q ∈ _final_states A' ∧
         trace A' (_initial_state A) (chars input) q) ↔
        (q ∈ _final_states A ∧
         trace A (_initial_state A) (chars input) q)) →
  accept o A' input = accept o' A input.
Proof.
  intros Hi Hpaths.
  destruct (accept o' A input) eqn:Hacc.
  - apply accept_iff_trace in Hacc as (q & Hq).
    apply accept_iff_trace. exists q. rewrite Hi. by apply Hpaths.
  - apply not_true_iff_false. apply not_true_iff_false in Hacc.
    intros (q & Hq)%accept_iff_trace. apply Hacc.
    apply accept_iff_trace. exists q. apply Hpaths. by rewrite <- Hi.
Qed.

Lemma trace_forward_closed (D : gset string) (A : NFA) (G : string → Prop)
    (q : string) (w : list string) (q' : string) :
  (∀ p, G p → p ∉ D) →
  (∀ p x p', x ∈ w → G p → p' ∈ targets A p x → G p') →
  G q → trace A q w q' → trace (prune D A) q w q' ∧ G q'.
Proof.
  intros HG Hstep Hq Ht. induction Ht as [q|q x q' w q'' Hq' _ IH].
  - split; [constructor | done].
  - assert (G q') by (eapply Hstep; [by left|done..]).
    destruct IH as [IH ?]; [|done|].
    { intros p y p' Hy. apply Hstep. by right. }
    split; [|done].
    econstructor; [|done]. apply targets_prune.
    split; [done|]. split; [by apply HG|].
    intros [? _]. by apply (HG q).
Qed.

Lemma trace_backward_closed (D : gset string) (A : NFA) (G : string → Prop)
    (q : string) (w : list string) (q' : string) :
  (∀ p, G p → p ∉ D) →
  (∀ p x p', p' ∈ targets A p x → G p' → G p) →
  G q' → trace A q w q' → trace (prune D A) q w q' ∧ G q.
Proof.
  intros HG Hstep Hq' Ht. induction Ht as [q|q x q' w q'' Hq1 _ IH].
  - split; [constructor | done].
  - destruct IH as [IH ?]; [done|].
    assert (G q) by by eapply Hstep.
    split; [|done].
    econstructor; [|done]. apply targets_prune.
    split; [done|]. split; [by apply HG|].
    intros [? _]. by apply (HG q).
Qed.

Lemma remove_unreachable_result (o : IterOrder) (fuel : nat) (A A' : NFA) :
  remove_unreachable o fuel A = Returns A' →
  ∃ r : gset string,
    (∀ q, q ∈ r ↔ reachable A q) ∧
    (A' = A ∧ _states A ∖ r = ∅ ∨ A' = prune (_states A ∖ r) A).
Proof.
  unfold remove_unreachable.
  destruct (reachable_loop o fuel A ∅ {[_initial_state A]}) as [r|] eqn:Hr;
    [|done].
  intros [= <-]. pose proof (reachable_loop_start o fuel A r Hr) as Hspec.
  rewrite remove_set_prune. exists r. split; [done|].
  assert (_initial_state A ∈ r) by apply Hspec, reachable_initial.
  replace ((_states A ∖ r) ∖ {[_initial_state A]}) with (_states A ∖ r)
    by set_solver.
  case_decide; [left | right]; done.
Qed.

Lemma remove_dead_result (o : IterOrder) (fuel : nat) (A A' : NFA) :
  remove_dead o fuel A = Returns A' →
  ∃ r : gset string,
    (∀ q, q ∈ r ↔ alive A q) ∧
    (A' = A ∧ (_states A ∖ r) ∖ {[_initial_state A]} = ∅ ∨
     A' = prune ((_states A ∖ r) ∖ {[_initial_state A]}) A).
Proof.
  unfold remove_dead.
  destruct (alive_loop o fuel A ∅ (_final_states A)) as [r|] eqn:Hr; [|done].
  intros [= <-]. pose proof (alive_loop_start o fuel A r Hr) as Hspec.
  rewrite remove_set_prune. exists r. split; [done|].
  case_decide; [left | right]; done.
Qed.

Lemma symbols_in_alphabet_targets A (q x q' : string) :
  symbols_in_alphabet A → q' ∈ targets A q x → x ∈ _alphabet A.
Proof.
  intros Hinv (T & HT & _)%elem_of_targets. by eapply Hinv.
Qed.

Lemma prune_unreachable_language (o o' : IterOrder) (D : gset string)
    (A : NFA) (input : string) :
  symbols_in_alphabet A → (∀ q, q ∈ D → ¬ reachable A q) →
  accept o (prune D A) input = accept o' A input.
Proof.
  intros Hinv HD. apply accept_eq_paths; [done|]. intros q. simpl.
  rewrite elem_of_difference. split.
  - intros [[? _] ?%trace_prune_sub]. done.
  - intros [Hf Ht].
    destruct (trace_forward_closed D A (reachable A) _ _ _
                (λ p Hp Hd, HD p Hd Hp)
                (λ p x p' _ Hp Hp',
                   reachable_step A p x p' Hp
                     (symbols_in_alphabet_targets A p x p' Hinv Hp') Hp')
                (reachable_initial A) Ht) as [Ht' Hq].
    repeat split; try done. intros Hd. by apply (HD q).
Qed.

Lemma prune_dead_language (o o' : IterOrder) (D : gset string)
    (A : NFA) (input : string) :
  (∀ q, q ∈ D → ¬ alive A q) →
  accept o (prune D A) input = accept o' A input.
Proof.
  intros HD. apply accept_eq_paths; [done|]. intros q. simpl.
  rewrite elem_of_difference. split.
  - intros [[? _] ?%trace_prune_sub]. done.
  - intros [Hf Ht].
    destruct (trace_backward_closed D A (alive A) _ _ _
                (λ p Hp Hd, HD p Hd Hp)
                (λ p x p' Hp' Hp, alive_step A p x p' Hp' Hp)
                (alive_final A q Hf) Ht) as [Ht' Hq].
    repeat split; try done. intros Hd.
    apply (HD q Hd). by apply alive_final.
Qed.

Lemma accept_order (o o' : IterOrder) (A : NFA) (input : string) :
  accept o A input = accept o' A input.
Proof. by apply accept_eq_paths. Qed.

(** X8.  [remove_unreachable] returns; it keeps the initial state and the
    alphabet, and of the states exactly those a path from the initial
    state reaches by symbols of the alphabet.  When every entry of the
    table is keyed by a symbol of the alphabet, the automaton accepts the
    same strings afterwards. *)
Theorem remove_unreachable_spec (o : IterOrder) (A : NFA) :
  ∃ fuel0 A',
    (∀ fuel, fuel0 ≤ fuel → remove_unreachable o fuel A = Returns A') ∧
    _initial_state A' = _initial_state A ∧
    _alphabet A' = _alphabet A ∧
    (∀ q, q ∈ _states A' ↔ q ∈ _states A ∧ reachable A q) ∧
    (symbols_in_alphabet A →
     ∀ o' input, accept o' A' input = accept o' A input).
Proof.
  destruct (remove_unreachable_returns o A) as (fuel0 & A' & Hret).
  exists fuel0, A'. split; [done|].
  destruct (remove_unreachable_result o fuel0 A A' (Hret fuel0 (le_n _)))
    as (r & Hr & [[-> He]| ->]).
  - repeat split; try done; try naive_solver.
    apply Hr. destruct (decide (q ∈ r)); [done|]. set_solver.
  - repeat split; try done.
    + simpl in H. set_solver.
    + simpl in H. apply Hr.
      destruct (decide (q ∈ r)); [done|]. set_solver.
    + intros [? ?%Hr]. simpl. set_solver.
    + intros Hinv o' input. apply prune_unreachable_language; [done|].
      intros q Hq ?%Hr. set_solver.
Qed.

(** X9.  [remove_dead] returns; it keeps the initial state, the alphabet
    and the final states, and of the states exactly the initial state and
    those from which a path leads to a final state.  The automaton accepts
    the same strings afterwards. *)
Theorem remove_dead_spec (o : IterOrder) (A : NFA) :
  ∃ fuel0 A',
    (∀ fuel, fuel0 ≤ fuel → remove_dead o fuel A = Returns A') ∧
    _initial_state A' = _initial_state A ∧
    _alphabet A' = _alphabet A ∧
    _final_states A' = _final_states A ∧
    (∀ q, q ∈ _states A' ↔
          q ∈ _states A ∧ (alive A q ∨ q = _initial_state A)) ∧
    (∀ o' input, accept o' A' input = accept o' A input).
Proof.
  destruct (remove_dead_returns o A) as (fuel0 & A' & Hret).
  exists fuel0, A'. split; [done|].
  destruct (remove_dead_result o fuel0 A A' (Hret fuel0 (le_n _)))
    as (r & Hr & [[-> He]| ->]).
  - repeat split; try done; try naive_solver.
    destruct (decide (q = _initial_state A)); [by right|left].
    apply Hr. destruct (decide (q ∈ r)); [done|]. set_solver.
  - assert (Hfin : _final_states A ⊆ r).
    { intros q Hq. by apply Hr, alive_final. }
    repeat split; try done.
    + simpl. set_solver.
    + simpl in H. set_solver.
    + simpl in H. destruct (decide (q = _initial_state A)); [by right|left].
      apply Hr. destruct (decide (q ∈ r)); [done|]. set_solver.
    + intros [? [?%Hr| ->]]; simpl; set_solver.
    + intros o' input. apply prune_dead_language.
      intros q Hq ?%Hr. set_solver.
Qed.

Lemma remove_unreachable_spec_witness :
  ∃ fuel0 A',
    (∀ fuel, fuel0 ≤ fuel →
             remove_unreachable canonical fuel two_states = Returns A') ∧
    ∀ o' input, accept o' A' input = accept o' two_states input.
Proof.
  destruct (remove_unreachable_spec canonical two_states)
    as (fuel0 & A' & Hret & _ & _ & _ & Hlang).
  exists fuel0, A'. split; [exact Hret|]. apply Hlang.
  intros q x T HT. simpl in *.
  apply lookup_singleton_Some in HT as [[= <- <-] _].
  by apply elem_of_singleton.
Defined.

(** ** [is_empty]: the answer *)

Lemma foldl_ext_all {X Y} (f g : X → Y → X) (l : list Y) (x : X) :
  (∀ x y, f x y = g x y) → foldl f x l = foldl g x l.
Proof.
  intros Hfg. revert x. induction l as [|y l IH]; intros x; simpl; [done|].
  by rewrite Hfg, IH.
Qed.

Lemma shared_reachable_loop_view (o : IterOrder) (fuel : nat)
    (h : Shared.store) (A : Shared.NFA) (R N : gset string) :
  Shared.reachable_loop o fuel h A R N =
  reachable_loop o fuel (shared_view h A) R N.
Proof.
  revert R N. induction fuel as [|fuel IH]; intros R N; simpl; [done|].
  case_decide; [done|]. rewrite IH. f_equal.
  apply foldl_ext_all. intros acc state.
  apply foldl_ext_all. intros acc' symbol.
  unfold Shared.table. by rewrite lookup_fmap.
Qed.

Lemma shared_remove_states_view (o : IterOrder) (l : list string)
    (h : Shared.store) (A : Shared.NFA) :
  shared_view (foldl (λ hA s, Shared.remove_state o s hA) (h, A) l).1
              (foldl (λ hA s, Shared.remove_state o s hA) (h, A) l).2 =
  foldl (λ A s, remove_state o s A) (shared_view h A) l.
Proof.
  revert h A. induction l as [|s l IH]; intros h A; cbn [foldl]; [done|].
  destruct (Shared.remove_state o s (h, A)) as [h1 A1] eqn:H1.
  rewrite IH. f_equal.
  pose proof (shared_remove_state_view o s h A) as Hv.
  by rewrite H1 in Hv.
Qed.

Lemma shared_is_empty_view (o : IterOrder) (fuel : nat) (h : Shared.store)
    (self : Shared.NFA) :
  match remove_unreachable o fuel (shared_view h self) with
  | Returns A' =>
      ∃ h', Shared.is_empty o fuel h self =
            Some (bool_decide (size (_final_states A') = 0), h')
  | _ => Shared.is_empty o fuel h self = None
  end.
Proof.
  unfold Shared.is_empty, Shared.remove_unreachable, remove_unreachable.
  destruct self as [S Σ t i F]. simpl.
  rewrite shared_reachable_loop_view. unfold shared_view at 1. simpl.
  destruct (reachable_loop o fuel _ ∅ {[i]}) as [r|]; [|done].
  pose proof (shared_remove_states_view o (set_order o (S ∖ r)) h
                (Shared.mkNFA S Σ t i F)) as Hv.
  destruct (foldl _ (h, Shared.mkNFA S Σ t i F) _) as [h' nfa'] eqn:Hf.
  simpl in Hv. exists h'. do 2 f_equal. apply bool_decide_ext.
  by rewrite <- Hv.
Qed.

Lemma chars_cons (c : ascii) (s : string) :
  chars (String c s) = String c EmptyString :: chars s.
Proof. done. Qed.

Lemma chars_surjective (w : list string) :
  Forall (λ x, String.length x = 1) w → ∃ input, chars input = w.
Proof.
  induction 1 as [|x w Hx _ [input <-]]; [by exists ""|].
  destruct x as [|c [|? ?]]; try done.
  exists (String c input). apply chars_cons.
Qed.

Lemma trace_symbols A (q : string) (w : list string) (q' : string) :
  symbols_in_alphabet A → trace A q w q' →
  Forall (λ x, x ∈ _alphabet A) w.
Proof.
  intros Hinv. induction 1 as [q|q x q' w q'' Hq' _ IH]; constructor; [|done].
  by eapply symbols_in_alphabet_targets.
Qed.

(** X10.  [is_empty] answers true exactly when the automaton accepts no
    string, provided the final states are states, every entry of the table
    is keyed by a symbol of the alphabet and every symbol of the alphabet
    is a single character. *)
Theorem is_empty_answer (o : IterOrder) (h : Shared.store)
    (self : Shared.NFA) :
  Shared._final_states self ⊆ Shared._states self →
  symbols_in_alphabet (shared_view h self) →
  (∀ x, x ∈ Shared._alphabet self → String.length x = 1) →
  ∃ fuel0 answer,
    (∀ fuel, fuel0 ≤ fuel →
       ∃ h', Shared.is_empty o fuel h self = Some (answer, h')) ∧
    (answer = true ↔
     ∀ o' input, accept o' (shared_view h self) input = false).
Proof.
  intros Hfin Hinv Hlen.
  pose proof (shared_is_empty_view o) as Hview.
  specialize (λ fuel, Hview fuel h self).
  assert (Hfin' : _final_states (shared_view h self) ⊆
                  _states (shared_view h self)) by done.
  assert (Hlen' : ∀ x, x ∈ _alphabet (shared_view h self) →
                       String.length x = 1) by done.
  clear Hfin Hlen. revert Hinv Hview Hfin' Hlen'.
  generalize (shared_view h self). intros A Hinv Hview Hfin Hlen.
  destruct (remove_unreachable_returns o A) as (fuel0 & A' & Hret).
  exists fuel0, (bool_decide (size (_final_states A') = 0)). split.
  - intros fuel Hfuel. specialize (Hview fuel).
    by rewrite (Hret fuel Hfuel) in Hview.
  - rewrite bool_decide_eq_true, size_empty_iff.
    destruct (remove_unreachable_result o fuel0 A A' (Hret fuel0 (le_n _)))
      as (r & Hr & HA').
    assert (HF : _final_states A' ≡ _final_states A ∩ r).
    { clear -Hfin HA'.
      destruct HA' as [[-> He]| ->]; simpl; intros x;
        destruct (decide (x ∈ r)); set_solver. }
    rewrite HF. split.
    + intros He o' input. apply not_true_iff_false.
      intros (q & Hq & Ht)%accept_iff_trace.
      assert (q ∈ r); [|clear -He Hq H; set_solver].
      apply Hr. exists (chars input). split; [|done].
      by eapply trace_symbols.
    + intros Hnone. apply elem_of_equiv_empty. intros q [Hq Hqr]%elem_of_intersection.
      apply Hr in Hqr as (w & Hw & Ht).
      destruct (chars_surjective w) as [input <-].
      { eapply Forall_impl; [exact Hw|]. intros x Hx. by apply Hlen. }
      specialize (Hnone o input). apply not_true_iff_false in Hnone.
      apply Hnone, accept_iff_trace. eauto.
Qed.

Lemma is_empty_answer_witness :
  ∃ fuel0 answer,
    (∀ fuel, fuel0 ≤ fuel →
       ∃ h', Shared.is_empty canonical fuel Shared.cycle_store Shared.cycle =
             Some (answer, h')) ∧
    (answer = true ↔
     ∀ o' input,
       accept o' (shared_view Shared.cycle_store Shared.cycle) input = false).
Proof.
  apply (is_empty_answer canonical Shared.cycle_store Shared.cycle).
  - simpl. intros q ->%elem_of_singleton.
    apply elem_of_union_l, elem_of_union_r. by apply elem_of_singleton.
  - intros q x T HT. apply cycle_well_formed in HT. apply HT.
  - simpl. by intros x ->%elem_of_singleton.
Defined.

(** ** [determinize] on a deterministic automaton *)

Lemma for_each_skip {X St} (body : X → St → outcome St) (l : list X)
    (s : St) :
  (∀ x, x ∈ l → body x s = Returns s) → for_each body l s = Returns s.
Proof.
  induction l as [|x l IH]; intros Hbody; simpl; [done|].
  rewrite Hbody by (by left). simpl. apply IH. intros y Hy.
  apply Hbody. by right.
Qed.

Lemma determinize_deterministic_id (o : IterOrder) (fuel : nat) (A : NFA) :
  deterministic A → determinize o fuel A = Returns A.
Proof.
  intros Hdet. unfold determinize. rewrite for_each_skip.
  - simpl. f_equal. apply NFA_eq; try done. simpl.
    apply map_eq. intros k. rewrite lookup_fmap.
    destruct (_transitions A !! k) as [T|] eqn:HT; [|done]. simpl.
    apply Hdet in HT. apply size_1_elem_of in HT as [q Hq].
    apply leibniz_equiv in Hq. subst T. by rewrite name_of_singleton.
  - intros [k T] Hin%elem_of_dict_order. apply Hdet in Hin.
    rewrite decide_False; [done | lia].
Qed.

(** X11.  [determinize] leaves an automaton unchanged when
    [is_deterministic] holds; in particular a second call changes nothing
    after a first one that returned. *)
Theorem determinize_idempotent (o : IterOrder) (A : NFA) :
  (is_deterministic o A = true →
   ∀ fuel, determinize o fuel A = Returns A) ∧
  (∀ fuel A', determinize o fuel A = Returns A' →
              ∀ fuel', determinize o fuel' A' = Returns A').
Proof.
  split.
  - intros Hdet%is_deterministic_spec fuel.
    by apply determinize_deterministic_id.
  - intros fuel A' Hret%determinize_deterministic fuel'.
    by apply determinize_deterministic_id.
Qed.

Lemma determinize_idempotent_witness :
  determinize canonical 0 two_states = Returns two_states.
Proof.
  apply (proj1 (determinize_idempotent canonical two_states)). reflexivity.
Defined.

(** ** [minimize]: what it keeps *)

Lemma for_each_invariant {X St} (P : St → Prop)
    (body : X → St → outcome St) (l : list X) (s s' : St) :
  P s → (∀ x s s', P s → body x s = Returns s' → P s') →
  for_each body l s = Returns s' → P s'.
Proof.
  intros Hs Hbody. revert s Hs.
  induction l as [|x l IH]; intros s Hs; simpl.
  - by intros [= <-].
  - destruct (body x s) as [s1| |] eqn:Hx; simpl; [|done..].
    apply IH. by eapply Hbody.
Qed.

Lemma shrinks_refl A : shrinks A A.
Proof. by repeat split. Qed.

Lemma shrinks_trans A B C : shrinks A B → shrinks B C → shrinks A C.
Proof.
  intros (? & HiB & HaB & ? & ?) (? & HiC & HaC & ? & ?).
  repeat split; [auto | congruence | congruence | set_solver..].
Qed.

Lemma remove_state_shrinks (o : IterOrder) (s : string) A :
  shrinks A (remove_state o s A).
Proof.
  destruct (remove_state_fields o s A) as (? & ? & ? & ?).
  repeat split; try done. apply remove_state_deterministic.
Qed.

Lemma remove_states_shrinks (o : IterOrder) (l : list string) A :
  shrinks A (foldl (λ A s, remove_state o s A) A l).
Proof.
  revert A. induction l as [|s l IH]; intros A; simpl;
    [apply shrinks_refl|].
  eapply shrinks_trans; [apply remove_state_shrinks | apply IH].
Qed.

Lemma merge_states_shrinks (o : IterOrder) (a b : string) A :
  shrinks A (_merge_states o a b A).
Proof.
  unfold _merge_states.
  destruct (if decide (b = _initial_state A ∨ a ∉ _states A)
            then (a, b) else (b, a)) as [removed kept].
  eapply shrinks_trans; [|apply remove_state_shrinks].
  repeat split; try done. intros Hdet. unfold deterministic. simpl.
  apply (foldl_preserves
           (λ t : gmap (string * string) (gset string),
              ∀ k T, t !! k = Some T → size T = 1)); [done|].
  intros t [k T] _ Ht. case_decide; [|done].
  intros k' T' [[_ <-]|[_ HT']]%lookup_insert_Some; [|by eapply Ht].
  apply size_singleton.
Qed.

(** X12.  When [minimize] returns, the automaton is still deterministic,
    has the same initial state and alphabet, and its states and final
    states are among those it had. *)
Theorem minimize_keeps (o : IterOrder) (fuel : nat) (A A' : NFA) :
  minimize o fuel A = Returns A' →
  (∀ o', is_deterministic o' A' = true) ∧
  _initial_state A' = _initial_state A ∧
  _alphabet A' = _alphabet A ∧
  _states A' ⊆ _states A ∧
  _final_states A' ⊆ _final_states A.
Proof.
  unfold minimize. destruct (is_deterministic o A) eqn:Hdet; [|done].
  apply is_deterministic_spec in Hdet. simpl.
  destruct (remove_unreachable o fuel A) as [A1| |] eqn:H1; [|done..].
  simpl. destruct (remove_dead o fuel A1) as [A2| |] eqn:H2; [|done..].
  simpl. intros H3.
  assert (H01 : shrinks A A1).
  { unfold remove_unreachable in H1.
    destruct (reachable_loop _ _ _ _ _); [|done].
    injection H1 as <-. apply remove_states_shrinks. }
  assert (H12 : shrinks A1 A2).
  { unfold remove_dead in H2. destruct (alive_loop _ _ _ _ _); [|done].
    injection H2 as <-. apply remove_states_shrinks. }
  assert (H23 : shrinks A2 A').
  { unfold merge_equivalent in H3.
    destruct (is_deterministic o A2); [|done]. simpl in H3.
    destruct (refine_loop o fuel A2 (initial_pairs o A2)) as [[U|]|];
      [|done..].
    revert H3. apply for_each_invariant; [apply shrinks_refl|].
    intros p B B' HB Hp. eapply shrinks_trans; [exact HB|].
    destruct (set_order o p) as [|a [|b [|? ?]]]; try done.
    injection Hp as <-. apply merge_states_shrinks. }
  destruct (shrinks_trans _ _ _ H01 (shrinks_trans _ _ _ H12 H23))
    as (Hd & ? & ? & ? & ?).
  repeat split; try done. intros o'. by apply is_deterministic_spec, Hd.
Qed.

Lemma minimize_keeps_witness :
  ∃ A', minimize canonical 3 two_states = Returns A' ∧
        ∀ o', is_deterministic o' A' = true.
Proof.
  destruct (minimize canonical 3 two_states) as [A'| |] eqn:Hmin.
  - exists A'. split; [reflexivity|].
    apply (minimize_keeps canonical 3 two_states A' Hmin).
  - exfalso. vm_compute in Hmin. discriminate Hmin.
  - exfalso. vm_compute in Hmin. discriminate Hmin.
Defined.

(** ** [is_finite]: a positive answer *)

Lemma elem_of_all_successors A (q q' : string) :
  q' ∈ all_successors A q ↔ ∃ x, x ∈ _alphabet A ∧ q' ∈ targets A q x.
Proof. unfold all_successors. by rewrite elem_of_set_bind. Qed.

Lemma has_recursion_sound (o : IterOrder) (fuel : nat) (A : NFA)
    (to_visit : list string) (visited : gset string) :
  _has_recursion o fuel A to_visit visited = Some false →
  ∀ q w q', q ∈ to_visit → Forall (λ x, x ∈ _alphabet A) w →
            trace A q w q' → List.length w < fuel.
Proof.
  revert to_visit visited.
  induction fuel as [|fuel IH]; intros to_visit visited; [done|].
  destruct to_visit as [|state to_visit].
  { intros _ q w q' Hq. by inversion Hq. }
  rewrite has_recursion_step. case_decide as Hrec; [done|].
  intros Hrest q w q' Hq Hw Ht.
  apply elem_of_cons in Hq as [->|Hq].
  - inversion Ht as [|? x q1 w' ? Hq1 Ht']; subst; simpl; [lia|].
    apply Forall_cons in Hw as [Hx Hw].
    assert (Hs : q1 ∈ all_successors A state)
      by (apply elem_of_all_successors; eauto).
    assert (List.length w' < fuel); [|lia].
    apply (IH _ _ Hrest q1 w' q'); [|done..].
    apply elem_of_app. right. apply elem_of_set_order.
    apply elem_of_difference. split; [done|].
    intros Hv.
    assert (Hin : q1 ∈ all_successors A state ∩ ({[state]} ∪ visited))
      by by apply elem_of_intersection.
    rewrite Hrec in Hin. by apply elem_of_empty in Hin.
  - assert (List.length w < fuel); [|lia].
    apply (IH _ _ Hrest q w q'); [|done..].
    apply elem_of_app. by left.
Qed.

(** X13.  When [is_finite] answers true and every entry of the table is
    keyed by a symbol of the alphabet, the language is finite: the length
    of the strings the automaton accepts is bounded. *)
Theorem is_finite_sound (o : IterOrder) (fuel : nat) (A : NFA) :
  is_finite o fuel A = Some true → symbols_in_alphabet A →
  ∃ n, ∀ o' input, accept o' A input = true → String.length input < n.
Proof.
  unfold is_finite. intros Hfin Hinv. exists fuel. intros o' input Hacc.
  destruct (_has_recursion o fuel A [_initial_state A] ∅)
    as [[|]|] eqn:Hrec; try done.
  apply accept_iff_trace in Hacc as (q & _ & Ht).
  rewrite <- length_chars.
  apply (has_recursion_sound o fuel A _ _ Hrec (_initial_state A) _ q);
    [by left | by eapply trace_symbols | done].
Qed.

Lemma is_finite_sound_witness :
  ∃ n, ∀ o' input,
    accept o' two_states input = true → String.length input < n.
Proof.
  apply (is_finite_sound canonical 3 two_states).
  - reflexivity.
  - intros q x T HT. simpl in *.
    apply lookup_singleton_Some in HT as [[= <- <-] _].
    by apply elem_of_singleton.
Defined.

(** ** Canonicalizer: [_beautify] *)

Lemma rename_all_spec (bs : gmap string string) (l : list string)
    (X : gset string) :
  rename_all bs l = Value X ↔
  (∀ q, q ∈ l → is_Some (bs !! q)) ∧
  X = list_to_set (omap (λ q, bs !! q) l).
Proof.
  revert X. induction l as [|q l IH]; intros X; simpl.
  - split; [intros [= <-] | intros [_ ->]]; [|done].
    split; [|done]. intros q Hq. by inversion Hq.
  - unfold lookup_name. destruct (bs !! q) as [v|] eqn:Hv.
    + destruct (rename_all bs l) as [Y|e] eqn:HY.
      * destruct (proj1 (IH Y) eq_refl) as [Hall ->]. split.
        -- intros [= <-]. split; [|done].
           intros p [->|?]%elem_of_cons; [by eexists | by apply Hall].
        -- intros [_ ->]. done.
      * split; [done|]. intros [Hall _].
        assert (Hbad : Error e =
                       Value (list_to_set (omap (λ q, bs !! q) l)
                              : gset string)).
        { apply IH. split; [|done]. intros p Hp. apply Hall. by right. }
        done.
    + split; [done|]. intros [Hall _].
      destruct (Hall q) as [? ?]; [by left | congruence].
Qed.

Lemma rename_all_error (bs : gmap string string) (l : list string)
    (e : exn) :
  rename_all bs l = Error e →
  ∃ k, e = KeyError k ∧ k ∈ l ∧ bs !! k = None.
Proof.
  induction l as [|q l IH]; simpl; [done|].
  unfold lookup_name. destruct (bs !! q) as [v|] eqn:Hv.
  - destruct (rename_all bs l) as [Y|e'] eqn:HY; [done|].
    intros [= <-]. destruct (IH eq_refl) as (k & -> & ? & ?).
    exists k. repeat split; [by right | done].
  - intros [= <-]. exists q. repeat split; [by left | done].
Qed.

Lemma rename_all_set (o : IterOrder) (bs : gmap string string)
    (T X : gset string) :
  rename_all bs (set_order o T) = Value X ↔ T ⊆ dom bs ∧ X = rename_set bs T.
Proof.
  rewrite rename_all_spec.
  assert (Hset : (list_to_set (omap (λ q, bs !! q) (set_order o T))
                  : gset string) = rename_set bs T).
  { apply set_eq. intros v. unfold rename_set.
    rewrite elem_of_list_to_set, list_elem_of_omap, elem_of_set_omap.
    by setoid_rewrite elem_of_set_order. }
  rewrite Hset. setoid_rewrite elem_of_set_order.
  setoid_rewrite <- elem_of_dom. done.
Qed.

Lemma elem_of_rename_set (bs : gmap string string) (T : gset string)
    (v : string) :
  v ∈ rename_set bs T ↔ ∃ q, q ∈ T ∧ bs !! q = Some v.
Proof. apply elem_of_set_omap. Qed.

Lemma rename_transitions_lookup (o : IterOrder) (bs : gmap string string)
    (items : list (string * string * gset string))
    (acc t' : gmap (string * string) (gset string)) :
  injective_names bs → NoDup items.*1 →
  rename_transitions o bs items acc = Value t' →
  (∀ q x T, ((q, x), T) ∈ items → q ∈ dom bs ∧ T ⊆ dom bs) ∧
  ∀ c x V, t' !! (c, x) = Some V ↔
    (∃ q T, ((q, x), T) ∈ items ∧ bs !! q = Some c ∧
            V = rename_set bs T) ∨
    ((∀ q T, ((q, x), T) ∈ items → bs !! q ≠ Some c) ∧
     acc !! (c, x) = Some V).
Proof.
  intros Hinj. revert acc.
  induction items as [|[[q0 x0] T0] items IH]; intros acc Hnd; simpl.
  - intros [= <-]. split.
    + intros q x T Hin. by inversion Hin.
    + intros c x V. split.
      * intros ?. right. split; [|done]. intros q T Hin. by inversion Hin.
      * intros [(q & T & Hin & _)|[_ ?]]; [by inversion Hin | done].
  - unfold lookup_name. destruct (bs !! q0) as [c0|] eqn:Hq0; [|done].
    destruct (rename_all bs (set_order o T0)) as [V0|] eqn:HV0; [|done].
    apply rename_all_set in HV0 as [HT0 ->].
    apply NoDup_cons in Hnd as [Hfresh Hnd].
    intros Hret. destruct (IH _ Hnd Hret) as [Hdom Hlook]. split.
    + intros q x T [[= -> -> ->]|Hin]%elem_of_cons.
      * split; [by apply elem_of_dom | done].
      * by eapply Hdom.
    + intros c x V. rewrite Hlook. split.
      * intros [(q & T & Hin & Hq & ->)|[Hnone Hacc]].
        { left. exists q, T. split; [by right | done]. }
        apply lookup_insert_Some in Hacc as [[[= <- <-] <-]|[Hne Hacc]].
        { left. exists q0, T0. split; [by left | done]. }
        right. split; [|done].
        intros q T [[= -> -> ->]|Hin]%elem_of_cons; [congruence|].
        by eapply Hnone.
      * intros [(q & T & [[= -> -> ->]|Hin]%elem_of_cons & Hq & ->)|
                [Hnone Hacc]].
        { right. split.
          - intros q T Hin Hq'. apply Hfresh.
            assert (q = q0) as -> by (eapply Hinj; [done|congruence]).
            apply list_elem_of_fmap. by exists ((q0, x0), T).
          - assert (c = c0) as -> by congruence.
            by rewrite lookup_insert_eq. }
        { left. eauto. }
        right. split.
        { intros q T Hin. apply (Hnone q T). by right. }
        rewrite lookup_insert_ne; [done|].
        intros [= <- <-]. apply (Hnone q0 T0); [by left | done].
Qed.

Lemma rename_transitions_value (o : IterOrder) (bs : gmap string string)
    (items : list (string * string * gset string))
    (acc : gmap (string * string) (gset string)) :
  (∀ q x T, ((q, x), T) ∈ items → q ∈ dom bs ∧ T ⊆ dom bs) →
  ∃ t', rename_transitions o bs items acc = Value t'.
Proof.
  revert acc. induction items as [|[[q0 x0] T0] items IH]; intros acc Hall;
    simpl; [by eexists|].
  destruct (Hall q0 x0 T0) as [[c0 Hq0]%elem_of_dom HT0]; [by left|].
  unfold lookup_name. rewrite Hq0.
  rewrite (proj2 (rename_all_set o bs T0 _) (conj HT0 eq_refl)).
  apply IH. intros q x T Hin. apply (Hall q x T). by right.
Qed.

Lemma rename_transitions_error (o : IterOrder) (bs : gmap string string)
    (items : list (string * string * gset string))
    (acc : gmap (string * string) (gset string)) (e : exn) :
  rename_transitions o bs items acc = Error e →
  ∃ k, e = KeyError k ∧ bs !! k = None ∧
       ∃ q x T, ((q, x), T) ∈ items ∧ (k = q ∨ k ∈ T).
Proof.
  revert acc. induction items as [|[[q0 x0] T0] items IH]; intros acc;
    simpl; [done|].
  unfold lookup_name. destruct (bs !! q0) as [c0|] eqn:Hq0.
  - destruct (rename_all bs (set_order o T0)) as [V0|e'] eqn:HV0.
    + intros (k & -> & ? & q & x & T & ? & ?)%IH.
      exists k. repeat split; [done|]. exists q, x, T. split; [by right|done].
    + intros [= <-].
      apply rename_all_error in HV0 as (k & -> & Hk%elem_of_set_order & ?).
      exists k. repeat split; [done|]. exists q0, x0, T0.
      split; [by left | by right].
  - intros [= <-]. exists q0. repeat split; [done|].
    exists q0, x0, T0. split; [by left | by left].
Qed.

Lemma beautify_result (o : IterOrder) (bs : gmap string string)
    (A A' : NFA) :
  injective_names bs → _beautify o bs A = Returns A' →
  covers bs A ∧
  bs !! _initial_state A = Some (_initial_state A') ∧
  _states A' = map_img bs ∧
  _alphabet A' = _alphabet A ∧
  _final_states A' = rename_set bs (_final_states A) ∧
  ∀ c x V, _transitions A' !! (c, x) = Some V ↔
           ∃ q T, _transitions A !! (q, x) = Some T ∧ bs !! q = Some c ∧
                  V = rename_set bs T.
Proof.
  intros Hinj. unfold _beautify, lookup_name.
  destruct (bs !! _initial_state A) as [i'|] eqn:Hi; [|done]. simpl.
  destruct (rename_transitions o bs (dict_order o (_transitions A)) ∅)
    as [t'|] eqn:Ht; [|done].
  simpl. destruct (rename_all bs (set_order o (_final_states A)))
    as [F'|] eqn:HF; [|done].
  intros [= <-]. simpl.
  apply rename_all_set in HF as [HF ->].
  apply rename_transitions_lookup in Ht as [Hdom Hlook];
    [|done|apply NoDup_dict_order_keys].
  split; [|repeat split; try done].
  - split; [by apply elem_of_dom|]. split; [done|].
    intros q x T HT. by eapply Hdom, elem_of_dict_order.
  - rewrite Hlook.
    intros [(q & T & Hin%elem_of_dict_order & ? & ?)|[_ Hempty]]; [eauto|].
    by rewrite lookup_empty in Hempty.
  - intros (q & T & HT & ? & ?). apply Hlook. left.
    exists q, T. by rewrite elem_of_dict_order.
Qed.

Lemma beautify_covered (o : IterOrder) (bs : gmap string string) (A : NFA) :
  covers bs A → ∃ A', _beautify o bs A = Returns A'.
Proof.
  intros ([i' Hi]%elem_of_dom & HF & Ht). unfold _beautify, lookup_name.
  rewrite Hi. simpl.
  destruct (rename_transitions_value o bs (dict_order o (_transitions A)) ∅)
    as [t' ->].
  { intros q x T Hin%elem_of_dict_order. by eapply Ht. }
  simpl. rewrite (proj2 (rename_all_set o bs _ _) (conj HF eq_refl)).
  by eexists.
Qed.

(** What a failed renaming leaves: the error names a state without a new
    name; the final states are still the old ones. *)
Lemma beautify_raises (o : IterOrder) (bs : gmap string string)
    (A A1 : NFA) (e : exn) :
  _beautify o bs A = Raises e A1 →
  ¬ covers bs A ∧
  ∃ k, e = KeyError k ∧ bs !! k = None ∧
       _final_states A1 = _final_states A ∧
       _alphabet A1 = _alphabet A ∧
       (k = _initial_state A ∧ A1 = A ∨
        bs !! _initial_state A = Some (_initial_state A1) ∧
        _states A1 = map_img bs).
Proof.
  unfold _beautify, lookup_name.
  destruct (bs !! _initial_state A) as [i'|] eqn:Hi.
  - simpl.
    destruct (rename_transitions o bs (dict_order o (_transitions A)) ∅)
      as [t'|e'] eqn:Ht.
    + simpl. destruct (rename_all bs (set_order o (_final_states A)))
        as [F'|e'] eqn:HF; [done|].
      intros [= <- <-]. simpl.
      apply rename_all_error in HF as (k & -> & Hk%elem_of_set_order & Hnone).
      split.
      * intros (_ & Hcov & _). apply Hcov, elem_of_dom in Hk as [? ?].
        congruence.
      * exists k. repeat split; try done. by right.
    + intros [= <- <-]. simpl.
      apply rename_transitions_error in Ht
        as (k & -> & Hnone & q & x & T & Hin%elem_of_dict_order & Hk).
      split.
      * intros (_ & _ & Hcov). destruct (Hcov q x T Hin) as [Hq HT].
        destruct Hk as [->|Hk].
        -- apply elem_of_dom in Hq as [? ?]. congruence.
        -- apply HT, elem_of_dom in Hk as [? ?]. congruence.
      * exists k. repeat split; try done. by right.
  - intros [= <- <-]. split.
    + intros ([? ?]%elem_of_dom & _). congruence.
    + exists (_initial_state A). repeat split; try done. by left.
Qed.

(** ** Renaming and the language *)

Section Renamed.
Variable bs : gmap string string.
Variables A A' : NFA.
Hypothesis Hinj : injective_names bs.
Hypothesis Hcov : covers bs A.
Hypothesis Hfinal : _final_states A' = rename_set bs (_final_states A).
Hypothesis Htable :
  ∀ c x V, _transitions A' !! (c, x) = Some V ↔
           ∃ q T, _transitions A !! (q, x) = Some T ∧ bs !! q = Some c ∧
                  V = rename_set bs T.

Lemma renamed_trace_forward (q : string) (w : list string) (q' c : string) :
  trace A q w q' → bs !! q = Some c →
  ∃ c', bs !! q' = Some c' ∧ trace A' c w c'.
Proof.
  intros Ht. revert c. induction Ht as [q|q x q1 w q' Hq1 _ IH]; intros c Hc.
  - exists c. split; [done | constructor].
  - apply elem_of_targets in Hq1 as (T & HT & Hq1).
    destruct Hcov as (_ & _ & Hdom). destruct (Hdom q x T HT) as [_ HTd].
    destruct (proj1 (elem_of_dom bs q1) (HTd q1 Hq1)) as [c1 Hc1].
    destruct (IH c1 Hc1) as (c' & Hc' & Ht').
    exists c'. split; [done|]. econstructor; [|done].
    apply elem_of_targets. exists (rename_set bs T). split.
    + apply Htable. eauto.
    + apply elem_of_rename_set. eauto.
Qed.

Lemma renamed_trace_backward (c : string) (w : list string) (c' q : string) :
  trace A' c w c' → bs !! q = Some c →
  ∃ q', bs !! q' = Some c' ∧ trace A q w q'.
Proof.
  intros Ht. revert q. induction Ht as [c|c x c1 w c' Hc1 _ IH]; intros q Hq.
  - exists q. split; [done | constructor].
  - apply elem_of_targets in Hc1 as (V & HV & Hc1).
    apply Htable in HV as (q0 & T & HT & Hq0 & ->).
    assert (q0 = q) as -> by by eapply Hinj.
    apply elem_of_rename_set in Hc1 as (q1 & Hq1 & Hc1).
    destruct (IH q1 Hc1) as (q' & Hq' & Ht').
    exists q'. split; [done|]. econstructor; [|done].
    apply elem_of_targets. eauto.
Qed.

Lemma renamed_accept (o o' : IterOrder) (input : string) :
  bs !! _initial_state A = Some (_initial_state A') →
  accept o A' input = accept o' A input.
Proof.
  intros Hi. destruct (accept o' A input) eqn:Hacc.
  - apply accept_iff_trace in Hacc as (q & Hq & Ht).
    apply accept_iff_trace.
    destruct (renamed_trace_forward _ _ _ _ Ht Hi) as (c' & Hc' & Ht').
    exists c'. split; [|done]. rewrite Hfinal.
    apply elem_of_rename_set. eauto.
  - apply not_true_iff_false. apply not_true_iff_false in Hacc.
    intros (c' & Hc' & Ht')%accept_iff_trace. apply Hacc.
    apply accept_iff_trace.
    destruct (renamed_trace_backward _ _ _ _ Ht' Hi) as (q' & Hq' & Ht).
    rewrite Hfinal in Hc'. apply elem_of_rename_set in Hc' as (f & Hf & Hc').
    assert (f = q') as -> by by eapply Hinj.
    eauto.
Qed.
End Renamed.

Lemma beautify_language (o o1 o2 : IterOrder) (bs : gmap string string)
    (A A' : NFA) (input : string) :
  injective_names bs → _beautify o bs A = Returns A' →
  accept o1 A' input = accept o2 A input.
Proof.
  intros Hinj Hret.
  destruct (beautify_result o bs A A' Hinj Hret)
    as (Hcov & Hi & _ & _ & HF & Ht).
  by apply (renamed_accept bs A A').
Qed.

(** ** Canonicalizer: the names [beautify_qn] gives *)

Lemma NoDup_sorted_set_order (o : IterOrder) (X : gset string) :
  NoDup (sorted (set_order o X)).
Proof.
  unfold sorted. rewrite merge_sort_Permutation. apply NoDup_set_order.
Qed.

Lemma elem_of_sorted_set_order (o : IterOrder) (X : gset string) (s : string) :
  s ∈ sorted (set_order o X) ↔ s ∈ X.
Proof.
  unfold sorted. by rewrite merge_sort_Permutation, elem_of_set_order.
Qed.

Lemma length_sorted_set_order (o : IterOrder) (X : gset string) :
  List.length (sorted (set_order o X)) = size X.
Proof.
  unfold sorted. rewrite merge_sort_Permutation, set_order_perm. done.
Qed.

(** The dictionary built from an enumeration. *)
Lemma enumerate_insert_lookup (g : nat → string) (l : list string) (k : nat)
    (acc : gmap string string) (s v : string) :
  NoDup l →
  foldl (λ bs '(number, state), <[state := g number]> bs) acc
        (imap (λ i x, (k + i, x)) l) !! s = Some v ↔
  (∃ n, l !! n = Some s ∧ v = g (k + n)) ∨ ((s ∉ l) ∧ acc !! s = Some v).
Proof.
  revert k acc. induction l as [|a l IH]; intros k acc Hnd; simpl.
  - split.
    + intros ?. right. split; [|done]. by intros ?%elem_of_nil.
    + intros [(n & Hn & _)|[_ ?]]; [done | done].
  - apply NoDup_cons in Hnd as [Ha Hnd].
    rewrite (imap_ext _ (λ i x, (S k + i, x))); last first.
    { intros i x _. simpl. f_equal. lia. }
    rewrite IH by done. split.
    + intros [(n & Hn & ->)|[Hs Hacc]].
      * left. exists (S n). split; [done|]. f_equal; lia.
      * apply lookup_insert_Some in Hacc as [[<- <-]|[Hne Hacc]].
        -- left. exists 0. split; [done|]. f_equal; lia.
        -- right. split; [|done]. by intros [?|?]%elem_of_cons.
    + intros [([|n] & Hn & ->)|[Hs Hacc]].
      * simpl in Hn. injection Hn as ->. right. split; [done|].
        rewrite Nat.add_0_r. by rewrite lookup_insert_eq.
      * left. exists n. split; [done|]. f_equal; lia.
      * right. apply not_elem_of_cons in Hs as [Hne Hs]. split; [done|].
        by rewrite lookup_insert_ne.
Qed.

Lemma qn_names_lookup (o : IterOrder) (A : NFA) (s v : string) :
  foldl (λ bs '(number, state), <[state := "q" ++ pretty (number + 1)]> bs)
        ({[_initial_state A := "q0"]} : gmap string string)
        (enumerate (sorted (set_order o (_states A ∖ {[_initial_state A]}))))
    !! s = Some v ↔
  (s = _initial_state A ∧ v = "q0") ∨
  (∃ n, sorted (set_order o (_states A ∖ {[_initial_state A]})) !! n = Some s ∧
        v = "q" ++ pretty (n + 1)).
Proof.
  unfold enumerate.
  rewrite (imap_ext _ (λ i x, (0 + i, x))) by done.
  rewrite (enumerate_insert_lookup (λ n, "q" ++ pretty (n + 1)))
    by apply NoDup_sorted_set_order.
  rewrite lookup_singleton_Some. split.
  - intros [?|[_ [<- <-]]]; [by right | by left].
  - intros [[-> ->]|?]; [|by left]. right. split; [|done].
    rewrite elem_of_sorted_set_order. set_solver.
Qed.

Lemma qn_names_dom (o : IterOrder) (A : NFA) :
  dom (foldl (λ bs '(number, state),
                <[state := "q" ++ pretty (number + 1)]> bs)
             ({[_initial_state A := "q0"]} : gmap string string)
             (enumerate (sorted (set_order o
                                   (_states A ∖ {[_initial_state A]}))))) =
  {[_initial_state A]} ∪ _states A.
Proof.
  apply set_eq. intros s. rewrite elem_of_dom. unfold is_Some.
  setoid_rewrite qn_names_lookup. rewrite elem_of_union, elem_of_singleton.
  split.
  - intros (v & [[-> _]|(n & Hn & _)]); [by left|].
    apply list_elem_of_lookup_2, elem_of_sorted_set_order in Hn.
    set_solver.
  - destruct (decide (s = _initial_state A)) as [->|Hne].
    + intros _. exists "q0". by left.
    + intros [?|Hs]; [done|].
      assert (Hin : s ∈ sorted (set_order o
                                  (_states A ∖ {[_initial_state A]})))
        by (apply elem_of_sorted_set_order; set_solver).
      apply list_elem_of_lookup_1 in Hin as [n Hn].
      eexists. right. eauto.
Qed.

Lemma q_name_inj (n m : nat) :
  "q" ++ pretty n = "q" ++ pretty m → n = m.
Proof.
  intros H. simpl in H. injection H as H. by apply pretty_nat_inj in H.
Qed.

Lemma qn_names_injective (o : IterOrder) (A : NFA) :
  injective_names
    (foldl (λ bs '(number, state),
              <[state := "q" ++ pretty (number + 1)]> bs)
           ({[_initial_state A := "q0"]} : gmap string string)
           (enumerate (sorted (set_order o
                                 (_states A ∖ {[_initial_state A]}))))).
Proof.
  intros a b v Ha Hb. apply qn_names_lookup in Ha, Hb.
  destruct Ha as [[-> ->]|(n & Hn & ->)], Hb as [[-> Hv]|(m & Hm & Hv)];
    try done.
  - change "q0" with ("q" ++ pretty 0) in Hv. apply q_name_inj in Hv. lia.
  - change "q0" with ("q" ++ pretty 0) in Hv. apply q_name_inj in Hv. lia.
  - apply q_name_inj in Hv. assert (n = m) as -> by lia. congruence.
Qed.

Lemma covers_qn (o : IterOrder) (A : NFA) :
  covers (foldl (λ bs '(number, state),
                   <[state := "q" ++ pretty (number + 1)]> bs)
                ({[_initial_state A := "q0"]} : gmap string string)
                (enumerate (sorted (set_order o
                                      (_states A ∖ {[_initial_state A]})))))
         A ↔
  names_closed A.
Proof.
  unfold covers, names_closed. rewrite qn_names_dom. set_solver.
Qed.

Lemma rename_set_singleton (bs : gmap string string) (q c : string) :
  bs !! q = Some c → rename_set bs {[q]} = {[c]}.
Proof.
  intros Hq. apply set_eq. intros v.
  rewrite elem_of_rename_set, elem_of_singleton. split.
  - intros (p & ->%elem_of_singleton & ?). congruence.
  - intros ->. exists q. split; [by apply elem_of_singleton | done].
Qed.

Lemma beautify_deterministic (o : IterOrder) (bs : gmap string string)
    (A A' : NFA) :
  injective_names bs → _beautify o bs A = Returns A' →
  deterministic A → deterministic A'.
Proof.
  intros Hinj Hret Hdet [c x] V HV.
  destruct (beautify_result o bs A A' Hinj Hret)
    as ((_ & _ & Hcov) & _ & _ & _ & _ & Ht).
  apply Ht in HV as (q & T & HT & Hq & ->).
  destruct (Hcov q x T HT) as [_ Hdom].
  apply Hdet in HT. apply size_1_elem_of in HT as [p Hp].
  apply leibniz_equiv in Hp. subst T.
  assert (Hpd : p ∈ dom bs) by (apply Hdom; by apply elem_of_singleton).
  apply elem_of_dom in Hpd as [c' Hc'].
  rewrite (rename_set_singleton bs p c' Hc'). apply size_singleton.
Qed.

(** X14.  [beautify_qn] returns exactly when every state the automaton
    mentions (final states, states of the transition keys, targets) is the
    initial state or a member of the state set.  Otherwise it raises a
    [KeyError] for a state that is neither, and leaves the receiver half
    renamed: the initial state is already [q0], the final states are still
    the old ones. *)
Theorem beautify_qn_outcome (o : IterOrder) (A : NFA) :
  ((∃ A', beautify_qn o A = Returns A') ↔ names_closed A) ∧
  (∀ e A1, beautify_qn o A = Raises e A1 →
     ∃ k, e = KeyError k ∧ (k ∉ {[_initial_state A]} ∪ _states A) ∧
          _initial_state A1 = "q0" ∧
          _final_states A1 = _final_states A) ∧
  beautify_qn o A ≠ OutOfFuel.
Proof.
  unfold beautify_qn.
  set (bs := foldl _ _ _).
  split; [|split].
  - rewrite <- (covers_qn o). fold bs. split.
    + intros [A' Hret].
      by destruct (beautify_result o bs A A' (qn_names_injective o A) Hret).
    + apply beautify_covered.
  - intros e A1 Hraise.
    apply beautify_raises in Hraise
      as (_ & k & -> & Hnone & HF & _ & [[-> _]|[Hi _]]).
    + exfalso. assert (Hin : _initial_state A ∈ dom bs).
      { unfold bs. rewrite qn_names_dom. set_solver. }
      apply elem_of_dom in Hin as [? ?]. congruence.
    + exists k. repeat split; try done.
      * rewrite <- (qn_names_dom o). fold bs. by apply not_elem_of_dom.
      * apply qn_names_lookup in Hi as [[_ ?]|(n & Hn & _)]; [done|].
        apply list_elem_of_lookup_2, elem_of_sorted_set_order in Hn.
        set_solver.
  - unfold _beautify. repeat case_match; done.
Qed.

Lemma two_states_closed : names_closed two_states.
Proof.
  split; simpl.
  - set_solver.
  - intros q x T [[= <- <-] <-]%lookup_singleton_Some. set_solver.
Qed.

Lemma beautify_qn_outcome_witness :
  ∃ A', beautify_qn canonical two_states = Returns A'.
Proof.
  apply (proj1 (beautify_qn_outcome canonical two_states)).
  apply two_states_closed.
Defined.

(** X15.  When [beautify_qn] returns, the initial state is [q0], the states
    are [q0], [q1], ..., one for each state there was, the alphabet is
    unchanged, a deterministic automaton is still deterministic, and the
    automaton accepts the same strings. *)
Theorem beautify_qn_spec (o : IterOrder) (A A' : NFA) :
  beautify_qn o A = Returns A' →
  _initial_state A' = "q0" ∧
  _alphabet A' = _alphabet A ∧
  (∀ c, c ∈ _states A' ↔
        c = "q0" ∨
        ∃ n, n < size (_states A ∖ {[_initial_state A]}) ∧
             c = "q" ++ pretty (n + 1)) ∧
  (∀ o1 o2, is_deterministic o1 A = true → is_deterministic o2 A' = true) ∧
  ∀ o1 o2 input, accept o1 A' input = accept o2 A input.
Proof.
  unfold beautify_qn. set (bs := foldl _ _ _). intros Hret.
  pose proof (qn_names_injective o A) as Hinj. fold bs in Hinj.
  destruct (beautify_result o bs A A' Hinj Hret)
    as (Hcov & Hi & HS & HA & HF & Ht).
  repeat split; try done.
  - apply qn_names_lookup in Hi as [[_ ?]|(n & Hn & _)]; [done|].
    apply list_elem_of_lookup_2, elem_of_sorted_set_order in Hn.
    set_solver.
  - rewrite HS. intros [s Hs]%elem_of_map_img.
    apply qn_names_lookup in Hs as [[_ ->]|(n & Hn & ->)]; [by left|].
    right. exists n. split; [|done].
    apply lookup_lt_Some in Hn. by rewrite length_sorted_set_order in Hn.
  - rewrite HS. intros [->|(n & Hn & ->)]; apply elem_of_map_img.
    + exists (_initial_state A). apply qn_names_lookup. by left.
    + rewrite <- (length_sorted_set_order o) in Hn.
      apply lookup_lt_is_Some_2 in Hn as [s Hs].
      exists s. apply qn_names_lookup. right. eauto.
  - intros o1 o2 Hdet%is_deterministic_spec. apply is_deterministic_spec.
    by eapply beautify_deterministic.
  - intros o1 o2 input. by eapply beautify_language.
Qed.

Lemma beautify_qn_spec_witness :
  ∃ A', beautify_qn canonical two_states = Returns A' ∧
        ∀ o1 o2 input, accept o1 A' input = accept o2 two_states input.
Proof.
  destruct (beautify_qn canonical two_states) as [A'| |] eqn:Hret.
  - exists A'. split; [reflexivity|].
    apply (beautify_qn_spec canonical two_states A' Hret).
  - exfalso. vm_compute in Hret. discriminate Hret.
  - exfalso. vm_compute in Hret. discriminate Hret.
Defined.

(** ** Canonicalizer: the names [beautify_abc] gives *)

Lemma abc_number_closed (k n : nat) :
  abc_number k n =
  if decide (k ≤ 17 ∧ 17 < k + n) then k + n + 1 else k + n.
Proof.
  revert k. induction n as [|n IH]; intros k; simpl.
  - rewrite decide_False by lia. lia.
  - rewrite IH. repeat case_decide; lia.
Qed.

Lemma abc_fold_lookup (l : list string) (k : nat) (acc : gmap string string)
    (s v : string) :
  NoDup l →
  (foldl (λ '(bs, number) state,
            (<[state := chr (65 + number)]> bs,
             if decide (number = 17) then number + 1 + 1 else number + 1))
         (acc, k) l).1 !! s = Some v ↔
  (∃ n, l !! n = Some s ∧ v = chr (65 + abc_number k n)) ∨
  ((s ∉ l) ∧ acc !! s = Some v).
Proof.
  revert k acc. induction l as [|a l IH]; intros k acc Hnd; simpl.
  - split.
    + intros ?. right. split; [|done]. by intros ?%elem_of_nil.
    + intros [(n & Hn & _)|[_ ?]]; [done | done].
  - apply NoDup_cons in Hnd as [Ha Hnd].
    rewrite IH by done. split.
    + intros [(n & Hn & ->)|[Hs Hacc]].
      * left. by exists (S n).
      * apply lookup_insert_Some in Hacc as [[<- <-]|[Hne Hacc]].
        -- left. by exists 0.
        -- right. split; [|done]. by intros [?|?]%elem_of_cons.
    + intros [([|n] & Hn & ->)|[Hs Hacc]].
      * simpl in Hn. injection Hn as ->. right. split; [done|].
        simpl. by rewrite lookup_insert_eq.
      * left. by exists n.
      * right. apply not_elem_of_cons in Hs as [Hne Hs]. split; [done|].
        by rewrite lookup_insert_ne.
Qed.

Lemma chr_inj (n m : nat) : n < 256 → m < 256 → chr n = chr m → n = m.
Proof.
  intros Hn Hm [= H]. apply (f_equal nat_of_ascii) in H.
  by rewrite !nat_ascii_embedding in H.
Qed.

Section AbcNames.
Variable o : IterOrder.
Variable A : NFA.

Let l := sorted (set_order o (_states A ∖ {[_initial_state A]})).
Let bs :=
  (foldl (λ '(bs, number) state,
            (<[state := chr (65 + number)]> bs,
             if decide (number = 17) then number + 1 + 1 else number + 1))
         (({[_initial_state A := "S"]} : gmap string string), 0) l).1.

Lemma abc_names_lookup (s v : string) :
  bs !! s = Some v ↔
  (s = _initial_state A ∧ v = "S") ∨
  (∃ n, l !! n = Some s ∧ v = chr (65 + abc_number 0 n)).
Proof.
  unfold bs. rewrite abc_fold_lookup by apply NoDup_sorted_set_order.
  rewrite lookup_singleton_Some. split.
  - intros [?|[_ [<- <-]]]; [by right | by left].
  - intros [[-> ->]|?]; [|by left]. right. split; [|done].
    unfold l. rewrite elem_of_sorted_set_order. set_solver.
Qed.

Lemma abc_names_dom : dom bs = {[_initial_state A]} ∪ _states A.
Proof.
  apply set_eq. intros s. rewrite elem_of_dom. unfold is_Some.
  setoid_rewrite abc_names_lookup. rewrite elem_of_union, elem_of_singleton.
  split.
  - intros (v & [[-> _]|(n & Hn & _)]); [by left|].
    apply list_elem_of_lookup_2, elem_of_sorted_set_order in Hn.
    set_solver.
  - destruct (decide (s = _initial_state A)) as [->|Hne].
    + intros _. exists "S". by left.
    + intros [?|Hs]; [done|].
      assert (Hin : s ∈ l)
        by (apply elem_of_sorted_set_order; set_solver).
      apply list_elem_of_lookup_1 in Hin as [n Hn].
      eexists. right. eauto.
Qed.

Lemma abc_names_injective : size (_states A) ≤ 26 → injective_names bs.
Proof.
  intros Hsize.
  assert (Hlen : List.length l ≤ 26).
  { unfold l. rewrite length_sorted_set_order.
    etrans; [|exact Hsize]. apply subseteq_size. set_solver. }
  intros a b v Ha Hb. apply abc_names_lookup in Ha, Hb.
  destruct Ha as [[-> ->]|(n & Hn & ->)], Hb as [[-> Hv]|(m & Hm & Hv)];
    try done.
  - apply lookup_lt_Some in Hm. change "S" with (chr 83) in Hv.
    rewrite abc_number_closed in Hv.
    apply chr_inj in Hv; repeat case_decide; lia.
  - apply lookup_lt_Some in Hn. change "S" with (chr 83) in Hv.
    rewrite abc_number_closed in Hv.
    apply chr_inj in Hv; repeat case_decide; lia.
  - pose proof (lookup_lt_Some _ _ _ Hn). pose proof (lookup_lt_Some _ _ _ Hm).
    rewrite !abc_number_closed in Hv.
    assert (n = m) as ->.
    { apply chr_inj in Hv; repeat case_decide; lia. }
    congruence.
Qed.

Lemma covers_abc : covers bs A ↔ names_closed A.
Proof. unfold covers, names_closed. rewrite abc_names_dom. set_solver. Qed.

Lemma beautify_abc_unfold :
  size (_states A) ≤ 26 → beautify_abc o A = _beautify o bs A.
Proof.
  intros Hsize. unfold beautify_abc. rewrite decide_False by lia.
  unfold bs, l. by destruct (foldl _ _ _).
Qed.
End AbcNames.

(** X16.  [beautify_abc] raises "Too many states" and changes nothing when
    the automaton has more than 26 states.  Otherwise it returns exactly
    when every state the automaton mentions is the initial state or a
    member of the state set; then the initial state is [S], every state
    has a one-character name, the alphabet is unchanged and the automaton
    accepts the same strings. *)
Theorem beautify_abc_spec (o : IterOrder) (A : NFA) :
  (26 < size (_states A) →
   beautify_abc o A = Raises (RuntimeError "Too many states") A) ∧
  (size (_states A) ≤ 26 →
   ((∃ A', beautify_abc o A = Returns A') ↔ names_closed A) ∧
   ∀ A', beautify_abc o A = Returns A' →
         _initial_state A' = "S" ∧
         _alphabet A' = _alphabet A ∧
         (∀ c, c ∈ _states A' → String.length c = 1) ∧
         ∀ o1 o2 input, accept o1 A' input = accept o2 A input).
Proof.
  split.
  - intros Hsize. unfold beautify_abc. by rewrite decide_True.
  - intros Hsize. rewrite (beautify_abc_unfold o A Hsize).
    pose proof (abc_names_injective o A Hsize) as Hinj.
    split.
    + rewrite <- (covers_abc o). split.
      * intros [A' Hret].
        by destruct (beautify_result o _ A A' Hinj Hret).
      * apply beautify_covered.
    + intros A' Hret.
      destruct (beautify_result o _ A A' Hinj Hret)
        as (Hcov & Hi & HS & HA & HF & Ht).
      repeat split; try done.
      * apply abc_names_lookup in Hi as [[_ ?]|(n & Hn & _)]; [done|].
        apply list_elem_of_lookup_2, elem_of_sorted_set_order in Hn.
        set_solver.
      * intros c Hc. rewrite HS in Hc. apply elem_of_map_img in Hc as [s Hs].
        by apply abc_names_lookup in Hs as [[_ ->]|(n & _ & ->)].
      * intros o1 o2 input. by eapply beautify_language.
Qed.

Lemma beautify_abc_spec_witness :
  ∃ A', beautify_abc canonical two_states = Returns A'.
Proof.
  destruct (beautify_abc_spec canonical two_states) as [_ H].
  destruct H as [H _].
  - vm_compute. lia.
  - apply H, two_states_closed.
Defined.

(** ** Union: the alphabets *)

Lemma alphabet_eq_iff (o : IterOrder) (A B : NFA) :
  alphabet o A = alphabet o B ↔ _alphabet A = _alphabet B.
Proof.
  unfold alphabet. split.
  - intros Heq.
    rewrite <- (list_to_set_sorted_set_order o (_alphabet A)).
    rewrite <- (list_to_set_sorted_set_order o (_alphabet B)).
    by rewrite Heq.
  - by intros ->.
Qed.

Lemma beautify_no_runtime_error (o : IterOrder) (bs : gmap string string)
    (A A1 : NFA) (msg : string) :
  _beautify o bs A ≠ Raises (RuntimeError msg) A1.
Proof.
  intros Hraise. by apply beautify_raises in Hraise as (_ & k & ? & _).
Qed.

Lemma union_unfold (o : IterOrder) (self automaton : NFA) :
  union o self automaton =
  if decide (alphabet o self ≠ alphabet o automaton) then
    Raises (RuntimeError "The alphabets are different!") (self, automaton)
  else
    match beautify_abc o self with
    | OutOfFuel => OutOfFuel
    | Raises e self1 => Raises e (self1, automaton)
    | Returns self1 =>
        match beautify_qn o automaton with
        | OutOfFuel => OutOfFuel
        | Raises e automaton1 => Raises e (self1, automaton1)
        | Returns automaton1 =>
            match beautify_qn o (union_merge o self1 automaton1) with
            | OutOfFuel => OutOfFuel
            | Raises e self8 => Raises e (self8, automaton1)
            | Returns self8 => Returns (self8, automaton1)
            end
        end
    end.
Proof. reflexivity. Qed.

(** X17.  [union] raises "The alphabets are different!" exactly when the
    two automata do not have the same set of symbols, and then changes
    neither automaton. *)
Theorem union_alphabet_check (o : IterOrder) (self automaton : NFA) :
  (_alphabet self ≠ _alphabet automaton →
   union o self automaton =
   Raises (RuntimeError "The alphabets are different!") (self, automaton)) ∧
  (∀ both,
     union o self automaton =
     Raises (RuntimeError "The alphabets are different!") both →
     _alphabet self ≠ _alphabet automaton ∧ both = (self, automaton)).
Proof.
  split.
  - intros Hne. unfold union. rewrite decide_True; [done|].
    by rewrite alphabet_eq_iff.
  - intros both. rewrite union_unfold. case_decide as Hd.
    + intros [= <-]. split; [|done]. by rewrite <- (alphabet_eq_iff o).
    + intros Hraise. exfalso.
      destruct (beautify_abc o self) as [self1|e self1|] eqn:H1; [| |done].
      * destruct (beautify_qn o automaton) as [a1|e a1|] eqn:H2; [| |done].
        -- destruct (beautify_qn o (union_merge o self1 a1))
             as [s8|e s8|] eqn:H3; [done| |done].
           injection Hraise as -> _.
           by apply beautify_no_runtime_error in H3.
        -- injection Hraise as -> _.
           by apply beautify_no_runtime_error in H2.
      * injection Hraise as -> _. unfold beautify_abc in H1.
        case_decide; [by injection H1|].
        destruct (foldl _ _ _) as [bs ?].
        by apply beautify_no_runtime_error in H1.
Qed.

Lemma union_alphabet_check_witness :
  union canonical one_state two_states =
  Raises (RuntimeError "The alphabets are different!")
         (one_state, two_states).
Proof.
  apply (proj1 (union_alphabet_check canonical one_state two_states)).
  simpl. intros Heq.
  assert (Hin : "a" ∈ ({["0"]} : gset string))
    by (rewrite <- Heq; by apply elem_of_singleton).
  by apply elem_of_singleton in Hin.
Defined.

(** ** The shape of the new names *)

Lemma pretty_N_char_digit (x : N) : is_digit (pretty_N_char x) = true.
Proof. unfold pretty_N_char. by repeat case_match. Qed.

Lemma pretty_N_go_digit (x : N) (s : string) :
  starts_with_digit s → starts_with_digit (pretty_N_go x s).
Proof.
  revert s. induction (N.lt_wf_0 x) as [x _ IH]; intros s Hs.
  destruct (decide (x = 0)%N) as [->|Hx].
  - by rewrite pretty_N_go_0.
  - rewrite pretty_N_go_step by lia. apply IH.
    + apply N.div_lt; lia.
    + apply pretty_N_char_digit.
Qed.

Lemma pretty_nat_digit (n : nat) : starts_with_digit (pretty n).
Proof.
  unfold pretty, pretty_nat, pretty, pretty_N. case_decide; [done|].
  rewrite pretty_N_go_step by lia. apply pretty_N_go_digit.
  apply pretty_N_char_digit.
Qed.

Lemma q_name_q0 : q_name "q0".
Proof. by exists "0". Qed.

Lemma q_name_number (n : nat) : q_name ("q" ++ pretty n).
Proof. exists (pretty n). split; [done | apply pretty_nat_digit]. Qed.

Lemma q_name_not_abc (c : string) : q_name c → abc_name c → False.
Proof.
  intros (rest & -> & _) (k & Hk & [= H _]).
  apply (f_equal nat_of_ascii) in H.
  rewrite nat_ascii_embedding in H by lia.
  change (nat_of_ascii "q") with 113 in H. lia.
Qed.

Lemma q_name_not_word (c : ascii) (rest : string) :
  is_digit c = false → ¬ q_name (String "q" (String c rest)).
Proof. intros Hc (rest' & [= <-] & Hd). simpl in Hd. congruence. Qed.

Lemma q_name_not_qinitial : ¬ q_name "qinitial".
Proof. by apply q_name_not_word. Qed.

Lemma q_name_not_qdead : ¬ q_name "qdead".
Proof. by apply q_name_not_word. Qed.

Lemma abc_name_not_qinitial : ¬ abc_name "qinitial".
Proof. by intros (k & _ & [= _ ?]). Qed.

Lemma q_name_nonempty (c : string) : q_name c → c ≠ "".
Proof. by intros (rest & -> & _). Qed.

Lemma qn_names_q_name (o : IterOrder) (A : NFA) (s v : string) :
  foldl (λ bs '(number, state), <[state := "q" ++ pretty (number + 1)]> bs)
        ({[_initial_state A := "q0"]} : gmap string string)
        (enumerate (sorted (set_order o (_states A ∖ {[_initial_state A]}))))
    !! s = Some v →
  q_name v.
Proof.
  intros [[_ ->]|(n & _ & ->)]%qn_names_lookup;
    [apply q_name_q0 | apply q_name_number].
Qed.

Lemma abc_names_abc_name (o : IterOrder) (A : NFA) (s v : string) :
  size (_states A) ≤ 26 →
  (foldl (λ '(bs, number) state,
            (<[state := chr (65 + number)]> bs,
             if decide (number = 17) then number + 1 + 1 else number + 1))
         (({[_initial_state A := "S"]} : gmap string string), 0)
         (sorted (set_order o (_states A ∖ {[_initial_state A]})))).1
    !! s = Some v →
  abc_name v.
Proof.
  intros Hsize [[_ ->]|(n & Hn & ->)]%abc_names_lookup.
  - exists 18. split; [lia | done].
  - apply lookup_lt_Some in Hn. rewrite length_sorted_set_order in Hn.
    assert (size (_states A ∖ {[_initial_state A]}) ≤ size (_states A))
      by (apply subseteq_size; set_solver).
    exists (abc_number 0 n). split; [|done].
    rewrite abc_number_closed. case_decide; lia.
Qed.

(** ** What a renaming that returned leaves *)

Lemma beautify_states_closed (o : IterOrder) (bs : gmap string string)
    (A A' : NFA) :
  injective_names bs → _beautify o bs A = Returns A' → states_closed A'.
Proof.
  intros Hinj Hret.
  destruct (beautify_result o bs A A' Hinj Hret)
    as ((Hci & Hcf & Hct) & Hi & HS & HA & HF & Ht).
  split.
  - rewrite HS. apply elem_of_map_img. eauto.
  - rewrite HS, HF. intros c (q & _ & Hq)%elem_of_rename_set.
    apply elem_of_map_img. eauto.
  - intros c x V (q & T & HT & Hq & ->)%Ht. rewrite HS. split.
    + apply elem_of_map_img. eauto.
    + intros c' (q' & _ & Hq')%elem_of_rename_set.
      apply elem_of_map_img. eauto.
Qed.

Lemma beautify_symbols (o : IterOrder) (bs : gmap string string)
    (A A' : NFA) :
  injective_names bs → _beautify o bs A = Returns A' →
  symbols_in_alphabet A → symbols_in_alphabet A'.
Proof.
  intros Hinj Hret Hinv c x V HV.
  destruct (beautify_result o bs A A' Hinj Hret)
    as (_ & _ & _ & HA & _ & Ht).
  apply Ht in HV as (q & T & HT & _). rewrite HA. by eapply Hinv.
Qed.

Lemma beautify_state_names (o : IterOrder) (bs : gmap string string)
    (A A' : NFA) (P : string → Prop) :
  injective_names bs → _beautify o bs A = Returns A' →
  (∀ s v, bs !! s = Some v → P v) →
  ∀ c, c ∈ _states A' → P c.
Proof.
  intros Hinj Hret HP c Hc.
  destruct (beautify_result o bs A A' Hinj Hret) as (_ & _ & HS & _).
  rewrite HS in Hc. apply elem_of_map_img in Hc as [s Hs]. by eapply HP.
Qed.

(** ** Union: the merged automaton *)

Lemma new_initial_fold (t2 : gmap (string * string) (gset string))
    (first second new : string) (l : list string)
    (t : gmap (string * string) (gset string)) (c x : string) :
  first ≠ new →
  foldl (λ t symbol,
           let first_transition := t !! (first, symbol) in
           let second_transition := t2 !! (second, symbol) in
           let new_transition :=
             ∅ ∪ default ∅ first_transition ∪ default ∅ second_transition in
           <[(new, symbol) := new_transition]> t)
        t l !! (c, x) =
  if decide (c = new ∧ x ∈ l)
  then Some (∅ ∪ default ∅ (t !! (first, x)) ∪ default ∅ (t2 !! (second, x)))
  else t !! (c, x).
Proof.
  intros Hne. revert t. induction l as [|y l IH]; intros t; simpl.
  - rewrite decide_False; [done|]. intros [_ ?%elem_of_nil]. done.
  - rewrite IH. rewrite (lookup_insert_ne _ (new, y) (first, x)) by congruence.
    destruct (decide (c = new ∧ x ∈ l)) as [[-> Hx]|Hn].
    + rewrite decide_True; [done|]. split; [done | by right].
    + destruct (decide ((new, y) = (c, x))) as [[= <- <-]|Hk].
      * rewrite lookup_insert_eq. rewrite decide_True; [done|].
        split; [done | by left].
      * rewrite lookup_insert_ne by done. rewrite decide_False; [done|].
        intros [-> [->|?]%elem_of_cons]; [done|]. by apply Hn.
Qed.

Lemma union_merge_unfold (o : IterOrder) (A1 A2 : NFA) :
  union_merge o A1 A2 =
  mkNFA ({["qinitial"]} ∪ _states A1 ∪ list_to_set (states o A2))
        (_alphabet A1)
        (foldl (λ t symbol,
                  let first_transition :=
                    t !! (_initial_state A1, symbol) in
                  let second_transition :=
                    _transitions A2 !! (_initial_state A2, symbol) in
                  let new_transition :=
                    ∅ ∪ default ∅ first_transition
                      ∪ default ∅ second_transition in
                  <[("qinitial", symbol) := new_transition]> t)
               (dict_update (_transitions A1) (_transitions A2))
               (set_order o (_alphabet A1)))
        "qinitial"
        (_final_states A1 ∪ _final_states A2 ∪ {["qinitial"]}).
Proof.
  unfold union_merge, add_state.
  destruct (decide (_initial_state A1 = "")) as [Hi|Hi]; simpl;
    (destruct (decide (Some ({[_initial_state A1; _initial_state A2]}
                            ∩ (_final_states A1 ∪ _final_states A2)) ≠ None))
       as [|Hn]; [reflexivity | by destruct Hn]).
Qed.

Section Merged.
Variable o : IterOrder.
Variables A1 A2 : NFA.
Hypothesis Hcl1 : states_closed A1.
Hypothesis Hcl2 : states_closed A2.
Hypothesis Hdisj : ∀ c, c ∈ _states A1 → c ∉ _states A2.
Hypothesis Hnew1 : "qinitial" ∉ _states A1.
Hypothesis Hnew2 : "qinitial" ∉ _states A2.
Hypothesis Hsym1 : symbols_in_alphabet A1.
Hypothesis Hsym2 : symbols_in_alphabet A2.
Hypothesis Halph : _alphabet A1 = _alphabet A2.

Lemma merged_initial_ne : _initial_state A1 ≠ "qinitial".
Proof. intros Heq. apply Hnew1. rewrite <- Heq. apply (stc_initial _ Hcl1). Qed.

Lemma merged_fields :
  _initial_state (union_merge o A1 A2) = "qinitial" ∧
  _alphabet (union_merge o A1 A2) = _alphabet A1 ∧
  _states (union_merge o A1 A2) =
    {["qinitial"]} ∪ _states A1 ∪ _states A2 ∧
  _final_states (union_merge o A1 A2) =
    _final_states A1 ∪ _final_states A2 ∪ {["qinitial"]}.
Proof.
  rewrite union_merge_unfold. simpl. repeat split; try done.
  rewrite list_to_set_sorted_set_order.
  pose proof (stc_initial _ Hcl2).
  apply set_eq. intros c. destruct (decide (c = _initial_state A2));
    set_solver.
Qed.

Lemma merged_lookup (c x : string) :
  _transitions (union_merge o A1 A2) !! (c, x) =
  if decide (c = "qinitial" ∧ x ∈ _alphabet A1)
  then Some (targets A1 (_initial_state A1) x ∪
             targets A2 (_initial_state A2) x)
  else if decide (c ∈ _states A2) then _transitions A2 !! (c, x)
       else _transitions A1 !! (c, x).
Proof.
  assert (Hupd : ∀ q y,
            dict_update (_transitions A1) (_transitions A2) !! (q, y) =
            if decide (q ∈ _states A2) then _transitions A2 !! (q, y)
            else _transitions A1 !! (q, y)).
  { intros q y. unfold dict_update. rewrite lookup_union.
    destruct (_transitions A2 !! (q, y)) as [T|] eqn:HT2.
    - rewrite decide_True by by destruct (stc_table _ Hcl2 q y T HT2).
      by destruct (_transitions A1 !! (q, y)).
    - destruct (_transitions A1 !! (q, y)) as [T|] eqn:HT1.
      + rewrite decide_False; [done|]. intros Hq.
        destruct (stc_table _ Hcl1 q y T HT1) as [HqA _].
        by apply (Hdisj q).
      + by case_decide. }
  rewrite union_merge_unfold. simpl.
  rewrite new_initial_fold by apply merged_initial_ne.
  destruct (decide (c = "qinitial" ∧ x ∈ _alphabet A1)) as [[-> Hx]|Hn].
  - rewrite decide_True by (by rewrite elem_of_set_order).
    f_equal. rewrite Hupd.
    rewrite decide_False by (apply Hdisj, (stc_initial _ Hcl1)).
    unfold targets. set_solver.
  - rewrite decide_False by (by rewrite elem_of_set_order).
    apply Hupd.
Qed.

Lemma merged_targets_new (x : string) :
  targets (union_merge o A1 A2) "qinitial" x =
  if decide (x ∈ _alphabet A1)
  then targets A1 (_initial_state A1) x ∪ targets A2 (_initial_state A2) x
  else ∅.
Proof.
  unfold targets at 1. rewrite merged_lookup.
  destruct (decide (x ∈ _alphabet A1)) as [Hx|Hx].
  - by rewrite decide_True.
  - rewrite decide_False by naive_solver.
    rewrite decide_False by done.
    destruct (_transitions A1 !! ("qinitial", x)) as [T|] eqn:HT; [|done].
    by apply (stc_table _ Hcl1) in HT as [? _].
Qed.

Lemma merged_targets_1 (c x : string) :
  c ∈ _states A1 →
  targets (union_merge o A1 A2) c x = targets A1 c x.
Proof.
  intros Hc. unfold targets. rewrite merged_lookup.
  rewrite decide_False by (intros [-> _]; done).
  by rewrite decide_False by by apply Hdisj.
Qed.

Lemma merged_targets_2 (c x : string) :
  c ∈ _states A2 →
  targets (union_merge o A1 A2) c x = targets A2 c x.
Proof.
  intros Hc. unfold targets. rewrite merged_lookup.
  rewrite decide_False by (intros [-> _]; done).
  by rewrite decide_True.
Qed.

Lemma closed_targets A (c x : string) :
  states_closed A → targets A c x ⊆ _states A.
Proof.
  intros HA q (T & HT & Hq)%elem_of_targets.
  apply (stc_table _ HA) in HT as [_ HT]. auto.
Qed.

Lemma merged_trace_1 (c : string) (w : list string) (c' : string) :
  c ∈ _states A1 →
  trace (union_merge o A1 A2) c w c' ↔ trace A1 c w c' .
Proof.
  intros Hc. split.
  - intros Ht. induction Ht as [c|c x c1 w c' Hc1 _ IH]; [constructor|].
    rewrite merged_targets_1 in Hc1 by done.
    econstructor; [done|]. apply IH. by eapply closed_targets.
  - intros Ht. induction Ht as [c|c x c1 w c' Hc1 _ IH]; [constructor|].
    econstructor; [by rewrite merged_targets_1|].
    apply IH. by eapply closed_targets.
Qed.

Lemma merged_trace_2 (c : string) (w : list string) (c' : string) :
  c ∈ _states A2 →
  trace (union_merge o A1 A2) c w c' ↔ trace A2 c w c' .
Proof.
  intros Hc. split.
  - intros Ht. induction Ht as [c|c x c1 w c' Hc1 _ IH]; [constructor|].
    rewrite merged_targets_2 in Hc1 by done.
    econstructor; [done|]. apply IH. by eapply closed_targets.
  - intros Ht. induction Ht as [c|c x c1 w c' Hc1 _ IH]; [constructor|].
    econstructor; [by rewrite merged_targets_2|].
    apply IH. by eapply closed_targets.
Qed.

Lemma closed_trace A (c : string) (w : list string) (c' : string) :
  states_closed A → c ∈ _states A → trace A c w c' → c' ∈ _states A.
Proof.
  intros HA Hc Ht. induction Ht as [c|c x c1 w c' Hc1 _ IH]; [done|].
  apply IH. by eapply closed_targets.
Qed.

Lemma chars_nil (input : string) : chars input = [] ↔ input = "".
Proof. destruct input; [done|]. split; intros H; discriminate H. Qed.

(** The merged automaton accepts the empty string, and a non-empty string
    exactly when one of the two automata accepts it. *)
Lemma merged_accept (o1 o2 o3 : IterOrder) (input : string) :
  accept o1 (union_merge o A1 A2) input = true ↔
  input = "" ∨ accept o2 A1 input = true ∨ accept o3 A2 input = true.
Proof.
  destruct merged_fields as (Hi & HA & HS & HF).
  rewrite !accept_iff_trace, Hi, HF. split.
  - intros (q & Hq & Ht). destruct (chars input) as [|x w] eqn:Hin.
    { left. by apply chars_nil. }
    right. inversion Ht as [|? ? c1 ? ? Hc1 Ht']; subst.
    rewrite merged_targets_new in Hc1.
    case_decide as Hx; [|by apply elem_of_empty in Hc1].
    apply elem_of_union in Hc1 as [Hc1|Hc1].
    + left.
      assert (Hs1 : c1 ∈ _states A1) by by eapply closed_targets.
      apply merged_trace_1 in Ht'; [|done].
      assert (Hq1 : q ∈ _states A1) by by eapply closed_trace.
      exists q. split; [|by econstructor].
      pose proof (stc_final _ Hcl2). pose proof (Hdisj q Hq1).
      assert (q ≠ "qinitial") by (by intros ->). set_solver.
    + right.
      assert (Hs2 : c1 ∈ _states A2) by by eapply closed_targets.
      apply merged_trace_2 in Ht'; [|done].
      assert (Hq2 : q ∈ _states A2) by by eapply closed_trace.
      exists q. split; [|by econstructor].
      pose proof (stc_final _ Hcl1).
      assert (q ∉ _states A1) by (intros ?; by apply (Hdisj q)).
      assert (q ≠ "qinitial") by (by intros ->). set_solver.
  - destruct (chars input) as [|x w] eqn:Hin.
    { intros _. exists "qinitial". split; [set_solver | constructor]. }
    intros [->|[(q & Hq & Ht)|(q & Hq & Ht)]]; [done| |].
    + exists q. split; [set_solver|].
      inversion Ht as [|? ? c1 ? ? Hc1 Ht']; subst.
      assert (Hx : x ∈ _alphabet A1)
        by by eapply symbols_in_alphabet_targets.
      apply (trace_cons _ "qinitial" x c1 w q).
      * rewrite merged_targets_new, decide_True by done. set_solver.
      * apply merged_trace_1; [by eapply closed_targets | done].
    + exists q. split; [set_solver|].
      inversion Ht as [|? ? c1 ? ? Hc1 Ht']; subst.
      assert (Hx : x ∈ _alphabet A1).
      { rewrite Halph. by eapply symbols_in_alphabet_targets. }
      apply (trace_cons _ "qinitial" x c1 w q).
      * rewrite merged_targets_new, decide_True by done. set_solver.
      * apply merged_trace_2; [by eapply closed_targets | done].
Qed.

Lemma merged_closed : names_closed (union_merge o A1 A2).
Proof.
  destruct merged_fields as (Hi & HA & HS & HF).
  pose proof (stc_final _ Hcl1). pose proof (stc_final _ Hcl2).
  split.
  - rewrite Hi, HS, HF. set_solver.
  - intros c x T HT. rewrite Hi, HS. rewrite merged_lookup in HT.
    case_decide as Hd.
    + destruct Hd as [-> _]. injection HT as <-. split; [set_solver|].
      pose proof (closed_targets A1 (_initial_state A1) x Hcl1).
      pose proof (closed_targets A2 (_initial_state A2) x Hcl2).
      set_solver.
    + case_decide.
      * apply (stc_table _ Hcl2) in HT as [? ?]. set_solver.
      * apply (stc_table _ Hcl1) in HT as [? ?]. set_solver.
Qed.
End Merged.

(** ** Union: the language *)

Lemma beautify_qn_facts (o : IterOrder) (A : NFA) :
  names_closed A →
  ∃ A', beautify_qn o A = Returns A' ∧
        states_closed A' ∧
        (∀ c, c ∈ _states A' → q_name c) ∧
        _initial_state A' = "q0" ∧
        _alphabet A' = _alphabet A ∧
        (symbols_in_alphabet A → symbols_in_alphabet A') ∧
        (deterministic A → deterministic A') ∧
        ∀ o1 o2 input, accept o1 A' input = accept o2 A input.
Proof.
  intros Hclosed. unfold beautify_qn. set (bs := foldl _ _ _).
  pose proof (qn_names_injective o A) as Hinj. fold bs in Hinj.
  destruct (beautify_covered o bs A) as [A' Hret].
  { by apply covers_qn. }
  exists A'. split; [done|].
  destruct (beautify_result o bs A A' Hinj Hret)
    as (_ & Hi & _ & HA & _ & _).
  split; [by eapply beautify_states_closed|].
  split.
  { eapply beautify_state_names; [done..|].
    intros s v. apply qn_names_q_name. }
  split.
  { apply qn_names_lookup in Hi as [[_ ?]|(n & Hn & _)]; [done|].
    apply list_elem_of_lookup_2, elem_of_sorted_set_order in Hn.
    set_solver. }
  split; [done|]. split; [by eapply beautify_symbols|].
  split; [by eapply beautify_deterministic|].
  intros o1 o2 input. by eapply beautify_language.
Qed.

Lemma beautify_abc_facts (o : IterOrder) (A : NFA) :
  names_closed A → size (_states A) ≤ 26 →
  ∃ A', beautify_abc o A = Returns A' ∧
        states_closed A' ∧
        (∀ c, c ∈ _states A' → abc_name c) ∧
        _alphabet A' = _alphabet A ∧
        (symbols_in_alphabet A → symbols_in_alphabet A') ∧
        ∀ o1 o2 input, accept o1 A' input = accept o2 A input.
Proof.
  intros Hclosed Hsize. rewrite (beautify_abc_unfold o A Hsize).
  pose proof (abc_names_injective o A Hsize) as Hinj.
  destruct (beautify_covered o _ A (proj2 (covers_abc o A) Hclosed))
    as [A' Hret].
  exists A'. split; [done|].
  destruct (beautify_result o _ A A' Hinj Hret)
    as (_ & Hi & _ & HA & _ & _).
  split; [by eapply beautify_states_closed|].
  split.
  { eapply beautify_state_names; [done..|].
    intros s v. by apply abc_names_abc_name. }
  split; [done|]. split; [by eapply beautify_symbols|].
  intros o1 o2 input. by eapply beautify_language.
Qed.

(** X18.  For two automata over the same alphabet whose entries are keyed
    by symbols of the alphabet and that mention no state outside their
    state sets and initial states, the first with at most 26 states,
    [union] returns; the receiver then accepts the empty string and every
    string one of the two automata accepted, and no other string.  The
    argument is renamed and accepts what it accepted. *)
Theorem union_language (o : IterOrder) (self automaton : NFA) :
  names_closed self → names_closed automaton →
  symbols_in_alphabet self → symbols_in_alphabet automaton →
  size (_states self) ≤ 26 →
  _alphabet self = _alphabet automaton →
  ∃ self' automaton',
    union o self automaton = Returns (self', automaton') ∧
    _initial_state self' = "q0" ∧
    _alphabet self' = _alphabet self ∧
    (∀ o1 o2 o3 input,
       accept o1 self' input = true ↔
       input = "" ∨ accept o2 self input = true ∨
       accept o3 automaton input = true) ∧
    (∀ o1 o2 input, accept o1 automaton' input = accept o2 automaton input).
Proof.
  intros Hcl1 Hcl2 Hsym1 Hsym2 Hsize Halph.
  rewrite union_unfold.
  rewrite decide_False by (intros Hne; by apply Hne, alphabet_eq_iff).
  destruct (beautify_abc_facts o self Hcl1 Hsize)
    as (A1 & -> & Hst1 & Hn1 & HA1 & Hs1 & HL1).
  destruct (beautify_qn_facts o automaton Hcl2)
    as (A2 & -> & Hst2 & Hn2 & Hi2 & HA2 & Hs2 & _ & HL2).
  assert (Hdisj : ∀ c, c ∈ _states A1 → c ∉ _states A2).
  { intros c H1 H2. by apply (q_name_not_abc c); [apply Hn2 | apply Hn1]. }
  assert (Hnew1 : "qinitial" ∉ _states A1).
  { intros H1. by apply abc_name_not_qinitial, Hn1. }
  assert (Hnew2 : "qinitial" ∉ _states A2).
  { intros H2. by apply q_name_not_qinitial, Hn2. }
  assert (Halph' : _alphabet A1 = _alphabet A2) by congruence.
  specialize (Hs1 Hsym1). specialize (Hs2 Hsym2).
  destruct (beautify_qn_facts o (union_merge o A1 A2))
    as (A3 & -> & _ & _ & Hi3 & HA3 & _ & _ & HL3).
  { by apply merged_closed. }
  exists A3, A2. split; [done|]. split; [done|]. split.
  { rewrite HA3.
    by destruct (merged_fields o A1 A2 Hst1 Hst2 Hdisj Hnew1 Hnew2
                   Hs1 Hs2 Halph') as (_ & -> & _). }
  split; [|done].
  intros o1 o2 o3 input. rewrite (HL3 o1 o).
  rewrite (merged_accept o A1 A2 Hst1 Hst2 Hdisj Hnew1 Hnew2
             Hs1 Hs2 Halph' o o o).
  by rewrite (HL1 o o2), (HL2 o o3).
Qed.

Lemma lone_closed (q : string) : names_closed (NFA_init {[q]} {["x"]} ∅ q ∅).
Proof.
  split; simpl; [set_solver|]. intros p x T HT.
  by rewrite lookup_empty in HT.
Qed.

Lemma union_language_witness :
  ∃ self' automaton',
    union canonical lone_a lone_b = Returns (self', automaton') ∧
    ∀ o1, accept o1 self' "" = true.
Proof.
  destruct (union_language canonical lone_a lone_b)
    as (self' & automaton' & Hret & _ & _ & Hacc & _).
  - apply lone_closed.
  - apply lone_closed.
  - intros q x T HT. simpl in HT. by rewrite lookup_empty in HT.
  - intros q x T HT. simpl in HT. by rewrite lookup_empty in HT.
  - vm_compute. lia.
  - reflexivity.
  - exists self', automaton'. split; [exact Hret|].
    intros o1. apply (Hacc o1 o1 o1). by left.
Defined.

(** ** Determinizer: the shape of the result *)

Lemma for_each_invariant_in {X St} (P : St → Prop)
    (body : X → St → outcome St) (l : list X) (s s' : St) :
  P s → (∀ x s s', x ∈ l → P s → body x s = Returns s' → P s') →
  for_each body l s = Returns s' → P s'.
Proof.
  intros Hs Hbody. revert s Hs.
  induction l as [|x l IH]; intros s Hs; simpl.
  - by intros [= <-].
  - destruct (body x s) as [s1| |] eqn:Hx; simpl; [|done..].
    apply IH.
    + intros y t t' Hy. apply Hbody. by right.
    + eapply Hbody; [by left|done..].
Qed.

Lemma determinize_state_keys (o : IterOrder) (fuel : nat) :
  ∀ (T : gset string) (A A' : NFA),
    _determinize_state o fuel T A = Returns A' → keys_known A →
    keys_known A' ∧ _states A ⊆ _states A' ∧ _alphabet A' = _alphabet A.
Proof.
  induction fuel as [|fuel IH]; intros T A A'; [done|].
  cbn [_determinize_state]. case_decide as Hnew.
  2: { by intros [= <-] ?. }
  intros Hret Hkeys.
  set (c := name_of o T) in *.
  set (A2 := if decide (T ∩ _final_states (add_state c A) ≠ ∅)
             then _ else _) in *.
  assert (Hst2 : {[c]} ∪ _states A ⊆ _states A2 ∧
                 _alphabet A2 = _alphabet A ∧
                 _transitions A2 = _transitions A).
  { unfold A2, add_state. repeat case_decide; simpl; set_solver. }
  destruct Hst2 as (Hst2 & Hal2 & Htr2).
  assert (HP : keys_known A' ∧ {[c]} ∪ _states A ⊆ _states A' ∧
               _alphabet A' = _alphabet A);
    [|destruct HP as (? & ? & ?); split; [done|]; split;
      [set_solver | done]].
  revert Hret.
  apply (for_each_invariant_in
           (λ B, keys_known B ∧ {[c]} ∪ _states A ⊆ _states B ∧
                 _alphabet B = _alphabet A)).
  - split; [|done]. intros q x V HV. rewrite Htr2 in HV.
    apply Hkeys in HV as [? ?]. rewrite Hal2. set_solver.
  - intros x B B' Hx%elem_of_set_order (HkB & HsB & HaB). cbn zeta.
    case_decide; [|by intros [= <-]].
    intros Hrec. apply IH in Hrec as (Hk' & Hs' & Ha').
    + split; [done|]. simpl in *. split; [set_solver | congruence].
    + intros q y V HV. simpl in *.
      apply lookup_insert_Some in HV as [[[= <- <-] _]|[_ HV]].
      * split; [set_solver|]. rewrite HaB, <- Hal2. done.
      * apply (HkB q y V HV).
Qed.

Section DeterminizeShape.
Variable o : IterOrder.
Variable A0 : NFA.
Hypothesis Hwf : well_formed A0.
Hypothesis Hcf : collision_free o A0.

Lemma determinize_shape (fuel : nat) :
  size (composite_names o A0) < fuel →
  ∃ A', determinize o fuel A0 = Returns A' ∧
        (∀ o1 o2 input, accept o1 A' input = accept o2 A0 input) ∧
        _alphabet A' = _alphabet A0 ∧
        states_closed A' ∧
        keys_known A' ∧
        deterministic A' ∧
        _states A' ⊆ composite_names o A0.
Proof.
  intros Hfuel.
  destruct (determinize_spec o A0 Hwf Hcf fuel Hfuel) as (A' & Hret & Hlang).
  exists A'. split; [done|]. split.
  { intros o1 o2 input. rewrite (Hlang o1). apply accept_order. }
  pose proof (determinize_deterministic o fuel A0 A' Hret) as Hdet.
  unfold determinize in Hret.
  destruct (determinize_loop_spec o A0 Hwf Hcf fuel Hfuel)
    as (A & Hloop & HA & Horig).
  rewrite Hloop in Hret. simpl in Hret. injection Hret as <-.
  assert (Hkeys : keys_known A ∧ _alphabet A = _alphabet A0).
  { revert Hloop.
    apply (for_each_invariant_in
             (λ B, keys_known B ∧ _alphabet B = _alphabet A0)).
    - split; [|done]. intros q x T HT.
      by apply (wf_table A0 Hwf) in HT as (? & ? & _).
    - intros [k T] B B' _ [HkB HaB]. case_decide; [|by intros [= <-]].
      intros Hrec. apply determinize_state_keys in Hrec as (? & _ & ?);
        [|done]. split; [done | congruence]. }
  destruct Hkeys as [Hkeys Halph].
  split; [done|].
  split; [|split; [|split; [done|]]].
  - split; simpl.
    + rewrite (inv_initial HA). apply (inv_atoms HA), (wf_initial A0 Hwf).
    + apply (inv_finals_sub HA).
    + intros q x V HV. rewrite lookup_fmap in HV.
      destruct (_transitions A !! (q, x)) as [T|] eqn:HT; [|done].
      injection HV as <-.
      destruct (Hkeys q x T HT) as [Hq _]. split; [done|].
      destruct (inv_states HA q Hq) as (S & HS & HSne & ->).
      apply singleton_subseteq_l.
      by apply (inv_closed_all o A0 Hwf Hcf A S T x).
  - intros q x V HV. simpl in HV. rewrite lookup_fmap in HV.
    destruct (_transitions A !! (q, x)) as [T|] eqn:HT; [|done].
    by apply Hkeys in HT.
  - simpl. intros c Hc.
    destruct (inv_states HA c Hc) as (S & HS & _ & ->).
    by apply elem_of_composite_names.
Qed.
End DeterminizeShape.

(** ** Complement: the dead state *)

Lemma fill_row_lookup (d state : string) (symbols : list string)
    (t : gmap (string * string) (gset string)) (c x : string) :
  foldl (λ t symbol,
           if decide (is_Some (t !! (state, symbol))) then t
           else <[(state, symbol) := {[d]}]> t)
        t symbols !! (c, x) =
  match t !! (c, x) with
  | Some T => Some T
  | None => if decide (c = state ∧ x ∈ symbols) then Some {[d]} else None
  end.
Proof.
  revert t. induction symbols as [|y l IH]; intros t; simpl.
  - destruct (t !! (c, x)); [done|]. rewrite decide_False; [done|].
    by intros [_ ?%elem_of_nil].
  - rewrite IH. destruct (decide (is_Some (t !! (state, y)))) as [Hy|Hy].
    + destruct (t !! (c, x)) as [T|] eqn:HT; [done|].
      destruct (decide (c = state ∧ x ∈ l)) as [[-> Hx]|Hn].
      * rewrite decide_True; [done|]. split; [done | by right].
      * rewrite decide_False; [done|].
        intros [-> [->|?]%elem_of_cons]; [|by apply Hn].
        destruct Hy as [? ?]. congruence.
    + destruct (decide ((state, y) = (c, x))) as [[= <- <-]|Hk].
      * rewrite lookup_insert_eq.
        assert (t !! (state, y) = None) as ->
          by (by apply eq_None_not_Some).
        rewrite decide_True; [done|]. split; [done | by left].
      * rewrite lookup_insert_ne by done.
        destruct (t !! (c, x)) as [T|] eqn:HT; [done|].
        destruct (decide (c = state ∧ x ∈ l)) as [[-> Hx]|Hn].
        -- rewrite decide_True; [done|]. split; [done | by right].
        -- rewrite decide_False; [done|].
           intros [-> [->|?]%elem_of_cons]; [done | by apply Hn].
Qed.

Lemma fill_lookup (d : string) (states symbols : list string)
    (t : gmap (string * string) (gset string)) (c x : string) :
  foldl (λ t state,
           foldl (λ t symbol,
                    if decide (is_Some (t !! (state, symbol))) then t
                    else <[(state, symbol) := {[d]}]> t)
                 t symbols)
        t states !! (c, x) =
  match t !! (c, x) with
  | Some T => Some T
  | None => if decide (c ∈ states ∧ x ∈ symbols) then Some {[d]} else None
  end.
Proof.
  revert t. induction states as [|s l IH]; intros t; simpl.
  - by destruct (t !! (c, x)).
  - rewrite IH, fill_row_lookup.
    destruct (t !! (c, x)) as [T|] eqn:HT; [done|].
    destruct (decide (c = s ∧ x ∈ symbols)) as [[-> Hx]|Hn].
    + rewrite decide_True; [done|]. split; [by left | done].
    + destruct (decide (c ∈ l ∧ x ∈ symbols)) as [[Hc Hx]|Hn'].
      * rewrite decide_True; [done|]. split; [by right | done].
      * rewrite decide_False; [done|].
        intros [[->|?]%elem_of_cons ?]; [by apply Hn | by apply Hn'].
Qed.

(** What [_explicit_dead_transitions] does to an automaton with the names
    of [beautify_qn]. *)
Lemma explicit_dead_fill (o : IterOrder) (A : NFA) (c x : string) :
  _initial_state A ≠ "" →
  _transitions
    (with_transitions
       (foldl (λ t state,
                 foldl (λ t symbol,
                          if decide (is_Some (t !! (state, symbol)))
                          then t
                          else <[(state, symbol) := {["qdead"]}]> t)
                       t (set_order o (_alphabet (add_state "qdead" A))))
              (_transitions (add_state "qdead" A))
              (set_order o (_states (add_state "qdead" A))))
       (add_state "qdead" A)) !! (c, x) =
  match _transitions A !! (c, x) with
  | Some T => Some T
  | None => if decide (c ∈ {["qdead"]} ∪ _states A ∧ x ∈ _alphabet A)
            then Some {["qdead"]} else None
  end.
Proof.
  intros Hi. rewrite add_state_set by done. simpl. rewrite fill_lookup.
  destruct (_transitions A !! (c, x)); [done|].
  destruct (decide (c ∈ {["qdead"]} ∪ _states A ∧ x ∈ _alphabet A)) as [Hd|Hd].
  - rewrite decide_True; [done|]. by rewrite !elem_of_set_order.
  - rewrite decide_False; [done|]. by rewrite !elem_of_set_order.
Qed.

(** ** Complement: toggling every state *)

Lemma toggle_fields (s : string) (A : NFA) :
  _states (toggle_final_state s A) = _states A ∧
  _alphabet (toggle_final_state s A) = _alphabet A ∧
  _transitions (toggle_final_state s A) = _transitions A ∧
  _initial_state (toggle_final_state s A) = _initial_state A.
Proof. unfold toggle_final_state. by repeat case_decide. Qed.

Lemma toggle_all (l : list string) (A : NFA) :
  NoDup l → (∀ s, s ∈ l → s ∈ _states A) →
  foldl (λ A state, toggle_final_state state A) A l =
  with_final_states
    ((_final_states A ∖ list_to_set l) ∪ (list_to_set l ∖ _final_states A))
    A.
Proof.
  revert A. induction l as [|s l IH]; intros A Hnd Hl; simpl.
  - destruct A as [S Σ t i F]. unfold with_final_states. simpl. f_equal.
    set_solver.
  - apply NoDup_cons in Hnd as [Hs Hnd].
    destruct (toggle_fields s A) as (HS & HA & HT & HI).
    rewrite IH; [|done|].
    2: { intros p Hp. rewrite HS. apply Hl. by right. }
    apply NFA_eq; simpl; try done.
    assert (Hs' : s ∉ (list_to_set l : gset string))
      by by rewrite elem_of_list_to_set.
    unfold toggle_final_state. rewrite decide_True by (apply Hl; by left).
    apply set_eq. intros q.
    destruct (decide (s ∈ _final_states A)); simpl;
      destruct (decide (q ∈ _final_states A));
      destruct (decide (q ∈ (list_to_set l : gset string)));
      destruct (decide (q = s)) as [->|]; set_solver.
Qed.

Lemma toggle_states (o : IterOrder) (A : NFA) :
  _final_states A ⊆ _states A →
  foldl (λ A state, toggle_final_state state A) A (set_order o (_states A)) =
  with_final_states (_states A ∖ _final_states A) A.
Proof.
  intros HF. rewrite toggle_all.
  - rewrite list_to_set_set_order. f_equal. set_solver.
  - apply NoDup_set_order.
  - intros s. by rewrite elem_of_set_order.
Qed.

(** ** Complement: a total deterministic automaton *)

Lemma total_run (A : NFA) (q : string) (w : list string) :
  total A → q ∈ _states A → Forall (λ x, x ∈ _alphabet A) w →
  ∃ q', q' ∈ _states A ∧ trace A q w q'.
Proof.
  intros Htot Hq Hw. revert q Hq.
  induction Hw as [|x w Hx _ IH]; intros q Hq.
  - exists q. split; [done | constructor].
  - destruct (Htot q x Hq Hx) as (q1 & Hq1 & Hs1).
    destruct (IH q1 Hs1) as (q' & Hq' & Ht).
    exists q'. split; [done|]. apply (trace_cons _ q x q1); [|done].
    apply elem_of_targets. exists {[q1]}. split; [done|].
    by apply elem_of_singleton.
Qed.

Lemma over_alphabet_spec (A : NFA) (input : string) :
  over_alphabet A input = true ↔
  Forall (λ x, x ∈ _alphabet A) (chars input).
Proof.
  unfold over_alphabet. rewrite forallb_forall, Forall_forall.
  split; intros H x Hx.
  - apply list_elem_of_In, H in Hx. by apply bool_decide_eq_true in Hx.
  - apply bool_decide_eq_true. by apply H, list_elem_of_In.
Qed.

Lemma trace_same_table (A B : NFA) (q : string) (w : list string)
    (q' : string) :
  _transitions A = _transitions B → trace A q w q' → trace B q w q'.
Proof.
  intros Heq. induction 1 as [q|q x q1 w q' Hq1 _ IH]; [constructor|].
  apply (trace_cons _ q x q1); [|done]. unfold targets in *.
  by rewrite <- Heq.
Qed.

(** Exchanging final and non-final states of a total deterministic
    automaton complements its language within the strings over the
    alphabet. *)
Lemma flipped_accept (o1 o2 : IterOrder) (A : NFA) (input : string) :
  total A → deterministic A → symbols_in_alphabet A →
  _initial_state A ∈ _states A →
  accept o1 (with_final_states (_states A ∖ _final_states A) A) input =
  over_alphabet A input && negb (accept o2 A input).
Proof.
  intros Htot Hdet Hsym Hi.
  destruct (over_alphabet A input) eqn:Hover; simpl.
  - apply over_alphabet_spec in Hover.
    destruct (total_run A (_initial_state A) (chars input) Htot Hi Hover)
      as (q & Hq & Ht).
    destruct (accept o2 A input) eqn:Hacc; simpl.
    + apply not_true_iff_false. intros (q' & Hq' & Ht')%accept_iff_trace.
      simpl in *. apply accept_iff_trace in Hacc as (f & Hf & Htf).
      apply (trace_same_table _ A) in Ht'; [|done].
      assert (q' = f) as -> by by eapply deterministic_trace.
      set_solver.
    + apply accept_iff_trace. exists q.
      split; [|by apply (trace_same_table A)]. simpl.
      apply elem_of_difference. split; [done|]. intros Hf.
      apply not_true_iff_false in Hacc. apply Hacc, accept_iff_trace.
      eauto.
  - apply not_true_iff_false. intros (q' & _ & Ht')%accept_iff_trace.
    simpl in Ht'. apply (trace_same_table _ A) in Ht'; [|done].
    apply not_true_iff_false in Hover. apply Hover.
    apply over_alphabet_spec. by eapply trace_symbols.
Qed.

(** ** Complement: [_explicit_dead_transitions] *)

Lemma size_union_bound (X Y : gset string) :
  size (X ∪ Y) ≤ size X + size Y.
Proof.
  rewrite size_union_alt.
  assert (size (Y ∖ X) ≤ size Y) by (apply subseteq_size; set_solver). lia.
Qed.

Lemma size_list_to_set_bound (l : list string) :
  size (list_to_set l : gset string) ≤ List.length l.
Proof.
  induction l as [|x l IH].
  - by rewrite list_to_set_nil, size_empty.
  - rewrite list_to_set_cons. etrans; [apply size_union_bound|].
    rewrite size_singleton. simpl. lia.
Qed.

Lemma beautify_qn_size (o : IterOrder) (A A' : NFA) :
  beautify_qn o A = Returns A' → _initial_state A ∈ _states A →
  size (_states A') ≤ size (_states A).
Proof.
  intros Hret Hi.
  destruct (beautify_qn_spec o A A' Hret) as (_ & _ & HS & _).
  set (k := size (_states A ∖ {[_initial_state A]})) in *.
  assert (Hk : S k = size (_states A)).
  { unfold k. rewrite size_difference by set_solver.
    rewrite size_singleton.
    assert (size (_states A) ≠ 0); [|lia].
    intros Hz%size_empty_inv. set_solver. }
  rewrite <- Hk.
  trans (List.length ("q0" :: ((λ n, "q" ++ pretty (n + 1)) <$> seq 0 k)));
    [|by rewrite length_cons, length_fmap, length_seq].
  etrans; [|apply size_list_to_set_bound].
  apply subseteq_size. intros c [->|(n & Hn & ->)]%HS.
  - set_solver.
  - apply elem_of_list_to_set. right. apply list_elem_of_fmap.
    exists n. split; [done|]. apply elem_of_seq. lia.
Qed.

Section ExplicitDead.
Variable o : IterOrder.
Variable A : NFA.
Hypothesis Hclosed : states_closed A.
Hypothesis Hnames : ∀ c, c ∈ _states A → q_name c.

Let D : NFA :=
  with_transitions
    (foldl (λ t state,
              foldl (λ t symbol,
                       if decide (is_Some (t !! (state, symbol)))
                       then t
                       else <[(state, symbol) := {["qdead"]}]> t)
                    t (set_order o (_alphabet (add_state "qdead" A))))
           (_transitions (add_state "qdead" A))
           (set_order o (_states (add_state "qdead" A))))
    (add_state "qdead" A).

Lemma dead_initial_ne : _initial_state A ≠ "".
Proof.
  intros Hi. apply (q_name_nonempty (_initial_state A)); [|done].
  apply Hnames, (stc_initial _ Hclosed).
Qed.

Lemma dead_fresh : "qdead" ∉ _states A.
Proof. intros Hin. by apply q_name_not_qdead, Hnames. Qed.

Lemma dead_fields :
  _states D = {["qdead"]} ∪ _states A ∧
  _alphabet D = _alphabet A ∧
  _initial_state D = _initial_state A ∧
  _final_states D = _final_states A.
Proof.
  unfold D. rewrite add_state_set by apply dead_initial_ne. done.
Qed.

Lemma dead_lookup (c x : string) :
  _transitions D !! (c, x) =
  match _transitions A !! (c, x) with
  | Some T => Some T
  | None => if decide (c ∈ {["qdead"]} ∪ _states A ∧ x ∈ _alphabet A)
            then Some {["qdead"]} else None
  end.
Proof. apply explicit_dead_fill, dead_initial_ne. Qed.

Lemma dead_closed : states_closed D.
Proof.
  destruct dead_fields as (HS & HA & HI & HF). split.
  - rewrite HS, HI. apply elem_of_union_r, (stc_initial _ Hclosed).
  - rewrite HS, HF. pose proof (stc_final _ Hclosed). set_solver.
  - intros c x T HT. rewrite HS. rewrite dead_lookup in HT.
    destruct (_transitions A !! (c, x)) as [T'|] eqn:HT'.
    + injection HT as <-. apply (stc_table _ Hclosed) in HT' as [? ?].
      set_solver.
    + case_decide as Hd; [|done]. injection HT as <-.
      destruct Hd as [? _]. set_solver.
Qed.

Lemma dead_complete (c x : string) :
  c ∈ _states D → x ∈ _alphabet D → is_Some (_transitions D !! (c, x)).
Proof.
  destruct dead_fields as (HS & HA & HI & HF).
  rewrite HS, HA, dead_lookup. intros Hc Hx.
  destruct (_transitions A !! (c, x)); [by eexists|].
  rewrite decide_True by done. by eexists.
Qed.

Lemma dead_targets_sub (c x q : string) :
  q ∈ targets A c x → q ∈ targets D c x.
Proof.
  rewrite !elem_of_targets. intros (T & HT & Hq). exists T.
  split; [|done]. by rewrite dead_lookup, HT.
Qed.

Lemma dead_targets_inv (c x q : string) :
  q ∈ targets D c x → q ∈ targets A c x ∨ q = "qdead".
Proof.
  rewrite !elem_of_targets. intros (T & HT & Hq).
  rewrite dead_lookup in HT.
  destruct (_transitions A !! (c, x)) as [T'|] eqn:HT'.
  - injection HT as <-. left. eauto.
  - case_decide; [|done]. injection HT as <-. right. set_solver.
Qed.

Lemma dead_absorbing (w : list string) (c c' : string) :
  trace D c w c' → c = "qdead" → c' = "qdead".
Proof.
  induction 1 as [c|c x c1 w c' Hc1 _ IH]; [done|]. intros ->.
  apply IH. apply dead_targets_inv in Hc1 as [Hc1|?]; [|done].
  apply elem_of_targets in Hc1 as (T & HT & _).
  apply (stc_table _ Hclosed) in HT as [Hin _]. by apply dead_fresh in Hin.
Qed.

Lemma dead_trace (w : list string) (c c' : string) :
  c' ≠ "qdead" → trace D c w c' ↔ trace A c w c'.
Proof.
  intros Hc'. split.
  - induction 1 as [c|c x c1 w c' Hc1 Ht IH]; [constructor|].
    apply dead_targets_inv in Hc1 as [Hc1| ->].
    + apply (trace_cons _ c x c1); [done | by apply IH].
    + by apply dead_absorbing in Ht.
  - induction 1 as [c|c x c1 w c' Hc1 _ IH]; [constructor|].
    apply (trace_cons _ c x c1); [by apply dead_targets_sub | by apply IH].
Qed.

Lemma dead_accept (o1 o2 : IterOrder) (input : string) :
  accept o1 D input = accept o2 A input.
Proof.
  destruct dead_fields as (HS & HA & HI & HF).
  apply accept_eq_paths; [done|]. intros q. rewrite HF.
  split; intros [Hq Ht]; (split; [done|]).
  - apply dead_trace; [|done]. intros ->.
    apply (stc_final _ Hclosed) in Hq. by apply dead_fresh.
  - apply dead_trace; [|done]. intros ->.
    apply (stc_final _ Hclosed) in Hq. by apply dead_fresh.
Qed.

Hypothesis Hkeys : keys_known A.

Lemma dead_keys : keys_known D.
Proof.
  destruct dead_fields as (HS & HA & HI & HF).
  intros c x T HT. rewrite HS, HA. rewrite dead_lookup in HT.
  destruct (_transitions A !! (c, x)) as [T'|] eqn:HT'.
  - apply Hkeys in HT' as [? ?]. set_solver.
  - case_decide as Hd; [|done]. done.
Qed.

Hypothesis Hdet : deterministic A.

Lemma dead_deterministic : deterministic D.
Proof.
  intros [c x] T HT. rewrite dead_lookup in HT.
  destruct (_transitions A !! (c, x)) as [T'|] eqn:HT'.
  - injection HT as <-. by eapply Hdet.
  - case_decide; [|done]. injection HT as <-. apply size_singleton.
Qed.

Lemma dead_total : total D.
Proof.
  destruct dead_fields as (HS & HA & HI & HF).
  intros c x Hc Hx. rewrite HS in Hc. rewrite HA in Hx.
  rewrite dead_lookup. rewrite HS.
  destruct (_transitions A !! (c, x)) as [T|] eqn:HT.
  - pose proof (Hdet _ _ HT) as Hone.
    apply size_1_elem_of in Hone as [q Hq]. apply leibniz_equiv in Hq.
    subst T. exists q. split; [done|].
    apply (stc_table _ Hclosed) in HT as [_ HT]. set_solver.
  - rewrite decide_True by done. exists "qdead". split; [done|]. set_solver.
Qed.

End ExplicitDead.

Lemma keys_known_symbols (A : NFA) : keys_known A → symbols_in_alphabet A.
Proof. intros Hk q x T HT. by apply Hk in HT as [_ ?]. Qed.

(** The automaton [complement] builds, for an automaton whose states are
    closed, whose keys are known and that is deterministic. *)
Lemma complement_tail (o : IterOrder) (A : NFA) :
  states_closed A → keys_known A → deterministic A →
  ∃ A',
    (_explicit_dead_transitions o A >>> λ A,
       Returns (foldl (λ A state, toggle_final_state state A) A
                      (set_order o (_states A)))) = Returns A' ∧
    _alphabet A' = _alphabet A ∧
    _initial_state A' = "q0" ∧
    states_closed A' ∧ keys_known A' ∧ deterministic A' ∧ total A' ∧
    (∀ c, c ∈ _states A' → q_name c ∨ c = "qdead") ∧
    size (_states A') ≤ S (size (_states A)) ∧
    ∀ o1 o2 input,
      accept o1 A' input = over_alphabet A input && negb (accept o2 A input).
Proof.
  intros Hclosed Hkeys Hdet. unfold _explicit_dead_transitions.
  assert (Hnc : names_closed A).
  { split.
    - pose proof (stc_final _ Hclosed). set_solver.
    - intros q x T HT. apply (stc_table _ Hclosed) in HT as [? ?].
      set_solver. }
  destruct (beautify_qn_facts o A Hnc)
    as (A2 & Hret & Hc2 & Hn2 & Hi2 & HA2 & Hs2 & Hd2 & HL2).
  rewrite Hret. cbn [and_then].
  assert (Hk2 : keys_known A2).
  { intros q x T HT. split.
    - by apply (stc_table _ Hc2) in HT as [? _].
    - by apply (Hs2 (keys_known_symbols A Hkeys)) in HT. }
  specialize (Hd2 Hdet).
  set (D := with_transitions _ (add_state "qdead" A2)).
  assert (HfD : _states D = {["qdead"]} ∪ _states A2 ∧
                _alphabet D = _alphabet A2 ∧
                _initial_state D = _initial_state A2 ∧
                _final_states D = _final_states A2)
    by (apply dead_fields; assumption).
  destruct HfD as (HS & HA & HI & HF).
  assert (HcD : states_closed D) by (apply dead_closed; assumption).
  assert (HkD : keys_known D) by (apply dead_keys; assumption).
  assert (HdD : deterministic D) by (apply dead_deterministic; assumption).
  assert (HtD : total D) by (apply dead_total; assumption).
  assert (HaD : ∀ o1 o2 input, accept o1 D input = accept o2 A2 input)
    by (intros; apply dead_accept; assumption).
  clearbody D.
  rewrite toggle_states by apply (stc_final _ HcD).
  eexists. split; [done|]. simpl.
  split; [congruence|]. split; [congruence|].
  split.
  { split; simpl; [apply (stc_initial _ HcD) | set_solver
                  | apply (stc_table _ HcD)]. }
  split; [done|]. split; [done|]. split; [done|].
  split.
  { intros c. rewrite HS. intros [->%elem_of_singleton|?]%elem_of_union;
      [by right | left; by apply Hn2]. }
  split.
  { rewrite HS. etrans; [apply size_union_bound|]. rewrite size_singleton.
    simpl. apply le_n_S.
    apply (beautify_qn_size o A A2 Hret), (stc_initial _ Hclosed). }
  intros o1 o2 input.
  rewrite (flipped_accept o1 o D input HtD HdD
             (keys_known_symbols D HkD) (stc_initial _ HcD)).
  rewrite (HaD o o), (HL2 o o2). f_equal.
  unfold over_alphabet. by rewrite HA, HA2.
Qed.

(** X19.  [_explicit_dead_transitions], on an automaton that mentions no
    state outside its state set and whose entries are keyed by symbols of
    the alphabet, returns; afterwards [qdead] is a state, every state has
    an entry for every symbol of the alphabet, and the automaton accepts
    the same strings. *)
Theorem explicit_dead_spec (o : IterOrder) (A : NFA) :
  states_closed A → keys_known A →
  ∃ A', _explicit_dead_transitions o A = Returns A' ∧
        "qdead" ∈ _states A' ∧
        _alphabet A' = _alphabet A ∧
        (∀ q x, q ∈ _states A' → x ∈ _alphabet A' →
                is_Some (_transitions A' !! (q, x))) ∧
        ∀ o1 o2 input, accept o1 A' input = accept o2 A input.
Proof.
  intros Hclosed Hkeys. unfold _explicit_dead_transitions.
  assert (Hnc : names_closed A).
  { split.
    - pose proof (stc_final _ Hclosed). set_solver.
    - intros q x T HT. apply (stc_table _ Hclosed) in HT as [? ?].
      set_solver. }
  destruct (beautify_qn_facts o A Hnc)
    as (A2 & Hret & Hc2 & Hn2 & Hi2 & HA2 & Hs2 & _ & HL2).
  rewrite Hret. cbn [and_then].
  assert (Hk2 : keys_known A2).
  { intros q x T HT. split.
    - by apply (stc_table _ Hc2) in HT as [? _].
    - by apply (Hs2 (keys_known_symbols A Hkeys)) in HT. }
  set (D := with_transitions _ (add_state "qdead" A2)).
  assert (HfD : _states D = {["qdead"]} ∪ _states A2 ∧
                _alphabet D = _alphabet A2 ∧
                _initial_state D = _initial_state A2 ∧
                _final_states D = _final_states A2)
    by (apply dead_fields; assumption).
  destruct HfD as (HS & HA & HI & HF).
  assert (HcD : ∀ q x, q ∈ _states D → x ∈ _alphabet D →
                       is_Some (_transitions D !! (q, x)))
    by (intros q x Hq Hx; apply (dead_complete o A2 Hc2 Hn2 q x Hq Hx)).
  assert (HaD : ∀ o1 o2 input, accept o1 D input = accept o2 A2 input)
    by (intros; apply dead_accept; assumption).
  clearbody D. exists D. split; [done|].
  split; [rewrite HS; set_solver|]. split; [congruence|]. split; [done|].
  intros o1 o2 input. by rewrite (HaD o1 o), (HL2 o o2).
Qed.

Lemma well_formed_closed (A : NFA) :
  well_formed A → states_closed A ∧ keys_known A.
Proof.
  intros [Hi Hf Hn Ht]. split; [split; [done..|]|].
  - intros q x T HT. by apply Ht in HT as (? & _ & ? & _).
  - intros q x T HT. by apply Ht in HT as (? & ? & _).
Qed.

Lemma explicit_dead_spec_witness :
  ∃ A', _explicit_dead_transitions canonical ends_in_0 = Returns A' ∧
        ∀ o1 o2 input, accept o1 A' input = accept o2 ends_in_0 input.
Proof.
  destruct (well_formed_closed ends_in_0 ends_in_0_well_formed) as [Hc Hk].
  destruct (explicit_dead_spec canonical ends_in_0 Hc Hk)
    as (A' & Hret & _ & _ & _ & Hlang).
  exists A'. split; [exact Hret | exact Hlang].
Defined.

(** ** Complement: the language *)

Lemma complement_facts (o : IterOrder) (A : NFA) (fuel : nat) :
  well_formed A → collision_free o A →
  size (composite_names o A) < fuel →
  ∃ A', complement o fuel A = Returns A' ∧
        _alphabet A' = _alphabet A ∧
        _initial_state A' = "q0" ∧
        states_closed A' ∧ keys_known A' ∧ deterministic A' ∧ total A' ∧
        (∀ c, c ∈ _states A' → q_name c ∨ c = "qdead") ∧
        size (_states A') ≤ S (size (composite_names o A)) ∧
        ∀ o1 o2 input,
          accept o1 A' input =
          over_alphabet A input && negb (accept o2 A input).
Proof.
  intros Hwf Hcf Hfuel. unfold complement.
  destruct (determinize_shape o A Hwf Hcf fuel Hfuel)
    as (A1 & -> & HL1 & HA1 & Hc1 & Hk1 & Hd1 & HS1).
  cbn [and_then].
  destruct (complement_tail o A1 Hc1 Hk1 Hd1)
    as (A' & Hret & HA' & Hi' & Hc' & Hk' & Hd' & Ht' & Hn' & Hsz & HL').
  exists A'. split; [exact Hret|].
  split; [congruence|]. do 6 (split; [done|]).
  split.
  { etrans; [exact Hsz|]. apply le_n_S. by apply subseteq_size. }
  intros o1 o2 input. rewrite (HL' o1 o), (HL1 o o2). f_equal.
  unfold over_alphabet. by rewrite HA1.
Qed.



(** ** Numbered names do not collide *)

Lemma pretty_N_go_digits (x : N) (s : string) :
  digits s → digits (pretty_N_go x s).
Proof.
  revert s. induction (N.lt_wf_0 x) as [x _ IH]; intros s Hs.
  destruct (decide (x = 0)%N) as [->|Hx].
  - by rewrite pretty_N_go_0.
  - rewrite pretty_N_go_step by lia. apply IH.
    + apply N.div_lt; lia.
    + constructor; [apply pretty_N_char_digit | done].
Qed.

Lemma pretty_nat_digits (n : nat) : digits (pretty n).
Proof.
  unfold pretty, pretty_nat, pretty, pretty_N. case_decide.
  - by repeat constructor.
  - apply pretty_N_go_digits. constructor.
Qed.

Lemma numbered_q0 : numbered "q0".
Proof. exists "0". split; [done|]. by repeat constructor. Qed.

Lemma numbered_pretty (n : nat) : numbered ("q" ++ pretty n).
Proof. exists (pretty n). split; [done | apply pretty_nat_digits]. Qed.

Lemma digits_decode (r r' s s' : string) :
  digits r → digits r' →
  (s = "" ∨ ∃ t, s = String "q" t) → (s' = "" ∨ ∃ t, s' = String "q" t) →
  (r ++ s = r' ++ s')%string → r = r' ∧ s = s'.
Proof.
  revert r'. induction r as [|c r IH]; intros r' Hr Hr' Hs Hs' Heq.
  - destruct r' as [|c' r']; [done|]. simpl in Heq.
    apply Forall_cons in Hr' as [Hc' _].
    destruct Hs as [->|[t ->]]; [done|]. by injection Heq as <- _.
  - destruct r' as [|c' r']; simpl in Heq.
    + apply Forall_cons in Hr as [Hc _].
      destruct Hs' as [->|[t ->]]; [done|]. by injection Heq as -> _.
    + injection Heq as <- Heq.
      apply Forall_cons in Hr as [_ Hr]. apply Forall_cons in Hr' as [_ Hr'].
      by destruct (IH r' Hr Hr' Hs Hs' Heq) as [-> ->].
Qed.

Lemma join_cons (x : string) (l : list string) :
  join "" (x :: l) = (x ++ join "" l)%string.
Proof.
  unfold join. destruct l as [|y l]; simpl; [|done].
  induction x as [|c x IH]; [done|].
  change (String c x = String c (x ++ ""))%string. by f_equal.
Qed.

Lemma join_numbered_start (l : list string) :
  Forall numbered l → join "" l = "" ∨ ∃ t, join "" l = String "q" t.
Proof.
  intros [|c l' (r & -> & _) _]; [by left|].
  right. rewrite join_cons. simpl. eauto.
Qed.

Lemma join_numbered_inj (l l' : list string) :
  Forall numbered l → Forall numbered l' →
  join "" l = join "" l' → l = l'.
Proof.
  intros Hl. revert l'. induction Hl as [|c l (r & -> & Hr) Hl IH];
    intros l' Hl' Heq.
  - destruct Hl' as [|c' l' (r' & -> & _) _]; [done|].
    rewrite join_cons in Heq. done.
  - destruct Hl' as [|c' l' (r' & -> & Hr') Hl']; rewrite !join_cons in Heq;
      [done|].
    simpl in Heq. injection Heq as Heq.
    apply digits_decode in Heq as [-> Heq];
      [|done|done|by apply join_numbered_start..].
    f_equal. by apply IH.
Qed.

Lemma numbered_collision_free (o : IterOrder) (A : NFA) :
  (∀ c, c ∈ _states A → numbered c) → collision_free o A.
Proof.
  intros Hnames S S' HS HS' _ _ Hname. unfold name_of in Hname.
  apply join_numbered_inj in Hname.
  - rewrite <- (list_to_set_sorted_set_order o S).
    rewrite <- (list_to_set_sorted_set_order o S'). by rewrite Hname.
  - apply Forall_forall. intros c Hc%elem_of_sorted_set_order. auto.
  - apply Forall_forall. intros c Hc%elem_of_sorted_set_order. auto.
Qed.

(** ** Fuel: more does not change the result *)

Lemma for_each_mono {X St} (body body' : X → St → outcome St) (l : list X)
    (s s' : St) :
  (∀ x t t', body x t = Returns t' → body' x t = Returns t') →
  for_each body l s = Returns s' → for_each body' l s = Returns s'.
Proof.
  intros Hbody. revert s. induction l as [|x l IH]; intros s; simpl; [done|].
  destruct (body x s) as [s1| |] eqn:Hx; simpl; [|done..].
  rewrite (Hbody x s s1 Hx). simpl. apply IH.
Qed.

Lemma determinize_state_mono (o : IterOrder) (fuel : nat) :
  ∀ (T : gset string) (A A' : NFA) (fuel' : nat),
    fuel ≤ fuel' →
    _determinize_state o fuel T A = Returns A' →
    _determinize_state o fuel' T A = Returns A'.
Proof.
  induction fuel as [|fuel IH]; intros T A A' fuel' Hle; [done|].
  destruct fuel' as [|fuel']; [lia|]. cbn [_determinize_state].
  case_decide; [|done]. apply for_each_mono.
  intros x B B'. cbn zeta. case_decide; [|done]. apply IH. lia.
Qed.

Lemma determinize_mono (o : IterOrder) (fuel fuel' : nat) (A A' : NFA) :
  fuel ≤ fuel' →
  determinize o fuel A = Returns A' → determinize o fuel' A = Returns A'.
Proof.
  intros Hle. unfold determinize.
  destruct (for_each _ (dict_order o (_transitions A)) A) as [A1| |] eqn:H1;
    [|done..].
  erewrite for_each_mono; [done| |exact H1].
  intros [k T] B B'. case_decide; [|done]. by apply determinize_state_mono.
Qed.

Lemma complement_mono (o : IterOrder) (fuel fuel' : nat) (A A' : NFA) :
  fuel ≤ fuel' →
  complement o fuel A = Returns A' → complement o fuel' A = Returns A'.
Proof.
  intros Hle. unfold complement.
  destruct (determinize o fuel A) as [A1| |] eqn:H1; [|done..].
  by rewrite (determinize_mono o fuel fuel' A A1 Hle H1).
Qed.

(** ** Renaming keeps the shape of the table *)

Lemma beautify_nonempty (o : IterOrder) (bs : gmap string string)
    (A A' : NFA) :
  injective_names bs → _beautify o bs A = Returns A' →
  nonempty_targets A → nonempty_targets A'.
Proof.
  intros Hinj Hret Hne [c x] V HV.
  destruct (beautify_result o bs A A' Hinj Hret)
    as (Hcov & _ & _ & _ & _ & Ht).
  apply Ht in HV as (q & T & HT & Hq & ->).
  destruct Hcov as (_ & _ & Hcov). destruct (Hcov q x T HT) as [_ Hsub].
  pose proof (Hne (q, x) T HT) as HTne.
  apply set_choose_L in HTne as [t Ht'].
  assert (t ∈ dom bs) as [v Hv]%elem_of_dom by set_solver.
  intros Hempty.
  assert (Hin : v ∈ rename_set bs T) by (apply elem_of_rename_set; eauto).
  rewrite Hempty in Hin. by apply elem_of_empty in Hin.
Qed.

Lemma beautify_initial_entries (o : IterOrder) (bs : gmap string string)
    (A A' : NFA) :
  injective_names bs → _beautify o bs A = Returns A' →
  initial_entries A → initial_entries A'.
Proof.
  intros Hinj Hret Hent x Hx.
  destruct (beautify_result o bs A A' Hinj Hret)
    as (_ & Hi & _ & HA & _ & Ht).
  rewrite HA in Hx. destruct (Hent x Hx) as [T HT].
  exists (rename_set bs T). apply Ht. eauto.
Qed.

Lemma beautify_qn_shape (o : IterOrder) (A A' : NFA) :
  beautify_qn o A = Returns A' →
  (∀ c, c ∈ _states A' → numbered c) ∧
  (nonempty_targets A → nonempty_targets A') ∧
  (initial_entries A → initial_entries A').
Proof.
  unfold beautify_qn. set (bs := foldl _ _ _). intros Hret.
  pose proof (qn_names_injective o A) as Hinj. fold bs in Hinj.
  split; [|split].
  - eapply beautify_state_names; [done..|].
    intros s v [[_ ->]|(n & _ & ->)]%qn_names_lookup;
      [apply numbered_q0 | apply numbered_pretty].
  - by eapply beautify_nonempty.
  - by eapply beautify_initial_entries.
Qed.

Lemma beautify_abc_shape (o : IterOrder) (A A' : NFA) :
  beautify_abc o A = Returns A' →
  size (_states A) ≤ 26 ∧
  (nonempty_targets A → nonempty_targets A') ∧
  (initial_entries A → initial_entries A').
Proof.
  intros Hret. assert (Hsize : size (_states A) ≤ 26).
  { unfold beautify_abc in Hret. case_decide; [done | lia]. }
  split; [done|]. rewrite (beautify_abc_unfold o A Hsize) in Hret.
  pose proof (abc_names_injective o A Hsize) as Hinj.
  split; [by eapply beautify_nonempty | by eapply beautify_initial_entries].
Qed.

Lemma total_shape (A : NFA) :
  states_closed A → keys_known A → total A →
  nonempty_targets A ∧ initial_entries A.
Proof.
  intros Hcl Hk Htot. split.
  - intros [q x] T HT. destruct (Hk q x T HT) as [Hq Hx].
    destruct (Htot q x Hq Hx) as (q' & HT' & _).
    rewrite HT in HT'. injection HT' as ->.
    intros Hempty. assert (q' ∈ ({[q']} : gset string)) as Hin
      by by apply elem_of_singleton.
    rewrite Hempty in Hin. by apply elem_of_empty in Hin.
  - intros x Hx. destruct (Htot (_initial_state A) x) as (q' & HT' & _);
      [apply Hcl | done | by eexists].
Qed.

Lemma states_closed_names (A : NFA) : states_closed A → names_closed A.
Proof.
  intros [Hi Hf Ht]. split; [set_solver|].
  intros q x T HT. destruct (Ht q x T HT). set_solver.
Qed.

(** ** The automaton [union] builds from two total automata *)

Section MergedShape.
Variable o : IterOrder.
Variables A1 A2 : NFA.
Hypothesis Hcl1 : states_closed A1.
Hypothesis Hcl2 : states_closed A2.
Hypothesis Hdisj : ∀ c, c ∈ _states A1 → c ∉ _states A2.
Hypothesis Hnew1 : "qinitial" ∉ _states A1.
Hypothesis Hnew2 : "qinitial" ∉ _states A2.
Hypothesis Hsym1 : symbols_in_alphabet A1.
Hypothesis Hsym2 : symbols_in_alphabet A2.
Hypothesis Halph : _alphabet A1 = _alphabet A2.

Lemma merged_symbols : symbols_in_alphabet (union_merge o A1 A2).
Proof.
  intros c x T HT.
  assert (HA : _alphabet (union_merge o A1 A2) = _alphabet A1)
    by (by eapply merged_fields).
  rewrite HA. rewrite merged_lookup in HT by assumption.
  destruct (decide (c = "qinitial" ∧ x ∈ _alphabet A1)) as [[_ ?]|_];
    [done|].
  destruct (decide (c ∈ _states A2));
    [rewrite Halph; by eapply Hsym2 | by eapply Hsym1].
Qed.

Hypothesis Hne1 : nonempty_targets A1.
Hypothesis Hne2 : nonempty_targets A2.
Hypothesis Hent : initial_entries A1.

Lemma merged_nonempty : nonempty_targets (union_merge o A1 A2).
Proof.
  intros [c x] T HT. rewrite merged_lookup in HT by assumption.
  destruct (decide (c = "qinitial" ∧ x ∈ _alphabet A1)) as [[_ Hx]|_].
  - injection HT as <-. destruct (Hent x Hx) as [V HV].
    pose proof (Hne1 _ _ HV) as HVne.
    apply set_choose_L in HVne as [t Ht].
    assert (Hin : t ∈ targets A1 (_initial_state A1) x)
      by (apply elem_of_targets; eauto).
    intros Hempty. set_solver.
  - destruct (decide (c ∈ _states A2)); [by eapply Hne2 | by eapply Hne1].
Qed.

End MergedShape.

(** ** [union] of two total automata *)

Lemma union_returns_inv (o : IterOrder) (A B : NFA) (both : NFA * NFA) :
  union o A B = Returns both →
  _alphabet A = _alphabet B ∧ size (_states A) ≤ 26.
Proof.
  rewrite union_unfold. case_decide as Hd; [done|].
  destruct (beautify_abc o A) as [A1| |] eqn:H1; [|done..].
  intros _. split.
  - apply (alphabet_eq_iff o). by destruct (decide (alphabet o A = alphabet o B)).
  - by apply beautify_abc_shape in H1 as [? _].
Qed.

Lemma union_shape (o : IterOrder) (A B : NFA) :
  states_closed A → states_closed B →
  symbols_in_alphabet A → symbols_in_alphabet B →
  nonempty_targets A → nonempty_targets B → initial_entries A →
  size (_states A) ≤ 26 → _alphabet A = _alphabet B →
  ∃ U B',
    union o A B = Returns (U, B') ∧
    well_formed U ∧
    (∀ c, c ∈ _states U → numbered c) ∧
    _alphabet U = _alphabet A ∧
    (∀ o1 o2 o3 input,
       accept o1 U input = true ↔
       input = "" ∨ accept o2 A input = true ∨ accept o3 B input = true) ∧
    (∀ o1 o2 input, accept o1 B' input = accept o2 B input).
Proof.
  intros HclA HclB HsymA HsymB HneA HneB Hent Hsize Halph.
  rewrite union_unfold.
  rewrite decide_False by (intros Hne; by apply Hne, alphabet_eq_iff).
  destruct (beautify_abc_facts o A (states_closed_names A HclA) Hsize)
    as (A1 & Hr1 & Hst1 & Hn1 & HA1 & Hs1 & HL1).
  destruct (beautify_abc_shape o A A1 Hr1) as (_ & Hne1 & Hent1).
  rewrite Hr1.
  destruct (beautify_qn_facts o B (states_closed_names B HclB))
    as (A2 & Hr2 & Hst2 & Hn2 & Hi2 & HA2 & Hs2 & _ & HL2).
  destruct (beautify_qn_shape o B A2 Hr2) as (_ & Hne2 & _).
  rewrite Hr2.
  assert (Hdisj : ∀ c, c ∈ _states A1 → c ∉ _states A2).
  { intros c H1 H2. by apply (q_name_not_abc c); [apply Hn2 | apply Hn1]. }
  assert (Hnew1 : "qinitial" ∉ _states A1).
  { intros H1. by apply abc_name_not_qinitial, Hn1. }
  assert (Hnew2 : "qinitial" ∉ _states A2).
  { intros H2. by apply q_name_not_qinitial, Hn2. }
  assert (Halph' : _alphabet A1 = _alphabet A2) by congruence.
  specialize (Hs1 HsymA). specialize (Hs2 HsymB).
  specialize (Hne1 HneA). specialize (Hne2 HneB). specialize (Hent1 Hent).
  destruct (beautify_qn_facts o (union_merge o A1 A2))
    as (A3 & Hr3 & Hst3 & Hn3 & Hi3 & HA3 & Hs3 & _ & HL3).
  { by apply merged_closed. }
  destruct (beautify_qn_shape o _ A3 Hr3) as (Hnum3 & Hne3 & _).
  rewrite Hr3.
  exists A3, A2. split; [done|]. split.
  { destruct Hst3 as [Hi Hf Ht]. split; [done | done | |].
    - intros Hin. by apply (q_name_nonempty ""); [apply Hn3|].
    - intros q x T HT. destruct (Ht q x T HT) as [Hq HT'].
      split; [done|]. split; [|split; [done|]].
      + eapply Hs3; [|exact HT]. by apply merged_symbols.
      + assert (Hm : nonempty_targets (union_merge o A1 A2))
          by by apply merged_nonempty.
        by apply (Hne3 Hm (q, x)). }
  split; [done|]. split.
  { rewrite HA3, <- HA1.
    by destruct (merged_fields o A1 A2 Hst1 Hst2 Hdisj Hnew1 Hnew2
                   Hs1 Hs2 Halph') as (_ & -> & _). }
  split; [|done].
  intros o1 o2 o3 input. rewrite (HL3 o1 o).
  rewrite (merged_accept o A1 A2 Hst1 Hst2 Hdisj Hnew1 Hnew2
             Hs1 Hs2 Halph' o o o).
  by rewrite (HL1 o o2), (HL2 o o3).
Qed.

(** ** What [complement] returns, for any number of iterations *)

Lemma complement_returned (o : IterOrder) (fuel : nat) (A A' : NFA) :
  well_formed A → collision_free o A →
  complement o fuel A = Returns A' →
  _alphabet A' = _alphabet A ∧
  states_closed A' ∧ keys_known A' ∧ deterministic A' ∧ total A' ∧
  size (_states A') ≤ S (size (composite_names o A)) ∧
  ∀ o1 o2 input,
    accept o1 A' input = over_alphabet A input && negb (accept o2 A input).
Proof.
  intros Hwf Hcf Hret.
  destruct (complement_facts o A (fuel `max` S (size (composite_names o A)))
              Hwf Hcf)
    as (A'' & Hret' & HA & _ & Hc & Hk & Hd & Ht & _ & Hsz & HL); [lia|].
  apply (complement_mono o fuel (fuel `max` S (size (composite_names o A))))
    in Hret; [|lia].
  rewrite Hret in Hret'. injection Hret' as <-. done.
Qed.

Lemma accept_over_alphabet (o : IterOrder) (A : NFA) (input : string) :
  symbols_in_alphabet A → accept o A input = true →
  over_alphabet A input = true.
Proof.
  intros Hsym (q & _ & Ht)%accept_iff_trace.
  apply over_alphabet_spec. by eapply trace_symbols.
Qed.

Lemma over_alphabet_same (A B : NFA) (input : string) :
  _alphabet A = _alphabet B → over_alphabet A input = over_alphabet B input.
Proof. intros Heq. unfold over_alphabet. by rewrite Heq. Qed.

(** ** [intersection] *)

Lemma intersection_union (o : IterOrder) (f1 f2 : nat)
    (self automaton C1 C2 : NFA) :
  well_formed self → well_formed automaton →
  collision_free o self → collision_free o automaton →
  complement o f1 self = Returns C1 →
  complement o f2 automaton = Returns C2 →
  _alphabet self = _alphabet automaton →
  size (_states C1) ≤ 26 →
  ∃ U B',
    union o C1 C2 = Returns (U, B') ∧
    well_formed U ∧ collision_free o U ∧
    _alphabet U = _alphabet self ∧
    (∀ o1 o2 o3 input,
       over_alphabet self input && negb (accept o1 U input) = true ↔
       input ≠ "" ∧ accept o2 self input = true ∧
       accept o3 automaton input = true) ∧
    (∀ o1 o2 input,
       accept o1 B' input =
       over_alphabet automaton input && negb (accept o2 automaton input)).
Proof.
  intros Hwf1 Hwf2 Hcf1 Hcf2 H1 H2 Halph Hsize.
  destruct (complement_returned o f1 self C1 Hwf1 Hcf1 H1)
    as (HA1 & Hc1 & Hk1 & _ & Ht1 & _ & HL1).
  destruct (complement_returned o f2 automaton C2 Hwf2 Hcf2 H2)
    as (HA2 & Hc2 & Hk2 & _ & Ht2 & _ & HL2).
  destruct (total_shape C1 Hc1 Hk1 Ht1) as [Hne1 Hent1].
  destruct (total_shape C2 Hc2 Hk2 Ht2) as [Hne2 _].
  destruct (union_shape o C1 C2 Hc1 Hc2 (keys_known_symbols C1 Hk1)
              (keys_known_symbols C2 Hk2) Hne1 Hne2 Hent1 Hsize)
    as (U & B' & HU & HwfU & Hnum & HAU & HLU & HLB); [congruence|].
  exists U, B'. split; [done|]. split; [done|].
  split; [by apply numbered_collision_free|].
  split; [congruence|]. split.
  - intros o1 o2 o3 input.
    pose proof (HLU o1 o o input) as Hacc.
    rewrite (HL1 o o2), (HL2 o o3) in Hacc.
    rewrite <- (over_alphabet_same self automaton input Halph) in Hacc.
    destruct (over_alphabet self input) eqn:Hover; simpl in *.
    + destruct (accept o1 U input), (accept o2 self input),
        (accept o3 automaton input), (decide (input = ""));
        simpl in *; naive_solver.
    + split; [done|]. intros (_ & Hs & _).
      apply accept_over_alphabet in Hs; [congruence|].
      by apply keys_known_symbols, well_formed_closed.
  - intros o1 o2 input. by rewrite (HLB o1 o), (HL2 o o2).
Qed.



(** ** [from_regular_grammar]: the two loops *)

Lemma for_each_value_app {X St} (body : X → St → result St)
    (l1 l2 : list X) (s : St) :
  for_each_value body (l1 ++ l2)%list s =
  match for_each_value body l1 s with
  | Error e => Error e
  | Value s' => for_each_value body l2 s'
  end.
Proof.
  revert s. induction l1 as [|x l1 IH]; intros s; simpl; [done|].
  by destruct (body x s).
Qed.

(** The nested loops meet the productions one after the other. *)
Lemma nested_loops_flat (items : list (string * list string))
    (s : gset string * gmap (string * string) (gset string)) :
  for_each_value (λ '(non_terminal, prods),
                    for_each_value (add_production non_terminal) prods)
                 items s =
  for_each_value (λ '(N, p), add_production N p)
                 (items ≫= λ '(N, prods), pair N <$> prods) s.
Proof.
  revert s. induction items as [|[N prods] items IH]; intros s; [done|].
  cbn [for_each_value mbind list_bind]. rewrite for_each_value_app.
  assert (Hin : ∀ s, for_each_value (add_production N) prods s =
                     for_each_value (λ '(N, p), add_production N p)
                                    (pair N <$> prods) s).
  { induction prods as [|p prods IHp]; intros s'; simpl; [done|].
    by destruct (add_production N p s'). }
  rewrite <- Hin. by destruct (for_each_value (add_production N) prods s).
Qed.

Lemma elem_of_flat (o : IterOrder) (productions : gmap string (list string))
    (N p : string) :
  (N, p) ∈ (dict_order o productions ≫= λ '(N, prods), pair N <$> prods) ↔
  ∃ prods, productions !! N = Some prods ∧ p ∈ prods.
Proof.
  rewrite list_elem_of_bind. split.
  - intros ([N' prods] & Hin & Hd). apply elem_of_dict_order in Hd.
    apply list_elem_of_fmap in Hin as (p' & [= -> ->] & Hp). eauto.
  - intros (prods & HN & Hp). exists (N, prods).
    split; [|by apply elem_of_dict_order].
    apply list_elem_of_fmap. eauto.
Qed.

Lemma add_production_cases (N p : string) (alphabet : gset string)
    (t : gmap (string * string) (gset string)) :
  (p = "&" ∧ add_production N p (alphabet, t) = Value (alphabet, t)) ∨
  (p = "" ∧ add_production N p (alphabet, t) = Error IndexError) ∨
  (∃ a q, p ≠ "&" ∧ edge_of p = Some (a, q) ∧
          add_production N p (alphabet, t) =
          Value ({[a]} ∪ alphabet,
                 <[(N, a) := default ∅ (t !! (N, a)) ∪ {[q]}]> t)).
Proof.
  unfold add_production. destruct (decide (p = "&")) as [->|Hp];
    [by left|]. right.
  destruct p as [|a [|b rest]]; [by left|right..].
  - by exists (String a ""), "X".
  - by exists (String a ""), (String b "").
Qed.

Lemma edge_of_nonempty (a q : string) : edge_of "" ≠ Some (a, q).
Proof. done. Qed.

(** What the loops leave in [alphabet] and [transitions]. *)
Lemma loops_spec (flat : list (string * string)) (alphabet : gset string)
    (t : gmap (string * string) (gset string)) :
  match for_each_value (λ '(N, p), add_production N p) flat (alphabet, t)
  with
  | Error e => e = IndexError ∧ ∃ N, (N, "") ∈ flat
  | Value (alphabet', t') =>
      (∀ N, (N, "") ∉ flat) ∧
      (∀ a, a ∈ alphabet' ↔
            a ∈ alphabet ∨
            ∃ N p q, (N, p) ∈ flat ∧ p ≠ "&" ∧ edge_of p = Some (a, q)) ∧
      (∀ N a q, q ∈ default ∅ (t' !! (N, a)) ↔
                q ∈ default ∅ (t !! (N, a)) ∨
                ∃ p, (N, p) ∈ flat ∧ p ≠ "&" ∧ edge_of p = Some (a, q)) ∧
      ((∀ k T, t !! k = Some T → T ≠ ∅) →
       ∀ k T, t' !! k = Some T → T ≠ ∅)
  end.
Proof.
  revert alphabet t. induction flat as [|[N p] flat IH]; intros alphabet t.
  - simpl. split; [intros N; apply not_elem_of_nil|].
    split; [|split; [|done]].
    + intros a. split; [by left|]. intros [?|(? & ? & ? & []%elem_of_nil & _)].
      done.
    + intros N a q. split; [by left|].
      intros [?|(? & []%elem_of_nil & _)]. done.
  - cbn [for_each_value].
    destruct (add_production_cases N p alphabet t)
      as [[Hp Heq]|[[Hp Heq]|(a & q & Hp & He & Heq)]];
      rewrite Heq; clear Heq; try subst p.
    + specialize (IH alphabet t).
      destruct (for_each_value _ flat (alphabet, t)) as [[alphabet' t']|e].
      * destruct IH as (Hno & Ha & Ht & Hne).
        split; [|split; [|split; [|done]]].
        -- intros N' [[=]|?]%elem_of_cons. by apply (Hno N').
        -- intros b. rewrite Ha. split; [|set_solver].
           intros [?|(N' & p & q & Hin & ? & ?)]; [by left|]. right.
           exists N', p, q. split; [by right | done].
        -- intros N' b q. rewrite Ht. split; [|set_solver].
           intros [?|(p & Hin & ? & ?)]; [by left|]. right.
           exists p. split; [by right | done].
      * destruct IH as [-> [N' HN']]. split; [done|]. exists N'. by right.
    + split; [done|]. exists N. by left.
    + specialize (IH ({[a]} ∪ alphabet)
                     (<[(N, a) := default ∅ (t !! (N, a)) ∪ {[q]}]> t)).
      destruct (for_each_value _ flat _) as [[alphabet' t']|e].
      * destruct IH as (Hno & Ha & Ht & Hne).
        split; [|split; [|split]].
        -- intros N' [[= _ <-]|?]%elem_of_cons; [done|]. by apply (Hno N').
        -- intros b. rewrite Ha. split.
           ++ intros [[->%elem_of_singleton|?]%elem_of_union|
                      (N' & p' & q' & Hin & ? & ?)].
              ** right. exists N, p, q. split; [by left | done].
              ** by left.
              ** right. exists N', p', q'. split; [by right | done].
           ++ intros [?|(N' & p' & q' & [[= -> ->]|Hin]%elem_of_cons & ? & He')].
              ** left. set_solver.
              ** left. rewrite He in He'. injection He' as -> _. set_solver.
              ** right. eauto 6.
        -- intros N' b q'. rewrite Ht.
           destruct (decide ((N, a) = (N', b))) as [[= <- <-]|Hk].
           ++ rewrite lookup_insert_eq. simpl. split.
              ** intros [[? | ->%elem_of_singleton]%elem_of_union|
                         (p' & Hin & ? & ?)].
                 --- by left.
                 --- right. exists p. split; [by left | done].
                 --- right. exists p'. split; [by right | done].
              ** intros [?|(p' & [[= ->]|Hin]%elem_of_cons & ? & He')].
                 --- left. set_solver.
                 --- left. rewrite He in He'. injection He' as ->.
                     set_solver.
                 --- right. eauto.
           ++ rewrite lookup_insert_ne by done. split.
              ** intros [?|(p' & Hin & ? & ?)]; [by left|]. right.
                 exists p'. split; [by right | done].
              ** intros [?|(p' & [[= -> ->]|Hin]%elem_of_cons & ? & He')].
                 --- by left.
                 --- rewrite He in He'. injection He' as -> ->. done.
                 --- right. eauto.
        -- intros Hnonempty. apply Hne.
           intros k T [[_ <-]|[_ HT]]%lookup_insert_Some;
             [set_solver | by eapply Hnonempty].
      * destruct IH as [-> [N' HN']]. split; [done|]. exists N'. by right.
Qed.

(** ** [from_regular_grammar]: the automaton it builds *)

Lemma from_regular_grammar_view (o : IterOrder) (initial_symbol : string)
    (productions : gmap string (list string)) :
  match from_regular_grammar o initial_symbol productions with
  | Error e =>
      (productions !! initial_symbol = None ∧ e = KeyError initial_symbol) ∨
      (is_Some (productions !! initial_symbol) ∧ e = IndexError ∧
       ∃ N prods, productions !! N = Some prods ∧ "" ∈ prods)
  | Value A =>
      (∃ prods, productions !! initial_symbol = Some prods ∧
                _final_states A =
                {["X"]} ∪ (if decide ("&" ∈ prods)
                           then {[initial_symbol]} else ∅)) ∧
      (∀ N prods, productions !! N = Some prods → "" ∉ prods) ∧
      _initial_state A = initial_symbol ∧
      _states A = dom productions ∪ {["X"]} ∧
      (∀ a, a ∈ _alphabet A ↔ ∃ N q, edge productions N a q) ∧
      (∀ N a q, q ∈ targets A N a ↔ edge productions N a q) ∧
      nonempty_targets A
  end.
Proof.
  unfold from_regular_grammar.
  destruct (productions !! initial_symbol) as [prods0|] eqn:Hinit;
    [|by left].
  rewrite nested_loops_flat.
  pose proof (loops_spec
                (dict_order o productions ≫= λ '(N, prods), pair N <$> prods)
                ∅ ∅) as Hloops.
  destruct (for_each_value _ _ _) as [[alphabet t]|e].
  - destruct Hloops as (Hno & Ha & Ht & Hne).
    split; [by exists prods0|]. split.
    { intros N prods HN Hin. apply (Hno N), elem_of_flat. eauto. }
    split; [done|]. split; [done|]. split; [|split].
    + intros a. simpl. rewrite Ha. split.
      * intros [[]%elem_of_empty|(N & p & q & (prods & ? & ?)%elem_of_flat
                                    & ? & ?)].
        exists N, q, prods, p. done.
      * intros (N & q & prods & p & ? & ? & ? & ?). right.
        exists N, p, q. split; [|done]. apply elem_of_flat. eauto.
    + intros N a q. unfold targets. simpl. rewrite Ht.
      rewrite lookup_empty. simpl. split.
      * intros [[]%elem_of_empty|(p & (prods & ? & ?)%elem_of_flat & ? & ?)].
        by exists prods, p.
      * intros (prods & p & ? & ? & ? & ?). right.
        exists p. split; [|done]. apply elem_of_flat. eauto.
    + intros k T HT. simpl in HT. revert k T HT. apply Hne.
      intros k T HT. by rewrite lookup_empty in HT.
  - right. destruct Hloops as [-> [N (prods & ? & ?)%elem_of_flat]].
    split; [done|]. split; [done|]. eauto.
Qed.

(** An automaton is determined by its fields, the table by its targets
    when no entry is empty. *)
Lemma NFA_eq_targets (A B : NFA) :
  _states A = _states B → _alphabet A = _alphabet B →
  _initial_state A = _initial_state B →
  _final_states A = _final_states B →
  nonempty_targets A → nonempty_targets B →
  (∀ N a q, q ∈ targets A N a ↔ q ∈ targets B N a) →
  A = B.
Proof.
  intros HS HA HI HF HnA HnB Ht. apply NFA_eq; try done.
  apply map_eq. intros [N a].
  pose proof (Ht N a) as HNa. unfold targets in HNa.
  destruct (_transitions A !! (N, a)) as [T|] eqn:HT,
           (_transitions B !! (N, a)) as [T'|] eqn:HT'; simpl in HNa.
  - f_equal. by apply set_eq.
  - apply HnA in HT. apply set_choose_L in HT as [q Hq].
    apply HNa in Hq. by apply elem_of_empty in Hq.
  - apply HnB in HT'. apply set_choose_L in HT' as [q Hq].
    apply HNa in Hq. by apply elem_of_empty in Hq.
  - done.
Qed.

(** X22.  [from_regular_grammar] raises [KeyError] exactly when the initial
    symbol has no productions, raises [IndexError] exactly when it has and
    some non-terminal has the empty string among its productions, and
    returns an automaton otherwise. *)
Theorem from_regular_grammar_outcome (o : IterOrder)
    (initial_symbol : string) (productions : gmap string (list string)) :
  (from_regular_grammar o initial_symbol productions =
     Error (KeyError initial_symbol) ↔
   productions !! initial_symbol = None) ∧
  (from_regular_grammar o initial_symbol productions = Error IndexError ↔
   is_Some (productions !! initial_symbol) ∧
   ∃ N prods, productions !! N = Some prods ∧ "" ∈ prods) ∧
  ((∃ A, from_regular_grammar o initial_symbol productions = Value A) ↔
   is_Some (productions !! initial_symbol) ∧
   ∀ N prods, productions !! N = Some prods → "" ∉ prods).
Proof.
  pose proof (from_regular_grammar_view o initial_symbol productions) as Hv.
  destruct (from_regular_grammar o initial_symbol productions) as [A|e].
  - destruct Hv as ((prods & Hinit & _) & Hno & _).
    split; [|split].
    + split; [done | congruence].
    + split; [done|]. intros (_ & N & prods' & HN & Hin).
      by destruct (Hno N prods' HN).
    + split; [|by eauto]. intros _. split; [by eexists | done].
  - destruct Hv as [[Hnone ->]|(Hsome & -> & N & prods & HN & Hin)].
    + split; [|split].
      * done.
      * split; [done|]. intros [[? Hs] _]. congruence.
      * split; [by intros [? ?]|]. intros [[? Hs] _]. congruence.
    + split; [|split].
      * split; [done|]. intros Hnone. destruct Hsome as [? Hs]. congruence.
      * split; [|done]. intros _. split; [done|]. eauto.
      * split; [by intros [? ?]|]. intros [_ Hno].
        by destruct (Hno N prods HN).
Qed.

(** X23.  The automaton [from_regular_grammar] returns: its states are the
    non-terminals and [X], its initial state is the initial symbol, [X] is
    final and the initial symbol is final when [&] is one of its
    productions; a production of [N] other than [&] with first character
    [a] gives [N] the target [X] on [a] when it has one character, and the
    state named by its second character otherwise, whatever follows; the
    alphabet holds the first characters of these productions.  The result
    does not depend on the order of iteration. *)
Theorem from_regular_grammar_spec (o : IterOrder) (initial_symbol : string)
    (productions : gmap string (list string)) (A : NFA) :
  from_regular_grammar o initial_symbol productions = Value A →
  _initial_state A = initial_symbol ∧
  _states A = dom productions ∪ {["X"]} ∧
  (∀ q, q ∈ _final_states A ↔
        q = "X" ∨
        (q = initial_symbol ∧
         ∃ prods, productions !! initial_symbol = Some prods ∧
                  "&" ∈ prods)) ∧
  (∀ a, a ∈ _alphabet A ↔ ∃ N q, edge productions N a q) ∧
  (∀ N a q, q ∈ targets A N a ↔ edge productions N a q) ∧
  ∀ o', from_regular_grammar o' initial_symbol productions = Value A.
Proof.
  intros Hret.
  pose proof (from_regular_grammar_view o initial_symbol productions) as Hv.
  rewrite Hret in Hv.
  destruct Hv as ((prods & Hinit & HF) & Hno & HI & HS & HA & HT & Hne).
  split; [done|]. split; [done|]. split; [|split; [done|split; [done|]]].
  - intros q. rewrite HF, Hinit. case_decide; set_solver.
  - intros o'.
    pose proof (from_regular_grammar_view o' initial_symbol productions)
      as Hv'.
    destruct (from_regular_grammar o' initial_symbol productions)
      as [A'|e].
    + destruct Hv' as ((prods' & Hinit' & HF') & _ & HI' & HS' & HA' & HT'
                       & Hne').
      f_equal. apply NFA_eq_targets; try done; try congruence.
      * apply set_eq. intros a. by rewrite HA, HA'.
      * rewrite HF, HF'. rewrite Hinit in Hinit'. by injection Hinit' as <-.
      * intros N a q. by rewrite HT, HT'.
    + destruct Hv' as [[Hnone _]|(_ & _ & N & prods' & HN & Hin)];
        [congruence | by destruct (Hno N prods' HN)].
Qed.

Lemma from_regular_grammar_spec_witness :
  ∃ A, from_regular_grammar canonical "S" a_star_b = Value A ∧
       _initial_state A = "S".
Proof.
  destruct (from_regular_grammar canonical "S" a_star_b) as [A|e] eqn:Hret.
  - exists A. split; [reflexivity|].
    apply (from_regular_grammar_spec canonical "S" a_star_b A Hret).
  - exfalso. vm_compute in Hret. discriminate Hret.
Defined.

(** X24.  The automaton [from_regular_grammar] returns satisfies the
    invariants of the data model exactly when the empty string is not a
    non-terminal and every state a production names is [X] or a
    non-terminal with productions: the method does not check it. *)
Theorem from_regular_grammar_well_formed (o : IterOrder)
    (initial_symbol : string) (productions : gmap string (list string))
    (A : NFA) :
  from_regular_grammar o initial_symbol productions = Value A →
  (well_formed A ↔
   ("" ∉ dom productions) ∧
   ∀ N a q, edge productions N a q → q = "X" ∨ q ∈ dom productions).
Proof.
  intros Hret.
  pose proof (from_regular_grammar_view o initial_symbol productions) as Hv.
  rewrite Hret in Hv.
  destruct Hv as ((prods & Hinit & HF) & Hno & HI & HS & HA & HT & Hne).
  assert (Hdom : initial_symbol ∈ dom productions)
    by (apply elem_of_dom; eauto).
  split.
  - intros [_ _ Hnames Htable]. split; [rewrite HS in Hnames; set_solver|].
    intros N a q Hedge. pose proof Hedge as Hq. apply HT in Hq.
    apply elem_of_targets in Hq as (T & HNa & Hq).
    destruct (Htable N a T HNa) as (_ & _ & Hsub & _).
    apply Hsub in Hq. rewrite HS in Hq. set_solver.
  - intros [Hnames Hclosed]. split.
    + rewrite HI, HS. set_solver.
    + rewrite HF, HS. case_decide; set_solver.
    + rewrite HS. set_solver.
    + intros N a T HNa.
      pose proof (Hne _ _ HNa) as HTne.
      apply set_choose_L in HTne as [q0 Hq0].
      assert (Hedge0 : edge productions N a q0)
        by (apply HT, elem_of_targets; eauto).
      split; [|split; [|split; [|by apply (Hne (N, a))]]].
      * destruct Hedge0 as (prods' & p & HN & _). rewrite HS.
        apply elem_of_union_l, elem_of_dom. eauto.
      * apply HA. eauto.
      * intros q Hq. assert (Hedge : edge productions N a q)
          by (apply HT, elem_of_targets; eauto).
        rewrite HS. destruct (Hclosed N a q Hedge); set_solver.
Qed.

Lemma from_regular_grammar_well_formed_witness :
  ∃ A, from_regular_grammar canonical "S" a_star_b = Value A ∧
       well_formed A.
Proof.
  destruct (from_regular_grammar canonical "S" a_star_b) as [A|e] eqn:Hret.
  - exists A. split; [reflexivity|].
    apply (from_regular_grammar_well_formed canonical "S" a_star_b A Hret).
    split.
    + unfold a_star_b. rewrite dom_singleton_L.
      intros Hin. apply elem_of_singleton in Hin. discriminate Hin.
    + intros N a q (prods & p & HN & Hp & Hne & He). unfold a_star_b in *.
      apply lookup_singleton_Some in HN as [<- <-].
      rewrite dom_singleton_L.
      apply elem_of_cons in Hp as [->|Hp];
        [right; injection He as <- <-; by apply elem_of_singleton|].
      apply elem_of_cons in Hp as [->|Hp];
        [left; by injection He as <- <-|].
      apply elem_of_cons in Hp as [->|Hp]; [by destruct Hne|].
      by apply elem_of_nil in Hp.
  - exfalso. vm_compute in Hret. discriminate Hret.
Defined.

(** ** [from_regular_grammar]: the language *)

Lemma grammar_trace_derives (initial_symbol : string)
    (productions : gmap string (list string)) (A : NFA) :
  (∀ q, q ∈ _final_states A →
        q = "X" ∨
        (q = initial_symbol ∧
         ∃ prods, productions !! initial_symbol = Some prods ∧
                  "&" ∈ prods)) →
  (∀ N a q, q ∈ targets A N a → edge productions N a q) →
  ("X" ∉ dom productions) →
  (∀ N prods a rest, productions !! N = Some prods →
                     String a (String "X" rest) ∉ prods) →
  ∀ N w f, trace A N w f → f ∈ _final_states A → N ≠ "X" →
           derives initial_symbol productions N w.
Proof.
  intros HF HT HX HX2 N w f Htr.
  induction Htr as [q|q x q1 w q' Hq1 Htr IH]; intros Hf HN.
  - apply HF in Hf as [->|[-> (prods & ? & ?)]]; [done|].
    by eapply derives_empty.
  - apply HT in Hq1 as (prods & p & HP & Hp & Hne & He).
    destruct p as [|a [|b rest]]; simpl in He; [done| |].
    + injection He as <- <-. inversion Htr as [|? y q2 w' ? Hq2]; subst.
      * by eapply derives_terminal.
      * exfalso. apply HT in Hq2 as (prods' & _ & HP' & _).
        apply HX, elem_of_dom. eauto.
    + injection He as <- <-. eapply derives_step; [done..|].
      apply IH; [done|]. intros [= ->]. by eapply HX2.
Qed.

Lemma grammar_derives_trace (initial_symbol : string)
    (productions : gmap string (list string)) (A : NFA) :
  (∀ q, q = "X" ∨
        (q = initial_symbol ∧
         ∃ prods, productions !! initial_symbol = Some prods ∧
                  "&" ∈ prods) →
        q ∈ _final_states A) →
  (∀ N a q, edge productions N a q → q ∈ targets A N a) →
  ∀ N w, derives initial_symbol productions N w →
         ∃ f, f ∈ _final_states A ∧ trace A N w f.
Proof.
  intros HF HT N w Hd.
  induction Hd as [prods HP Hin|N prods a HP Hin Hne
                   |N prods a b rest w HP Hin _ (f & Hf & Htr)].
  - exists initial_symbol. split; [|constructor]. apply HF. right. eauto.
  - exists "X". split; [apply HF; by left|].
    apply (trace_cons _ N (String a "") "X"); [|constructor].
    apply HT. by exists prods, (String a "").
  - exists f. split; [done|].
    apply (trace_cons _ N (String a "") (String b "")); [|done].
    apply HT. by exists prods, (String a (String b rest)).
Qed.

(** X25.  When no non-terminal is called [X] and no production names [X],
    the automaton [from_regular_grammar] returns accepts exactly the
    strings the initial symbol derives in the grammar. *)
Theorem from_regular_grammar_language (o : IterOrder)
    (initial_symbol : string) (productions : gmap string (list string))
    (A : NFA) :
  from_regular_grammar o initial_symbol productions = Value A →
  ("X" ∉ dom productions) →
  (∀ N prods a rest, productions !! N = Some prods →
                     String a (String "X" rest) ∉ prods) →
  ∀ o' input,
    accept o' A input = true ↔
    derives initial_symbol productions initial_symbol (chars input).
Proof.
  intros Hret HX HX2 o' input.
  pose proof (from_regular_grammar_view o initial_symbol productions) as Hv.
  rewrite Hret in Hv.
  destruct Hv as ((prods & Hinit & HF) & _ & HI & _ & _ & HT & _).
  assert (HFin : ∀ q, q ∈ _final_states A ↔
                      q = "X" ∨
                      (q = initial_symbol ∧
                       ∃ prods, productions !! initial_symbol = Some prods ∧
                                "&" ∈ prods)).
  { intros q. rewrite HF, Hinit. case_decide; set_solver. }
  rewrite accept_iff_trace, HI. split.
  - intros (f & Hf & Htr).
    apply (grammar_trace_derives initial_symbol productions A) with f;
      try done.
    + intros q. apply HFin.
    + intros N a q. apply HT.
    + intros ->. apply HX, elem_of_dom. eauto.
  - apply grammar_derives_trace.
    + intros q. apply HFin.
    + intros N a q. apply HT.
Qed.

Lemma from_regular_grammar_language_witness :
  ∃ A, from_regular_grammar canonical "S" a_star_b = Value A ∧
       ∀ o' input,
         accept o' A input = true ↔ derives "S" a_star_b "S" (chars input).
Proof.
  destruct (from_regular_grammar canonical "S" a_star_b) as [A|e] eqn:Hret.
  - exists A. split; [reflexivity|].
    apply (from_regular_grammar_language canonical "S" a_star_b A Hret).
    + unfold a_star_b. rewrite dom_singleton_L.
      intros Hin. apply elem_of_singleton in Hin. discriminate Hin.
    + intros N prods a rest HN Hp. unfold a_star_b in HN.
      apply lookup_singleton_Some in HN as [_ <-].
      apply elem_of_cons in Hp as [Hp|Hp]; [discriminate Hp|].
      apply elem_of_cons in Hp as [Hp|Hp]; [discriminate Hp|].
      apply elem_of_cons in Hp as [Hp|Hp]; [discriminate Hp|].
      by apply elem_of_nil in Hp.
  - exfalso. vm_compute in Hret. discriminate Hret.
Defined.

(** ** The listings [states] and [alphabet] *)

(** X26.  [states] lists the initial state first, whether or not it is a
    member of the state set, then the other states in ascending order,
    each once; [alphabet] lists the symbols in ascending order, each once.
    Neither list depends on the order of iteration. *)
Theorem listings_spec (o : IterOrder) (A : NFA) :
  (∀ o', states o' A = states o A ∧ alphabet o' A = alphabet o A) ∧
  head (states o A) = Some (_initial_state A) ∧
  NoDup (states o A) ∧
  (∀ q, q ∈ states o A ↔ q = _initial_state A ∨ q ∈ _states A) ∧
  StronglySorted str_le (tail (states o A)) ∧
  NoDup (alphabet o A) ∧
  (∀ x, x ∈ alphabet o A ↔ x ∈ _alphabet A) ∧
  StronglySorted str_le (alphabet o A).
Proof.
  unfold states, alphabet. split; [|split; [done|split; [|split]]].
  - intros o'. by rewrite !(sorted_set_order o' o).
  - apply NoDup_cons. split; [|apply NoDup_sorted_set_order].
    rewrite elem_of_sorted_set_order. set_solver.
  - intros q. rewrite elem_of_cons, elem_of_sorted_set_order.
    destruct (decide (q = _initial_state A)); set_solver.
  - split; [apply StronglySorted_merge_sort; apply _|].
    split; [apply NoDup_sorted_set_order|].
    split; [intros x; apply elem_of_sorted_set_order|].
    apply StronglySorted_merge_sort; apply _.
Qed.

(** ** Invariant 3 through every public operation *)

Lemma remove_state_symbols (o : IterOrder) (s : string) (A : NFA) :
  symbols_in_alphabet A → symbols_in_alphabet (remove_state o s A).
Proof.
  intros Hinv.
  by apply (run_op_keeps_symbols o (RemoveState s) A).
Qed.

Lemma remove_states_symbols (o : IterOrder) (l : list string) (A : NFA) :
  symbols_in_alphabet A →
  symbols_in_alphabet (foldl (λ A s, remove_state o s A) A l).
Proof.
  revert A. induction l as [|s l IH]; intros A Hinv; simpl; [done|].
  by apply IH, remove_state_symbols.
Qed.

Lemma remove_unreachable_symbols (o : IterOrder) (fuel : nat) (A A' : NFA) :
  symbols_in_alphabet A → remove_unreachable o fuel A = Returns A' →
  symbols_in_alphabet A'.
Proof.
  intros Hinv. unfold remove_unreachable.
  destruct (reachable_loop _ _ _ _ _); [|done]. intros [= <-].
  by apply remove_states_symbols.
Qed.

Lemma remove_dead_symbols (o : IterOrder) (fuel : nat) (A A' : NFA) :
  symbols_in_alphabet A → remove_dead o fuel A = Returns A' →
  symbols_in_alphabet A'.
Proof.
  intros Hinv. unfold remove_dead.
  destruct (alive_loop _ _ _ _ _); [|done]. intros [= <-].
  by apply remove_states_symbols.
Qed.

Lemma merge_states_symbols (o : IterOrder) (a b : string) (A : NFA) :
  symbols_in_alphabet A → symbols_in_alphabet (_merge_states o a b A).
Proof.
  intros Hinv. unfold _merge_states.
  destruct (if decide (b = _initial_state A ∨ a ∉ _states A)
            then (a, b) else (b, a)) as [removed kept].
  apply remove_state_symbols. unfold symbols_in_alphabet. simpl.
  apply (foldl_preserves
           (λ t : gmap (string * string) (gset string),
              ∀ q x T, t !! (q, x) = Some T → x ∈ _alphabet A)); [done|].
  intros t [[q x] T] Hin%elem_of_dict_order Ht. case_decide; [|done].
  intros q' x' T' [[[= <- <-] _]|[_ HT']]%lookup_insert_Some;
    [by eapply Hinv | by eapply Ht].
Qed.

Lemma merge_equivalent_symbols (o : IterOrder) (fuel : nat) (A A' : NFA) :
  symbols_in_alphabet A → merge_equivalent o fuel A = Returns A' →
  symbols_in_alphabet A'.
Proof.
  intros Hinv. unfold merge_equivalent.
  destruct (negb (is_deterministic o A)); [done|].
  destruct (refine_loop o fuel A (initial_pairs o A)) as [[U|]|]; [|done..].
  apply for_each_invariant; [done|].
  intros p B B' HB Hp.
  destruct (set_order o p) as [|a [|b [|? ?]]]; try done.
  injection Hp as <-. by apply merge_states_symbols.
Qed.

Lemma minimize_symbols (o : IterOrder) (fuel : nat) (A A' : NFA) :
  symbols_in_alphabet A → minimize o fuel A = Returns A' →
  symbols_in_alphabet A'.
Proof.
  intros Hinv. unfold minimize.
  destruct (negb (is_deterministic o A)); [done|].
  destruct (remove_unreachable o fuel A) as [A1| |] eqn:H1; [|done..].
  simpl. destruct (remove_dead o fuel A1) as [A2| |] eqn:H2; [|done..].
  simpl. apply merge_equivalent_symbols.
  eapply remove_dead_symbols; [|exact H2].
  by eapply remove_unreachable_symbols.
Qed.

Lemma determinize_state_symbols (o : IterOrder) (fuel : nat) :
  ∀ (S : gset string) (A A' : NFA),
    _determinize_state o fuel S A = Returns A' →
    symbols_in_alphabet A →
    symbols_in_alphabet A' ∧ _alphabet A' = _alphabet A.
Proof.
  induction fuel as [|fuel IH]; intros S A A'; [done|].
  cbn [_determinize_state]. case_decide; [|by intros [= <-]].
  intros Hret Hinv.
  set (A2 := if decide (S ∩ _final_states (add_state (name_of o S) A) ≠ ∅)
             then _ else _) in Hret.
  assert (HA2 : symbols_in_alphabet A2 ∧ _alphabet A2 = _alphabet A).
  { unfold A2, add_state. repeat case_decide; simpl; by split. }
  clearbody A2. destruct HA2 as [Hinv2 Halph2].
  rewrite <- Halph2.
  revert Hret.
  apply (for_each_invariant_in
           (λ B, symbols_in_alphabet B ∧ _alphabet B = _alphabet A2));
    [done|].
  intros x B B' Hx%elem_of_set_order [HB HBa].
  case_decide; [|by intros [= <-]].
  intros Hrec. apply IH in Hrec as [Hinv' Ha'].
  - split; [done | by rewrite Ha'].
  - intros q y T HT. simpl in HT.
    apply lookup_insert_Some in HT as [[[= <- <-] _]|[_ HT]]; simpl;
      [by rewrite HBa | by eapply HB].
Qed.

Lemma determinize_symbols (o : IterOrder) (fuel : nat) (A A' : NFA) :
  symbols_in_alphabet A → determinize o fuel A = Returns A' →
  symbols_in_alphabet A'.
Proof.
  intros Hinv. unfold determinize.
  destruct (for_each _ (dict_order o (_transitions A)) A) as [A1| |] eqn:H1;
    [|done..].
  intros [= <-].
  assert (H : symbols_in_alphabet A1 ∧ _alphabet A1 = _alphabet A).
  { revert H1.
    apply (for_each_invariant
             (λ B, symbols_in_alphabet B ∧ _alphabet B = _alphabet A));
      [done|].
    intros [k T] B B' [HB HBa]. case_decide; [|by intros [= <-]].
    intros Hrec. apply determinize_state_symbols in Hrec as [? Ha']; [|done].
    split; [done | by rewrite Ha']. }
  destruct H as [Hinv1 _]. intros q x T. simpl. rewrite lookup_fmap.
  destruct (_transitions A1 !! (q, x)) as [T1|] eqn:HT1; [|done].
  intros _. by eapply Hinv1.
Qed.

Lemma beautify_qn_symbols (o : IterOrder) (A A' : NFA) :
  symbols_in_alphabet A → beautify_qn o A = Returns A' →
  symbols_in_alphabet A'.
Proof.
  intros Hinv Hret. unfold beautify_qn in Hret.
  eapply beautify_symbols; [|exact Hret|done]. apply qn_names_injective.
Qed.

Lemma beautify_abc_symbols (o : IterOrder) (A A' : NFA) :
  symbols_in_alphabet A → beautify_abc o A = Returns A' →
  symbols_in_alphabet A'.
Proof.
  intros Hinv Hret.
  assert (Hsize : size (_states A) ≤ 26).
  { unfold beautify_abc in Hret. case_decide; [done | lia]. }
  rewrite (beautify_abc_unfold o A Hsize) in Hret.
  eapply beautify_symbols; [|exact Hret|done].
  by apply abc_names_injective.
Qed.

Lemma explicit_dead_symbols (o : IterOrder) (A A' : NFA) :
  symbols_in_alphabet A → _explicit_dead_transitions o A = Returns A' →
  symbols_in_alphabet A'.
Proof.
  intros Hinv. unfold _explicit_dead_transitions.
  destruct (beautify_qn o A) as [A1| |] eqn:H1; [|done..]. cbn [and_then].
  intros [= <-].
  pose proof (beautify_qn_symbols o A A1 Hinv H1) as Hinv1.
  intros q x T. simpl. rewrite fill_lookup.
  destruct (decide (_initial_state A1 = "")); simpl;
    (destruct (_transitions A1 !! (q, x)) as [T1|] eqn:HT1;
     [intros _; by eapply Hinv1|];
     case_decide as Hd; [|done]; intros _; destruct Hd as [_ Hx];
     by apply elem_of_set_order in Hx).
Qed.

Lemma toggles_symbols (l : list string) (A : NFA) :
  symbols_in_alphabet A →
  symbols_in_alphabet (foldl (λ A state, toggle_final_state state A) A l).
Proof.
  revert A. induction l as [|s l IH]; intros A Hinv; simpl; [done|].
  apply IH. destruct (toggle_fields s A) as (_ & Ha & Ht & _).
  unfold symbols_in_alphabet. by rewrite Ha, Ht.
Qed.

Lemma complement_symbols (o : IterOrder) (fuel : nat) (A A' : NFA) :
  symbols_in_alphabet A → complement o fuel A = Returns A' →
  symbols_in_alphabet A'.
Proof.
  intros Hinv. unfold complement.
  destruct (determinize o fuel A) as [A1| |] eqn:H1; [|done..]. simpl.
  destruct (_explicit_dead_transitions o A1) as [A2| |] eqn:H2; [|done..].
  simpl. intros [= <-]. apply toggles_symbols.
  eapply explicit_dead_symbols; [|exact H2].
  by eapply determinize_symbols.
Qed.

Lemma union_merge_symbols (o : IterOrder) (A1 A2 : NFA) :
  symbols_in_alphabet A1 → symbols_in_alphabet A2 →
  _alphabet A1 = _alphabet A2 →
  symbols_in_alphabet (union_merge o A1 A2).
Proof.
  intros H1 H2 Halph. rewrite union_merge_unfold.
  unfold symbols_in_alphabet. simpl.
  apply (foldl_preserves
           (λ t : gmap (string * string) (gset string),
              ∀ q x T, t !! (q, x) = Some T → x ∈ _alphabet A1)).
  - intros q x T. unfold dict_update.
    intros [HT|[_ HT]]%lookup_union_Some_raw;
      [rewrite Halph; by eapply H2 | by eapply H1].
  - intros t x Hx%elem_of_set_order Ht q y T
      [[[= <- <-] _]|[_ HT]]%lookup_insert_Some; [done | by eapply Ht].
Qed.

Lemma union_symbols (o : IterOrder) (self automaton self' automaton' : NFA) :
  symbols_in_alphabet self → symbols_in_alphabet automaton →
  union o self automaton = Returns (self', automaton') →
  symbols_in_alphabet self' ∧ symbols_in_alphabet automaton'.
Proof.
  intros Hs Ha. rewrite union_unfold. case_decide as Halph; [done|].
  assert (Heq : _alphabet self = _alphabet automaton).
  { apply (alphabet_eq_iff o).
    by destruct (decide (alphabet o self = alphabet o automaton)). }
  destruct (beautify_abc o self) as [self1| |] eqn:H1; [|done..].
  destruct (beautify_qn o automaton) as [automaton1| |] eqn:H2; [|done..].
  destruct (beautify_qn o (union_merge o self1 automaton1))
    as [self8| |] eqn:H3; [|done..].
  intros [= <- <-].
  pose proof (beautify_abc_symbols o self self1 Hs H1) as Hs1.
  pose proof (beautify_qn_symbols o automaton automaton1 Ha H2) as Ha1.
  split; [|done].
  eapply beautify_qn_symbols; [|exact H3].
  apply union_merge_symbols; [done..|].
  destruct (beautify_abc_shape o self self1 H1) as [Hsize _].
  rewrite (beautify_abc_unfold o self Hsize) in H1.
  destruct (beautify_result o _ self self1
              (abc_names_injective o self Hsize) H1)
    as (_ & _ & _ & HA1 & _).
  unfold beautify_qn in H2.
  destruct (beautify_result o _ automaton automaton1
              (qn_names_injective o automaton) H2)
    as (_ & _ & _ & HA2 & _).
  congruence.
Qed.

Lemma intersection_symbols (o : IterOrder) (fuel : nat)
    (self automaton self' automaton' : NFA) :
  symbols_in_alphabet self → symbols_in_alphabet automaton →
  intersection o fuel self automaton = Returns (self', automaton') →
  symbols_in_alphabet self' ∧ symbols_in_alphabet automaton'.
Proof.
  intros Hs Ha. unfold intersection.
  destruct (complement o fuel automaton) as [C2| |] eqn:H2; [|done..].
  destruct (complement o fuel self) as [C1| |] eqn:H1; [|done..].
  destruct (union o C1 C2) as [[U B]| |] eqn:HU; [|done..].
  destruct (complement o fuel U) as [R| |] eqn:HR; [|done..].
  intros [= <- <-].
  destruct (union_symbols o C1 C2 U B) as [HU' HB']; [|  |done|].
  - exact (complement_symbols o fuel self C1 Hs H1).
  - exact (complement_symbols o fuel automaton C2 Ha H2).
  - split; [|done]. exact (complement_symbols o fuel U R HU' HR).
Qed.

Lemma from_regular_grammar_symbols (o : IterOrder) (initial_symbol : string)
    (productions : gmap string (list string)) (A : NFA) :
  from_regular_grammar o initial_symbol productions = Value A →
  symbols_in_alphabet A.
Proof.
  intros Hret.
  pose proof (from_regular_grammar_view o initial_symbol productions) as Hv.
  rewrite Hret in Hv. destruct Hv as (_ & _ & _ & _ & HA & HT & Hne).
  intros q x T HqT. pose proof (Hne _ _ HqT) as HTne.
  apply set_choose_L in HTne as [q' Hq']. apply HA. exists q, q'.
  apply HT, elem_of_targets. eauto.
Qed.

Lemma load_symbols (data : record) :
  record_symbols data → symbols_in_alphabet (load data).
Proof.
  intros Hrec. unfold load, NFA_init, symbols_in_alphabet. simpl.
  apply (foldl_preserves
           (λ t : gmap (string * string) (gset string),
              ∀ q x T, t !! (q, x) = Some T →
                       x ∈ (list_to_set (rec_alphabet data) : gset string)));
    [done|].
  intros t [[v0 v1] v2] Hin Ht q x T
    [[[= <- <-] _]|[_ HT]]%lookup_insert_Some; [|by eapply Ht].
  apply elem_of_list_to_set. by eapply Hrec.
Qed.

Lemma save_record_symbols (o : IterOrder) (A : NFA) :
  symbols_in_alphabet A → record_symbols (save o A).
Proof.
  intros Hinv v0 v1 v2. unfold save. simpl.
  intros ([[q x] T] & [= -> -> ->] & Hin%elem_of_dict_order)%list_elem_of_fmap.
  simpl. apply elem_of_sorted_set_order. by eapply Hinv.
Qed.

Lemma is_empty_symbols (o : IterOrder) (fuel : nat) (h h' : Shared.store)
    (self : Shared.NFA) (answer : bool) :
  Shared.is_empty o fuel h self = Some (answer, h') →
  (∀ q x T, Shared.table h self !! (q, x) = Some T →
            x ∈ Shared._alphabet self) →
  ∀ q x T, Shared.table h' self !! (q, x) = Some T →
           x ∈ Shared._alphabet self.
Proof.
  intros _ Hinv q x T. unfold Shared.table in *. rewrite lookup_fmap.
  destruct (Shared._transitions self !! (q, x)) as [r|] eqn:Hr; [|done].
  intros _. apply (Hinv q x (Shared.deref h r)).
  by rewrite lookup_fmap, Hr.
Qed.

(** [load] builds the table from the triples of the record as they are. *)
Lemma load_foreign_symbol :
  (¬ record_symbols (mkRecord ["q0"] ["a"] [("q0", "z", ["q0"])] "q0" [])) ∧
  _transitions (load (mkRecord ["q0"] ["a"] [("q0", "z", ["q0"])] "q0" []))
    !! ("q0", "z") = Some {["q0"]} ∧
  ¬ symbols_in_alphabet
      (load (mkRecord ["q0"] ["a"] [("q0", "z", ["q0"])] "q0" [])).
Proof.
  assert (Hz : "z" ∉ ["a"]).
  { intros Hin%list_elem_of_singleton. discriminate Hin. }
  assert (Hentry :
    _transitions (load (mkRecord ["q0"] ["a"] [("q0", "z", ["q0"])] "q0" []))
      !! ("q0", "z") = Some {["q0"]}).
  { unfold load. simpl. rewrite lookup_insert_eq. f_equal. }
  split; [|split; [exact Hentry|]].
  - intros Hrec. apply Hz. apply (Hrec "q0" "z" ["q0"]). simpl.
    by apply list_elem_of_singleton.
  - intros Hinv. specialize (Hinv _ _ _ Hentry). simpl in Hinv. set_solver.
Qed.

(** C6, as stated, fails.  [set_transition] looks neither at the symbol nor
    at the state of the key: it stores an entry for a symbol that is not in
    the alphabet; and it stores an entry for a state that is not in the
    state set, which [remove_symbol] then leaves behind when it takes the
    symbol out of the alphabet.  [load] does not look at the symbols of
    the record either. *)
Lemma symbols_invariant_broken :
  symbols_in_alphabet one_state ∧
  (∃ A', set_transition canonical "q0" "z" {["q0"]} one_state = Returns A' ∧
         _transitions A' !! ("q0", "z") = Some {["q0"]} ∧
         ("z" ∉ _alphabet A') ∧
         ¬ symbols_in_alphabet A') ∧
  (∃ A1, set_transition canonical "ghost" "a" {["q0"]} one_state =
           Returns A1 ∧
         symbols_in_alphabet A1 ∧
         _transitions (remove_symbol canonical "a" A1) !! ("ghost", "a") =
           Some {["q0"]} ∧
         ("a" ∉ _alphabet (remove_symbol canonical "a" A1)) ∧
         ¬ symbols_in_alphabet (remove_symbol canonical "a" A1)) ∧
  ((¬ record_symbols
        (mkRecord ["q0"] ["a"] [("q0", "z", ["q0"])] "q0" [])) ∧
   _transitions (load (mkRecord ["q0"] ["a"] [("q0", "z", ["q0"])] "q0" []))
     !! ("q0", "z") = Some {["q0"]} ∧
   ¬ symbols_in_alphabet
       (load (mkRecord ["q0"] ["a"] [("q0", "z", ["q0"])] "q0" []))).
Proof.
  split; [apply one_state_symbols|].
  split; [|split; [|apply load_foreign_symbol]].
  - eexists. split; [reflexivity|]. simpl.
    assert (Hz : "z" ∉ ({["a"]} : gset string))
      by (by apply not_elem_of_singleton).
    repeat split; [done|]. intros Hinv. apply Hz.
    by apply (Hinv "q0" "z" {["q0"]}).
  - eexists. split; [reflexivity|].
    assert (Hentry :
      _transitions
        (remove_symbol canonical "a"
           (with_transitions
              (<[("ghost", "a") := {["q0"]}]> (_transitions one_state))
              one_state)) !! ("ghost", "a") = Some {["q0"]}).
    { unfold remove_symbol. simpl. rewrite delete_column_lookup.
      rewrite decide_False; [by rewrite lookup_insert_eq|].
      intros [_ Hin%elem_of_elements]. set_solver. }
    assert (Ha : "a" ∉ _alphabet
                   (remove_symbol canonical "a"
                      (with_transitions
                         (<[("ghost", "a") := {["q0"]}]>
                            (_transitions one_state))
                         one_state))).
    { simpl. set_solver. }
    split; [|split; [exact Hentry|split; [exact Ha|]]].
    + intros q x T HT. simpl in *.
      apply lookup_insert_Some in HT as [[[= <- <-] _]|[_ HT]];
        [by apply elem_of_singleton | by rewrite lookup_empty in HT].
    + intros Hinv. apply Ha. by apply (Hinv "ghost" "a" {["q0"]}).
Qed.

(** C6, amended.  A public operation that returns keeps invariant 3 of the
    data model.  The store mutators keep it, [set_transition] with a
    non-empty target set when its symbol is in the alphabet and
    [remove_symbol] when the entries keyed by its symbol have their states
    in the state set.  [minimize], [remove_unreachable], [remove_dead],
    [merge_equivalent], [determinize], [beautify_qn], [beautify_abc] and
    [complement] keep it.  [union] and [intersection] keep it of the
    receiver and of the argument when both have it.  [is_empty], which
    assigns no field of the receiver, keeps it.  The automaton of
    [from_regular_grammar] has it; the automaton of [load] has it when the
    record has it, and the record of [save] has it when the automaton
    has.  The queries [accept], [is_deterministic] and [is_finite] assign
    nothing in the source; they are functions of the automaton here. *)
Theorem public_operations_keep_symbols (o : IterOrder) (fuel : nat) :
  (∀ op A A',
     symbols_in_alphabet A → keeps_symbols A op →
     run_op o op A = Returns A' → symbols_in_alphabet A') ∧
  (∀ t A A',
     symbols_in_alphabet A →
     run_transformation o fuel t A = Returns A' → symbols_in_alphabet A') ∧
  (∀ c self automaton self' automaton',
     symbols_in_alphabet self → symbols_in_alphabet automaton →
     run_combinator o fuel c self automaton = Returns (self', automaton') →
     symbols_in_alphabet self' ∧ symbols_in_alphabet automaton') ∧
  (∀ h self answer h',
     (∀ q x T, Shared.table h self !! (q, x) = Some T →
               x ∈ Shared._alphabet self) →
     Shared.is_empty o fuel h self = Some (answer, h') →
     ∀ q x T, Shared.table h' self !! (q, x) = Some T →
              x ∈ Shared._alphabet self) ∧
  (∀ initial_symbol productions A,
     from_regular_grammar o initial_symbol productions = Value A →
     symbols_in_alphabet A) ∧
  (∀ data, record_symbols data → symbols_in_alphabet (load data)) ∧
  (∀ A, symbols_in_alphabet A → record_symbols (save o A)).
Proof.
  split; [|split; [|split; [|split; [|split; [|split]]]]].
  - intros op A A'. apply run_op_keeps_symbols.
  - intros t A A' Hinv. destruct t; simpl.
    + by apply minimize_symbols.
    + by apply remove_unreachable_symbols.
    + by apply remove_dead_symbols.
    + by apply merge_equivalent_symbols.
    + by apply determinize_symbols.
    + by apply beautify_qn_symbols.
    + by apply beautify_abc_symbols.
    + by apply complement_symbols.
  - intros c self automaton self' automaton' Hs Ha. destruct c; simpl.
    + by apply union_symbols.
    + by apply intersection_symbols.
  - intros h self answer h' Hinv Hret. by eapply is_empty_symbols.
  - intros initial_symbol productions A.
    apply from_regular_grammar_symbols.
  - apply load_symbols.
  - intros A. apply save_record_symbols.
Qed.

Lemma lone_symbols (q : string) :
  symbols_in_alphabet (NFA_init {[q]} {["x"]} ∅ q ∅).
Proof. intros p x T HT. simpl in HT. by rewrite lookup_empty in HT. Qed.

Lemma public_operations_keep_symbols_witness :
  symbols_in_alphabet
    (with_transitions
       (<[("q0", "a") := {["q0"]}]> (_transitions one_state)) one_state) ∧
  ∃ self' automaton',
    union canonical lone_a lone_b = Returns (self', automaton') ∧
    symbols_in_alphabet self' ∧ symbols_in_alphabet automaton'.
Proof.
  destruct (public_operations_keep_symbols canonical 0)
    as (Hstore & _ & Hcombinator & _).
  split.
  - apply (Hstore (SetTransition "q0" "a" {["q0"]}) one_state).
    + apply one_state_symbols.
    + right. simpl. apply elem_of_singleton. reflexivity.
    + reflexivity.
  - destruct (union canonical lone_a lone_b) as [[self' automaton']| |]
      eqn:Hret.
    + exists self', automaton'. split; [reflexivity|].
      apply (Hcombinator Union lone_a lone_b self' automaton').
      * apply lone_symbols.
      * apply lone_symbols.
      * exact Hret.
    + exfalso. vm_compute in Hret. discriminate Hret.
    + exfalso. vm_compute in Hret. discriminate Hret.
Defined.

(** ** The language of a state *)

Lemma lang_nil (A : NFA) (q : string) : lang A q [] ↔ q ∈ _final_states A.
Proof.
  split.
  - intros (f & Hf & Ht). by inversion Ht; subst.
  - intros Hq. exists q. split; [done | constructor].
Qed.

Lemma lang_cons (A : NFA) (q x : string) (w : list string) :
  lang A q (x :: w) ↔ ∃ q1, q1 ∈ targets A q x ∧ lang A q1 w.
Proof.
  split.
  - intros (f & Hf & Ht). inversion Ht as [|? ? q1 ? ? Hq1 Ht']; subst.
    exists q1. split; [done|]. by exists f.
  - intros (q1 & Hq1 & f & Hf & Ht). exists f. split; [done|].
    by apply (trace_cons _ q x q1).
Qed.

Lemma accept_iff_lang (o : IterOrder) (A : NFA) (input : string) :
  accept o A input = true ↔ lang A (_initial_state A) (chars input).
Proof. apply accept_iff_trace. Qed.

Lemma deterministic_entry (A : NFA) (k : string * string) (T : gset string) :
  deterministic A → _transitions A !! k = Some T → ∃ q, T = {[q]}.
Proof.
  intros Hdet HT. apply Hdet in HT. apply size_1_elem_of in HT as [q Hq].
  exists q. by apply leibniz_equiv.
Qed.

(** ** [merge_equivalent]: the pairs the refinement keeps *)

Lemma elem_of_add_pairs (l : list (string * string))
    (U : gset (gset string)) (p : gset string) :
  p ∈ foldl (λ u '(a, b), {[ {[a; b]} ]} ∪ u) U l ↔
  p ∈ U ∨ ∃ a b, (a, b) ∈ l ∧ p = {[a; b]}.
Proof.
  revert U. induction l as [|[a b] l IH]; intros U; simpl.
  - split; [by left|]. intros [?|(? & ? & []%elem_of_nil & _)]. done.
  - rewrite IH. split.
    + intros [[->%elem_of_singleton|?]%elem_of_union|(a' & b' & ? & ?)].
      * right. exists a, b. split; [by left | done].
      * by left.
      * right. exists a', b'. split; [by right | done].
    + intros [?|(a' & b' & [[= -> ->]|?]%elem_of_cons & ->)].
      * left. set_solver.
      * left. set_solver.
      * right. eauto.
Qed.

Lemma elem_of_combinations2 {X} (l : list X) (a b : X) :
  (a, b) ∈ combinations2 l → a ∈ l ∧ b ∈ l.
Proof.
  induction l as [|x l IH]; simpl; [by intros ?%elem_of_nil|].
  intros [Hin|Hin]%elem_of_app.
  - apply list_elem_of_fmap in Hin as (y & [= -> ->] & Hy).
    split; [by left | by right].
  - destruct (IH Hin). split; by right.
Qed.

(** A pair the refinement starts from has two states, both final or both
    not. *)
Lemma initial_pairs_spec (o : IterOrder) (A : NFA) (p : gset string) :
  p ∈ initial_pairs o A →
  ∃ a b, p = {[a; b]} ∧
         ((a ∈ _final_states A ∧ b ∈ _final_states A) ∨
          (a ∈ _states A ∖ _final_states A ∧
           b ∈ _states A ∖ _final_states A)).
Proof.
  unfold initial_pairs. rewrite !elem_of_add_pairs.
  intros [[[]%elem_of_empty|(a & b & Hin & ->)]|(a & b & Hin & ->)];
    apply elem_of_combinations2 in Hin as [Ha Hb];
    apply elem_of_set_order in Ha, Hb; exists a, b; (split; [done|]);
    [by right | by left].
Qed.

Lemma are_undistinguishable_true (o : IterOrder) (A : NFA) (a b : string)
    (U : gset (gset string)) (symbols : list string) :
  are_undistinguishable_loop o A a b U symbols = Value true →
  ∀ x, x ∈ symbols →
    ∃ ta tb,
      first_of o (default {[""]} (_transitions A !! (a, x))) = Value ta ∧
      first_of o (default {[""]} (_transitions A !! (b, x))) = Value tb ∧
      (ta = tb ∨ {[ta; tb]} ∈ U).
Proof.
  induction symbols as [|y l IH]; simpl; [by intros _ x ?%elem_of_nil|].
  destruct (first_of o (default {[""]} (_transitions A !! (a, y))))
    as [ta|] eqn:Ha; [|done].
  destruct (first_of o (default {[""]} (_transitions A !! (b, y))))
    as [tb|] eqn:Hb; [|done].
  destruct (decide (ta ≠ tb ∧ {[ta; tb]} ∉ U)) as [Hd|Hd]; [done|].
  intros Hrest x [->|Hx]%elem_of_cons; [|by apply IH].
  exists ta, tb. split; [done|]. split; [done|].
  destruct (decide (ta = tb)); [by left|]. right.
  destruct (decide ({[ta; tb]} ∈ U)); [done|]. by destruct Hd.
Qed.

Lemma refine_pass_kept (o : IterOrder) (A : NFA) (C : gset (gset string))
    (pairs : list (gset string)) (U U' : gset (gset string)) :
  refine_pass o A C pairs U = Value U' →
  U' ⊆ U ∧
  ∀ p, p ∈ pairs → p ∈ U' →
       ∃ a b, set_order o p = [a; b] ∧
              _are_undistinguishable o A a b C = Value true.
Proof.
  revert U. induction pairs as [|p rest IH]; intros U; simpl.
  - intros [= <-]. split; [done|]. by intros p ?%elem_of_nil.
  - destruct (set_order o p) as [|a [|b [|? ?]]] eqn:Hp; try done.
    destruct (_are_undistinguishable o A a b C) as [[|]|] eqn:Hu; [| |done].
    + intros Hrest. destruct (IH _ Hrest) as [Hsub Hkept].
      split; [done|]. intros p' [->|Hin]%elem_of_cons Hp'; [|by apply Hkept].
      exists a, b. by rewrite Hp.
    + case_decide; [|done]. intros Hrest.
      destruct (IH _ Hrest) as [Hsub Hkept]. split; [set_solver|].
      intros p' [->|Hin]%elem_of_cons Hp'; [|by apply Hkept].
      exfalso. apply Hsub in Hp'.
      assert (Heq : ({[a; b]} : gset string) = p).
      { rewrite <- (list_to_set_set_order o p), Hp. set_solver. }
      set_solver.
Qed.

Lemma refine_loop_stable (o : IterOrder) (fuel : nat) (A : NFA)
    (U U' : gset (gset string)) :
  refine_loop o fuel A U = Some (Value U') →
  U' ⊆ U ∧
  ∀ p, p ∈ U' →
       ∃ a b, set_order o p = [a; b] ∧
              _are_undistinguishable o A a b U' = Value true.
Proof.
  revert U. induction fuel as [|fuel IH]; intros U; simpl; [done|].
  destruct (refine_pass o A U (set_order o U) U) as [U1|] eqn:Hpass;
    [|done].
  apply refine_pass_kept in Hpass as [Hsub Hkept].
  case_decide as Heq.
  - intros [= <-]. subst U1. split; [done|].
    intros p Hp. apply Hkept; [by apply elem_of_set_order | done].
  - intros Hrest. destruct (IH _ Hrest) as [Hsub' Hst].
    split; [set_solver | done].
Qed.

(** Two states of a pair the refinement keeps have the same language. *)
Lemma stable_pairs_lang (o : IterOrder) (A : NFA) (U : gset (gset string)) :
  deterministic A → symbols_in_alphabet A → states_closed A →
  ("" ∉ _states A) →
  U ⊆ initial_pairs o A →
  (∀ p, p ∈ U →
        ∃ a b, set_order o p = [a; b] ∧
               _are_undistinguishable o A a b U = Value true) →
  ∀ w a b, {[a; b]} ∈ U → (lang A a w ↔ lang A b w).
Proof.
  intros Hdet Hsym [_ Hfin Hclosed] Hempty Hinit Hstable.
  assert (Hstates : ∀ a b, {[a; b]} ∈ U → a ∈ _states A ∧ b ∈ _states A).
  { intros a b Hab. apply Hinit, initial_pairs_spec in Hab
      as (a' & b' & Heq & Hab).
    assert (a ∈ ({[a'; b']} : gset string)) by (rewrite <- Heq; set_solver).
    assert (b ∈ ({[a'; b']} : gset string)) by (rewrite <- Heq; set_solver).
    set_solver. }
  assert (Hfirst : ∀ q x,
    match _transitions A !! (q, x) with
    | Some T => ∃ q1, T = {[q1]} ∧ q1 ∈ _states A ∧
                      first_of o (default {[""]} (Some T)) = Value q1
    | None => first_of o (default {[""]} None) = Value ""
    end).
  { intros q x. destruct (_transitions A !! (q, x)) as [T|] eqn:HT; simpl.
    - destruct (deterministic_entry A _ T Hdet HT) as [q1 ->].
      exists q1. split; [done|]. split.
      + destruct (Hclosed q x _ HT) as [_ Hsub]. set_solver.
      + unfold first_of. by rewrite set_order_singleton.
    - unfold first_of. by rewrite set_order_singleton. }
  induction w as [|x w IH]; intros a b Hab.
  - rewrite !lang_nil.
    apply Hinit, initial_pairs_spec in Hab as (a' & b' & Heq & Hab).
    assert (a ∈ ({[a'; b']} : gset string)) by (rewrite <- Heq; set_solver).
    assert (b ∈ ({[a'; b']} : gset string)) by (rewrite <- Heq; set_solver).
    set_solver.
  - assert (Hstep : ∀ a1 b1,
      _are_undistinguishable o A a1 b1 U = Value true →
      lang A a1 (x :: w) ↔ lang A b1 (x :: w)).
    { intros a1 b1 Hu. rewrite !lang_cons.
      destruct (decide (x ∈ _alphabet A)) as [Hx|Hx].
      2: { split; intros (q1 & Hq1 & _);
             by apply symbols_in_alphabet_targets in Hq1. }
      apply (proj2 (elem_of_set_order o (_alphabet A) x)) in Hx.
      apply (are_undistinguishable_true o A a1 b1 U _ Hu x) in Hx
        as (ta & tb & Ha & Hb & Hsame).
      pose proof (Hfirst a1 x) as HTa. pose proof (Hfirst b1 x) as HTb.
      unfold targets.
      destruct (_transitions A !! (a1, x)) as [Ta|],
               (_transitions A !! (b1, x)) as [Tb|]; simpl.
      - destruct HTa as (qa & -> & Hqa & Ha'), HTb as (qb & -> & Hqb & Hb').
        rewrite Ha' in Ha. rewrite Hb' in Hb.
        injection Ha as <-. injection Hb as <-.
        assert (Hw : lang A qa w ↔ lang A qb w).
        { destruct Hsame as [->|Hin]; [done | by apply IH]. }
        split; intros (q1 & ->%elem_of_singleton & Hl);
          eexists; (split; [by apply elem_of_singleton|]); by apply Hw.
      - exfalso. destruct HTa as (qa & -> & Hqa & Ha').
        rewrite Ha' in Ha. rewrite HTb in Hb.
        injection Ha as <-. injection Hb as <-.
        destruct Hsame as [->|Hin]; [done|].
        by apply Hstates in Hin as [_ ?].
      - exfalso. destruct HTb as (qb & -> & Hqb & Hb').
        rewrite HTa in Ha. rewrite Hb' in Hb.
        injection Ha as <-. injection Hb as <-.
        destruct Hsame as [<-|Hin]; [done|].
        by apply Hstates in Hin as [? _].
      - split; intros (q1 & []%elem_of_empty & _). }
    destruct (Hstable _ Hab) as (a1 & b1 & Hord & Hu).
    assert (Heq : ({[a1; b1]} : gset string) = {[a; b]}).
    { rewrite <- (list_to_set_set_order o {[a; b]}), Hord. set_solver. }
    specialize (Hstep a1 b1 Hu).
    assert (a1 ∈ ({[a; b]} : gset string)) by (rewrite <- Heq; set_solver).
    assert (b1 ∈ ({[a; b]} : gset string)) by (rewrite <- Heq; set_solver).
    assert (a ∈ ({[a1; b1]} : gset string)) by (rewrite Heq; set_solver).
    assert (b ∈ ({[a1; b1]} : gset string)) by (rewrite Heq; set_solver).
    assert ((a1 = a ∧ b1 = b) ∨ (a1 = b ∧ b1 = a) ∨ a = b) as Hcases
      by set_solver.
    destruct Hcases as [[-> ->]|[[-> ->]| ->]]; [done | by symmetry | done].
Qed.

(** ** [_merge_states] *)

Lemma redirect_fold_lookup (removed kept : string)
    (l : list (string * string * gset string))
    (acc : gmap (string * string) (gset string)) (k : string * string) :
  NoDup l.*1 →
  foldl (λ t '(actual_state, next_state),
           if decide (next_state = {[removed]})
           then <[actual_state := {[kept]}]> t else t) acc l !! k =
  match (list_to_map l : gmap (string * string) (gset string)) !! k with
  | Some T => if decide (T = {[removed]}) then Some {[kept]} else acc !! k
  | None => acc !! k
  end.
Proof.
  revert acc. induction l as [|[k' T] l IH]; intros acc Hnd; simpl; [done|].
  apply NoDup_cons in Hnd as [Hk' Hnd]. rewrite IH by done.
  assert (Hnone : (list_to_map l : gmap _ (gset string)) !! k' = None)
    by by apply not_elem_of_list_to_map_1.
  destruct (decide (k' = k)) as [->|Hne].
  - rewrite lookup_insert_eq, Hnone.
    destruct (decide (T = {[removed]})); [by rewrite lookup_insert_eq|done].
  - rewrite lookup_insert_ne by done.
    destruct (list_to_map l !! k) as [T'|]; [destruct (decide _); [done|]|];
      destruct (decide (T = {[removed]})); by rewrite ?lookup_insert_ne.
Qed.

Lemma redirect_lookup (o : IterOrder) (removed kept : string)
    (t : gmap (string * string) (gset string)) (k : string * string) :
  foldl (λ t '(actual_state, next_state),
           if decide (next_state = {[removed]})
           then <[actual_state := {[kept]}]> t else t)
        t (dict_order o t) !! k =
  (λ T, if decide (T = {[removed]}) then {[kept]} else T) <$> t !! k.
Proof.
  rewrite redirect_fold_lookup by apply NoDup_dict_order_keys.
  assert (Hmap : (list_to_map (dict_order o t) : gmap _ (gset string)) = t).
  { rewrite <- (list_to_map_to_list t) at 2.
    apply list_to_map_proper; [apply NoDup_dict_order_keys|].
    apply dict_order_perm. }
  rewrite Hmap. destruct (t !! k) as [T|]; simpl; [|done].
  by destruct (decide (T = {[removed]})).
Qed.

Lemma merge_states_unfold (o : IterOrder) (a b : string) (A : NFA) :
  _merge_states o a b A =
  if decide (b = _initial_state A ∨ a ∉ _states A)
  then merge_into o a b A else merge_into o b a A.
Proof. unfold _merge_states, merge_into. by case_decide. Qed.

Section MergeInto.
Variable o : IterOrder.
Variable B : NFA.
Variables r k : string.
Hypothesis Hclosed : states_closed B.
Hypothesis Hkeys : keys_known B.
Hypothesis Hdet : deterministic B.
Hypothesis Hr : r ≠ _initial_state B.
Hypothesis Hrk : k ≠ r.

Lemma merge_into_fields :
  _states (merge_into o r k B) = _states B ∖ {[r]} ∧
  _alphabet (merge_into o r k B) = _alphabet B ∧
  _initial_state (merge_into o r k B) = _initial_state B ∧
  _final_states (merge_into o r k B) = _final_states B ∖ {[r]}.
Proof. unfold merge_into. by rewrite remove_state_prune. Qed.

Lemma merge_into_lookup (q x : string) :
  _transitions (merge_into o r k B) !! (q, x) =
  match _transitions B !! (q, x) with
  | None => None
  | Some T => if decide (q = r) then None
              else Some (if decide (T = {[r]}) then {[k]} else T)
  end.
Proof.
  unfold merge_into. rewrite remove_state_prune by done.
  rewrite prune_lookup. simpl. rewrite redirect_lookup.
  destruct (_transitions B !! (q, x)) as [T|] eqn:HT; simpl; [|done].
  destruct (Hkeys q x T HT) as [_ Hx].
  destruct (deterministic_entry B _ T Hdet HT) as [q1 ->].
  destruct (decide (q = r)) as [->|Hq].
  - rewrite decide_True; [done|]. split; [by apply elem_of_singleton|done].
  - rewrite decide_False by (intros [?%elem_of_singleton _]; done).
    destruct (decide (({[q1]} : gset string) = {[r]})) as [Heq|Hne].
    + rewrite decide_False by set_solver. f_equal. set_solver.
    + rewrite decide_False by set_solver. f_equal. set_solver.
Qed.

Lemma merge_into_absent : r ∉ _states B → merge_into o r k B = B.
Proof.
  intros Hnot. destruct merge_into_fields as (HS & HA & HI & HF).
  destruct Hclosed as [_ Hfin Htab].
  apply NFA_eq; [set_solver | done | | done | set_solver].
  apply map_eq. intros [q x]. rewrite merge_into_lookup.
  destruct (_transitions B !! (q, x)) as [T|] eqn:HT; [|done].
  destruct (Htab q x T HT) as [Hq HT'].
  rewrite decide_False by (by intros ->).
  destruct (decide (T = {[r]})) as [->|]; [|done]. set_solver.
Qed.

Hypothesis Hk : k ∈ _states B.

Lemma merge_into_closed :
  states_closed (merge_into o r k B) ∧ keys_known (merge_into o r k B) ∧
  deterministic (merge_into o r k B).
Proof.
  destruct merge_into_fields as (HS & HA & HI & HF).
  destruct Hclosed as [Hinit Hfin Htab].
  assert (Hentry : ∀ q x T',
    _transitions (merge_into o r k B) !! (q, x) = Some T' →
    ∃ T, _transitions B !! (q, x) = Some T ∧ q ≠ r ∧
         T' = if decide (T = {[r]}) then {[k]} else T).
  { intros q x T'. rewrite merge_into_lookup.
    destruct (_transitions B !! (q, x)) as [T|]; [|done].
    destruct (decide (q = r)); [done|]. intros [= <-]. eauto. }
  split; [|split].
  - split.
    + rewrite HI, HS. set_solver.
    + rewrite HF, HS. set_solver.
    + intros q x T' (T & HT & Hq & ->)%Hentry. rewrite HS.
      destruct (Htab q x T HT) as [Hq' HT'].
      split; [set_solver|].
      destruct (decide (T = {[r]})); [set_solver|].
      destruct (deterministic_entry B _ T Hdet HT) as [q1 ->]. set_solver.
  - intros q x T' (T & HT & Hq & ->)%Hentry. rewrite HS, HA.
    destruct (Hkeys q x T HT). set_solver.
  - intros [q x] T' (T & HT & Hq & ->)%Hentry.
    destruct (decide (T = {[r]})); [apply size_singleton|].
    by apply (Hdet (q, x)).
Qed.

Hypothesis Hsame : ∀ w, lang B r w ↔ lang B k w.

Lemma merge_into_lang (w : list string) (q : string) :
  q ∈ _states B → q ≠ r → (lang (merge_into o r k B) q w ↔ lang B q w).
Proof.
  destruct merge_into_fields as (HS & HA & HI & HF).
  destruct Hclosed as [Hinit Hfin Htab].
  revert q. induction w as [|x w IH]; intros q Hq Hqr.
  - rewrite !lang_nil, HF. set_solver.
  - rewrite !lang_cons. unfold targets. rewrite merge_into_lookup.
    destruct (_transitions B !! (q, x)) as [T|] eqn:HT; simpl.
    2: { split; intros (q1 & []%elem_of_empty & _). }
    rewrite decide_False by done.
    destruct (deterministic_entry B _ T Hdet HT) as [q1 ->].
    destruct (Htab q x _ HT) as [_ Hq1].
    destruct (decide (({[q1]} : gset string) = {[r]})) as [Heq|Hne]; simpl.
    + assert (q1 = r) as -> by set_solver.
      split; intros (q2 & ->%elem_of_singleton & Hl);
        eexists; (split; [by apply elem_of_singleton|]).
      * apply Hsame. apply IH; [done | done | done].
      * apply IH; [done | done |]. by apply Hsame.
    + assert (q1 ≠ r) by set_solver.
      split; intros (q2 & ->%elem_of_singleton & Hl);
        eexists; (split; [by apply elem_of_singleton|]);
        apply IH; (done || set_solver).
Qed.

End MergeInto.

(** One step of the merging loop. *)
Lemma merge_states_step (o : IterOrder) (a b : string) (A B : NFA) :
  merge_invariant A B → a ≠ b → (∀ w, lang A a w ↔ lang A b w) →
  merge_invariant A (_merge_states o a b B).
Proof.
  intros [Hcl Hk Hdet Hi Ha Hst Hl] Hab Hsame.
  assert (Hinit : _initial_state B ∈ _states B) by apply Hcl.
  assert (Hgen : ∀ r k, r ≠ _initial_state B → k ≠ r →
            (r ∈ _states B → k ∈ _states B) →
            (∀ w, lang A r w ↔ lang A k w) →
            merge_invariant A (merge_into o r k B)).
  { intros r k Hr Hrk Hkin Hrk_same.
    destruct (decide (r ∈ _states B)) as [Hrin|Hrin].
    2: { rewrite merge_into_absent by done. by split. }
    specialize (Hkin Hrin).
    assert (Hsame' : ∀ w, lang B r w ↔ lang B k w).
    { intros w. by rewrite (Hl r w Hrin), (Hl k w Hkin). }
    destruct (merge_into_fields o B r k Hr) as (HS & HA & HI & HF).
    destruct (merge_into_closed o B r k Hcl Hk Hdet Hr Hrk Hkin)
      as (Hcl' & Hk' & Hdet').
    split; [done | done | done | congruence | congruence | set_solver |].
    intros q w Hq. rewrite HS in Hq.
    rewrite (merge_into_lang o B r k Hcl Hk Hdet Hr Hrk Hkin Hsame')
      by set_solver.
    apply Hl. set_solver. }
  rewrite merge_states_unfold.
  destruct (decide (b = _initial_state B ∨ a ∉ _states B)) as [Hc|Hc].
  - apply Hgen; [|done| |done].
    + intros ->. destruct Hc as [->|Hc]; [done | by apply Hc].
    + intros Hain. destruct Hc as [->|Hc]; [done | by destruct Hc].
  - apply Hgen; [|done| |].
    + intros ->. apply Hc. by left.
    + intros _. destruct (decide (a ∈ _states B)); [done|].
      destruct Hc. by right.
    + intros w. by symmetry.
Qed.

Lemma accept_eq_lang (o o' : IterOrder) (A A' : NFA) (input : string) :
  (lang A' (_initial_state A') (chars input) ↔
   lang A (_initial_state A) (chars input)) →
  accept o A' input = accept o' A input.
Proof.
  intros Hiff. destruct (accept o' A input) eqn:Hacc.
  - by apply accept_iff_lang, Hiff, (accept_iff_lang o').
  - apply not_true_iff_false. apply not_true_iff_false in Hacc.
    intros H. apply Hacc. by apply (accept_iff_lang o'), Hiff,
                                   (accept_iff_lang o).
Qed.

(** ** [merge_equivalent] keeps the language *)

Lemma merge_equivalent_language (o : IterOrder) (fuel : nat) (A A' : NFA) :
  well_formed A →
  merge_equivalent o fuel A = Returns A' →
  merge_invariant A A'.
Proof.
  intros Hwf. destruct (well_formed_closed A Hwf) as [Hcl Hk].
  unfold merge_equivalent.
  destruct (is_deterministic o A) eqn:Hdet; [|done].
  apply is_deterministic_spec in Hdet. simpl.
  destruct (refine_loop o fuel A (initial_pairs o A)) as [[U|]|] eqn:Hloop;
    [|done..].
  apply refine_loop_stable in Hloop as [Hsub Hstable].
  pose proof (stable_pairs_lang o A U Hdet (keys_known_symbols A Hk) Hcl
                (wf_names A Hwf) Hsub Hstable) as Hlang.
  apply for_each_invariant_in.
  - by split.
  - intros p B B' Hp HB Hbody.
    destruct (set_order o p) as [|a [|b [|? ?]]] eqn:Hord; try done.
    injection Hbody as <-.
    assert (Heq : ({[a; b]} : gset string) = p).
    { rewrite <- (list_to_set_set_order o p), Hord. set_solver. }
    assert (Hne : a ≠ b).
    { pose proof (NoDup_set_order o p) as Hnd. rewrite Hord in Hnd.
      apply NoDup_cons in Hnd as [Hnd _]. set_solver. }
    apply merge_states_step; [done | done |].
    intros w. apply Hlang. rewrite Heq. by apply elem_of_set_order in Hp.
Qed.

(** ** [minimize] keeps the language *)

Lemma prune_well_formed (D : gset string) (A : NFA) :
  well_formed A → _initial_state A ∉ D → well_formed (prune D A).
Proof.
  intros [Hinit Hfin Hnames Htab] HD. split.
  - simpl. set_solver.
  - simpl. set_solver.
  - simpl. set_solver.
  - intros q x T'. rewrite prune_lookup. simpl.
    destruct (_transitions A !! (q, x)) as [T|] eqn:HT; [|done].
    destruct (Htab q x T HT) as (Hq & Hx & HT' & _).
    destruct (decide (q ∈ D ∧ x ∈ _alphabet A)) as [|Hn]; [done|].
    destruct (decide (T ∖ D = ∅)); [done|]. intros [= <-].
    split; [|split; [done|split; [set_solver|done]]].
    apply elem_of_difference. split; [done|]. intros ?. by apply Hn.
Qed.

Lemma remove_unreachable_well_formed (o : IterOrder) (fuel : nat)
    (A A' : NFA) :
  well_formed A → remove_unreachable o fuel A = Returns A' →
  well_formed A' ∧ ∀ o1 o2 input, accept o1 A' input = accept o2 A input.
Proof.
  intros Hwf Hret.
  apply remove_unreachable_result in Hret as (r & Hr & [[-> _]| ->]).
  - split; [done|]. intros o1 o2 input. apply accept_order.
  - split.
    + apply prune_well_formed; [done|].
      intros [_ Hn]%elem_of_difference. apply Hn, Hr, reachable_initial.
    + intros o1 o2 input. apply prune_unreachable_language.
      * by apply keys_known_symbols, well_formed_closed.
      * intros q [_ Hn]%elem_of_difference ?. by apply Hn, Hr.
Qed.

Lemma remove_dead_well_formed (o : IterOrder) (fuel : nat) (A A' : NFA) :
  well_formed A → remove_dead o fuel A = Returns A' →
  well_formed A' ∧ ∀ o1 o2 input, accept o1 A' input = accept o2 A input.
Proof.
  intros Hwf Hret.
  apply remove_dead_result in Hret as (r & Hr & [[-> _]| ->]).
  - split; [done|]. intros o1 o2 input. apply accept_order.
  - split.
    + apply prune_well_formed; [done | set_solver].
    + intros o1 o2 input. apply prune_dead_language.
      intros q [[_ Hn]%elem_of_difference _]%elem_of_difference ?.
      by apply Hn, Hr.
Qed.

Lemma merge_invariant_result (A A' : NFA) :
  well_formed A → merge_invariant A A' →
  well_formed A' ∧ deterministic A' ∧
  _initial_state A' = _initial_state A ∧ _alphabet A' = _alphabet A ∧
  ∀ o1 o2 input, accept o1 A' input = accept o2 A input.
Proof.
  intros Hwf [[Hinit Hfin Htab] Hk Hdet Hi Ha Hst Hl].
  split; [|split; [done|split; [done|split; [done|]]]].
  - split; [done | done | |].
    + intros Hin. by apply (wf_names A Hwf), Hst.
    + intros q x T HT. destruct (Htab q x T HT), (Hk q x T HT).
      split; [done|]. split; [done|]. split; [done|].
      apply (Hdet (q, x)) in HT. intros ->. by rewrite size_empty in HT.
  - intros o1 o2 input. apply accept_eq_lang. rewrite Hi. apply Hl.
    by rewrite <- Hi.
Qed.

(** X27.  On a deterministic automaton that satisfies the invariants of
    the data model, [merge_equivalent], when it returns, leaves an
    automaton that accepts the same strings, is still deterministic and
    satisfies the invariants, with the same initial state and alphabet
    and no new state. *)
Theorem merge_equivalent_spec (o : IterOrder) (fuel : nat) (A A' : NFA) :
  well_formed A → merge_equivalent o fuel A = Returns A' →
  (∀ o1 o2 input, accept o1 A' input = accept o2 A input) ∧
  well_formed A' ∧
  (∀ o', is_deterministic o' A' = true) ∧
  _initial_state A' = _initial_state A ∧
  _alphabet A' = _alphabet A ∧
  _states A' ⊆ _states A.
Proof.
  intros Hwf Hret.
  pose proof (merge_equivalent_language o fuel A A' Hwf Hret) as Hinv.
  destruct (merge_invariant_result A A' Hwf Hinv)
    as (Hwf' & Hdet & Hi & Ha & Hl).
  split; [done|]. split; [done|].
  split; [intros o'; by apply is_deterministic_spec|].
  split; [done|]. split; [done|]. apply Hinv.
Qed.

(** X28.  On an automaton that satisfies the invariants of the data model,
    [minimize], when it returns, leaves an automaton that accepts the same
    strings and still satisfies the invariants. *)
Theorem minimize_language (o : IterOrder) (fuel : nat) (A A' : NFA) :
  well_formed A → minimize o fuel A = Returns A' →
  (∀ o1 o2 input, accept o1 A' input = accept o2 A input) ∧
  well_formed A'.
Proof.
  intros Hwf. unfold minimize.
  destruct (is_deterministic o A) eqn:Hdet; [|done]. simpl.
  destruct (remove_unreachable o fuel A) as [A1| |] eqn:H1; [|done..].
  simpl. destruct (remove_dead o fuel A1) as [A2| |] eqn:H2; [|done..].
  simpl. intros H3.
  destruct (remove_unreachable_well_formed o fuel A A1 Hwf H1)
    as [Hwf1 HL1].
  destruct (remove_dead_well_formed o fuel A1 A2 Hwf1 H2) as [Hwf2 HL2].
  pose proof (merge_equivalent_language o fuel A2 A' Hwf2 H3) as Hinv.
  destruct (merge_invariant_result A2 A' Hwf2 Hinv)
    as (Hwf' & _ & _ & _ & HL3).
  split; [|done]. intros o1 o2 input.
  by rewrite (HL3 o1 o), (HL2 o o), (HL1 o o2).
Qed.

Lemma twins_well_formed : well_formed twins.
Proof.
  split.
  - by vm_compute.
  - intros q [ ->%elem_of_singleton| ->%elem_of_singleton]%elem_of_union;
      by vm_compute.
  - by vm_compute.
  - intros q x T HT. apply elem_of_list_to_map_2 in HT.
    repeat (apply elem_of_cons in HT as [[= -> -> ->]|HT];
            [split; [by vm_compute|]; split; [by vm_compute|];
             split; [|by vm_compute];
             intros q ->%elem_of_singleton; by vm_compute|]).
    by apply elem_of_nil in HT.
Qed.

Lemma merge_equivalent_spec_witness :
  ∃ A', merge_equivalent canonical 5 twins = Returns A' ∧
        ∀ o1 o2 input, accept o1 A' input = accept o2 twins input.
Proof.
  destruct (merge_equivalent canonical 5 twins) as [A'| |] eqn:Hret.
  - exists A'. split; [reflexivity|].
    apply (merge_equivalent_spec canonical 5 twins A' twins_well_formed Hret).
  - exfalso. vm_compute in Hret. discriminate Hret.
  - exfalso. vm_compute in Hret. discriminate Hret.
Defined.

Lemma minimize_language_witness :
  ∃ A', minimize canonical 5 twins = Returns A' ∧
        ∀ o1 o2 input, accept o1 A' input = accept o2 twins input.
Proof.
  destruct (minimize canonical 5 twins) as [A'| |] eqn:Hret.
  - exists A'. split; [reflexivity|].
    apply (minimize_language canonical 5 twins A' twins_well_formed Hret).
  - exfalso. vm_compute in Hret. discriminate Hret.
  - exfalso. vm_compute in Hret. discriminate Hret.
Defined.
